(** * qwen-code-api: credential store, URL resolver and request forwarder

    A shallow embedding of [src/oauth.ts], [src/server.ts],
    [src/errors.ts], [src/config.ts] and the entry point, with the
    properties of the design document proved (or refuted) on it and
    further properties of the code.

    Conventions of the embedding.
    - A JavaScript string is a sequence of bytes, read as its UTF-8
      encoding: [string] at the interfaces, [list ascii] inside the URL
      code, where prefixes, suffixes and reversal are list operations.
    - A JavaScript number that the program uses as a count or a time stamp
      (status codes, epoch milliseconds, sizes) is an integer in [Z] or [N];
      fractions, NaN, infinite values and the loss of precision above 2^53
      are outside the model.
    - [undefined] is [None]; a thrown exception is the [inr] of a result.
    - The environment (disk, clock, network, random identifiers) is explicit
      state; every effect the code performs is appended to a trace. *)

From Stdlib Require Import List String Ascii ZArith NArith Lia Bool Arith.
From Stdlib Require Import DecimalString DecimalPos DecimalN DecimalZ.
Import ListNotations.

(* ================================================================== *)
(** * Strings as character lists *)
(* ================================================================== *)

Module Chars.

Definition chars := list ascii.

Definition of_string : string -> chars := list_ascii_of_string.
Definition to_string : chars -> string := string_of_list_ascii.

Definition code (c : ascii) : N := N_of_ascii c.

Fixpoint mem (c : ascii) (l : chars) : bool :=
  match l with
  | [] => false
  | a :: l' => Ascii.eqb a c || mem c l'
  end.

Fixpoint eqb (a b : chars) : bool :=
  match a, b with
  | [], [] => true
  | x :: a', y :: b' => Ascii.eqb x y && eqb a' b'
  | _, _ => false
  end.

Definition is_empty (s : chars) : bool :=
  match s with [] => true | _ => false end.

(** [s.startsWith(p)] *)
Fixpoint starts_with (p s : chars) : bool :=
  match p, s with
  | [], _ => true
  | a :: p', b :: s' => Ascii.eqb a b && starts_with p' s'
  | _ :: _, [] => false
  end.

(** [s.endsWith(p)] *)
Definition ends_with (p s : chars) : bool := starts_with (rev p) (rev s).

Fixpoint drop_while (f : ascii -> bool) (s : chars) : chars :=
  match s with
  | [] => []
  | c :: s' => if f c then drop_while f s' else s
  end.

(** [span f s]: the longest prefix whose characters satisfy [f], and the
    rest. *)
Fixpoint span (f : ascii -> bool) (s : chars) : chars * chars :=
  match s with
  | [] => ([], [])
  | c :: s' =>
      if f c then let (a, b) := span f s' in (c :: a, b) else ([], s)
  end.

(** [s.replace(/X+$/, '')] for a character class [X]. *)
Definition strip_trailing (f : ascii -> bool) (s : chars) : chars :=
  rev (drop_while f (rev s)).

(** [s.replace(/X$/, '')]: at most one trailing character removed. *)
Definition strip_one_trailing (f : ascii -> bool) (s : chars) : chars :=
  match rev s with
  | c :: r => if f c then rev r else s
  | [] => s
  end.

Definition is_upper (c : ascii) : bool :=
  (65 <=? code c)%N && (code c <=? 90)%N.

Definition lower (c : ascii) : ascii :=
  if is_upper c then ascii_of_N (code c + 32) else c.

Definition is_digit (c : ascii) : bool :=
  (48 <=? code c)%N && (code c <=? 57)%N.

Definition is_alpha (c : ascii) : bool :=
  let l := code (lower c) in (97 <=? l)%N && (l <=? 122)%N.

(** Case-insensitive prefix test, as a regular expression with the [i]
    flag performs it on an ASCII pattern (the pattern is lower case). *)
Fixpoint starts_with_ci (p s : chars) : bool :=
  match p, s with
  | [], _ => true
  | a :: p', b :: s' => Ascii.eqb a (lower b) && starts_with_ci p' s'
  | _ :: _, [] => false
  end.

(** ** [String.prototype.trim]

    The white space of ECMAScript ([WhiteSpace] and [LineTerminator]):
    TAB, LF, VT, FF, CR, SP and, in UTF-8, U+00A0, U+1680, U+2000..U+200A,
    U+2028, U+2029, U+202F, U+205F, U+3000 and U+FEFF. *)

Definition bytes (l : list N) : chars := map ascii_of_N l.

Definition white_space : list chars :=
  map bytes
      [[9]; [10]; [11]; [12]; [13]; [32]; [194; 160]; [225; 154; 128];
       [226; 128; 128]; [226; 128; 129]; [226; 128; 130]; [226; 128; 131];
       [226; 128; 132]; [226; 128; 133]; [226; 128; 134]; [226; 128; 135];
       [226; 128; 136]; [226; 128; 137]; [226; 128; 138]; [226; 128; 168];
       [226; 128; 169]; [226; 128; 175]; [226; 129; 159]; [227; 128; 128];
       [239; 187; 191]]%N.

(** The rest of [s] after the first of [seqs] that starts it. *)
Fixpoint strip_any (seqs : list chars) (s : chars) : option chars :=
  match seqs with
  | [] => None
  | p :: seqs' =>
      if starts_with p s then Some (skipn (List.length p) s)
      else strip_any seqs' s
  end.

(** The rest of [s] after one leading white-space code point, and the
    same on the reversed string, whose bytes come last byte first. *)
Definition ws_prefix (s : chars) : option chars :=
  strip_any white_space s.

Definition ws_suffix_rev (r : chars) : option chars :=
  strip_any (map (@rev ascii) white_space) r.

Fixpoint trim_aux (next : chars -> option chars) (fuel : nat) (s : chars)
  : chars :=
  match fuel with
  | O => s
  | S fuel' =>
      match next s with
      | Some r => trim_aux next fuel' r
      | None => s
      end
  end.

Definition trim_start (s : chars) : chars :=
  trim_aux ws_prefix (List.length s) s.

Definition trim_end (s : chars) : chars :=
  rev (trim_aux ws_suffix_rev (List.length s) (rev s)).

Definition trim (s : chars) : chars := trim_end (trim_start s).

(** [s.includes(p)] *)
Fixpoint includes (p s : chars) : bool :=
  starts_with p s ||
  match s with
  | [] => false
  | _ :: s' => includes p s'
  end.

(** Decimal digits of a natural number, as [String(n)] prints them. *)
Definition of_N (n : N) : chars :=
  of_string (NilEmpty.string_of_uint (N.to_uint n)).

(** A printable ASCII character other than the space. *)
Definition printable (c : ascii) : bool :=
  (32 <? code c)%N && (code c <? 127)%N.

(** Case analysis on the 256 characters. *)
Ltac each_char c := destruct c as [[] [] [] [] [] [] [] []].


End Chars.

Import Chars.


(* ================================================================== *)
(** * The URL class of the platform

    [new URL(s)], the [pathname], [search] and [hash] setters and
    [toString()] are the platform's, specified by the WHATWG URL Standard.
    The model follows the Standard's basic URL parser for the two schemes
    the program produces, [http] and [https]: for any other scheme [parse]
    yields [None], and nothing below is stated about such an input.

    Host parsing (IDNA, IPv4 and IPv6 literals) is a parameter: a
    [HostParser] gives the serialised host of a host string, or [None] where
    the Standard fails.  The two laws are what the development needs of it:
    a serialised host is a non-empty run of characters that are no
    forbidden host code points (or a bracketed IPv6 literal), and it parses
    to itself. *)
(* ================================================================== *)

Module Url.

Local Open Scope char_scope.

Inductive scheme := Http | Https.

Definition scheme_chars (s : scheme) : chars :=
  match s with
  | Http => of_string "http"%string
  | Https => of_string "https"%string
  end.

Definition default_port (s : scheme) : N :=
  match s with Http => 80 | Https => 443 end.

Record url := mkUrl {
  scheme_of : scheme;
  username : chars;
  password : chars;
  host : chars;
  port : option N;
  path : list chars;          (* the path segments *)
  query : option chars;
  fragment : option chars
}.

(** ** Percent-encode sets *)

Definition c0_control_set (c : ascii) : bool :=
  (code c <? 32)%N || (126 <? code c)%N.

Definition fragment_set (c : ascii) : bool :=
  c0_control_set c || mem c [" "; "034"; "<"; ">"; "`"].

Definition query_set (c : ascii) : bool :=
  c0_control_set c || mem c [" "; "034"; "#"; "<"; ">"].

Definition special_query_set (c : ascii) : bool :=
  query_set c || Ascii.eqb c "'".

Definition path_set (c : ascii) : bool :=
  query_set c || mem c ["?"; "^"; "`"; "{"; "}"].

Definition userinfo_set (c : ascii) : bool :=
  path_set c || mem c ["/"; ":"; ";"; "="; "@"; "["; "\"; "]"; "|"].

Definition hex_digit (n : N) : ascii :=
  nth (N.to_nat n) (of_string "0123456789ABCDEF"%string) "0".

Definition percent_encode_char (set : ascii -> bool) (c : ascii) : chars :=
  if set c
  then ["%"; hex_digit (code c / 16); hex_digit (code c mod 16)]
  else [c].

Definition percent_encode (set : ascii -> bool) (s : chars) : chars :=
  flat_map (percent_encode_char set) s.

(** ** Input clean-up *)

Definition is_c0_or_space (c : ascii) : bool := (code c <=? 32)%N.

Definition is_tab_or_newline (c : ascii) : bool :=
  (code c =? 9)%N || (code c =? 10)%N || (code c =? 13)%N.

Definition strip_c0 (s : chars) : chars :=
  strip_trailing is_c0_or_space (drop_while is_c0_or_space s).

Definition remove_tab_nl (s : chars) : chars :=
  filter (fun c => negb (is_tab_or_newline c)) s.

(** ** Scheme *)

Definition is_scheme_char (c : ascii) : bool :=
  is_alpha c || is_digit c || mem c ["+"; "-"; "."].

Definition parse_scheme (s : chars) : option (scheme * chars) :=
  match s with
  | c :: _ =>
      if is_alpha c then
        let (sch, rest) := span is_scheme_char s in
        match rest with
        | ":" :: rest' =>
            let l := map lower sch in
            if eqb l (scheme_chars Http) then Some (Http, rest')
            else if eqb l (scheme_chars Https) then Some (Https, rest')
            else None
        | _ => None
        end
      else None
  | [] => None
  end.

(** ** Authority *)

Definition is_slash (c : ascii) : bool :=
  Ascii.eqb c "/" || Ascii.eqb c "\".

Definition is_authority_end (c : ascii) : bool :=
  is_slash c || Ascii.eqb c "?" || Ascii.eqb c "#".

(** The credentials before the last [@], when there is one, and the
    host and port after it. *)
Definition split_userinfo (auth : chars) : option chars * chars :=
  let (h_r, rest_r) := span (fun c => negb (Ascii.eqb c "@")) (rev auth) in
  match rest_r with
  | [] => (None, auth)
  | _ :: cred_r => (Some (rev cred_r), rev h_r)
  end.

Definition parse_credentials (cred : chars) : chars * chars :=
  let (u, rest) := span (fun c => negb (Ascii.eqb c ":")) cred in
  (percent_encode userinfo_set u, percent_encode userinfo_set (tl rest)).

(** The host buffer runs to the first [:] outside square brackets. *)
Fixpoint split_host (inside : bool) (s : chars) : chars * option chars :=
  match s with
  | [] => ([], None)
  | c :: r =>
      if Ascii.eqb c ":" && negb inside then ([], Some r)
      else
        let inside' :=
          if Ascii.eqb c "[" then true
          else if Ascii.eqb c "]" then false
          else inside in
        let (h, p) := split_host inside' r in (c :: h, p)
  end.

Definition parse_port (sch : scheme) (p : chars) : option (option N) :=
  if is_empty p then Some None
  else
    match NilEmpty.uint_of_string (to_string p) with
    | Some d =>
        let n := N.of_uint d in
        if (n <=? 65535)%N
        then Some (if (n =? default_port sch)%N then None else Some n)
        else None
    | None => None
    end.

(** ** Path *)

Definition is_single_dot (buf : chars) : bool :=
  let l := map lower buf in
  eqb l ["."] || eqb l ["%"; "2"; "e"].

Definition is_double_dot (buf : chars) : bool :=
  let l := map lower buf in
  eqb l ["."; "."] || eqb l ["."; "%"; "2"; "e"] ||
  eqb l ["%"; "2"; "e"; "."] || eqb l ["%"; "2"; "e"; "%"; "2"; "e"].

(** The end of a path segment; [followed] tells whether a slash ended
    it (rather than the end of the path). *)
Definition end_segment (followed : bool) (buf : chars) (p : list chars)
  : list chars :=
  if is_double_dot buf then
    let p' := removelast p in
    if followed then p' else p' ++ [[]]
  else if is_single_dot buf then
    if followed then p else p ++ [[]]
  else p ++ [buf].

(** The path state of the parser, on a path that holds neither [?] nor
    [#] as delimiters. *)
Fixpoint path_state (input buf : chars) (p : list chars) : list chars :=
  match input with
  | [] => end_segment false buf p
  | c :: r =>
      if is_slash c then path_state r [] (end_segment true buf p)
      else path_state r (buf ++ percent_encode_char path_set c) p
  end.

(** The path start state: one leading slash is consumed. *)
Definition path_start (input : chars) : list chars :=
  match input with
  | c :: r => if is_slash c then path_state r [] [] else path_state input [] []
  | [] => path_state [] [] []
  end.

Definition parse_query_fragment (after : chars)
  : option chars * option chars :=
  match after with
  | "?" :: r =>
      let (qs, r') := span (fun c => negb (Ascii.eqb c "#")) r in
      (Some (percent_encode special_query_set qs),
       match r' with
       | _ :: fr => Some (percent_encode fragment_set fr)
       | [] => None
       end)
  | "#" :: fr => (None, Some (percent_encode fragment_set fr))
  | _ => (None, None)
  end.

(** ** The host parser of the platform *)

Definition is_hex_digit (c : ascii) : bool :=
  is_digit c || ((97 <=? code (lower c))%N && (code (lower c) <=? 102)%N).

(** Forbidden domain code points, and everything outside ASCII. *)
Definition forbidden_domain (c : ascii) : bool :=
  (code c <=? 32)%N || (126 <? code c)%N ||
  mem c ["#"; "/"; ":"; "<"; ">"; "?"; "@"; "["; "\"; "]"; "^"; "|"; "%"].

Fixpoint ipv6_body (s : chars) : bool :=
  match s with
  | [] => false
  | ["]"] => true
  | c :: r => (is_hex_digit c || Ascii.eqb c ":" || Ascii.eqb c ".")
              && ipv6_body r
  end.

(** The shape of a serialised host. *)
Definition host_wf (h : chars) : bool :=
  match h with
  | "[" :: r => ipv6_body r
  | _ => negb (is_empty h) && forallb (fun c => negb (forbidden_domain c)) h
  end.

Class HostParser := {
  parseHost : chars -> option chars;
  parseHost_wf : forall s h, parseHost s = Some h -> host_wf h = true;
  parseHost_stable : forall s h, parseHost s = Some h -> parseHost h = Some h
}.

(** ** Shapes of parsed components *)

(** No character of [s] is in the set. *)
Definition clean (set : ascii -> bool) (s : chars) : bool :=
  forallb (fun c => negb (set c)) s.

Definition seg_char (c : ascii) : bool :=
  negb (path_set c) && negb (Url.is_slash c).

(** A segment as the parser leaves it: encoded, and no dot segment. *)
Definition seg_ok (seg : chars) : bool :=
  forallb seg_char seg && negb (is_single_dot seg) &&
  negb (is_double_dot seg).

Definition segment_v1 : chars := ["v"; "1"].

(** Characters that end neither the authority nor the host, that are
    not removed by the clean-up of the input, and that are not [@]. *)
Definition host_char (c : ascii) : bool :=
  negb (is_c0_or_space c) && negb (is_authority_end c) &&
  negb (Ascii.eqb c "@").

Definition port_of (t : chars) : option chars :=
  match t with
  | [] => None
  | _ :: p => Some p
  end.

(** [t] is what follows the host in an authority: nothing, or a colon
    and a port. *)
Definition after_host (t : chars) : Prop :=
  t = [] \/ exists p, t = ":" :: p.

Definition port_ok (sch : scheme) (p : option N) : Prop :=
  match p with
  | Some n => (n <= 65535)%N /\ n <> default_port sch
  | None => True
  end.

Section Parser.

Context {HP : HostParser}.

(** [new URL(input)]: [None] when the constructor throws. *)
Definition parse (input : chars) : option url :=
  let s := remove_tab_nl (strip_c0 input) in
  match parse_scheme s with
  | None => None
  | Some (sch, rest) =>
      let rest := drop_while is_slash rest in
      let (auth, tail) := span (fun c => negb (is_authority_end c)) rest in
      let (cred, hostport) := split_userinfo auth in
      let (user, pass) :=
        match cred with
        | Some c => parse_credentials c
        | None => ([], [])
        end in
      let (hostbuf, portbuf) := split_host false hostport in
      if is_empty hostbuf then None
      else
        match parseHost hostbuf with
        | None => None
        | Some h =>
            match
              match portbuf with
              | None => Some None
              | Some p => parse_port sch p
              end
            with
            | None => None
            | Some prt =>
                let (p, after) :=
                  span (fun c => negb (Ascii.eqb c "?" || Ascii.eqb c "#"))
                       tail in
                let (q, f) := parse_query_fragment after in
                Some (mkUrl sch user pass h prt (path_start p) q f)
            end
        end
  end.

End Parser.

(** ** Serialiser and accessors *)

Definition serialize_path (p : list chars) : chars :=
  flat_map (fun seg => "/" :: seg) p.

Definition serialize_userinfo (u : url) : chars :=
  if is_empty (username u) && is_empty (password u) then []
  else
    username u ++
    (if is_empty (password u) then [] else ":" :: password u) ++ ["@"].

Definition serialize_port (u : url) : chars :=
  match port u with
  | Some n => ":" :: of_N n
  | None => []
  end.

(** [u.toString()], [u.href] *)
Definition href (u : url) : chars :=
  scheme_chars (scheme_of u) ++ [":"; "/"; "/"] ++
  serialize_userinfo u ++ host u ++ serialize_port u ++
  serialize_path (path u) ++
  (match query u with Some q => "?" :: q | None => [] end) ++
  (match fragment u with Some f => "#" :: f | None => [] end).

(** [u.pathname] *)
Definition pathname (u : url) : chars := serialize_path (path u).

(** [u.pathname = v] *)
Definition set_pathname (u : url) (v : chars) : url :=
  mkUrl (scheme_of u) (username u) (password u) (host u) (port u)
        (path_start (remove_tab_nl v)) (query u) (fragment u).

(** [u.search = v] *)
Definition set_search (u : url) (v : chars) : url :=
  let q :=
    match v with
    | [] => None
    | c :: r =>
        let input := if Ascii.eqb c "?" then r else v in
        Some (percent_encode special_query_set (remove_tab_nl input))
    end in
  mkUrl (scheme_of u) (username u) (password u) (host u) (port u)
        (path u) q (fragment u).

(** [u.hash = v] *)
Definition set_hash (u : url) (v : chars) : url :=
  let f :=
    match v with
    | [] => None
    | c :: r =>
        let input := if Ascii.eqb c "#" then r else v in
        Some (percent_encode fragment_set (remove_tab_nl input))
    end in
  mkUrl (scheme_of u) (username u) (password u) (host u) (port u)
        (path u) (query u) f.

Section Canonical.

Context {HP : HostParser}.

(** The authority of a parsed URL. *)
Definition authority_ok (u : url) : Prop :=
  clean userinfo_set (username u) = true /\
  clean userinfo_set (password u) = true /\
  host_wf (host u) = true /\
  parseHost (host u) = Some (host u) /\
  port_ok (scheme_of u) (port u).

(** The characters of the authority of a canonical URL. *)
Definition authority (u : url) : chars :=
  serialize_userinfo u ++ host u ++ serialize_port u.

(** A URL as [normalizeResourceUrl] leaves it: a parsed authority, a
    parsed path, no query and no fragment. *)
Definition canonical (u : url) : Prop :=
  authority_ok u /\ path u <> [] /\ forallb seg_ok (path u) = true /\
  query u = None /\ fragment u = None.

End Canonical.

(** ** A host parser for plain DNS names

    Letters, hyphens and dots, lower-cased; names with an [xn--] label
    (which IDNA decodes) are left out, and so are digits (a host ending
    in a number is an IPv4 address, which the Standard rewrites). *)

Definition is_name_char (c : ascii) : bool :=
  is_alpha c || Ascii.eqb c "-" || Ascii.eqb c ".".

Definition dns_name (s : chars) : option chars :=
  let l := map lower s in
  if negb (is_empty l) && forallb is_name_char l &&
     negb (includes ["x"; "n"; "-"; "-"] l)
  then Some l else None.

End Url.

(* ================================================================== *)
(** * JSON values and [JSON.stringify] *)
(* ================================================================== *)

Module Json.

Local Open Scope string_scope.

#[warnings="-register-all"]
Inductive json :=
| JNull
| JBool (b : bool)
| JNum (n : Z)
| JStr (s : string)
| JArr (items : list json)
| JObj (fields : list (string * json)).

(** A text together with what [JSON.parse] makes of it. *)
Inductive parse_result :=
| Parsed (j : json)
| SyntaxError (message : string).

Record document := mkDocument {
  text : string;
  json_of : parse_result
}.

Fixpoint assoc (k : string) (fs : list (string * json)) : option json :=
  match fs with
  | [] => None
  | (k', v) :: fs' => if String.eqb k k' then Some v else assoc k fs'
  end.

(** [j.k]: [None] for [undefined]. *)
Definition get (k : string) (j : json) : option json :=
  match j with
  | JObj fs => assoc k fs
  | _ => None
  end.

(** [typeof v === 'string'] and [typeof v === 'number'] *)
Definition as_string (v : option json) : option string :=
  match v with Some (JStr s) => Some s | _ => None end.

Definition as_number (v : option json) : option Z :=
  match v with Some (JNum n) => Some n | _ => None end.

Definition truthy (v : option json) : bool :=
  match v with
  | None | Some JNull => false
  | Some (JBool b) => b
  | Some (JNum n) => negb (n =? 0)%Z
  | Some (JStr s) => negb (String.eqb s "")
  | Some (JArr _) | Some (JObj _) => true
  end.

Definition of_Z (n : Z) : string := NilZero.string_of_int (Z.to_int n).

Definition join (sep : string) (l : list string) : string :=
  match l with
  | [] => ""
  | x :: l' => fold_left (fun acc y => acc ++ sep ++ y) l' x
  end.

(** [String(v)], as a template literal applies it. *)
Fixpoint display (j : json) : string :=
  match j with
  | JNull => "null"
  | JBool true => "true"
  | JBool false => "false"
  | JNum n => of_Z n
  | JStr s => s
  | JArr items =>
      join "," (map (fun x => match x with JNull => "" | _ => display x end)
                    items)
  | JObj _ => "[object Object]"
  end.

(** ** [JSON.stringify(value, null, 2)] *)

Definition dq : string := String "034" "".

Definition hex4 (c : ascii) : string :=
  let n := N_of_ascii c in
  let h (k : N) :=
    nth (N.to_nat k) (list_ascii_of_string "0123456789abcdef") "0"%char in
  String "0" (String "0" (String (h (n / 16)%N) (String (h (n mod 16)%N) ""))).

Definition escape_char (c : ascii) : string :=
  let n := N_of_ascii c in
  if (n =? 34)%N then String "\" dq
  else if (n =? 92)%N then "\\"
  else if (n =? 8)%N then "\b"
  else if (n =? 12)%N then "\f"
  else if (n =? 10)%N then "\n"
  else if (n =? 13)%N then "\r"
  else if (n =? 9)%N then "\t"
  else if (n <? 32)%N then "\u" ++ hex4 c
  else String c "".

Fixpoint escape (s : string) : string :=
  match s with
  | EmptyString => ""
  | String c s' => escape_char c ++ escape s'
  end.

Definition quote (s : string) : string := dq ++ escape s ++ dq.

Definition nl : string := String "010" "".

Fixpoint stringify (indent : string) (j : json) : string :=
  let inner := indent ++ "  " in
  match j with
  | JNull => "null"
  | JBool true => "true"
  | JBool false => "false"
  | JNum n => of_Z n
  | JStr s => quote s
  | JArr [] => "[]"
  | JArr items =>
      "[" ++ nl ++ inner ++
      join ("," ++ nl ++ inner) (map (stringify inner) items) ++
      nl ++ indent ++ "]"
  | JObj [] => "{}"
  | JObj fields =>
      "{" ++ nl ++ inner ++
      join ("," ++ nl ++ inner)
           (map (fun kv => quote (fst kv) ++ ": " ++ stringify inner (snd kv))
                fields) ++
      nl ++ indent ++ "}"
  end.

(** The keys of an object, in order. *)
Definition keys (j : json) : list string :=
  match j with
  | JObj fs => map fst fs
  | _ => []
  end.

End Json.

Import Json.

(* ================================================================== *)
(** * Errors *)
(* ================================================================== *)

(** The two error classes of the program, and any other thrown value
    (a [TypeError] of the platform, a file-system error, ...). *)
Inductive error :=
| OAuthCredentialsError (message code : string) (statusCode : option Z)
| HttpRequestError (message : string) (statusCode : Z) (code : string)
| OtherError (message : string).

Definition result (A : Type) : Type := (A + error)%type.

Definition error_code (e : error) : string :=
  match e with
  | OAuthCredentialsError _ c _ => c
  | HttpRequestError _ _ c => c
  | OtherError _ => ""
  end.

(* ================================================================== *)
(** * [src/oauth.ts]: the pure part *)
(* ================================================================== *)

Module OAuth.

Local Open Scope string_scope.

Definition DEFAULT_DASHSCOPE_BASE_URL : string :=
  "https://dashscope.aliyuncs.com/compatible-mode/v1".
Definition QWEN_OAUTH_TOKEN_ENDPOINT : string :=
  "https://chat.qwen.ai/api/v1/oauth2/token".
Definition QWEN_OAUTH_CLIENT_ID : string :=
  "f0304373b74a44d2b584a3fb70ca9e56".

Record QwenCredentials := mkCredentials {
  access_token : option string;
  refresh_token : option string;
  token_type : option string;
  expiry_date : option Z;
  resource_url : option string
}.

Record OAuthCredentialStoreOptions := mkOptions {
  credentialsFile : string;
  tokenRefreshBufferMs : Z
}.

(** [!s] is false: the string is there and not empty. *)
Definition present (s : option string) : bool :=
  match s with
  | Some v => negb (String.eqb v "")
  | None => false
  end.

Definition parseCredentials (raw : json) : result QwenCredentials :=
  match raw with
  | JObj _ | JArr _ =>
      let credentials :=
        mkCredentials (as_string (get "access_token" raw))
                      (as_string (get "refresh_token" raw))
                      (as_string (get "token_type" raw))
                      (as_number (get "expiry_date" raw))
                      (as_string (get "resource_url" raw)) in
      if negb (present (access_token credentials)) &&
         negb (present (refresh_token credentials))
      then inr (OAuthCredentialsError
                  "OAuth credentials are missing both access_token and refresh_token."
                  "missing_credentials" None)
      else inl credentials
  | _ =>
      inr (OAuthCredentialsError "Invalid OAuth credentials JSON format."
                                 "invalid_credentials_format" None)
  end.

Definition extractUpstreamErrorMessage (payload : document)
           (fallback : string) : string :=
  let structured :=
    match json_of payload with
    | Parsed JNull | SyntaxError _ => None
    | Parsed parsed =>
        if truthy (get "error_description" parsed)
        then option_map display (get "error_description" parsed)
        else if truthy (get "error" parsed)
        then option_map display (get "error" parsed)
        else None
    end in
  match structured with
  | Some m => m
  | None =>
      if is_empty (trim (of_string (text payload))) then fallback
      else text payload
  end.

(** ** URL resolver *)

Section Resolver.

Context {HP : Url.HostParser}.

(** [/^https?:\/\//i.test(input)] *)
Definition has_http_scheme (input : chars) : bool :=
  starts_with_ci (of_string "http://") input ||
  starts_with_ci (of_string "https://") input.

Definition is_slash (c : ascii) : bool := Ascii.eqb c "/".

Definition v1 : chars := of_string "/v1".

Definition normalize (resourceUrl : option chars) : option chars :=
  let trimmed :=
    match resourceUrl with
    | Some s => trim s
    | None => []
    end in
  let input :=
    if is_empty trimmed then of_string DEFAULT_DASHSCOPE_BASE_URL
    else trimmed in
  let withProtocol :=
    if has_http_scheme input then input
    else (of_string "https://" ++ input)%list in
  match Url.parse withProtocol with
  | None => None
  | Some normalized =>
      let normalized := Url.set_search normalized [] in
      let normalized := Url.set_hash normalized [] in
      let cleanPath := strip_trailing is_slash (Url.pathname normalized) in
      let normalized :=
        if is_empty cleanPath || Chars.eqb cleanPath (of_string "/")
        then Url.set_pathname normalized v1
        else if ends_with v1 cleanPath
        then Url.set_pathname normalized cleanPath
        else Url.set_pathname normalized (cleanPath ++ v1)%list in
      Some (strip_one_trailing is_slash (Url.href normalized))
  end.

(** [None]: the URL constructor throws. *)
Definition normalizeResourceUrl (resourceUrl : option string)
  : option string :=
  option_map to_string (normalize (option_map of_string resourceUrl)).

Definition invalid_proxy_path (requestPath : string) : error :=
  OAuthCredentialsError
    ("Invalid request path for proxy: " ++ requestPath)
    "invalid_proxy_path" None.

Definition buildUpstreamUrl (upstreamBaseUrl requestPath
                             requestSearch : string) : result string :=
  let rp := of_string requestPath in
  if negb (starts_with v1 rp) then inr (invalid_proxy_path requestPath)
  else
    match Url.parse (of_string upstreamBaseUrl) with
    | None => inr (OtherError "Invalid URL")
    | Some upstream =>
        let basePath :=
          strip_trailing is_slash (Url.pathname upstream) in
        let suffix :=
          if Chars.eqb rp v1 then [] else skipn (List.length v1) rp in
        let upstream := Url.set_pathname upstream (basePath ++ suffix)%list in
        let upstream := Url.set_search upstream (of_string requestSearch) in
        let upstream := Url.set_hash upstream [] in
        inl (to_string (Url.href upstream))
    end.

(** The URL that [buildUpstreamUrl] serialises. *)
Definition upstream_url (u : Url.url)
           (requestPath requestSearch : string) : Url.url :=
  Url.set_hash
    (Url.set_search
       (Url.set_pathname u
          (strip_trailing is_slash (Url.pathname u) ++
           skipn 3 (of_string requestPath))%list)
       (of_string requestSearch)) [].

(** The host of the examples. *)
Definition x_com : chars := of_string "x.com".

(** [overrideBaseUrl ?? credentials.resource_url] *)
Definition getUpstreamBaseUrl (credentials : QwenCredentials)
           (overrideBaseUrl : option string) : option string :=
  normalizeResourceUrl
    (match overrideBaseUrl with
     | Some o => Some o
     | None => resource_url credentials
     end).

End Resolver.

(** ** Token validity *)

Definition isTokenValid (options : OAuthCredentialStoreOptions) (now : Z)
           (credentials : QwenCredentials) : bool :=
  if negb (present (access_token credentials)) then false
  else
    match expiry_date credentials with
    | None => false
    | Some e =>
        if (e =? 0)%Z then false
        else (now <? e - tokenRefreshBufferMs options)%Z
    end.

Definition missing_refresh_token : error :=
  OAuthCredentialsError
    "OAuth refresh_token is missing. Run `qwen` and execute `/auth` again."
    "missing_refresh_token" None.

(** ** The refresh exchange *)

Record http_response := mkResponse {
  status : Z;
  statusText : string;
  payload : option document     (* [None]: reading the body fails *)
}.

Inductive fetch_result :=
| FetchRejected (message : string)
| FetchResponded (r : http_response).

(** [response.ok] *)
Definition ok (r : http_response) : bool :=
  (200 <=? status r)%Z && (status r <=? 299)%Z.

Definition form_safe (c : ascii) : bool :=
  is_alpha c || is_digit c ||
  mem c ["*"%char; "-"%char; "."%char; "_"%char].

Definition form_encode (s : string) : string :=
  to_string
    (flat_map (fun c => if Ascii.eqb c " " then ["+"%char]
                        else Url.percent_encode_char
                               (fun c => negb (form_safe c)) c)
              (of_string s)).

(** [new URLSearchParams({...}).toString()] *)
Definition refresh_body (rt : string) : string :=
  "grant_type=refresh_token&refresh_token=" ++ form_encode rt ++
  "&client_id=" ++ QWEN_OAUTH_CLIENT_ID.

Definition refresh_headers (request_id : string) : list (string * string) :=
  [("Content-Type", "application/x-www-form-urlencoded");
   ("Accept", "application/json");
   ("x-request-id", request_id)].

Definition refresh_failed (r : http_response) (body : document) : error :=
  let upstreamMessage := extractUpstreamErrorMessage body (statusText r) in
  let guidance :=
    if (status r =? 400)%Z
    then " Qwen OAuth credentials may be expired. Run `qwen` and execute `/auth` again."
    else "" in
  OAuthCredentialsError
    ("OAuth refresh failed (" ++ of_Z (status r) ++ "): " ++
     upstreamMessage ++ "." ++ guidance)
    "refresh_failed" (Some (status r)).

Definition or_else {A} (a b : option A) : option A :=
  match a with Some _ => a | None => b end.

Definition nextCredentials (current : QwenCredentials) (tokenData : json)
           (accessToken : string) (now : Z) : QwenCredentials :=
  let expiresInSeconds :=
    match as_number (get "expires_in" tokenData) with
    | Some n => if (0 <? n)%Z then n else 3600%Z
    | None => 3600%Z
    end in
  mkCredentials
    (Some accessToken)
    (or_else (as_string (get "refresh_token" tokenData))
             (refresh_token current))
    (or_else (as_string (get "token_type" tokenData)) (token_type current))
    (Some (now + expiresInSeconds * 1000)%Z)
    (or_else (as_string (get "resource_url" tokenData))
             (resource_url current)).

(** What [refreshCredentials] makes of the answer of the token endpoint,
    up to the call of [saveCredentials]; [now] is [Date.now()] read when
    the new credential is built. *)
Definition refresh_outcome (current : QwenCredentials)
           (answer : fetch_result) (now : Z) : result QwenCredentials :=
  match answer with
  | FetchRejected m =>
      inr (OAuthCredentialsError ("Failed to refresh OAuth token: " ++ m)
                                 "refresh_network_error" None)
  | FetchResponded r =>
      match payload r with
      | None => inr (OtherError "failed to read the response body")
      | Some body =>
          if negb (ok r) then inr (refresh_failed r body)
          else
            match json_of body with
            | SyntaxError m =>
                inr (OAuthCredentialsError
                       ("OAuth refresh returned invalid JSON: " ++ m)
                       "refresh_parse_failed" None)
            | Parsed JNull =>
                inr (OtherError
                       "Cannot read properties of null (reading 'access_token')")
            | Parsed tokenData =>
                match as_string (get "access_token" tokenData) with
                | Some t =>
                    if String.eqb t "" then
                      inr (OAuthCredentialsError
                             "OAuth refresh response is missing access_token."
                             "refresh_missing_access_token" None)
                    else inl (nextCredentials current tokenData t now)
                | None =>
                    inr (OAuthCredentialsError
                           "OAuth refresh response is missing access_token."
                           "refresh_missing_access_token" None)
                end
            end
      end
  end.

(** ** Persistence *)

(** The object [JSON.stringify] prints for a credential: the properties
    in the order [refreshCredentials] creates them, those whose value is
    [undefined] left out, as [JSON.stringify] does. *)
Definition credentials_json (c : QwenCredentials) : json :=
  let str (k : string) (v : option string) :=
    match v with Some s => [(k, JStr s)] | None => [] end in
  JObj (str "access_token" (access_token c) ++
        str "refresh_token" (refresh_token c) ++
        str "token_type" (token_type c) ++
        str "resource_url" (resource_url c) ++
        match expiry_date c with
        | Some e => [("expiry_date", JNum e)]
        | None => []
        end)%list.

Definition serialized (c : QwenCredentials) : string :=
  stringify "" (credentials_json c) ++ nl.

(** [path.dirname] (POSIX). *)
Definition dirname (p : string) : string :=
  match of_string p with
  | [] => "."
  | c0 :: rest =>
      let hasRoot := Ascii.eqb c0 "/" in
      let r1 := drop_while is_slash (rev rest) in
      let r2 := drop_while (fun c => negb (is_slash c)) r1 in
      match r2 with
      | [] => if hasRoot then "/" else "."
      | _ :: r3 =>
          if hasRoot && is_empty r3 then "//"
          else to_string (c0 :: rev r3)
      end
  end.

End OAuth.

(* ================================================================== *)
(** * The environment and the monad of effects

    One run of the program against an explicit environment: the
    credential file, the clock, the random identifiers, and the answers of
    the token endpoint and of the upstream API.  The [n]-th request to a
    server is answered by the [n]-th value of its answer function; every
    effect is appended to the trace, oldest first. *)
(* ================================================================== *)

Module Env.

Import OAuth.

Inductive file_state :=
| FileMissing                          (* [ENOENT] *)
| FileUnreadable (message : string)    (* any other read error *)
| FileContent (d : document).

Record upstream_response := mkUpstream {
  up_status : Z;
  up_headers : list (string * string);
  up_body : option string              (* [None]: no body stream *)
}.

Inductive upstream_result :=
| UpstreamRejected (name message : string)
| UpstreamResponded (r : upstream_response).

Inductive client_response :=
| JsonResponse (statusCode : Z) (payload : json)
| Relayed (statusCode : Z) (headers : list (string * string))
          (body : string).

Inductive event :=
| EvReadFile (path : string)
| EvTokenRequest (url : string) (headers : list (string * string))
                 (body : string)
| EvMkdir (dir : string) (mode : N)
| EvWriteFile (path data : string) (mode : N)
| EvRename (src dst : string)
| EvReadChunk (size : N)
| EvUpstreamRequest (url : string) (method : option string)
                    (headers : list (string * string))
                    (body : option string)
| EvCancelBody
| EvRespond (r : client_response).

Record world := mkWorld {
  disk : file_state;
  clock : nat -> Z;
  uuids : nat -> string;
  drawn : nat;
  token_endpoint : nat -> fetch_result;
  upstream : nat -> upstream_result;
  ended : bool;                        (* [res.writableEnded] *)
  trace : list event
}.

Definition is_token_request (e : event) : bool :=
  match e with EvTokenRequest _ _ _ => true | _ => false end.

Definition is_upstream_request (e : event) : bool :=
  match e with EvUpstreamRequest _ _ _ _ => true | _ => false end.

Definition is_file_write (e : event) : bool :=
  match e with
  | EvMkdir _ _ | EvWriteFile _ _ _ | EvRename _ _ => true
  | _ => false
  end.

Definition count (f : event -> bool) (t : list event) : nat :=
  List.length (filter f t).

Definition token_requests (w : world) : nat :=
  count is_token_request (trace w).

Definition upstream_requests (w : world) : nat :=
  count is_upstream_request (trace w).

Definition M (A : Type) : Type := world -> result A * world.

Definition ret {A} (a : A) : M A := fun w => (inl a, w).

Definition throw {A} (e : error) : M A := fun w => (inr e, w).

Definition bind {A B} (m : M A) (f : A -> M B) : M B :=
  fun w =>
    match m w with
    | (inl a, w') => f a w'
    | (inr e, w') => (inr e, w')
    end.

Definition try_catch {A} (m : M A) (h : error -> M A) : M A :=
  fun w =>
    match m w with
    | (inl a, w') => (inl a, w')
    | (inr e, w') => h e w'
    end.

Definition lift {A} (r : result A) : M A := fun w => (r, w).

(** The four ways a run changes the world. *)
Definition log (e : event) (w : world) : world :=
  mkWorld (disk w) (clock w) (uuids w) (drawn w) (token_endpoint w)
          (upstream w) (ended w) (trace w ++ [e]).

Definition with_disk (f : file_state) (w : world) : world :=
  mkWorld f (clock w) (uuids w) (drawn w) (token_endpoint w)
          (upstream w) (ended w) (trace w).

Definition with_ended (w : world) : world :=
  mkWorld (disk w) (clock w) (uuids w) (drawn w) (token_endpoint w)
          (upstream w) true (trace w).

Definition draw (w : world) : world :=
  mkWorld (disk w) (clock w) (uuids w) (S (drawn w)) (token_endpoint w)
          (upstream w) (ended w) (trace w).

Definition log_all (es : list event) (w : world) : world :=
  fold_left (fun w e => log e w) es w.

Definition emit (e : event) : M unit := fun w => (inl tt, log e w).

Definition write_disk (f : file_state) : M unit :=
  fun w => (inl tt, with_disk f w).

Definition end_response : M unit := fun w => (inl tt, with_ended w).

(** [Date.now()] *)
Definition now (w : world) : Z := clock w (List.length (trace w)).

Definition Date_now : M Z := fun w => (inl (now w), w).

Definition randomUUID : M string :=
  fun w => (inl (uuids w (drawn w)), draw w).

Definition get_world : M world := fun w => (inl w, w).

End Env.

Import Env.

Declare Scope monad_scope.
Delimit Scope monad_scope with monad.
Notation "x <- c ;; k" := (bind c (fun x => k))
  (at level 61, c at next level, right associativity) : monad_scope.
Notation "c ;; k" := (bind c (fun _ => k))
  (at level 61, right associativity) : monad_scope.

(* ================================================================== *)
(** * [src/oauth.ts]: the credential store *)
(* ================================================================== *)

Module Store.

Import OAuth.
Local Open Scope string_scope.
Local Open Scope monad_scope.

(** What [readCredentials] makes of the state of the file. *)
Definition read_file (options : OAuthCredentialStoreOptions)
           (f : file_state) : result QwenCredentials :=
  match f with
  | FileMissing =>
      inr (OAuthCredentialsError
             ("OAuth credentials not found: " ++ credentialsFile options ++
              ". Run `qwen` and execute `/auth` first.")
             "credentials_not_found" None)
  | FileUnreadable m =>
      inr (OAuthCredentialsError
             ("Failed to read OAuth credentials: " ++ m)
             "credentials_read_failed" None)
  | FileContent d =>
      match json_of d with
      | Parsed parsed => parseCredentials parsed
      | SyntaxError m =>
          inr (OAuthCredentialsError
                 ("Invalid OAuth credentials JSON: " ++ m)
                 "credentials_parse_failed" None)
      end
  end.

(** The file as [saveCredentials] leaves it: the text written, and the
    object that [JSON.stringify] printed, which is what [JSON.parse]
    makes of that text. *)
Definition saved_file (c : QwenCredentials) : file_state :=
  FileContent (mkDocument (serialized c) (Parsed (credentials_json c))).

Section Sequential.

Variable options : OAuthCredentialStoreOptions.

Definition readCredentials : M QwenCredentials :=
  emit (EvReadFile (credentialsFile options)) ;;
  w <- get_world ;;
  lift (read_file options (disk w)).

Definition saveCredentials (credentials : QwenCredentials) : M unit :=
  let credentialsDir := dirname (credentialsFile options) in
  id <- randomUUID ;;
  let tempFilePath := credentialsFile options ++ ".tmp." ++ id in
  emit (EvMkdir credentialsDir 448) ;;                      (* 0o700 *)
  emit (EvWriteFile tempFilePath (serialized credentials) 384) ;;
                                                            (* 0o600 *)
  emit (EvRename tempFilePath (credentialsFile options)) ;;
  write_disk (saved_file credentials).

(** [fetch(QWEN_OAUTH_TOKEN_ENDPOINT, ...)] *)
Definition post_token (headers : list (string * string)) (body : string)
  : M fetch_result :=
  w <- get_world ;;
  emit (EvTokenRequest QWEN_OAUTH_TOKEN_ENDPOINT headers body) ;;
  ret (token_endpoint w (token_requests w)).

Definition refreshCredentials (current : QwenCredentials)
  : M QwenCredentials :=
  match refresh_token current with
  | Some rt =>
      if String.eqb rt "" then throw missing_refresh_token
      else
        id <- randomUUID ;;
        answer <- post_token (refresh_headers id) (refresh_body rt) ;;
        t <- Date_now ;;
        match refresh_outcome current answer t with
        | inr e => throw e
        | inl next => saveCredentials next ;; ret next
        end
  | None => throw missing_refresh_token
  end.

(** The world after the read of the file, after the token request of
    a refresh, and after [saveCredentials]. *)
Definition was_read (w : world) : world :=
  log (EvReadFile (credentialsFile options)) w.

Definition requested (rt : string) (w : world) : world :=
  log (EvTokenRequest QWEN_OAUTH_TOKEN_ENDPOINT
                      (refresh_headers (uuids w (drawn w)))
                      (refresh_body rt))
      (draw w).

Definition saved (c : QwenCredentials) (w : world) : world :=
  let tmp := credentialsFile options ++ ".tmp." ++ uuids w (drawn w) in
  with_disk (saved_file c)
    (log (EvRename tmp (credentialsFile options))
       (log (EvWriteFile tmp (serialized c) 384)
          (log (EvMkdir (dirname (credentialsFile options)) 448)
             (draw w)))).

(** One call of [getValidCredentials] running alone: the slot
    [refreshPromise] is empty when it is tested, the call starts the
    operation, awaits it and clears the slot.  The interleaving of
    several calls is the subject of [SingleFlight] below. *)
Definition getValidCredentials (forceRefresh : bool)
  : M QwenCredentials :=
  current <- readCredentials ;;
  t <- Date_now ;;
  if negb forceRefresh && isTokenValid options t current
  then ret current
  else if negb (present (refresh_token current))
  then throw missing_refresh_token
  else refreshCredentials current.

End Sequential.

End Store.

(* ================================================================== *)
(** * Concurrent calls of [getValidCredentials]

    The program runs on one thread: a call runs without interruption from
    one [await] to the next, and calls interleave at the [await]s only.
    The machine below has one transition for each completion that the
    event loop can deliver:
    - [Invoke]: a new call is made; it issues the read of the file;
    - [ReadDone]: the read of a call completes, with the content the file
      has at that moment;
    - [Resume]: the call continues after [await this.readCredentials()]:
      the validity check, the test of [refresh_token], the test of the
      slot and, when the slot is empty, the start of [refreshCredentials]
      up to its [await fetch(...)], which sends the token request;
    - [Answer]: the token endpoint answers an operation, which runs up to
      [await this.saveCredentials(...)] or fails;
    - [Saved]: the rename of an operation completes.
    When an operation settles, the calls that await its promise resume one
    after the other in the same drain of the microtask queue, before any
    other completion is delivered: each takes the result and runs its
    [finally], which empties the slot.  The transition that settles an
    operation therefore resumes all of them. *)
(* ================================================================== *)

Module SingleFlight.

Import OAuth Store.

Inductive call_state :=
| Reading (forceRefresh : bool)
| Read (forceRefresh : bool) (r : result QwenCredentials)
| Awaiting (op : nat)
| Returned (r : result QwenCredentials).

Inductive op_state :=
| Fetching (current : QwenCredentials)
| Saving (next : QwenCredentials)
| Settled (r : result QwenCredentials).

Record state := mkState {
  file : file_state;
  refreshPromise : option nat;     (* the operation in the slot *)
  ops : list op_state;
  calls : list call_state;
  token_posts : nat                (* requests sent to the token endpoint *)
}.

Definition init (f : file_state) : state := mkState f None [] [] 0.

Inductive label :=
| Invoke (forceRefresh : bool)
| ReadDone (call : nat)
| Resume (call : nat) (now : Z)
| Answer (op : nat) (a : fetch_result) (now : Z)
| Saved (op : nat).

Fixpoint update {A} (i : nat) (x : A) (l : list A) : list A :=
  match l, i with
  | [], _ => []
  | _ :: l', O => x :: l'
  | y :: l', S i' => y :: update i' x l'
  end.

Definition awaits (k : nat) (c : call_state) : bool :=
  match c with
  | Awaiting k' => Nat.eqb k' k
  | _ => false
  end.

(** The operation [k] settles with [r]: every call that awaits it takes
    [r] and empties the slot. *)
Definition settle (k : nat) (r : result QwenCredentials) (s : state)
  : state :=
  mkState (file s)
          (if existsb (awaits k) (calls s) then None else refreshPromise s)
          (update k (Settled r) (ops s))
          (map (fun c => if awaits k c then Returned r else c) (calls s))
          (token_posts s).

Section Machine.

Variable options : OAuthCredentialStoreOptions.

(** A call after its read, from the validity check to the [await] of
    the operation. *)
Definition resume (i : nat) (forceRefresh : bool)
           (r : result QwenCredentials) (now : Z) (s : state) : state :=
  let finish (c : call_state) :=
    mkState (file s) (refreshPromise s) (ops s) (update i c (calls s))
            (token_posts s) in
  match r with
  | inr e => finish (Returned (inr e))
  | inl current =>
      if negb forceRefresh && isTokenValid options now current
      then finish (Returned (inl current))
      else if negb (present (refresh_token current))
      then finish (Returned (inr missing_refresh_token))
      else
        match refreshPromise s with
        | Some k => finish (Awaiting k)
        | None =>
            let k := List.length (ops s) in
            mkState (file s) (Some k) (ops s ++ [Fetching current])
                    (update i (Awaiting k) (calls s))
                    (S (token_posts s))
        end
  end.

(** One transition; [None] when the completion cannot occur in [s]. *)
Definition step (l : label) (s : state) : option state :=
  match l with
  | Invoke f =>
      Some (mkState (file s) (refreshPromise s) (ops s)
                    (calls s ++ [Reading f]) (token_posts s))
  | ReadDone i =>
      match nth_error (calls s) i with
      | Some (Reading f) =>
          Some (mkState (file s) (refreshPromise s) (ops s)
                        (update i (Read f (read_file options (file s)))
                                (calls s))
                        (token_posts s))
      | _ => None
      end
  | Resume i now =>
      match nth_error (calls s) i with
      | Some (Read f r) => Some (resume i f r now s)
      | _ => None
      end
  | Answer k a now =>
      match nth_error (ops s) k with
      | Some (Fetching current) =>
          match refresh_outcome current a now with
          | inr e => Some (settle k (inr e) s)
          | inl next =>
              Some (mkState (file s) (refreshPromise s)
                            (update k (Saving next) (ops s)) (calls s)
                            (token_posts s))
          end
      | _ => None
      end
  | Saved k =>
      match nth_error (ops s) k with
      | Some (Saving next) =>
          Some (settle k (inl next)
                       (mkState (saved_file next) (refreshPromise s)
                                (ops s) (calls s) (token_posts s)))
      | _ => None
      end
  end.

Fixpoint run (ls : list label) (s : state) : option state :=
  match ls with
  | [] => Some s
  | l :: ls' =>
      match step l s with
      | Some s' => run ls' s'
      | None => None
      end
  end.

End Machine.

Definition pending (o : op_state) : bool :=
  match o with Settled _ => false | _ => true end.

(** The operations in flight. *)
Definition in_flight (s : state) : nat :=
  List.length (filter pending (ops s)).

(** ** The invariant *)

Definition is_awaiting (c : call_state) : bool :=
  match c with Awaiting _ => true | _ => false end.

Definition settled (o : op_state) : bool := negb (pending o).

(** At most the operation in the slot is pending, and every call that
    awaits, awaits it; some call does. *)
Definition wf (s : state) : Prop :=
  token_posts s = List.length (ops s) /\
  match refreshPromise s with
  | None =>
      forallb settled (ops s) = true /\
      forallb (fun c => negb (is_awaiting c)) (calls s) = true
  | Some k =>
      (exists pre o post,
          ops s = pre ++ o :: post /\ List.length pre = k /\
          pending o = true /\
          forallb settled pre = true /\ forallb settled post = true) /\
      forallb (fun c => negb (is_awaiting c) || awaits k c) (calls s) = true /\
      existsb (awaits k) (calls s) = true
  end.

Section Refresh.

Variable options : OAuthCredentialStoreOptions.

(** A call needs a refresh: its stored token is not trusted (or the
    refresh is forced) and it holds a refresh token. *)
Definition needs_refresh (f : bool) (t : Z) (current : QwenCredentials)
  : bool :=
  negb (negb f && isTokenValid options t current) &&
  present (refresh_token current).

(** The schedule of one call that runs alone in the world [w]. *)
Definition alone (forceRefresh : bool) (w : world) : list label :=
  let w1 := was_read options w in
  Invoke forceRefresh :: ReadDone 0 :: Resume 0 (now w1) ::
  match read_file options (disk w) with
  | inr _ => []
  | inl current =>
      if negb (needs_refresh forceRefresh (now w1) current) then []
      else
        match refresh_token current with
        | None => []
        | Some rt =>
            let a := token_endpoint w1 (token_requests w1) in
            let t := now (requested rt w1) in
            Answer 0 a t ::
            match refresh_outcome current a t with
            | inr _ => []
            | inl _ => [Saved 0]
            end
        end
  end.

End Refresh.

End SingleFlight.

(* ================================================================== *)
(** * [src/server.ts]: the request forwarder *)
(* ================================================================== *)

Module Server.

Import OAuth Store.
Local Open Scope string_scope.
Local Open Scope monad_scope.

Definition MAX_REQUEST_BODY_BYTES : N := 20 * 1024 * 1024.

Definition HOP_BY_HOP_HEADERS : list string :=
  ["connection"; "keep-alive"; "proxy-authenticate"; "proxy-authorization";
   "te"; "trailer"; "transfer-encoding"; "upgrade"; "proxy-connection"].

Record AppConfig := mkConfig {
  upstreamBaseUrl : option string;
  requestTimeoutMs : Z
}.

Record ProxyRuntime := mkRuntime {
  config : AppConfig;
  oauthStore : OAuthCredentialStoreOptions
}.

Inductive header_value :=
| HeaderUndefined
| HeaderString (v : string)
| HeaderList (v : list string).

Record IncomingMessage := mkRequest {
  method : option string;
  headers : list (string * header_value);
  chunks : list string             (* the body, as the stream yields it *)
}.

Definition upper (c : ascii) : ascii :=
  if (97 <=? code c)%N && (code c <=? 122)%N
  then ascii_of_N (code c - 32) else c.

Definition toUpperCase (s : string) : string :=
  to_string (map upper (of_string s)).

Definition toLowerCase (s : string) : string :=
  to_string (map lower (of_string s)).

Definition has (k : string) (l : list string) : bool :=
  existsb (String.eqb k) l.

(** [error.name === 'AbortError' || error.message.includes('aborted')] *)
Definition isAbortError (name message : string) : bool :=
  String.eqb name "AbortError" ||
  includes (of_string "aborted") (of_string message).

(** ** The [Headers] class

    A [Headers] object is a list of pairs under lower-case names.
    [set] and [append] convert the name and the value to byte strings
    (every character is at most U+00FF), strip the HTTP white space
    (TAB, LF, CR and SP) from both ends of the value, and throw a
    [TypeError] unless the name is a token and the value holds no NUL,
    LF or CR.  The messages are worded as one version of the platform
    words them; the message of the conversion goes on with the place
    and the code of the character. *)

Definition Headers := list (string * string).

Definition is_http_whitespace (c : ascii) : bool :=
  mem c (bytes [9; 10; 13; 32]%N).

Definition headerValueNormalize (v : string) : string :=
  to_string
    (strip_trailing is_http_whitespace
                    (drop_while is_http_whitespace (of_string v))).

Definition is_tchar (c : ascii) : bool :=
  is_alpha c || is_digit c || mem c (of_string "!#$%&'*+-.^_`|~").

Definition isValidHeaderName (k : string) : bool :=
  negb (is_empty (of_string k)) && forallb is_tchar (of_string k).

Definition isValidHeaderValue (v : string) : bool :=
  forallb (fun c => negb (mem c (bytes [0; 10; 13]%N))) (of_string v).

(** Every character is at most U+00FF: in UTF-8, one byte below 0x80, or
    0xC2 or 0xC3 and one continuation byte. *)
Fixpoint is_byte_string (s : chars) : bool :=
  match s with
  | [] => true
  | c :: s' =>
      if (code c <? 128)%N then is_byte_string s'
      else if (code c =? 194)%N || (code c =? 195)%N then
        match s' with
        | c' :: s'' =>
            (128 <=? code c')%N && (code c' <? 192)%N && is_byte_string s''
        | [] => false
        end
      else false
  end.

Definition not_a_byte_string : error :=
  OtherError "Cannot convert argument to a ByteString".

Definition invalid_argument (prefix value type : string) : error :=
  OtherError (prefix ++ ": " ++ String "034" value ++
              String "034" (" is an invalid " ++ type ++ ".")).

(** The arguments of [set] and [append], converted, normalised and
    validated. *)
Definition header_arguments (prefix k v : string)
  : result (string * string) :=
  if negb (is_byte_string (of_string k) && is_byte_string (of_string v))
  then inr not_a_byte_string
  else
    let v := headerValueNormalize v in
    if negb (isValidHeaderName k)
    then inr (invalid_argument prefix k "header name")
    else if negb (isValidHeaderValue v)
    then inr (invalid_argument prefix v "header value")
    else inl (k, v).

(** The list of the object. *)
Fixpoint list_set (k v : string) (h : Headers) : Headers :=
  match h with
  | [] => [(toLowerCase k, v)]
  | (k', v') :: h' =>
      if String.eqb k' (toLowerCase k) then (k', v) :: h'
      else (k', v') :: list_set k v h'
  end.

Fixpoint list_append (k v : string) (h : Headers) : Headers :=
  match h with
  | [] => [(toLowerCase k, v)]
  | (k', v') :: h' =>
      if String.eqb k' (toLowerCase k)
      then (k', v' ++ (if String.eqb k' "cookie" then "; " else ", ") ++ v)
             :: h'
      else (k', v') :: list_append k v h'
  end.

Definition headers_set (k v : string) (h : Headers) : result Headers :=
  match header_arguments "Headers.set" k v with
  | inl (k, v) => inl (list_set k v h)
  | inr e => inr e
  end.

Definition headers_append (k v : string) (h : Headers) : result Headers :=
  match header_arguments "Headers.append" k v with
  | inl (k, v) => inl (list_append k v h)
  | inr e => inr e
  end.

Definition headers_has (k : string) (h : Headers) : bool :=
  existsb (fun kv => String.eqb (fst kv) (toLowerCase k)) h.

(** A loop whose body may throw. *)
Fixpoint for_each {A B} (f : A -> B -> result A) (l : list B) (a : A)
  : result A :=
  match l with
  | [] => inl a
  | x :: l' =>
      match f a x with
      | inl a' => for_each f l' a'
      | inr e => inr e
      end
  end.

Definition copy_header (h : Headers) (kv : string * header_value)
  : result Headers :=
  let (key, value) := kv in
  let lowerKey := toLowerCase key in
  if has lowerKey HOP_BY_HOP_HEADERS || String.eqb lowerKey "host" ||
     String.eqb lowerKey "authorization" ||
     String.eqb lowerKey "content-length"
  then inl h
  else
    match value with
    | HeaderUndefined => inl h
    | HeaderList items =>
        for_each (fun acc item => headers_append key item acc) items h
    | HeaderString v => headers_set key v h
    end.

Definition buildUpstreamHeaders (incomingHeaders : list (string * header_value))
           (accessToken : string) : result Headers :=
  match for_each copy_header incomingHeaders [] with
  | inr e => inr e
  | inl headers =>
      match headers_set "Authorization" ("Bearer " ++ accessToken)
                        headers with
      | inr e => inr e
      | inl headers =>
          if negb (headers_has "User-Agent" headers)
          then headers_set "User-Agent" "qwen-code-api/0.1.0" headers
          else inl headers
      end
  end.

Definition mayHaveBody (method : string) : bool :=
  let normalized := toUpperCase method in
  negb (String.eqb normalized "GET") && negb (String.eqb normalized "HEAD").

Definition request_body_too_large : error :=
  HttpRequestError
    ("Request body is too large (limit: " ++
     to_string (of_N MAX_REQUEST_BODY_BYTES) ++ " bytes).")
    413 "request_body_too_large".

Definition byte_length (chunk : string) : N := N.of_nat (String.length chunk).

(** The size of a body, and the events of reading its chunks. *)
Definition body_size (l : list string) : N :=
  fold_right (fun chunk n => (byte_length chunk + n)%N) 0%N l.

Definition chunk_events (l : list string) : list event :=
  map (fun chunk => EvReadChunk (byte_length chunk)) l.

Definition method_or_GET (m : option string) : string :=
  match m with Some v => v | None => "GET" end.

(** The loop [for await (const chunk of req)]. *)
Fixpoint read_chunks (pending collected : list string) (totalSize : N)
  : M (list string) :=
  match pending with
  | [] => ret collected
  | chunk :: rest =>
      emit (EvReadChunk (byte_length chunk)) ;;
      let totalSize := (totalSize + byte_length chunk)%N in
      if (MAX_REQUEST_BODY_BYTES <? totalSize)%N
      then throw request_body_too_large
      else read_chunks rest (collected ++ [chunk]) totalSize
  end.

Definition readRequestBody (req : IncomingMessage) : M (option string) :=
  if negb (mayHaveBody (method_or_GET (method req)))
  then ret None
  else
    collected <- read_chunks (chunks req) [] 0%N ;;
    match collected with
    | [] => ret None
    | _ => ret (Some (String.concat "" collected))
    end.

Definition missing_access_token : error :=
  OAuthCredentialsError
    "OAuth access_token is missing. Run `qwen` and execute `/auth` again."
    "missing_access_token" None.

Section Forwarder.

Context {HP : Url.HostParser}.
Variable runtime : ProxyRuntime.

(** [fetch(upstreamUrl, ...)] *)
Definition fetch_upstream (url : string) (m : option string)
           (h : Headers) (body : option string) : M upstream_result :=
  w <- get_world ;;
  emit (EvUpstreamRequest url m h body) ;;
  ret (upstream w (upstream_requests w)).

Definition requestUpstream (req : IncomingMessage)
           (requestPath requestSearch : string)
           (requestBody : option string) (forceRefresh : bool)
  : M upstream_response :=
  credentials <- getValidCredentials (oauthStore runtime) forceRefresh ;;
  match access_token credentials with
  | Some token =>
      if String.eqb token "" then throw missing_access_token
      else
        match getUpstreamBaseUrl credentials
                                 (upstreamBaseUrl (config runtime)) with
        | None => throw (OtherError "Invalid URL")
        | Some base =>
            upstreamUrl <- lift (buildUpstreamUrl base requestPath
                                                  requestSearch) ;;
            upstreamHeaders <- lift (buildUpstreamHeaders (headers req)
                                                          token) ;;
            answer <- fetch_upstream upstreamUrl (method req)
                                     upstreamHeaders requestBody ;;
            match answer with
            | UpstreamResponded r => ret r
            | UpstreamRejected name message =>
                if isAbortError name message then
                  throw (HttpRequestError
                           ("Upstream request timed out after " ++
                            of_Z (requestTimeoutMs (config runtime)) ++
                            "ms.")
                           504 "upstream_timeout")
                else
                  throw (HttpRequestError
                           ("Failed to reach upstream API: " ++ message)
                           502 "upstream_unavailable")
            end
        end
  | None => throw missing_access_token
  end.

Definition copyUpstreamResponseHeaders (r : upstream_response)
  : list (string * string) :=
  filter (fun kv => negb (has (toLowerCase (fst kv)) HOP_BY_HOP_HEADERS))
         (up_headers r).

Definition relayUpstreamResponse (r : upstream_response) : M unit :=
  emit (EvRespond
          (Relayed (up_status r) (copyUpstreamResponseHeaders r)
                   (match up_body r with Some b => b | None => "" end))) ;;
  end_response.

(** The world after a response has been relayed, and after the body of
    a response has been cancelled. *)
Definition relayed (r : upstream_response) (w : world) : world :=
  with_ended
    (log (EvRespond
            (Relayed (up_status r) (copyUpstreamResponseHeaders r)
                     (match up_body r with Some b => b | None => "" end)))
         w).

Definition cancelled (r : upstream_response) (w : world) : world :=
  match up_body r with
  | Some _ => log EvCancelBody w
  | None => w
  end.

Definition proxyRequest (req : IncomingMessage)
           (requestPath requestSearch : string)
           (requestBody : option string) : M unit :=
  firstResponse <- requestUpstream req requestPath requestSearch
                                   requestBody false ;;
  if negb (up_status firstResponse =? 401)%Z
  then relayUpstreamResponse firstResponse
  else
    (match up_body firstResponse with
     | Some _ => emit EvCancelBody
     | None => ret tt
     end) ;;
    retryResponse <- requestUpstream req requestPath requestSearch
                                     requestBody true ;;
    relayUpstreamResponse retryResponse.

(** The error envelope. *)
Definition envelope (message type : string) (code : option string)
  : json :=
  JObj [("error",
         JObj [("message", JStr message);
               ("type", JStr type);
               ("param", JNull);
               ("code", match code with
                        | Some c => JStr c
                        | None => JNull
                        end)])].

(** [writeJson] *)
Definition writeJson (statusCode : Z) (payload : json) : M unit :=
  w <- get_world ;;
  if ended w then ret tt
  else emit (EvRespond (JsonResponse statusCode payload)) ;; end_response.

Definition sendOpenAIError (statusCode : Z) (message type : string)
           (code : option string) : M unit :=
  writeJson statusCode (envelope message type code).

(** The status [handleRequestError] answers an [OAuthCredentialsError]
    with. *)
Definition oauth_status (statusCode : option Z) : Z :=
  match statusCode with
  | Some s => if negb (s =? 0)%Z && (500 <=? s)%Z then 502%Z else s
  | None => 401%Z
  end.

Definition handleRequestError (e : error) : M unit :=
  match e with
  | HttpRequestError message statusCode code =>
      sendOpenAIError statusCode message
        (if (statusCode =? 413)%Z then "invalid_request_error"
         else "api_error")
        (Some code)
  | OAuthCredentialsError message code statusCode =>
      let statusCode := oauth_status statusCode in
      sendOpenAIError statusCode message
        (if (statusCode =? 401)%Z then "authentication_error"
         else "api_error")
        (Some code)
  | OtherError message =>
      sendOpenAIError 500 ("Unexpected server error: " ++ message)
                      "api_error" (Some "internal_error")
  end.

(** The [try] block of the request listener of [createProxyServer], for
    a request that the front door hands to the forwarder. *)
Definition forward (req : IncomingMessage)
           (requestPath requestSearch : string) : M unit :=
  try_catch
    (requestBody <- readRequestBody req ;;
     proxyRequest req requestPath requestSearch requestBody)
    handleRequestError.

End Forwarder.

End Server.

(* ================================================================== *)
(** * Sample environments *)
(* ================================================================== *)

Module Sample.

Import OAuth SingleFlight Server.
Local Open Scope string_scope.

Definition options : OAuthCredentialStoreOptions :=
  mkOptions "/home/u/.qwen/oauth_creds.json" 30000.

(** A world at time [t] (constant), with one credential file, one answer
    of the token endpoint and one answer of the upstream API. *)
Definition world_of (t : Z) (f : file_state) (token : fetch_result)
           (up : upstream_result) : world :=
  mkWorld f (fun _ => t) (fun n => "id-" ++ to_string (of_N (N.of_nat n))) 0
          (fun _ => token) (fun _ => up) false [].

(** The file that holds the object [j]. *)
Definition file_of (j : json) : file_state :=
  FileContent (mkDocument (stringify "" j) (Parsed j)).

(** An answer with status [s] and the JSON value [j] as body. *)
Definition answer_of (s : Z) (j : json) : fetch_result :=
  FetchResponded
    (mkResponse s "" (Some (mkDocument (stringify "" j) (Parsed j)))).

Definition upstream_of (s : Z) : upstream_result :=
  UpstreamResponded (mkUpstream s [] (Some "")).

(** The same world with an upstream API that answers 401 first and 200
    afterwards. *)
Definition world_401 (t : Z) (f : file_state) (token : fetch_result)
  : world :=
  mkWorld f (fun _ => t) (fun n => "id-" ++ to_string (of_N (N.of_nat n))) 0
          (fun _ => token)
          (fun n => match n with
                    | O => upstream_of 401
                    | S _ => upstream_of 200
                    end)
          false [].

(** Stored credentials: a token valid until 5000000, and a lone
    refresh token. *)
Definition fresh_file : file_state :=
  file_of (JObj [("access_token", JStr "at0"); ("refresh_token", JStr "rt0");
                 ("expiry_date", JNum 5000000)]).

Definition fresh : QwenCredentials :=
  mkCredentials (Some "at0") (Some "rt0") None (Some 5000000%Z) None.

Definition bare : QwenCredentials :=
  mkCredentials None (Some "rt0") None None None.

Definition new_token : fetch_result :=
  answer_of 200 (JObj [("access_token", JStr "at1")]).

(** Two calls made together, each with a forced refresh; the read of the
    second completes after the operation of the first has settled. *)
Definition late_read : list SingleFlight.label :=
  [Invoke true; Invoke true;
   ReadDone 0; Resume 0 1000; Answer 0 Sample.new_token 1000; Saved 0;
   ReadDone 1; Resume 1 2000;
   Answer 1 (Sample.answer_of 200 (JObj [("access_token"%string,
                                          JStr "at2")])) 2000;
   Saved 1].

(** Two calls made together on a file whose token has expired, both
    resumed before the token endpoint answers. *)
Definition both_attached : list SingleFlight.label :=
  [Invoke false; Invoke false; ReadDone 0; ReadDone 1;
   Resume 0 9000000; Resume 1 9000000].



(** Three calls made together, each with a forced refresh.  The first
    runs to its end; the reads of the other two complete afterwards: the
    second call starts a new operation, the third awaits it, and the
    token endpoint has answered that operation. *)
Definition second_operation : list SingleFlight.label :=
  [Invoke true; Invoke true; Invoke true;
   ReadDone 0; Resume 0 1000; Answer 0 Sample.new_token 1000; Saved 0;
   ReadDone 1; ReadDone 2; Resume 1 2000; Resume 2 2000;
   Answer 1 (Sample.answer_of 200 (JObj [("access_token"%string,
                                          JStr "at2")])) 2000].

(** A request of a client, and the runtime of the samples. *)
Definition get_request : IncomingMessage :=
  mkRequest (Some "GET") [("accept", HeaderString "*/*")] [].

Definition post_request : IncomingMessage :=
  mkRequest (Some "POST") [("content-type", HeaderString "application/json")]
            ["hello, "; "world"].

Definition sample_runtime : ProxyRuntime :=
  mkRuntime (mkConfig None 120000) Sample.options.

End Sample.

(* ================================================================== *)
(** * Built-ins of the language and of the platform

    The functions of ECMAScript and of Node.js that the rest of the
    program calls: [decodeURIComponent], [Number.parseInt],
    [Buffer.toString('hex')], the character classes of regular
    expressions. *)
(* ================================================================== *)

Module Platform.

Local Open Scope char_scope.

(** [s.trim()] on a string. *)
Definition trim_string (s : string) : string :=
  to_string (trim (of_string s)).

(** The value of a hexadecimal digit. *)
Definition hex_value (c : ascii) : option N :=
  if is_digit c then Some (code c - 48)%N
  else
    let l := code (lower c) in
    if (97 <=? l)%N && (l <=? 102)%N then Some (l - 87)%N else None.

(** [ParseHexOctet]: the byte that two hexadecimal digits write. *)
Definition parse_hex_octet (a b : ascii) : option N :=
  match hex_value a, hex_value b with
  | Some x, Some y => Some (16 * x + y)%N
  | _, _ => None
  end.

(** What [OAuth.form_encode] writes for one character. *)
Definition form_encode_char (c : ascii) : chars :=
  if Ascii.eqb c " " then ["+"]
  else Url.percent_encode_char (fun c => negb (OAuth.form_safe c)) c.

(** The reading that inverts the serialiser of [URLSearchParams] on the
    first character of a value: [+] is a space, [%XX] a byte, any other
    character itself. *)
Definition form_decode_head (s : chars) : option (ascii * chars) :=
  match s with
  | [] => None
  | "+" :: r => Some (" ", r)
  | "%" :: a :: b :: r =>
      match parse_hex_octet a b with
      | Some n => Some (ascii_of_N n, r)
      | None => None
      end
  | "%" :: _ => None
  | c :: r => Some (c, r)
  end.

(** The characters that the serialiser of [URLSearchParams] writes. *)
Definition form_char (c : ascii) : bool :=
  OAuth.form_safe c || Ascii.eqb c "+" || Ascii.eqb c "%".

(** ** [decodeURIComponent]

    [Decode] of ECMAScript with an empty set of preserved escapes.  An
    escape [%XX] writes a byte; a byte below 128 is a character, a byte
    with two to four leading one bits starts a UTF-8 sequence whose
    other bytes must follow as escapes, and the sequence must be the
    encoding of a code point.  The result holds the code point, which in
    a string read as UTF-8 is the sequence itself.  [None]: a
    [URIError] is thrown. *)

(** The number of bytes of the sequence that the byte starts; one for an
    ASCII byte, zero for a byte that starts none. *)
Definition sequence_length (b : N) : nat :=
  if (b <? 128)%N then 1
  else if (b <? 192)%N then 0
  else if (b <? 224)%N then 2
  else if (b <? 240)%N then 3
  else if (b <? 248)%N then 4
  else 0.

Definition between (lo hi b : N) : bool := (lo <=? b)%N && (b <=? hi)%N.

(** The well-formed UTF-8 byte sequences of more than one byte (the
    Unicode Standard, table 3-7). *)
Definition valid_utf8 (octets : list N) : bool :=
  match octets with
  | [a; b] => between 194 223 a && between 128 191 b
  | [a; b; c] =>
      ((N.eqb a 224 && between 160 191 b) ||
       (between 225 236 a && between 128 191 b) ||
       (N.eqb a 237 && between 128 159 b) ||
       (between 238 239 a && between 128 191 b)) && between 128 191 c
  | [a; b; c; d] =>
      ((N.eqb a 240 && between 144 191 b) ||
       (between 241 243 a && between 128 191 b) ||
       (N.eqb a 244 && between 128 143 b)) &&
      between 128 191 c && between 128 191 d
  | _ => false
  end.

(** [pending] escapes are still to come for the sequence whose first
    bytes are [octets]. *)
Fixpoint decode (pending : nat) (octets : list N) (s : chars)
  : option chars :=
  match s with
  | [] => match pending with O => Some [] | S _ => None end
  | c :: r =>
      if Ascii.eqb c "%" then
        match r with
        | a :: b :: r' =>
            match parse_hex_octet a b with
            | None => None
            | Some B =>
                match pending with
                | O =>
                    match sequence_length B with
                    | 1 => option_map (cons (ascii_of_N B)) (decode 0 [] r')
                    | S (S n) => decode (S n) [B] r'
                    | O => None
                    end
                | S O =>
                    let octets := (octets ++ [B])%list in
                    if valid_utf8 octets
                    then option_map (app (map ascii_of_N octets))
                                    (decode 0 [] r')
                    else None
                | S (S n as p) => decode p (octets ++ [B]) r'
                end
            end
        | _ => None
        end
      else
        match pending with
        | O => option_map (cons c) (decode 0 [] r)
        | S _ => None
        end
  end.

Definition decodeURIComponent (s : string) : option string :=
  option_map to_string (decode 0 [] (of_string s)).

(** ** [Number.parseInt(s, 10)]

    Leading white space is skipped, one sign is read, and the longest
    run of decimal digits that follows is the value; [None] is [NaN],
    the result when there is no digit.  The value is an integer of [Z]:
    a caller that accepts values up to [Number.MAX_SAFE_INTEGER] only
    sees the same value and takes the same decision as with the
    floating-point result, which is exact up to that bound and not below
    it beyond. *)
Definition read_sign (S : chars) : Z * chars :=
  match S with
  | "-" :: r => ((-1)%Z, r)
  | "+" :: r => (1%Z, r)
  | _ => (1%Z, S)
  end.

Definition parseInt (s : string) : option Z :=
  let (sign, S) := read_sign (trim_start (of_string s)) in
  let (digits, _) := span is_digit S in
  if is_empty digits then None
  else
    match NilEmpty.uint_of_string (to_string digits) with
    | Some d => Some (sign * Z.of_N (N.of_uint d))%Z
    | None => None
    end.

(** ** [JSON.parse]

    The grammar of ECMA-404 on a text of bytes: white space is TAB, LF,
    CR and SP; a string holds no control character, and a backslash
    starts an escape: of the quote, the backslash or the slash, [\b],
    [\f], [\n], [\r], [\t] or [\uXXXX]; a number starts with an optional minus sign and an integer part
    without leading zero; nothing but white space follows the value.
    A name that occurs twice in an object keeps its place and takes the
    last value.  The properties are listed in the order of the text (the
    platform lists the names that are array indices first, which no read
    of a property by its name can tell).

    [Invalid]: a [SyntaxError] is thrown.  [Outside]: the text holds a
    number with a fraction or an exponent, or the escape of a lone
    surrogate; its value is outside the model of numbers and strings,
    and nothing is said of the text. *)

Inductive parsed (A : Type) : Type :=
| Value (a : A)
| Invalid
| Outside.

Arguments Value {A} a.
Arguments Invalid {A}.
Arguments Outside {A}.

Definition and_then {A B} (p : parsed A) (k : A -> parsed B) : parsed B :=
  match p with
  | Value a => k a
  | Invalid => Invalid
  | Outside => Outside
  end.

Definition json_whitespace (c : ascii) : bool :=
  mem c (bytes [9; 10; 13; 32]%N).

Definition skip_whitespace (s : chars) : chars :=
  drop_while json_whitespace s.

(** The UTF-8 encoding of a code point. *)
Definition utf8 (cp : N) : chars :=
  bytes
    (if (cp <? 128)%N then [cp]
     else if (cp <? 2048)%N then [192 + cp / 64; 128 + cp mod 64]
     else if (cp <? 65536)%N
     then [224 + cp / 4096; 128 + (cp / 64) mod 64; 128 + cp mod 64]
     else [240 + cp / 262144; 128 + (cp / 4096) mod 64;
           128 + (cp / 64) mod 64; 128 + cp mod 64])%N.

Definition hex4_value (a b c d : ascii) : option N :=
  match hex_value a, hex_value b, hex_value c, hex_value d with
  | Some w, Some x, Some y, Some z =>
      Some (4096 * w + 256 * x + 16 * y + z)%N
  | _, _, _, _ => None
  end.

(** The character that the escape [\e] writes, for the escapes of one
    character. *)
Definition simple_escape (e : ascii) : option ascii :=
  let n := code e in
  if (n =? 34)%N || (n =? 92)%N || (n =? 47)%N then Some e
  else if (n =? 98)%N then Some (ascii_of_N 8)
  else if (n =? 102)%N then Some (ascii_of_N 12)
  else if (n =? 110)%N then Some (ascii_of_N 10)
  else if (n =? 114)%N then Some (ascii_of_N 13)
  else if (n =? 116)%N then Some (ascii_of_N 9)
  else None.

Definition prepend (p : chars) (x : parsed (chars * chars))
  : parsed (chars * chars) :=
  and_then x (fun tr => Value (p ++ fst tr, snd tr)%list).

(** A string after its opening quote: its characters, and the text
    after the closing quote. *)
Fixpoint string_body (s : chars) : parsed (chars * chars) :=
  match s with
  | [] => Invalid
  | c :: r =>
      if (code c =? 34)%N then Value ([], r)
      else if (code c =? 92)%N then
        match r with
        | [] => Invalid
        | e :: r1 =>
            if (code e =? 117)%N then
              match r1 with
              | h1 :: h2 :: h3 :: h4 :: r2 =>
                  match hex4_value h1 h2 h3 h4 with
                  | None => Invalid
                  | Some u =>
                      if between 55296 56319 u then
                        match r2 with
                        | b :: e' :: l1 :: l2 :: l3 :: l4 :: r3 =>
                            if (code b =? 92)%N && (code e' =? 117)%N then
                              match hex4_value l1 l2 l3 l4 with
                              | Some l =>
                                  if between 56320 57343 l then
                                    prepend
                                      (utf8 (65536 + (u - 55296) * 1024 +
                                             (l - 56320))%N)
                                      (string_body r3)
                                  else Outside
                              | None => Outside
                              end
                            else Outside
                        | _ => Outside
                        end
                      else if between 56320 57343 u then Outside
                      else prepend (utf8 u) (string_body r2)
                  end
              | _ => Invalid
              end
            else
              match simple_escape e with
              | Some x => prepend [x] (string_body r1)
              | None => Invalid
              end
        end
      else if (code c <? 32)%N then Invalid
      else prepend [c] (string_body r)
  end.

Definition read_minus (s : chars) : Z * chars :=
  match s with
  | "-" :: r => ((-1)%Z, r)
  | _ => (1%Z, s)
  end.

(** A number: the integer that it writes, and the text after it. *)
Definition number (s : chars) : parsed (Z * chars) :=
  let (sign, s1) := read_minus s in
  let (digits, rest) := span is_digit s1 in
  match digits with
  | [] => Invalid
  | d :: ds =>
      if Ascii.eqb d "0" && negb (is_empty ds) then Invalid
      else
        match rest with
        | c :: _ =>
            if mem c ["."; "e"; "E"] then Outside
            else
              match NilEmpty.uint_of_string (to_string digits) with
              | Some u => Value ((sign * Z.of_N (N.of_uint u))%Z, rest)
              | None => Invalid
              end
        | [] =>
            match NilEmpty.uint_of_string (to_string digits) with
            | Some u => Value ((sign * Z.of_N (N.of_uint u))%Z, rest)
            | None => Invalid
            end
        end
  end.

(** [CreateDataProperty] on the properties read so far. *)
Fixpoint define (k : string) (v : json) (fields : list (string * json))
  : list (string * json) :=
  match fields with
  | [] => [(k, v)]
  | (k', v') :: fields' =>
      if String.eqb k' k then (k', v) :: fields'
      else (k', v') :: define k v fields'
  end.

Definition literal (word : string) (j : json) (s : chars)
  : parsed (json * chars) :=
  if starts_with (of_string word) s
  then Value (j, skipn (String.length word) s)
  else Invalid.

(** A value, the members of an object after its brace or a comma, and
    the elements of an array after its bracket or a comma.  Every call
    comes after a character has been read: the length of the text
    bounds the depth of the calls. *)
Fixpoint value (fuel : nat) (s : chars) : parsed (json * chars) :=
  match fuel with
  | O => Invalid
  | S fuel' =>
      match skip_whitespace s with
      | [] => Invalid
      | c :: r =>
          if (code c =? 34)%N then
            and_then (string_body r)
                     (fun tr => Value (JStr (to_string (fst tr)), snd tr))
          else if Ascii.eqb c "{" then
            match skip_whitespace r with
            | "}" :: rest => Value (JObj [], rest)
            | _ => members fuel' r []
            end
          else if Ascii.eqb c "[" then
            match skip_whitespace r with
            | "]" :: rest => Value (JArr [], rest)
            | _ => elements fuel' r []
            end
          else if Ascii.eqb c "t" then literal "true" (JBool true) (c :: r)
          else if Ascii.eqb c "f" then literal "false" (JBool false) (c :: r)
          else if Ascii.eqb c "n" then literal "null" JNull (c :: r)
          else if Ascii.eqb c "-" || is_digit c then
            and_then (number (c :: r))
                     (fun nr => Value (JNum (fst nr), snd nr))
          else Invalid
      end
  end

with members (fuel : nat) (s : chars) (fields : list (string * json))
  : parsed (json * chars) :=
  match fuel with
  | O => Invalid
  | S fuel' =>
      match skip_whitespace s with
      | q :: r =>
          if (code q =? 34)%N then
            and_then (string_body r) (fun kr =>
              match skip_whitespace (snd kr) with
              | ":" :: r1 =>
                  and_then (value fuel' r1) (fun vr =>
                    let fields := define (to_string (fst kr)) (fst vr)
                                         fields in
                    match skip_whitespace (snd vr) with
                    | "," :: r2 => members fuel' r2 fields
                    | "}" :: r2 => Value (JObj fields, r2)
                    | _ => Invalid
                    end)
              | _ => Invalid
              end)
          else Invalid
      | [] => Invalid
      end
  end

with elements (fuel : nat) (s : chars) (items : list json)
  : parsed (json * chars) :=
  match fuel with
  | O => Invalid
  | S fuel' =>
      and_then (value fuel' s) (fun vr =>
        let items := (items ++ [fst vr])%list in
        match skip_whitespace (snd vr) with
        | "," :: r => elements fuel' r items
        | "]" :: r => Value (JArr items, r)
        | _ => Invalid
        end)
  end.

Definition JSON_parse (text : string) : parsed json :=
  and_then (value (S (String.length text)) (of_string text)) (fun jr =>
    if is_empty (skip_whitespace (snd jr)) then Value (fst jr)
    else Invalid).

(** The parse that a document carries is the parse of its text. *)
Definition well_parsed (d : document) : Prop :=
  match JSON_parse (text d) with
  | Value j => json_of d = Parsed j
  | Invalid => exists message, json_of d = SyntaxError message
  | Outside => True
  end.

(** ** [buffer.toString('hex')] *)

Definition hex_digit (n : N) : ascii :=
  nth (N.to_nat n) (of_string "0123456789abcdef"%string) "0".

Definition to_hex (buffer : chars) : string :=
  to_string
    (flat_map (fun c => [hex_digit (code c / 16); hex_digit (code c mod 16)])
              buffer).

(** ** The classes [\s] and [.] of regular expressions

    [\s] is the white space of [trim]; [.] is any character but the
    line terminators LF, CR, U+2028 and U+2029. *)

Definition line_terminators : list chars :=
  map bytes [[10]; [13]; [226; 128; 168]; [226; 128; 169]]%N.

Definition has_line_terminator (s : chars) : bool :=
  existsb (fun t => includes t s) line_terminators.

(** The first white-space character of [s] and the rest. *)
Fixpoint split_any (seqs : list chars) (s : chars)
  : option (chars * chars) :=
  match seqs with
  | [] => None
  | p :: seqs' =>
      if starts_with p s then Some (p, skipn (List.length p) s)
      else split_any seqs' s
  end.

(** The longest run of white-space characters that starts [s], and the
    rest. *)
Fixpoint ws_run (fuel : nat) (s : chars) : list chars * chars :=
  match fuel with
  | O => ([], s)
  | S fuel' =>
      match split_any white_space s with
      | Some (p, r) => let (run, rest) := ws_run fuel' r in (p :: run, rest)
      | None => ([], s)
      end
  end.

End Platform.

(* ================================================================== *)
(** * [src/oauth.ts]: the errors of the credential store *)
(* ================================================================== *)

Module StoreErrors.

Local Open Scope string_scope.

Definition missing_credentials : error :=
  OAuthCredentialsError
    "OAuth credentials are missing both access_token and refresh_token."
    "missing_credentials" None.

(** The codes of the errors that the credential store raises itself. *)
Definition store_error_codes : list string :=
  ["credentials_not_found"; "credentials_read_failed";
   "credentials_parse_failed"; "invalid_credentials_format";
   "missing_credentials"; "missing_refresh_token"; "refresh_network_error";
   "refresh_failed"; "refresh_parse_failed"; "refresh_missing_access_token"].

End StoreErrors.

(* ================================================================== *)
(** * [src/errors.ts] *)
(* ================================================================== *)

Module Errors.

Local Open Scope string_scope.

(** The [options] of [sendOpenAIError]; [None] for a property that is
    absent or [null]. *)
Record ErrorOptions := mkErrorOptions {
  type : option string;
  code : option string;
  param : option string
}.

Definition or_null (v : option string) : json :=
  match v with Some s => JStr s | None => JNull end.

Definition OpenAIErrorShape (message : string)
           (options : option ErrorOptions) : json :=
  let field (f : ErrorOptions -> option string) :=
    match options with Some o => f o | None => None end in
  JObj [("error",
         JObj [("message", JStr message);
               ("type", JStr (match field type with
                              | Some t => t
                              | None => "invalid_request_error"
                              end));
               ("param", or_null (field param));
               ("code", or_null (field code))])].

Definition sendOpenAIError (statusCode : Z) (message : string)
           (options : option ErrorOptions) : M unit :=
  Server.writeJson statusCode (OpenAIErrorShape message options).

Definition sendJson (statusCode : Z) (payload : json) : M unit :=
  Server.writeJson statusCode payload.

(** The options that name a code only, and a code and a type. *)
Definition with_code (c : string) : option ErrorOptions :=
  Some (mkErrorOptions None (Some c) None).

Definition with_code_type (c t : string) : option ErrorOptions :=
  Some (mkErrorOptions (Some t) (Some c) None).

End Errors.

(* ================================================================== *)
(** * [src/config.ts] *)
(* ================================================================== *)

Module Config.

Import Platform.
Local Open Scope string_scope.

Definition DEFAULT_HOST : string := "127.0.0.1".
Definition DEFAULT_PORT : Z := 8787.
Definition DEFAULT_TOKEN_REFRESH_BUFFER_MS : Z := 30000.
Definition DEFAULT_REQUEST_TIMEOUT_MS : Z := 120000.

(** [Number.MAX_SAFE_INTEGER] *)
Definition MAX_SAFE_INTEGER : Z := 9007199254740991.

Record AppConfig := mkAppConfig {
  host : string;
  port : Z;
  apiKey : string;
  apiKeyGenerated : bool;
  credentialsFile : string;
  upstreamBaseUrl : option string;
  tokenRefreshBufferMs : Z;
  requestTimeoutMs : Z;
  showHelp : bool
}.

Definition is_blank (s : string) : bool := String.eqb s "".

Definition toNonEmptyString (value : option string) (fieldName : string)
  : result string :=
  let normalized := option_map trim_string value in
  match normalized with
  | Some n =>
      if is_blank n
      then inr (OtherError ("Invalid " ++ fieldName ++ ": value is required"))
      else inl n
  | None =>
      inr (OtherError ("Invalid " ++ fieldName ++ ": value is required"))
  end.

Definition toOptionalString (value : option string) : option string :=
  match option_map trim_string value with
  | Some n => if is_blank n then None else Some n
  | None => None
  end.

Definition toInteger (value fieldName : string) (min max : Z) : result Z :=
  let invalid :=
    OtherError ("Invalid " ++ fieldName ++ ": expected integer in [" ++
                of_Z min ++ ", " ++ of_Z max ++ "]") in
  match parseInt value with
  | Some parsed =>
      if (parsed <? min)%Z || (max <? parsed)%Z then inr invalid
      else inl parsed
  | None => inr invalid
  end.

(** The [values] of [parseArgs]: an option that was not given is
    [None]. *)
Record Values := mkValues {
  v_help : option bool;
  v_host : option string;
  v_port : option string;
  v_api_key : option string;
  v_credentials_file : option string;
  v_upstream_base_url : option string;
  v_token_refresh_buffer_ms : option string;
  v_request_timeout_ms : option string
}.

(** The variables of [process.env] that the program reads. *)
Record ProcessEnv := mkEnv {
  QWEN_CODE_API_HOST : option string;
  QWEN_CODE_API_PORT : option string;
  QWEN_CODE_API_KEY : option string;
  QWEN_CODE_OAUTH_CREDENTIALS_PATH : option string;
  QWEN_CODE_API_UPSTREAM_BASE_URL : option string;
  QWEN_CODE_TOKEN_REFRESH_BUFFER_MS : option string;
  QWEN_CODE_API_REQUEST_TIMEOUT_MS : option string
}.

(** [a ?? b] *)
Definition coalesce {A} (a : option A) (b : A) : A :=
  match a with Some v => v | None => b end.

Definition and_then {A B} (r : result A) (k : A -> result B) : result B :=
  match r with inl a => k a | inr e => inr e end.

Section Loader.

(** What the platform supplies: [util.parseArgs] for the table of
    options of the program ([inr]: it throws, as on an unknown option),
    the default credential file under the home directory, and
    [crypto.randomBytes]. *)
Variable parseArgs : list string -> result Values.
Variable DEFAULT_CREDENTIALS_FILE : string.
Variable randomBytes : nat -> chars.

Definition loadConfig (argv : list string) (env : ProcessEnv)
  : result AppConfig :=
  and_then (parseArgs argv) (fun values =>
  let showHelp := coalesce (v_help values) false in
  and_then
    (toNonEmptyString
       (Some (coalesce (OAuth.or_else (v_host values)
                                      (QWEN_CODE_API_HOST env))
                       DEFAULT_HOST))
       "host") (fun host =>
  and_then
    (toInteger
       (coalesce (OAuth.or_else (v_port values) (QWEN_CODE_API_PORT env))
                 (of_Z DEFAULT_PORT))
       "port" 1 65535) (fun port =>
  and_then
    (toInteger
       (coalesce (OAuth.or_else (v_token_refresh_buffer_ms values)
                                (QWEN_CODE_TOKEN_REFRESH_BUFFER_MS env))
                 (of_Z DEFAULT_TOKEN_REFRESH_BUFFER_MS))
       "tokenRefreshBufferMs" 0 MAX_SAFE_INTEGER)
    (fun tokenRefreshBufferMs =>
  and_then
    (toInteger
       (coalesce (OAuth.or_else (v_request_timeout_ms values)
                                (QWEN_CODE_API_REQUEST_TIMEOUT_MS env))
                 (of_Z DEFAULT_REQUEST_TIMEOUT_MS))
       "requestTimeoutMs" 1 MAX_SAFE_INTEGER) (fun requestTimeoutMs =>
  and_then
    (toNonEmptyString
       (Some (coalesce (OAuth.or_else (v_credentials_file values)
                                      (QWEN_CODE_OAUTH_CREDENTIALS_PATH env))
                       DEFAULT_CREDENTIALS_FILE))
       "credentialsFile") (fun credentialsFile =>
  let upstreamBaseUrl :=
    toOptionalString (OAuth.or_else (v_upstream_base_url values)
                                    (QWEN_CODE_API_UPSTREAM_BASE_URL env)) in
  let apiKey :=
    toOptionalString (OAuth.or_else (v_api_key values)
                                    (QWEN_CODE_API_KEY env)) in
  let (apiKey, apiKeyGenerated) :=
    match apiKey with
    | Some k => (k, false)
    | None => (to_hex (randomBytes 24), true)
    end in
  inl (mkAppConfig host port apiKey apiKeyGenerated credentialsFile
                   upstreamBaseUrl tokenRefreshBufferMs requestTimeoutMs
                   showHelp))))))).

End Loader.

End Config.

(* ================================================================== *)
(** * What the client is answered *)
(* ================================================================== *)

Module Outcome.

Import Server.
Local Open Scope string_scope.

Definition is_response (e : event) : bool :=
  match e with EvRespond _ => true | _ => false end.

(** The responses written so far, oldest first. *)
Definition responses (w : world) : list client_response :=
  flat_map (fun e => match e with EvRespond r => [r] | _ => [] end)
           (trace w).

(** The world after the response [statusCode], [payload] has been
    written to a response that had not ended. *)
Definition answered (statusCode : Z) (payload : json) (w : world) : world :=
  with_ended (log (EvRespond (JsonResponse statusCode payload)) w).

(** The response is as it was: not ended since, and nothing written. *)
Definition quiet (w w' : world) : Prop :=
  ended w' = ended w /\ responses w' = responses w.

(** The response that [handleRequestError] writes for an error. *)
Definition error_response (e : error) : client_response :=
  match e with
  | HttpRequestError message statusCode code =>
      JsonResponse statusCode
        (envelope message
                  (if (statusCode =? 413)%Z then "invalid_request_error"
                   else "api_error")
                  (Some code))
  | OAuthCredentialsError message code statusCode =>
      JsonResponse (oauth_status statusCode)
        (envelope message
                  (if (oauth_status statusCode =? 401)%Z
                   then "authentication_error" else "api_error")
                  (Some code))
  | OtherError message =>
      JsonResponse 500
        (envelope ("Unexpected server error: " ++ message) "api_error"
                  (Some "internal_error"))
  end.

End Outcome.

(* ================================================================== *)
(** * [src/server.ts]: the front door *)
(* ================================================================== *)

Module Gateway.

Import Platform Server.
Local Open Scope string_scope.
Local Open Scope monad_scope.

(** ** The local API key *)

(** [(.+)$] matches the whole of [s]: one character at least, and no
    line terminator. *)
Definition matches_dot_plus (s : chars) : bool :=
  negb (is_empty s) && negb (has_line_terminator s).

(** [\s+(.+)$] after the white space [taken] (last character first) has
    been read greedily before [rest]: the group takes [rest] when it
    matches; otherwise [\s+] gives back its last character, as long as
    it keeps one. *)
Fixpoint backtrack (taken : list chars) (rest : chars) : option chars :=
  match taken with
  | [] => None
  | p :: taken' =>
      if matches_dot_plus rest then Some rest
      else backtrack taken' (p ++ rest)%list
  end.

(** [authorizationHeader.match(/^Bearer\s+(.+)$/i)] and its group.
    [None] is [null]. *)
Definition parseBearerToken (authorizationHeader : option string)
  : option string :=
  match authorizationHeader with
  | None => None
  | Some h =>
      if String.eqb h "" then None
      else
        let s := of_string h in
        if starts_with_ci (of_string "bearer") s then
          let (run, rest) := ws_run (List.length s) (skipn 6 s) in
          option_map to_string (backtrack (rev run) rest)
        else None
  end.

(** [req.headers[name]]: [None] when the object has no such property. *)
Fixpoint header (name : string) (h : list (string * header_value))
  : option header_value :=
  match h with
  | [] => None
  | (k, v) :: h' => if String.eqb k name then Some v else header name h'
  end.

Definition verifyLocalApiKey (req : IncomingMessage) (apiKey : string)
  : bool :=
  let authHeader :=
    match header "authorization" (headers req) with
    | Some (HeaderString v) => Some v
    | _ => None
    end in
  match parseBearerToken authHeader with
  | Some token => String.eqb token apiKey
  | None => false
  end.

(** ** The local list of models *)

Record OpenAIModelCard := mkCard {
  id : string;
  object : string;
  created : Z;
  owned_by : string
}.

Definition LOCAL_OPENAI_MODELS : list OpenAIModelCard :=
  [mkCard "coder-model" "model" 0 "qwen-oauth";
   mkCard "vision-model" "model" 0 "qwen-oauth"].

Definition card_json (m : OpenAIModelCard) : json :=
  JObj [("id", JStr (id m)); ("object", JStr (object m));
        ("created", JNum (created m)); ("owned_by", JStr (owned_by m))].

Definition startsWith (p s : string) : bool :=
  starts_with (of_string p) (of_string s).

Definition is_GET (m : option string) : bool :=
  match m with Some v => String.eqb v "GET" | None => false end.

Definition URIError : error := OtherError "URI malformed".

(** The result tells whether the request was answered here. *)
Definition handleLocalModelsEndpoint (req : IncomingMessage)
           (pathname : string) : M bool :=
  if negb (String.eqb pathname "/v1/models") &&
     negb (startsWith "/v1/models/" pathname)
  then ret false
  else if negb (is_GET (method req)) then
    Errors.sendOpenAIError 405
                    ("Method not allowed for " ++ pathname ++ ". Use GET.")
                    (Errors.with_code "method_not_allowed") ;;
    ret true
  else if String.eqb pathname "/v1/models" then
    Errors.sendJson 200 (JObj [("object", JStr "list");
                        ("data", JArr (map card_json LOCAL_OPENAI_MODELS))]) ;;
    ret true
  else
    match decodeURIComponent
            (to_string (skipn (String.length "/v1/models/")
                              (of_string pathname))) with
    | None => throw URIError
    | Some modelId =>
        match find (fun item => String.eqb (id item) modelId)
                   LOCAL_OPENAI_MODELS with
        | None =>
            Errors.sendOpenAIError 404 ("Model not found: " ++ modelId)
                            (Errors.with_code "model_not_found") ;;
            ret true
        | Some model => Errors.sendJson 200 (card_json model) ;; ret true
        end
    end.

(** ** The request listener of [createProxyServer] *)

Record ProxyRuntime := mkRuntime {
  config : Config.AppConfig;
  oauthStore : OAuth.OAuthCredentialStoreOptions
}.

(** The part of the runtime that the forwarder reads. *)
Definition forwarder (runtime : ProxyRuntime) : Server.ProxyRuntime :=
  Server.mkRuntime
    (Server.mkConfig (Config.upstreamBaseUrl (config runtime))
                     (Config.requestTimeoutMs (config runtime)))
    (oauthStore runtime).

Section Listener.

Context {HP : Url.HostParser}.
Variable runtime : ProxyRuntime.

(** [new URL(input, base)] of the platform, read through the two
    properties that the listener uses: the [pathname] and the [search]
    of the resolved URL; [None] when the constructor throws. *)
Variable resolve : string -> string -> option (string * string).

(** [req.headers.host], as the template literal prints it. *)
Definition host_of (req : IncomingMessage) : string :=
  match header "host" (headers req) with
  | Some (HeaderString v) => v
  | Some (HeaderList l) => join "," l
  | Some HeaderUndefined | None =>
      Config.host (config runtime) ++ ":" ++
      of_Z (Config.port (config runtime))
  end.

(** [url] is [req.url]. *)
Definition listener (req : IncomingMessage) (url : option string)
  : M unit :=
  match resolve (Config.coalesce url "/") ("http://" ++ host_of req) with
  | None => throw (OtherError "Invalid URL")
  | Some (pathname, search) =>
      if String.eqb pathname "/healthz" && is_GET (method req) then
        Errors.sendJson 200 (JObj [("status", JStr "ok")])
      else if negb (verifyLocalApiKey req (Config.apiKey (config runtime)))
      then
        Errors.sendOpenAIError 401 "Invalid or missing API key."
                        (Errors.with_code_type "invalid_api_key"
                                        "authentication_error")
      else
        handled <- handleLocalModelsEndpoint req pathname ;;
        if handled : bool then ret tt
        else if negb (String.eqb pathname "/v1") &&
                negb (startsWith "/v1/" pathname)
        then
          Errors.sendOpenAIError 404
                          ("Path not found: " ++ pathname ++
                           ". Only /v1/* is proxied.")
                          (Errors.with_code "not_found")
        else forward (forwarder runtime) req pathname search
  end.

End Listener.

End Gateway.

(* ================================================================== *)
(** * The entry point: [main] *)
(* ================================================================== *)

Module Main.

Import Config Gateway.
Local Open Scope string_scope.
Local Open Scope monad_scope.

(** How [main] leaves the process: ended with an exit code, after what
    it wrote to the two streams; listening; or ended by an error that no
    handler takes.  The last is the ['error'] event of the server, for
    which [main] registers no listener: the event is thrown as an
    uncaught exception, the promise that [main] awaits never settles,
    and neither the rest of [main] nor the handler of [main().catch]
    runs. *)
Inductive state :=
| Exited (stdout stderr : string) (exitCode : Z)
| Listening (host : string) (port : Z) (stdout : string)
| Uncaught (message : string).

(** [error instanceof Error ? error.message : String(error)] *)
Definition message_of (e : error) : string :=
  match e with
  | OAuthCredentialsError m _ _ => m
  | HttpRequestError m _ _ => m
  | OtherError m => m
  end.

Section Process.

Context {HP : Url.HostParser}.
Variable parseArgs : list string -> result Values.
Variable DEFAULT_CREDENTIALS_FILE : string.
Variable randomBytes : nat -> chars.

(** [server.listen(port, host, callback)]: [None] when the server is
    bound and the callback is called; otherwise the message of the
    ['error'] event that the server emits (the address is in use, the
    host has no address, the port is not permitted). *)
Variable listen : Z -> string -> option string.

Definition getUsageText : string :=
  join nl
    ["qwen-code-api: local OpenAI-compatible proxy backed by Qwen OAuth";
     "";
     "Usage:";
     "  qwen-code-api [options]";
     "";
     "Options:";
     "  -h, --help                        Show this help";
     "  --host <host>                    Listen host (default: " ++
       DEFAULT_HOST ++ ")";
     "  -p, --port <port>                Listen port (default: " ++
       of_Z DEFAULT_PORT ++ ")";
     "  --api-key <key>                  Local API key used by client apps";
     "  --credentials-file <path>        Qwen OAuth credentials file (default: "
       ++ DEFAULT_CREDENTIALS_FILE ++ ")";
     "  --upstream-base-url <url>        Override upstream base URL " ++
       "from OAuth resource_url";
     "  --token-refresh-buffer-ms <ms>   Refresh token if expiry is " ++
       "within this window (default: " ++
       of_Z DEFAULT_TOKEN_REFRESH_BUFFER_MS ++ ")";
     "  --request-timeout-ms <ms>        Upstream request timeout (default: "
       ++ of_Z DEFAULT_REQUEST_TIMEOUT_MS ++ ")";
     "";
     "Environment variables:";
     "  QWEN_CODE_API_HOST";
     "  QWEN_CODE_API_PORT";
     "  QWEN_CODE_API_KEY";
     "  QWEN_CODE_OAUTH_CREDENTIALS_PATH";
     "  QWEN_CODE_API_UPSTREAM_BASE_URL";
     "  QWEN_CODE_TOKEN_REFRESH_BUFFER_MS";
     "  QWEN_CODE_API_REQUEST_TIMEOUT_MS"].

(** The handler of [main().catch]. *)
Definition failed (e : error) : state :=
  Exited "" ("Failed to start qwen-code-api: " ++ message_of e ++ nl) 1.

Definition banner (config : AppConfig) (upstreamBaseUrl : string) : string :=
  join nl
    ["qwen-code-api started at http://" ++ host config ++ ":" ++
       of_Z (port config);
     "Upstream base URL: " ++ upstreamBaseUrl;
     "Credentials file: " ++ credentialsFile config;
     if apiKeyGenerated config
     then "Local API key (auto-generated): " ++ apiKey config
     else "Local API key: (provided via --api-key or env)"] ++ nl.

(** [main] up to the moment the server listens or fails to. *)
Definition main (argv : list string) (env : ProcessEnv) : M state :=
  match loadConfig parseArgs DEFAULT_CREDENTIALS_FILE randomBytes argv env
  with
  | inr e => ret (failed e)
  | inl config =>
      if showHelp config then ret (Exited (getUsageText ++ nl) "" 0)
      else
        let oauthStore :=
          OAuth.mkOptions (credentialsFile config)
                          (tokenRefreshBufferMs config) in
        try_catch
          (bootCredentials <- Store.getValidCredentials oauthStore false ;;
           match OAuth.getUpstreamBaseUrl bootCredentials
                                          (upstreamBaseUrl config) with
           | None => throw (OtherError "Invalid URL")
           | Some upstreamBaseUrl =>
               match listen (port config) (host config) with
               | Some message => ret (Uncaught message)
               | None =>
                   ret (Listening (host config) (port config)
                                  (banner config upstreamBaseUrl))
               end
           end)
          (fun e => ret (failed e))
  end.

End Process.

End Main.

(* ================================================================== *)
(** * More sample environments *)
(* ================================================================== *)

Module Cases.

Import OAuth Server.
Local Open Scope string_scope.

(** A world with a valid stored token. *)
Definition steady : world :=
  Sample.world_of 1000 Sample.fresh_file Sample.new_token
                  (Sample.upstream_of 200).

(** A world without credential file. *)
Definition no_file : world :=
  Sample.world_of 1000 FileMissing Sample.new_token (Sample.upstream_of 200).

(** A world whose stored access token holds a line feed. *)
Definition split_token : world :=
  Sample.world_of 1000
    (Sample.file_of
       (JObj [("access_token", JStr ("at" ++ nl ++ "0"));
              ("refresh_token", JStr "rt0");
              ("expiry_date", JNum 5000000)]))
    Sample.new_token (Sample.upstream_of 200).

(** A world whose upstream API cannot be reached. *)
Definition unreachable : world :=
  Sample.world_of 1000 Sample.fresh_file Sample.new_token
                  (UpstreamRejected "TypeError" "fetch failed").

(** The credential that a refresh of [Sample.bare] brings at time 1000. *)
Definition refreshed : QwenCredentials :=
  nextCredentials Sample.bare (JObj [("access_token", JStr "at1")]) "at1"
                  1000.

Definition config : Config.AppConfig :=
  Config.mkAppConfig "127.0.0.1" 8787 "secret" false
                     "/home/u/.qwen/oauth_creds.json" None 30000 120000
                     false.

Definition runtime : Gateway.ProxyRuntime :=
  Gateway.mkRuntime config Sample.options.

(** A request that carries the key of [config]. *)
Definition with_key (m : string) : IncomingMessage :=
  mkRequest (Some m) [("authorization", HeaderString "Bearer secret")] [].

(** A resolver for request targets in origin form: the path up to the
    first question mark, and the rest. *)
Definition resolve (input base : string) : option (string * string) :=
  let (p, q) := span (fun c => negb (Ascii.eqb c "?")) (of_string input) in
  Some (to_string p, to_string q).

(** A command line that names a port, an empty environment, and the
    configuration that they give with 24 bytes [a]. *)
Definition parseArgs (argv : list string) : result Config.Values :=
  inl (Config.mkValues None None (Some "8080") None None None None None).

Definition env (port : option string) : Config.ProcessEnv :=
  Config.mkEnv None port None None None None None.

Definition randomBytes (n : nat) : chars := repeat "a"%char n.

Definition loaded : Config.AppConfig :=
  Config.mkAppConfig "127.0.0.1" 8080 (Platform.to_hex (randomBytes 24)) true
                     "/home/u/.qwen/oauth_creds.json" None 30000 120000
                     false.

End Cases.

(* ================================================================== *)
(** * Properties of the character lists *)
(* ================================================================== *)

Module CharsFacts.

Local Open Scope char_scope.

Lemma eqb_eq (a b : chars) : Chars.eqb a b = true <-> a = b.
Proof.
  revert b. induction a as [|x a IH]; intros [|y b]; simpl;
    try (split; [discriminate | intros [=]]); [tauto|].
  rewrite andb_true_iff, Ascii.eqb_eq, IH. split.
  - now intros [-> ->].
  - now intros [= -> ->].
Qed.

Lemma eqb_refl (a : chars) : Chars.eqb a a = true.
Proof. now apply eqb_eq. Qed.

Lemma lower_idem (c : ascii) : lower (lower c) = lower c.
Proof. each_char c; reflexivity. Qed.

Lemma map_lower_idem (s : chars) : map lower (map lower s) = map lower s.
Proof.
  rewrite map_map. apply map_ext. intros c. apply lower_idem.
Qed.

Lemma starts_with_app (p r : chars) : starts_with p (p ++ r) = true.
Proof.
  induction p as [|c p IH]; simpl; [reflexivity|].
  now rewrite Ascii.eqb_refl.
Qed.

Lemma starts_with_split (p s : chars) :
  starts_with p s = true -> exists r, s = p ++ r.
Proof.
  revert s. induction p as [|c p IH]; intros s H.
  - now exists s.
  - destruct s as [|d s]; [discriminate|]. simpl in H.
    apply andb_true_iff in H. destruct H as [Hc Hp].
    apply Ascii.eqb_eq in Hc. subst d.
    destruct (IH s Hp) as (r & ->). now exists r.
Qed.

Lemma ends_with_app (p q : chars) : ends_with p (q ++ p) = true.
Proof.
  unfold ends_with. rewrite rev_app_distr. apply starts_with_app.
Qed.

Lemma ends_with_split (p s : chars) :
  ends_with p s = true -> exists q, s = q ++ p.
Proof.
  unfold ends_with. intros H. apply starts_with_split in H.
  destruct H as (r & Hr). exists (rev r).
  rewrite <- (rev_involutive s), Hr, rev_app_distr.
  now rewrite rev_involutive.
Qed.

Lemma drop_while_none (f : ascii -> bool) (s : chars) :
  forallb (fun c => negb (f c)) s = true -> drop_while f s = s.
Proof.
  destruct s as [|c s]; [reflexivity|]. simpl.
  intros H. apply andb_true_iff in H. destruct H as [Hc _].
  apply negb_true_iff in Hc. now rewrite Hc.
Qed.

Lemma drop_while_app (f : ascii -> bool) (a r : chars) :
  forallb f a = true ->
  drop_while f (a ++ r) = drop_while f r.
Proof.
  induction a as [|c a IH]; simpl; [reflexivity|].
  intros H. apply andb_true_iff in H. destruct H as [Hc Ha].
  rewrite Hc. now apply IH.
Qed.

Lemma forallb_rev (f : ascii -> bool) (s : chars) :
  forallb f (rev s) = forallb f s.
Proof.
  induction s as [|c s IH]; [reflexivity|]. simpl.
  rewrite forallb_app, IH. simpl. rewrite andb_true_r. apply andb_comm.
Qed.

Lemma strip_trailing_none (f : ascii -> bool) (s : chars) :
  forallb (fun c => negb (f c)) s = true -> strip_trailing f s = s.
Proof.
  intros H. unfold strip_trailing.
  rewrite drop_while_none by now rewrite forallb_rev.
  apply rev_involutive.
Qed.

(** A string that ends with a character outside the class. *)
Lemma strip_trailing_last (f : ascii -> bool) (s : chars) (c : ascii) :
  f c = false -> strip_trailing f (s ++ [c]) = s ++ [c].
Proof.
  intros H. unfold strip_trailing. rewrite rev_app_distr. simpl.
  rewrite H. simpl. now rewrite rev_involutive.
Qed.

Lemma strip_one_trailing_last (f : ascii -> bool) (s : chars) (c : ascii) :
  f c = false -> strip_one_trailing f (s ++ [c]) = s ++ [c].
Proof.
  intros H. unfold strip_one_trailing. rewrite rev_app_distr. simpl.
  now rewrite H.
Qed.

Lemma span_all (f : ascii -> bool) (a r : chars) :
  forallb f a = true ->
  span f (a ++ r) = (a ++ fst (span f r), snd (span f r)).
Proof.
  induction a as [|c a IH]; simpl.
  - intros _. now destruct (span f r).
  - intros H. apply andb_true_iff in H. destruct H as [Hc Ha].
    rewrite Hc, (IH Ha). reflexivity.
Qed.

Lemma span_stop (f : ascii -> bool) (a : chars) (c : ascii) (r : chars) :
  forallb f a = true -> f c = false ->
  span f (a ++ c :: r) = (a, c :: r).
Proof.
  intros Ha Hc. rewrite (span_all f a (c :: r) Ha). simpl. rewrite Hc.
  simpl. now rewrite app_nil_r.
Qed.

Lemma span_end (f : ascii -> bool) (a : chars) :
  forallb f a = true -> span f a = (a, []).
Proof.
  intros Ha. rewrite <- (app_nil_r a) at 1.
  rewrite (span_all f a [] Ha). simpl. now rewrite app_nil_r.
Qed.

Lemma forallb_weaken (f g : ascii -> bool) (s : chars) :
  (forall c, f c = true -> g c = true) ->
  forallb f s = true -> forallb g s = true.
Proof.
  intros Hfg. induction s as [|c s IH]; simpl; [reflexivity|].
  intros H. apply andb_true_iff in H. destruct H as [Hc Hs].
  now rewrite (Hfg c Hc), (IH Hs).
Qed.

(** ** [trim] on a string that starts and ends with a printable ASCII
    character *)

Lemma ws_prefix_printable (c : ascii) (s : chars) :
  printable c = true -> ws_prefix (c :: s) = None.
Proof. each_char c; intros H; try discriminate H; reflexivity. Qed.

Lemma ws_suffix_rev_printable (c : ascii) (s : chars) :
  printable c = true -> ws_suffix_rev (c :: s) = None.
Proof. each_char c; intros H; try discriminate H; reflexivity. Qed.

Lemma trim_printable (c d : ascii) (s : chars) :
  printable c = true -> printable d = true ->
  trim (c :: s ++ [d]) = c :: s ++ [d].
Proof.
  intros Hc Hd. unfold trim, trim_start.
  cbn [List.length trim_aux]. rewrite ws_prefix_printable by assumption.
  unfold trim_end. change (c :: s ++ [d]) with ((c :: s) ++ [d]).
  rewrite rev_app_distr.
  change (rev [d] ++ rev (c :: s)) with (d :: rev (c :: s)).
  destruct (List.length ((c :: s) ++ [d])); cbn [trim_aux].
  all: try rewrite ws_suffix_rev_printable by assumption.
  all: change (d :: rev (c :: s)) with ([d] ++ rev (c :: s)).
  all: now rewrite rev_app_distr, rev_involutive.
Qed.

(** ** Decimal numbers *)

Lemma string_of_uint_digits (d : Decimal.uint) :
  forallb is_digit (of_string (NilEmpty.string_of_uint d)) = true.
Proof. induction d; simpl; auto. Qed.

Lemma of_N_digits (n : N) : forallb is_digit (of_N n) = true.
Proof. apply string_of_uint_digits. Qed.

Lemma of_N_nonempty (n : N) : of_N n <> [].
Proof.
  unfold of_N. destruct n as [|p]; [discriminate|].
  simpl. pose proof (DecimalPos.Unsigned.to_uint_nonnil p) as H.
  destruct (Pos.to_uint p); try contradiction; discriminate.
Qed.

Lemma of_N_value (n : N) :
  NilEmpty.uint_of_string (to_string (of_N n)) = Some (N.to_uint n).
Proof.
  unfold of_N, to_string, of_string.
  rewrite string_of_list_ascii_of_string. apply NilEmpty.usu.
Qed.

End CharsFacts.

(* ================================================================== *)
(** * Properties of the URL model *)
(* ================================================================== *)

Module UrlFacts.

Import Url CharsFacts.
Local Open Scope char_scope.

(** ** The host parser for plain DNS names *)

Lemma name_char_lower (c : ascii) :
  is_name_char c = true -> lower c = c -> forbidden_domain c = false.
Proof. each_char c; vm_compute; congruence. Qed.

Lemma host_wf_domain (c : ascii) (s : chars) :
  Ascii.eqb c "[" = false ->
  host_wf (c :: s) =
  forallb (fun c => negb (forbidden_domain c)) (c :: s).
Proof. each_char c; intros H; try discriminate H; reflexivity. Qed.

Lemma name_char_not_bracket (c : ascii) :
  is_name_char c = true -> Ascii.eqb c "[" = false.
Proof. each_char c; vm_compute; congruence. Qed.

Lemma dns_name_wf (s h : chars) : dns_name s = Some h -> host_wf h = true.
Proof.
  unfold dns_name.
  destruct (negb (is_empty (map lower s))) eqn:He; [|discriminate].
  destruct (forallb is_name_char (map lower s)) eqn:Hn; [|discriminate].
  destruct (negb (includes _ _)); [|discriminate]. intros [= <-].
  destruct (map lower s) as [|c l] eqn:Hl; [discriminate|].
  rewrite host_wf_domain
    by (apply name_char_not_bracket; simpl in Hn;
        now apply andb_true_iff in Hn).
  assert (Hlow : map lower (c :: l) = c :: l)
    by (rewrite <- Hl; apply map_lower_idem).
  clear Hl He. revert Hn Hlow. generalize (c :: l). intros t.
  induction t as [|x t IH]; [reflexivity|]. simpl.
  intros Hn [= Hx Ht]. apply andb_true_iff in Hn. destruct Hn as [Hxn Htn].
  rewrite (name_char_lower x Hxn Hx). simpl. now apply IH.
Qed.

Lemma dns_name_stable (s h : chars) :
  dns_name s = Some h -> dns_name h = Some h.
Proof.
  unfold dns_name.
  destruct (negb (is_empty (map lower s)) &&
            forallb is_name_char (map lower s) &&
            negb (includes ["x"; "n"; "-"; "-"] (map lower s))) eqn:H;
    [|discriminate].
  intros [= <-]. now rewrite map_lower_idem, H.
Qed.

#[export] Instance dns : HostParser :=
  {| parseHost := dns_name;
     parseHost_wf := dns_name_wf;
     parseHost_stable := dns_name_stable |}.

(** ** Percent-encoding *)

Lemma percent_encode_clean (set : ascii -> bool) (s : chars) :
  clean set s = true -> percent_encode set s = s.
Proof.
  induction s as [|c s IH]; [reflexivity|]. simpl.
  intros H. apply andb_true_iff in H. destruct H as [Hc Hs].
  apply negb_true_iff in Hc. unfold percent_encode_char. rewrite Hc.
  simpl. f_equal. now apply IH.
Qed.

Lemma userinfo_encoded_char (c : ascii) :
  clean userinfo_set (percent_encode_char userinfo_set c) = true.
Proof. each_char c; reflexivity. Qed.

Lemma path_encoded_char (c : ascii) :
  clean path_set (percent_encode_char path_set c) = true.
Proof. each_char c; reflexivity. Qed.

Lemma userinfo_encoded (s : chars) :
  clean userinfo_set (percent_encode userinfo_set s) = true.
Proof.
  induction s as [|c s IH]; [reflexivity|]. unfold clean in *.
  cbn [percent_encode flat_map]. rewrite forallb_app.
  change (forallb (fun c0 => negb (userinfo_set c0)) (percent_encode_char userinfo_set c))
    with (clean userinfo_set (percent_encode_char userinfo_set c)).
  rewrite (userinfo_encoded_char c). exact IH.
Qed.

(** ** Paths *)

Lemma path_state_segment (seg rest buf : chars) (p : list chars) :
  forallb seg_char seg = true ->
  path_state (seg ++ rest) buf p = path_state rest (buf ++ seg) p.
Proof.
  revert buf. induction seg as [|c seg IH]; intros buf H.
  - simpl. now rewrite app_nil_r.
  - simpl in H. apply andb_true_iff in H. destruct H as [Hc Hs].
    unfold seg_char in Hc. apply andb_true_iff in Hc.
    destruct Hc as [Hset Hslash].
    apply negb_true_iff in Hset. apply negb_true_iff in Hslash.
    cbn [app path_state]. rewrite Hslash.
    unfold percent_encode_char. rewrite Hset.
    rewrite (IH (buf ++ [c]) Hs). now rewrite <- app_assoc.
Qed.

Lemma end_segment_ok (followed : bool) (seg : chars) (p : list chars) :
  seg_ok seg = true -> end_segment followed seg p = p ++ [seg].
Proof.
  unfold seg_ok, end_segment. intros H.
  apply andb_true_iff in H. destruct H as [H Hd].
  apply andb_true_iff in H. destruct H as [_ Hs].
  apply negb_true_iff in Hd. apply negb_true_iff in Hs.
  now rewrite Hd, Hs.
Qed.

Lemma seg_ok_chars (seg : chars) :
  seg_ok seg = true -> forallb seg_char seg = true.
Proof.
  unfold seg_ok. intros H. apply andb_true_iff in H. destruct H as [H _].
  apply andb_true_iff in H. tauto.
Qed.

Lemma path_state_serialized (segs : list chars) :
  forall (seg : chars) (p : list chars),
    seg_ok seg = true -> forallb seg_ok segs = true ->
    path_state (seg ++ serialize_path segs) [] p = p ++ seg :: segs.
Proof.
  induction segs as [|s2 segs IH]; intros seg p Hseg Hsegs.
  - simpl. rewrite app_nil_r.
    rewrite <- (app_nil_r seg) at 1.
    rewrite path_state_segment by now apply seg_ok_chars.
    simpl. now apply end_segment_ok.
  - simpl in Hsegs. apply andb_true_iff in Hsegs.
    destruct Hsegs as [Hs2 Hsegs].
    rewrite path_state_segment by now apply seg_ok_chars.
    cbn [serialize_path flat_map app path_state].
    change (Url.is_slash "/") with true. cbn iota.
    rewrite end_segment_ok by assumption.
    change (flat_map (fun seg0 => "/" :: seg0) segs)
      with (serialize_path segs).
    rewrite (IH s2 (p ++ [seg]) Hs2 Hsegs).
    now rewrite <- app_assoc.
Qed.

(** The path setter and the path getter are inverse on a parsed path. *)
Lemma path_start_serialized (segs : list chars) :
  segs <> [] -> forallb seg_ok segs = true ->
  path_start (serialize_path segs) = segs.
Proof.
  destruct segs as [|seg segs]; [congruence|]. intros _ H.
  simpl in H. apply andb_true_iff in H. destruct H as [Hseg Hsegs].
  cbn [serialize_path flat_map app path_start].
  change (Url.is_slash "/") with true. cbn iota.
  apply (path_state_serialized segs seg [] Hseg Hsegs).
Qed.

Lemma forallb_removelast (f : chars -> bool) (p : list chars) :
  forallb f p = true -> forallb f (removelast p) = true.
Proof.
  induction p as [|x p IH]; [reflexivity|]. intros H.
  simpl in H. apply andb_true_iff in H. destruct H as [Hx Hp].
  destruct p as [|y p]; [reflexivity|].
  change (removelast (x :: y :: p)) with (x :: removelast (y :: p)).
  simpl. rewrite Hx. now apply IH.
Qed.

Lemma end_segment_all_ok (followed : bool) (buf : chars) (p : list chars) :
  forallb seg_char buf = true -> forallb seg_ok p = true ->
  forallb seg_ok (end_segment followed buf p) = true.
Proof.
  intros Hb Hp. unfold end_segment.
  destruct (is_double_dot buf) eqn:Hd.
  - destruct followed; [now apply forallb_removelast|].
    rewrite forallb_app, forallb_removelast by assumption. reflexivity.
  - destruct (is_single_dot buf) eqn:Hs.
    + destruct followed; [assumption|].
      rewrite forallb_app, Hp. reflexivity.
    + rewrite forallb_app, Hp. simpl. unfold seg_ok.
      now rewrite Hb, Hs, Hd.
Qed.

Lemma encoded_seg_char (c : ascii) :
  Url.is_slash c = false ->
  forallb seg_char (percent_encode_char path_set c) = true.
Proof. each_char c; intros H; try discriminate H; reflexivity. Qed.

Lemma path_state_ok (input : chars) :
  forall (buf : chars) (p : list chars),
    forallb seg_char buf = true -> forallb seg_ok p = true ->
    forallb seg_ok (path_state input buf p) = true.
Proof.
  induction input as [|c input IH]; intros buf p Hb Hp.
  - now apply end_segment_all_ok.
  - cbn [path_state]. destruct (Url.is_slash c) eqn:Hc.
    + apply IH; [reflexivity|]. now apply end_segment_all_ok.
    + apply IH; [|assumption].
      now rewrite forallb_app, Hb, encoded_seg_char.
Qed.

Lemma path_start_ok (input : chars) :
  forallb seg_ok (path_start input) = true.
Proof.
  unfold path_start. destruct input as [|c r].
  - reflexivity.
  - destruct (Url.is_slash c); now apply path_state_ok.
Qed.

Lemma path_state_v1 (a : chars) :
  forall (buf : chars) (p : list chars),
    exists q, path_state (a ++ OAuth.v1) buf p = q ++ [segment_v1].
Proof.
  induction a as [|c a IH]; intros buf p.
  - exists (end_segment true buf p). reflexivity.
  - cbn [app path_state]. destruct (Url.is_slash c); apply IH.
Qed.

Lemma path_start_v1 (a : chars) :
  exists q, path_start (a ++ OAuth.v1) = q ++ [segment_v1].
Proof.
  destruct a as [|c a].
  - now exists [].
  - cbn [app path_start]. destruct (Url.is_slash c).
    + apply path_state_v1.
    + apply (path_state_v1 (c :: a)).
Qed.

(** ** Hosts *)

Lemma domain_host_char (c : ascii) :
  forbidden_domain c = false ->
  host_char c = true /\ Ascii.eqb c ":" = false /\
  Ascii.eqb c "[" = false /\ Ascii.eqb c "]" = false.
Proof. each_char c; vm_compute; intros H; try discriminate H; auto. Qed.

Lemma ipv6_host_char (c : ascii) :
  (is_hex_digit c || Ascii.eqb c ":" || Ascii.eqb c ".") = true ->
  host_char c = true /\ Ascii.eqb c "[" = false /\ Ascii.eqb c "]" = false.
Proof. each_char c; vm_compute; intros H; try discriminate H; auto. Qed.

Lemma split_host_domain (h t : chars) :
  forallb (fun c => negb (forbidden_domain c)) h = true ->
  after_host t ->
  split_host false (h ++ t) = (h, port_of t).
Proof.
  intros Hh Ht. induction h as [|c h IH].
  - destruct Ht as [-> | (p & ->)]; reflexivity.
  - simpl in Hh. apply andb_true_iff in Hh. destruct Hh as [Hc Hh].
    apply negb_true_iff in Hc.
    destruct (domain_host_char c Hc) as (_ & Hcolon & Hopen & Hclose).
    cbn [app split_host]. rewrite Hcolon, Hopen, Hclose. cbn [andb].
    now rewrite (IH Hh).
Qed.

Lemma split_host_ipv6 (b t : chars) :
  ipv6_body b = true -> after_host t ->
  split_host true (b ++ t) = (b, port_of t).
Proof.
  intros Hb Ht. induction b as [|c b IH]; [discriminate|].
  destruct b as [|d b].
  - destruct (Ascii.eqb c "]") eqn:Hc.
    + apply Ascii.eqb_eq in Hc. subst c.
      destruct Ht as [-> | (p & ->)]; reflexivity.
    + assert (Hb' : ipv6_body [c] = false).
      { revert Hc. clear. each_char c; intros H; try discriminate H;
          reflexivity. }
      congruence.
  - assert (Hstep : ipv6_body (c :: d :: b) =
                    (is_hex_digit c || Ascii.eqb c ":" || Ascii.eqb c ".")
                    && ipv6_body (d :: b)).
    { clear. each_char c; reflexivity. }
    rewrite Hstep in Hb. apply andb_true_iff in Hb. destruct Hb as [Hc Hb].
    destruct (ipv6_host_char c Hc) as (_ & Hopen & Hclose).
    change ((c :: d :: b) ++ t) with (c :: (d :: b) ++ t).
    cbn [split_host]. rewrite Hopen, Hclose, andb_false_r.
    now rewrite (IH Hb).
Qed.

Lemma ipv6_body_chars (b : chars) :
  ipv6_body b = true -> forallb host_char b = true.
Proof.
  induction b as [|c b IH]; [discriminate|]. intros Hb.
  destruct b as [|d b].
  - destruct (Ascii.eqb c "]") eqn:Hc.
    + apply Ascii.eqb_eq in Hc. now subst c.
    + assert (Hb' : ipv6_body [c] = false).
      { revert Hc. clear. each_char c; intros H; try discriminate H;
          reflexivity. }
      congruence.
  - assert (Hstep : ipv6_body (c :: d :: b) =
                    (is_hex_digit c || Ascii.eqb c ":" || Ascii.eqb c ".")
                    && ipv6_body (d :: b)).
    { clear. each_char c; reflexivity. }
    rewrite Hstep in Hb. apply andb_true_iff in Hb. destruct Hb as [Hc Hb].
    destruct (ipv6_host_char c Hc) as (Hh & _).
    change (forallb host_char (c :: d :: b))
      with (host_char c && forallb host_char (d :: b)).
    now rewrite Hh, (IH Hb).
Qed.

(** What the development uses of a well-formed host. *)
Lemma host_wf_facts (h : chars) :
  host_wf h = true ->
  h <> [] /\ forallb host_char h = true /\
  forall t, after_host t -> split_host false (h ++ t) = (h, port_of t).
Proof.
  destruct h as [|c h]; [discriminate|]. intros H.
  split; [discriminate|].
  destruct (Ascii.eqb c "[") eqn:Hc.
  - apply Ascii.eqb_eq in Hc. subst c.
    change (host_wf ("[" :: h)) with (ipv6_body h) in H. split.
    + cbn [forallb]. now rewrite (ipv6_body_chars h H).
    + intros t Ht. cbn [app split_host].
      change (Ascii.eqb "[" ":" && negb false) with false.
      change (Ascii.eqb "[" "[") with true. cbn iota.
      now rewrite (split_host_ipv6 h t H Ht).
  - rewrite (host_wf_domain c h Hc) in H. split.
    + revert H. generalize (c :: h). intros s.
      induction s as [|x s IH]; [reflexivity|]. simpl.
      intros H. apply andb_true_iff in H. destruct H as [Hx Hs].
      apply negb_true_iff in Hx.
      destruct (domain_host_char x Hx) as (-> & _). now apply IH.
    + intros t Ht. now apply split_host_domain.
Qed.

(** ** The authority *)

Lemma split_userinfo_none (a : chars) :
  forallb (fun c => negb (Ascii.eqb c "@")) a = true -> split_userinfo a = (None, a).
Proof.
  intros H. unfold split_userinfo.
  rewrite (span_end _ (rev a)) by now rewrite forallb_rev.
  reflexivity.
Qed.

Lemma split_userinfo_some (x r : chars) :
  forallb (fun c => negb (Ascii.eqb c "@")) r = true ->
  split_userinfo (x ++ "@" :: r) = (Some x, r).
Proof.
  intros H. unfold split_userinfo.
  rewrite rev_app_distr. cbn [rev]. rewrite <- app_assoc. cbn [app].
  rewrite (span_stop _ (rev r) "@" (rev x))
    by (try reflexivity; now rewrite forallb_rev).
  now rewrite !rev_involutive.
Qed.

Lemma userinfo_char (c : ascii) :
  userinfo_set c = false ->
  is_c0_or_space c = false /\ is_authority_end c = false /\
  Ascii.eqb c "@" = false /\ Ascii.eqb c ":" = false.
Proof. each_char c; vm_compute; intros H; try discriminate H; auto. Qed.

Lemma digit_char (c : ascii) :
  is_digit c = true ->
  is_c0_or_space c = false /\ is_authority_end c = false /\
  Ascii.eqb c "@" = false.
Proof. each_char c; vm_compute; intros H; try discriminate H; auto. Qed.

Lemma seg_char_facts (c : ascii) :
  seg_char c = true ->
  is_c0_or_space c = false /\
  (Ascii.eqb c "?" || Ascii.eqb c "#") = false.
Proof. each_char c; vm_compute; intros H; try discriminate H; auto. Qed.

Lemma parse_credentials_clean (user pass : chars) :
  clean userinfo_set user = true -> clean userinfo_set pass = true ->
  parse_credentials (user ++ (if is_empty pass then [] else ":" :: pass))
  = (user, pass).
Proof.
  intros Hu Hp. unfold parse_credentials.
  assert (Hcolon : forallb (fun c => negb (Ascii.eqb c ":")) user = true).
  { revert Hu. apply forallb_weaken. intros c Hc.
    apply negb_true_iff in Hc. apply userinfo_char in Hc.
    destruct Hc as (_ & _ & _ & ->). reflexivity. }
  destruct pass as [|p pass]; cbn [is_empty].
  - rewrite app_nil_r, (span_end _ user Hcolon). cbn [tl].
    now rewrite percent_encode_clean.
  - rewrite (span_stop _ user ":" (p :: pass) Hcolon eq_refl). cbn [tl].
    now rewrite !percent_encode_clean.
Qed.

Lemma parse_port_of_N (sch : scheme) (n : N) :
  (n <= 65535)%N -> n <> default_port sch ->
  parse_port sch (of_N n) = Some (Some n).
Proof.
  intros Hle Hne. unfold parse_port.
  pose proof (of_N_nonempty n) as Hnil.
  destruct (of_N n) as [|d ds] eqn:Hn; [congruence|]. cbn [is_empty].
  rewrite <- Hn, of_N_value, DecimalN.Unsigned.of_to.
  apply N.leb_le in Hle. rewrite Hle.
  apply N.eqb_neq in Hne. now rewrite Hne.
Qed.

Lemma parse_port_ok (sch : scheme) (p : chars) (prt : option N) :
  parse_port sch p = Some prt -> port_ok sch prt.
Proof.
  unfold parse_port. destruct (is_empty p); [now intros [= <-]|].
  destruct (NilEmpty.uint_of_string _) as [d|]; [|discriminate].
  destruct (N.of_uint d <=? 65535)%N eqn:Hle; [|discriminate].
  destruct (N.of_uint d =? default_port sch)%N eqn:He; intros [= <-];
    [exact I|].
  split; [now apply N.leb_le | now apply N.eqb_neq].
Qed.

(** ** Parsing a serialised URL *)

Section Roundtrip.

Context {HP : HostParser}.

Lemma parse_authority_ok (input : chars) (u : url) :
  parse input = Some u -> authority_ok u.
Proof.
  unfold parse.
  destruct (parse_scheme _) as [[sch rest]|]; [|discriminate].
  destruct (span _ (drop_while _ _)) as [auth tail].
  destruct (split_userinfo auth) as [cred hostport].
  destruct (match cred with
            | Some c => parse_credentials c
            | None => ([], [])
            end) as [user pass] eqn:Hcred.
  destruct (split_host false hostport) as [hostbuf portbuf].
  destruct (is_empty hostbuf); [discriminate|].
  destruct (parseHost hostbuf) as [h|] eqn:Hh; [|discriminate].
  destruct (match portbuf with
            | Some p => parse_port sch p
            | None => Some None
            end) as [prt|] eqn:Hp; [|discriminate].
  destruct (span _ tail) as [p after].
  destruct (parse_query_fragment after) as [q f].
  intros [= <-]. unfold authority_ok. cbn [username password host port
                                            scheme_of].
  assert (Hup : clean userinfo_set user = true /\
                clean userinfo_set pass = true).
  { destruct cred as [c|].
    - unfold parse_credentials in Hcred. destruct (span _ c) as [a b].
      injection Hcred as <- <-. split; apply userinfo_encoded.
    - injection Hcred as <- <-. now split. }
  destruct Hup as [Hu Hpw].
  repeat split; try assumption.
  - exact (parseHost_wf _ _ Hh).
  - exact (parseHost_stable _ _ Hh).
  - destruct portbuf as [pb|].
    + exact (parse_port_ok sch pb prt Hp).
    + injection Hp as <-. exact I.
Qed.

Lemma serialize_port_chars (u : url) :
  forallb host_char (serialize_port u) = true /\
  after_host (serialize_port u).
Proof.
  unfold serialize_port. destruct (port u) as [n|].
  - split; [|right; eauto]. cbn [forallb].
    change (host_char ":") with true. cbn [andb].
    generalize (of_N_digits n). apply forallb_weaken.
    intros c Hc. destruct (digit_char c Hc) as (H1 & H2 & H3).
    unfold host_char. now rewrite H1, H2, H3.
  - split; [reflexivity | now left].
Qed.

Lemma clean_userinfo_chars (s : chars) :
  clean userinfo_set s = true ->
  forallb (fun c => negb (is_c0_or_space c) && negb (is_authority_end c))
          s = true /\
  forallb (fun c => negb (Ascii.eqb c "@")) s = true.
Proof.
  intros H. split; revert H; apply forallb_weaken; intros c Hc;
    apply negb_true_iff in Hc; apply userinfo_char in Hc;
    destruct Hc as (H1 & H2 & H3 & _); now rewrite ?H1, ?H2, ?H3.
Qed.

Lemma host_chars_weaken (s : chars) :
  forallb host_char s = true ->
  forallb (fun c => negb (is_c0_or_space c) && negb (is_authority_end c))
          s = true /\
  forallb (fun c => negb (Ascii.eqb c "@")) s = true.
Proof.
  intros H. split; revert H; apply forallb_weaken; intros c Hc;
    unfold host_char in Hc; apply andb_true_iff in Hc;
    destruct Hc as [Hc H3]; [exact Hc | exact H3].
Qed.

(** The user information is empty or ends with the only [@] of the
    authority, and the credentials parse to the user and the
    password. *)
Lemma split_authority (u : url) :
  authority_ok u ->
  let (cred, hostport) := split_userinfo (authority u) in
  hostport = host u ++ serialize_port u /\
  match cred with
  | Some c => parse_credentials c
  | None => ([], [])
  end = (username u, password u).
Proof.
  intros (Hu & Hp & Hwf & _ & _).
  destruct (host_wf_facts (host u) Hwf) as (_ & Hhc & _).
  destruct (serialize_port_chars u) as (Hpc & _).
  assert (Hno : forallb (fun c => negb (Ascii.eqb c "@"))
                        (host u ++ serialize_port u) = true).
  { rewrite forallb_app.
    destruct (host_chars_weaken _ Hhc) as (_ & ->).
    destruct (host_chars_weaken _ Hpc) as (_ & ->). reflexivity. }
  unfold authority, serialize_userinfo.
  destruct (is_empty (username u) && is_empty (password u)) eqn:He.
  - cbn [app]. rewrite (split_userinfo_none _ Hno).
    split; [reflexivity|].
    apply andb_true_iff in He. destruct He as [H1 H2].
    destruct (username u); [|discriminate].
    destruct (password u); [|discriminate]. reflexivity.
  - rewrite <- !app_assoc. cbn [app].
    rewrite app_assoc.
    rewrite (split_userinfo_some _ _ Hno).
    split; [reflexivity|]. now apply parse_credentials_clean.
Qed.

Lemma href_canonical (u : url) :
  canonical u ->
  href u =
  scheme_chars (scheme_of u) ++
  ":" :: "/" :: "/" :: authority u ++ serialize_path (path u).
Proof.
  intros (_ & _ & _ & Hq & Hf). unfold href, authority.
  rewrite Hq, Hf, !app_nil_r, <- !app_assoc. reflexivity.
Qed.

Lemma authority_chars (u : url) :
  authority_ok u ->
  authority u <> [] /\
  forallb (fun c => negb (is_c0_or_space c) && negb (is_authority_end c))
          (authority u) = true.
Proof.
  intros (Hu & Hp & Hwf & _ & _).
  destruct (host_wf_facts (host u) Hwf) as (Hne & Hhc & _).
  destruct (serialize_port_chars u) as (Hpc & _).
  split.
  - unfold authority. intros H. apply app_eq_nil in H.
    destruct H as [_ H]. apply app_eq_nil in H. now destruct H.
  - unfold authority. rewrite !forallb_app.
    destruct (host_chars_weaken _ Hhc) as (-> & _).
    destruct (host_chars_weaken _ Hpc) as (-> & _).
    rewrite andb_true_r. unfold serialize_userinfo.
    destruct (is_empty (username u) && is_empty (password u));
      [reflexivity|].
    rewrite !forallb_app.
    destruct (clean_userinfo_chars _ Hu) as (-> & _).
    destruct (is_empty (password u)); [reflexivity|].
    cbn [forallb]. destruct (clean_userinfo_chars _ Hp) as (-> & _).
    reflexivity.
Qed.

Lemma serialize_path_chars (p : list chars) :
  forallb seg_ok p = true ->
  forallb (fun c => negb (is_c0_or_space c) &&
                    negb (Ascii.eqb c "?" || Ascii.eqb c "#"))
          (serialize_path p) = true.
Proof.
  induction p as [|seg p IH]; [reflexivity|]. intros H.
  simpl in H. apply andb_true_iff in H. destruct H as [Hseg Hp].
  cbn [serialize_path flat_map]. rewrite forallb_app.
  change (flat_map (fun seg0 => "/" :: seg0) p) with (serialize_path p).
  rewrite (IH Hp), andb_true_r. cbn [forallb].
  change (negb (is_c0_or_space "/") &&
          negb (Ascii.eqb "/" "?" || Ascii.eqb "/" "#")) with true.
  cbn [andb]. generalize (seg_ok_chars seg Hseg). apply forallb_weaken.
  intros c Hc. destruct (seg_char_facts c Hc) as (-> & ->). reflexivity.
Qed.

Lemma parse_scheme_chars (sch : scheme) (r : chars) :
  parse_scheme (scheme_chars sch ++ ":" :: r) = Some (sch, r).
Proof. destruct sch; reflexivity. Qed.

Lemma scheme_chars_plain (sch : scheme) :
  forallb (fun c => negb (is_c0_or_space c)) (scheme_chars sch) = true.
Proof. destruct sch; reflexivity. Qed.

(** Every character of the serialisation is above the space. *)
Lemma href_plain (u : url) :
  canonical u ->
  forallb (fun c => negb (is_c0_or_space c)) (href u) = true.
Proof.
  intros Hc. rewrite (href_canonical u Hc).
  destruct Hc as (Ha & _ & Hp & _).
  rewrite forallb_app, scheme_chars_plain. cbn [forallb andb].
  change (negb (is_c0_or_space ":")) with true.
  change (negb (is_c0_or_space "/")) with true. cbn [andb].
  rewrite forallb_app. apply andb_true_iff. split.
  - destruct (authority_chars u Ha) as (_ & H). revert H.
    apply forallb_weaken. intros c H.
    apply andb_true_iff in H. tauto.
  - generalize (serialize_path_chars _ Hp). apply forallb_weaken.
    intros c H. apply andb_true_iff in H. tauto.
Qed.

Lemma clean_up_plain (s : chars) :
  forallb (fun c => negb (is_c0_or_space c)) s = true ->
  remove_tab_nl (strip_c0 s) = s.
Proof.
  intros H. unfold strip_c0.
  rewrite (drop_while_none is_c0_or_space s H).
  rewrite (strip_trailing_none is_c0_or_space s H).
  unfold remove_tab_nl. apply forallb_filter_id.
  revert H. apply forallb_weaken. clear.
  intros c. each_char c; intros H; try discriminate H; reflexivity.
Qed.

(** [new URL(u.href)] is [u]. *)
Lemma parse_href (u : url) : canonical u -> parse (href u) = Some u.
Proof.
  intros Hc. unfold parse.
  rewrite (clean_up_plain _ (href_plain u Hc)).
  rewrite (href_canonical u Hc), parse_scheme_chars.
  destruct Hc as (Ha & Hne & Hp & Hq & Hf).
  destruct (authority_chars u Ha) as (Hane & Hac).
  (* the slashes *)
  cbn [drop_while]. change (Url.is_slash "/") with true. cbn iota.
  assert (Hdrop : forall r, drop_while Url.is_slash (authority u ++ r) =
                            authority u ++ r).
  { intros r. destruct (authority u) as [|c a]; [congruence|].
    cbn [forallb] in Hac. apply andb_true_iff in Hac.
    destruct Hac as [Hc _]. apply andb_true_iff in Hc.
    destruct Hc as [_ Hc]. apply negb_true_iff in Hc.
    unfold is_authority_end in Hc. apply orb_false_iff in Hc.
    destruct Hc as [Hc _]. apply orb_false_iff in Hc.
    destruct Hc as [Hc _]. cbn [app drop_while]. now rewrite Hc. }
  rewrite Hdrop.
  (* the authority *)
  destruct (path u) as [|seg segs] eqn:Hpath; [congruence|].
  assert (Hspan : span (fun c => negb (is_authority_end c))
                       (authority u ++ serialize_path (seg :: segs)) =
                  (authority u, serialize_path (seg :: segs))).
  { cbn [serialize_path flat_map app]. apply span_stop; [|reflexivity].
    revert Hac. apply forallb_weaken. intros c H.
    apply andb_true_iff in H. tauto. }
  rewrite Hspan.
  pose proof (split_authority u Ha) as Hsplit.
  destruct (split_userinfo (authority u)) as [cred hostport].
  destruct Hsplit as [-> Hcred]. rewrite Hcred.
  destruct Ha as (_ & _ & Hwf & Hstable & Hport).
  destruct (host_wf_facts (host u) Hwf) as (Hhne & _ & Hsplit).
  destruct (serialize_port_chars u) as (_ & Hafter).
  rewrite (Hsplit _ Hafter).
  destruct (host u) as [|hc h] eqn:Hhost; [congruence|]. cbn [is_empty].
  rewrite Hstable.
  assert (Hprt : match port_of (serialize_port u) with
                 | Some p => parse_port (scheme_of u) p
                 | None => Some None
                 end = Some (port u)).
  { unfold serialize_port. destruct (port u) as [n|]; [|reflexivity].
    cbn [port_of]. destruct Hport as [Hle Hnd].
    now apply parse_port_of_N. }
  rewrite Hprt.
  (* the path *)
  rewrite (span_end _ (serialize_path (seg :: segs)))
    by (rewrite <- Hpath in Hp; rewrite <- Hpath;
        generalize (serialize_path_chars _ Hp); apply forallb_weaken;
        intros c H; apply andb_true_iff in H; tauto).
  cbn [parse_query_fragment].
  rewrite path_start_serialized by (congruence || assumption).
  destruct u. cbn in *. now subst.
Qed.

End Roundtrip.

End UrlFacts.

(* ================================================================== *)
(** * Properties of the URL resolver *)
(* ================================================================== *)

Module ResolverFacts.

Import Url CharsFacts UrlFacts OAuth.
Local Open Scope char_scope.

Section Resolver.

Context {HP : HostParser}.

Lemma set_search_empty (u : url) :
  query u = None -> set_search u [] = u.
Proof. destruct u. cbn. now intros ->. Qed.

Lemma set_hash_empty (u : url) :
  fragment u = None -> set_hash u [] = u.
Proof. destruct u. cbn. now intros ->. Qed.

Lemma remove_tab_nl_app (a b : chars) :
  remove_tab_nl (a ++ b) = remove_tab_nl a ++ remove_tab_nl b.
Proof. apply filter_app. Qed.

Lemma serialize_path_app (p q : list chars) :
  serialize_path (p ++ q) = serialize_path p ++ serialize_path q.
Proof. unfold serialize_path. apply flat_map_app. Qed.

(** A URL whose path has been set to a value that ends in [/v1],
    after its query and its fragment have been emptied. *)
Lemma set_pathname_v1 (n : url) (a : chars) :
  authority_ok n ->
  let u := set_pathname (set_hash (set_search n []) []) (a ++ v1) in
  canonical u /\ exists q, path u = q ++ [segment_v1].
Proof.
  intros Ha u.
  assert (Hpath : path u = path_start (remove_tab_nl a ++ v1)).
  { unfold u, set_pathname. cbn [path]. now rewrite remove_tab_nl_app. }
  destruct (path_start_v1 (remove_tab_nl a)) as (q & Hq).
  split; [|exists q; congruence].
  split; [exact Ha|]. rewrite Hpath. split; [|split; [|split]].
  - rewrite Hq. now destruct q.
  - apply path_start_ok.
  - reflexivity.
  - reflexivity.
Qed.

(** The serialisation of a canonical URL whose last segment is [v1]. *)
Lemma href_v1 (u : url) (q : list chars) :
  canonical u -> path u = q ++ [segment_v1] ->
  exists s, href u = "h" :: s ++ ["1"].
Proof.
  intros Hc Hq. rewrite (href_canonical u Hc), Hq, serialize_path_app.
  exists (tl (scheme_chars (scheme_of u)) ++
          ":" :: "/" :: "/" :: authority u ++ serialize_path q ++
          ["/"; "v"]).
  assert (Hv : serialize_path [segment_v1] = ["/"; "v"] ++ ["1"])
    by reflexivity.
  rewrite Hv.
  assert (Hs : scheme_chars (scheme_of u) =
               "h" :: tl (scheme_chars (scheme_of u)))
    by (destruct (scheme_of u); reflexivity).
  rewrite Hs at 1. cbn [app]. f_equal.
  rewrite <- !app_assoc. cbn [app]. rewrite <- !app_assoc. reflexivity.
Qed.

Lemma has_http_scheme_href (u : url) : has_http_scheme (href u) = true.
Proof. unfold href. destruct (scheme_of u); reflexivity. Qed.

Lemma normalize_canonical (resourceUrl : option chars) (y : chars) :
  normalize resourceUrl = Some y ->
  exists (u : url) (q : list chars),
    canonical u /\ path u = q ++ [segment_v1] /\ y = href u.
Proof.
  unfold normalize.
  destruct (parse _) as [n|] eqn:Hn; [|discriminate].
  apply parse_authority_ok in Hn.
  set (n2 := set_hash (set_search n []) []).
  set (cleanPath := strip_trailing OAuth.is_slash (pathname n2)).
  assert (Hshape : exists a,
             (if is_empty cleanPath ||
                 Chars.eqb cleanPath (of_string "/")
              then set_pathname n2 v1
              else if ends_with v1 cleanPath
                   then set_pathname n2 cleanPath
                   else set_pathname n2 (cleanPath ++ v1)) =
             set_pathname n2 (a ++ v1)).
  { destruct (is_empty cleanPath || Chars.eqb cleanPath (of_string "/")).
    - now exists [].
    - destruct (ends_with v1 cleanPath) eqn:He.
      + apply ends_with_split in He. destruct He as (a & ->). now exists a.
      + now exists cleanPath. }
  destruct Hshape as (a & ->). intros [= <-].
  destruct (set_pathname_v1 n a Hn) as (Hc & q & Hq).
  fold n2 in Hc, Hq.
  exists (set_pathname n2 (a ++ v1)), q. split; [exact Hc|].
  split; [exact Hq|].
  destruct (href_v1 _ q Hc Hq) as (s & ->).
  rewrite app_comm_cons. now apply strip_one_trailing_last.
Qed.

Lemma normalize_fixed (u : url) (q : list chars) :
  canonical u -> path u = q ++ [segment_v1] ->
  normalize (Some (href u)) = Some (href u).
Proof.
  intros Hc Hq. unfold normalize.
  destruct (href_v1 u q Hc Hq) as (s & Hs).
  assert (Htrim : trim (href u) = href u)
    by (rewrite Hs; now apply trim_printable).
  rewrite Htrim.
  replace (is_empty (href u)) with false by now rewrite Hs.
  rewrite has_http_scheme_href, (parse_href u Hc).
  pose proof Hc as (_ & Hne & Hp & Hquery & Hfrag).
  rewrite (set_search_empty u Hquery), (set_hash_empty u Hfrag).
  assert (Hclean : strip_trailing OAuth.is_slash (pathname u) =
                   serialize_path q ++ v1).
  { unfold pathname. rewrite Hq, serialize_path_app.
    cbn [serialize_path flat_map segment_v1 app].
    change ["/"; "v"; "1"] with (["/"; "v"] ++ ["1"]).
    rewrite app_assoc, strip_trailing_last by reflexivity.
    now rewrite <- app_assoc. }
  rewrite Hclean.
  replace (is_empty (serialize_path q ++ v1)) with false
    by now destruct (serialize_path q).
  replace (Chars.eqb (serialize_path q ++ v1) (of_string "/")) with false
    by (destruct (serialize_path q) as [|c [|d r]]; try reflexivity;
        cbn; now rewrite andb_false_r).
  cbn [orb]. rewrite ends_with_app.
  assert (Hset : set_pathname u (serialize_path q ++ v1) = u).
  { unfold set_pathname.
    replace (serialize_path q ++ v1) with (serialize_path (path u))
      by (rewrite Hq, serialize_path_app; reflexivity).
    replace (remove_tab_nl (serialize_path (path u)))
      with (serialize_path (path u)).
    - rewrite path_start_serialized by assumption. now destruct u.
    - symmetry. apply forallb_filter_id.
      generalize (serialize_path_chars _ Hp). apply forallb_weaken.
      clear. intros c.
      each_char c; intros H; try discriminate H; reflexivity. }
  rewrite Hset. f_equal. rewrite Hs, app_comm_cons.
  now apply strip_one_trailing_last.
Qed.

Lemma of_to_string (l : chars) : of_string (to_string l) = l.
Proof. apply list_ascii_of_string_of_list_ascii. Qed.

(** C6: [normalizeResourceUrl] is idempotent: applied to its own
    result it returns that result (and where it throws there is no
    result to apply it to); the result is the serialisation of a URL
    whose path ends in [/v1] and has no trailing slash, with neither
    query nor fragment. *)
Theorem normalizeResourceUrl_idempotent (x : option string) :
  match normalizeResourceUrl x with
  | Some y => normalizeResourceUrl (Some y)
  | None => None
  end = normalizeResourceUrl x /\
  forall y : string,
    normalizeResourceUrl x = Some y ->
    exists u : url,
      parse (of_string y) = Some u /\ y = to_string (href u) /\
      ends_with v1 (pathname u) = true /\
      strip_trailing OAuth.is_slash (pathname u) = pathname u /\
      query u = None /\ fragment u = None /\
      ends_with v1 (of_string y) = true.
Proof.
  unfold normalizeResourceUrl.
  destruct (normalize (option_map of_string x)) as [yc|] eqn:Hn;
    cbn [option_map]; [|split; [reflexivity | discriminate]].
  destruct (normalize_canonical _ _ Hn) as (u & q & Hc & Hq & ->).
  split.
  - rewrite of_to_string. now rewrite (normalize_fixed u q Hc Hq).
  - intros y [= <-]. exists u. rewrite of_to_string.
    assert (Hpath : pathname u = (serialize_path q ++ ["/"; "v"]) ++ ["1"]).
    { unfold pathname. rewrite Hq, serialize_path_app.
      now rewrite <- app_assoc. }
    split; [now apply parse_href|]. split; [reflexivity|].
    split; [|split; [|split; [|split]]].
    + unfold pathname. rewrite Hq, serialize_path_app.
      apply ends_with_app.
    + rewrite Hpath. now apply strip_trailing_last.
    + apply Hc.
    + apply Hc.
    + rewrite (href_canonical u Hc), Hq, serialize_path_app.
      rewrite !app_comm_cons, !app_assoc. apply ends_with_app.
Qed.

(** ** [buildUpstreamUrl] *)

Lemma buildUpstreamUrl_invalid (base requestPath requestSearch : string) :
  starts_with v1 (of_string requestPath) = false ->
  buildUpstreamUrl base requestPath requestSearch =
  inr (invalid_proxy_path requestPath).
Proof. intros H. unfold buildUpstreamUrl. now rewrite H. Qed.

Lemma buildUpstreamUrl_run (base requestPath requestSearch : string)
      (u : url) :
  starts_with v1 (of_string requestPath) = true ->
  parse (of_string base) = Some u ->
  buildUpstreamUrl base requestPath requestSearch =
  inl (to_string (href (upstream_url u requestPath requestSearch))).
Proof.
  intros Hv Hu. unfold buildUpstreamUrl, upstream_url.
  rewrite Hv, Hu. cbn [negb].
  destruct (Chars.eqb (of_string requestPath) v1) eqn:He; [|reflexivity].
  apply CharsFacts.eqb_eq in He. now rewrite He.
Qed.

Lemma upstream_url_pathname (u : url) (requestPath requestSearch : string)
      (segs : list chars) :
  segs <> [] -> forallb seg_ok segs = true ->
  strip_trailing OAuth.is_slash (pathname u) ++
  skipn 3 (of_string requestPath) = serialize_path segs ->
  pathname (upstream_url u requestPath requestSearch) =
  strip_trailing OAuth.is_slash (pathname u) ++
  skipn 3 (of_string requestPath).
Proof.
  intros Hne Hok Heq. unfold upstream_url, pathname in *.
  cbn [set_hash set_search set_pathname path]. rewrite Heq.
  replace (remove_tab_nl (serialize_path segs)) with (serialize_path segs).
  - now rewrite path_start_serialized.
  - symmetry. apply forallb_filter_id.
    generalize (serialize_path_chars _ Hok). apply forallb_weaken.
    clear. intros c.
    each_char c; intros H; try discriminate H; reflexivity.
Qed.

Lemma upstream_url_query (u : url) (requestPath requestSearch : string) :
  (requestSearch = ""%string ->
   query (upstream_url u requestPath requestSearch) = None) /\
  (forall q : chars,
      of_string requestSearch = "?" :: q ->
      clean special_query_set q = true ->
      forallb (fun c => negb (is_tab_or_newline c)) q = true ->
      query (upstream_url u requestPath requestSearch) = Some q).
Proof.
  unfold upstream_url. cbn [set_hash set_search query]. split.
  - now intros ->.
  - intros q -> Hq Ht. change (Ascii.eqb "?" "?") with true. cbn iota.
    unfold remove_tab_nl. rewrite (forallb_filter_id _ _ Ht).
    now rewrite percent_encode_clean.
Qed.

Lemma parse_x_com_v1 :
  parseHost x_com = Some x_com ->
  parse (of_string "https://x.com/v1") =
  Some (mkUrl Https [] [] x_com None [segment_v1] None None).
Proof. intros H. unfold parse. cbn. unfold x_com in H. cbn in H.
       rewrite H. reflexivity. Qed.

(** C5 (as amended): a request path that does not start with [/v1]
    fails with [invalid_proxy_path].  Otherwise, for a base that
    parses, the result is the base with its path set to the base path
    without trailing slashes followed by what comes after [/v1] in the
    request path (nothing when the request path is [/v1]), its query
    set from the request search and no fragment; the URL class
    normalises what it is given, and when the concatenation is a
    normalised path the path of the result is the concatenation, and
    when the search is empty or a question mark and an encoded query
    the query of the result is none or that query.  The two examples
    of the design document hold. *)
Theorem buildUpstreamUrl_correct (base requestPath requestSearch : string) :
  (starts_with v1 (of_string requestPath) = false ->
   buildUpstreamUrl base requestPath requestSearch =
   inr (invalid_proxy_path requestPath)) /\
  (forall u : url,
      starts_with v1 (of_string requestPath) = true ->
      parse (of_string base) = Some u ->
      let basePath := strip_trailing OAuth.is_slash (pathname u) in
      let suffix := skipn 3 (of_string requestPath) in
      let r := upstream_url u requestPath requestSearch in
      buildUpstreamUrl base requestPath requestSearch =
      inl (to_string (href r)) /\
      (requestPath = "/v1"%string -> suffix = []) /\
      path r = path_start (remove_tab_nl (basePath ++ suffix)) /\
      (forall segs : list chars,
          segs <> [] -> forallb seg_ok segs = true ->
          basePath ++ suffix = serialize_path segs ->
          pathname r = basePath ++ suffix) /\
      (requestSearch = ""%string -> query r = None) /\
      (forall q : chars,
          of_string requestSearch = "?" :: q ->
          clean special_query_set q = true ->
          forallb (fun c => negb (is_tab_or_newline c)) q = true ->
          query r = Some q) /\
      fragment r = None) /\
  (parseHost x_com = Some x_com ->
   buildUpstreamUrl "https://x.com/v1" "/v1/chat/completions" "?a=1" =
   inl "https://x.com/v1/chat/completions?a=1"%string /\
   buildUpstreamUrl "https://x.com/v1" "/v1" "" =
   inl "https://x.com/v1"%string).
Proof.
  split; [apply buildUpstreamUrl_invalid|]. split.
  - intros u Hv Hu basePath suffix r.
    split; [now apply buildUpstreamUrl_run|].
    split; [now intros ->|]. split; [reflexivity|].
    split; [intros segs; apply upstream_url_pathname|].
    split; [apply upstream_url_query|].
    split; [apply upstream_url_query | reflexivity].
  - intros Hx. split.
    + now rewrite (buildUpstreamUrl_run
                     "https://x.com/v1" "/v1/chat/completions" "?a=1" _
                     eq_refl (parse_x_com_v1 Hx)).
    + now rewrite (buildUpstreamUrl_run "https://x.com/v1" "/v1" "" _
                                        eq_refl (parse_x_com_v1 Hx)).
Qed.

(** C10 (as amended): the test on the request path is a test of its
    first three characters.  A request path [/v1] followed by any
    characters never fails with [invalid_proxy_path]: for a base that
    parses, the result is the base with its path set to the base path
    followed directly by those characters, which the URL class
    normalises; when the concatenation is a normalised path, it is the
    path of the result.  So [/v1foo] on [https://x.com/v1] gives
    [https://x.com/v1foo]. *)
Theorem buildUpstreamUrl_prefix_is_literal (base rest requestSearch : string) :
  let requestPath := ("/v1" ++ rest)%string in
  (forall e : error,
      buildUpstreamUrl base requestPath requestSearch = inr e ->
      e = OtherError "Invalid URL") /\
  (forall u : url,
      parse (of_string base) = Some u ->
      let basePath := strip_trailing OAuth.is_slash (pathname u) in
      let r := upstream_url u requestPath requestSearch in
      buildUpstreamUrl base requestPath requestSearch =
      inl (to_string (href r)) /\
      path r = path_start (remove_tab_nl (basePath ++ of_string rest)) /\
      (forall segs : list chars,
          segs <> [] -> forallb seg_ok segs = true ->
          basePath ++ of_string rest = serialize_path segs ->
          pathname r = basePath ++ of_string rest)) /\
  (parseHost x_com = Some x_com ->
   buildUpstreamUrl "https://x.com/v1" "/v1foo" "" =
   inl "https://x.com/v1foo"%string).
Proof.
  intros requestPath.
  assert (Hv : starts_with v1 (of_string requestPath) = true) by reflexivity.
  assert (Hrest : skipn 3 (of_string requestPath) = of_string rest)
    by reflexivity.
  split; [|split].
  - intros e. unfold buildUpstreamUrl. rewrite Hv. cbn [negb].
    destruct (parse (of_string base)); [discriminate|]. now intros [= <-].
  - intros u Hu basePath r. split; [now apply buildUpstreamUrl_run|].
    split; [unfold r, upstream_url; now rewrite Hrest|].
    intros segs Hne Hok Heq. unfold basePath in *. rewrite <- Hrest in *.
    now apply (upstream_url_pathname u requestPath requestSearch segs).
  - intros Hx.
    now rewrite (buildUpstreamUrl_run "https://x.com/v1" "/v1foo" "" _
                                      eq_refl (parse_x_com_v1 Hx)).
Qed.

End Resolver.

(** C6, at a host name without scheme. *)
Lemma normalizeResourceUrl_idempotent_witness :
  normalizeResourceUrl (Some "example.com"%string) =
  Some "https://example.com/v1"%string /\
  exists u : url,
    parse (of_string "https://example.com/v1") = Some u /\
    ends_with v1 (pathname u) = true.
Proof.
  assert (H : normalizeResourceUrl (Some "example.com"%string) =
              Some "https://example.com/v1"%string) by reflexivity.
  split; [exact H|].
  destruct (proj2 (normalizeResourceUrl_idempotent (Some "example.com"%string))
                  "https://example.com/v1"%string H)
    as (u & Hu & _ & Hv & _).
  now exists u.
Defined.

(** C5, as stated, fails: the path of the result is not the
    concatenation when the request path holds a dot segment. *)
Lemma buildUpstreamUrl_resolves_dot_segments :
  buildUpstreamUrl "https://x.com/v1" "/v1/../admin" "" =
  inl "https://x.com/admin"%string /\
  exists u r : url,
    parse (of_string "https://x.com/v1") = Some u /\
    parse (of_string "https://x.com/admin") = Some r /\
    pathname r = of_string "/admin" /\
    pathname r <>
    strip_trailing OAuth.is_slash (pathname u) ++
    skipn 3 (of_string "/v1/../admin").
Proof.
  split; [reflexivity|]. eexists _, _.
  split; [reflexivity|]. split; [reflexivity|]. split; [reflexivity|].
  discriminate.
Qed.

(** C5 (as amended), at a request for the list of models. *)
Lemma buildUpstreamUrl_correct_witness :
  buildUpstreamUrl "https://x.com/v1" "/v1/models" "?a=1" =
  inl "https://x.com/v1/models?a=1"%string /\
  buildUpstreamUrl "https://x.com/v1" "v1" "" =
  inr (invalid_proxy_path "v1").
Proof.
  split.
  - exact (proj1 (proj1 (proj2 (buildUpstreamUrl_correct
             "https://x.com/v1" "/v1/models" "?a=1"))
             (mkUrl Https [] [] x_com None [segment_v1] None None)
             eq_refl eq_refl)).
  - exact (proj1 (buildUpstreamUrl_correct "https://x.com/v1" "v1" "")
                 eq_refl).
Defined.

(** C10, as stated, fails: what follows [/v1] is not appended as it is
    when it holds a dot segment. *)
Lemma buildUpstreamUrl_prefix_dot_segments :
  buildUpstreamUrl "https://x.com/v1" "/v1foo/../bar" "" =
  inl "https://x.com/bar"%string /\
  exists u r : url,
    parse (of_string "https://x.com/v1") = Some u /\
    parse (of_string "https://x.com/bar") = Some r /\
    pathname r = of_string "/bar" /\
    pathname r <>
    strip_trailing OAuth.is_slash (pathname u) ++ of_string "foo/../bar".
Proof.
  split; [reflexivity|]. eexists _, _.
  split; [reflexivity|]. split; [reflexivity|]. split; [reflexivity|].
  discriminate.
Qed.

(** C10 (as amended), at [/v1foo]. *)
Lemma buildUpstreamUrl_prefix_is_literal_witness :
  buildUpstreamUrl "https://x.com/v1" "/v1foo" "" =
  inl "https://x.com/v1foo"%string.
Proof.
  exact (proj2 (proj2 (buildUpstreamUrl_prefix_is_literal
                         "https://x.com/v1" "foo" "")) eq_refl).
Defined.

End ResolverFacts.

(* ================================================================== *)
(** * Properties of the credential store *)
(* ================================================================== *)

Module StoreFacts.

Import OAuth Store.
Local Open Scope string_scope.

Lemma present_some (s : option string) :
  present s = true <-> exists v, s = Some v /\ v <> "".
Proof.
  destruct s as [v|]; simpl; split.
  - intros H. exists v. split; [reflexivity|].
    apply String.eqb_neq. now apply negb_true_iff.
  - intros (v' & [= <-] & Hne). apply negb_true_iff. now apply String.eqb_neq.
  - discriminate.
  - intros (v & [=] & _).
Qed.

Lemma count_log (f : event -> bool) (e : event) (w : world) :
  count f (trace (log e w)) = count f (trace w) + (if f e then 1 else 0).
Proof.
  unfold count. simpl. rewrite filter_app, length_app. simpl.
  destruct (f e); reflexivity.
Qed.

Section Run.

Variable options : OAuthCredentialStoreOptions.

Lemma saveCredentials_run (c : QwenCredentials) (w : world) :
  saveCredentials options c w = (inl tt, saved options c w).
Proof. reflexivity. Qed.

Lemma refreshCredentials_run (current : QwenCredentials) (rt : string)
      (w : world) :
  refresh_token current = Some rt -> rt <> "" ->
  refreshCredentials options current w =
  match refresh_outcome current (token_endpoint w (token_requests w))
                        (now (requested rt w)) with
  | inr e => (inr e, requested rt w)
  | inl next => (inl next, saved options next (requested rt w))
  end.
Proof.
  intros Hrt Hne. unfold refreshCredentials. rewrite Hrt.
  apply String.eqb_neq in Hne. rewrite Hne.
  unfold bind, randomUUID, post_token, get_world, Date_now, emit, ret, bind, throw.
  cbn [fst snd].
  change (log _ (draw w)) with (requested rt w).
  destruct (refresh_outcome _ _ _); reflexivity.
Qed.

Lemma refreshCredentials_absent (current : QwenCredentials) (w : world) :
  present (refresh_token current) = false ->
  refreshCredentials options current w = (inr missing_refresh_token, w).
Proof.
  unfold refreshCredentials, present.
  destruct (refresh_token current) as [rt|]; [|reflexivity].
  intros H. apply negb_false_iff in H. now rewrite H.
Qed.

Lemma getValidCredentials_run (forceRefresh : bool) (w : world) :
  getValidCredentials options forceRefresh w =
  match read_file options (disk w) with
  | inr e => (inr e, was_read options w)
  | inl current =>
      if negb forceRefresh &&
         isTokenValid options (now (was_read options w)) current
      then (inl current, was_read options w)
      else if negb (present (refresh_token current))
      then (inr missing_refresh_token, was_read options w)
      else refreshCredentials options current (was_read options w)
  end.
Proof.
  unfold getValidCredentials, readCredentials, bind, emit, get_world, lift,
    Date_now, ret, throw.
  cbn. destruct (read_file options (disk w)); [|reflexivity].
  destruct (negb forceRefresh && _); [reflexivity|].
  destruct (negb (present _)); reflexivity.
Qed.

(** A successful answer of the token endpoint, and what the new
    credential takes from it. *)
Lemma refresh_outcome_ok (current next : QwenCredentials)
      (answer : fetch_result) (t : Z) :
  refresh_outcome current answer t = inl next ->
  exists r body tokenData token,
    answer = FetchResponded r /\ payload r = Some body /\ ok r = true /\
    json_of body = Parsed tokenData /\
    as_string (get "access_token" tokenData) = Some token /\
    token <> "" /\
    next = nextCredentials current tokenData token t.
Proof.
  unfold refresh_outcome.
  destruct answer as [m|r]; [discriminate|].
  destruct (payload r) as [body|] eqn:Hp; [|discriminate].
  destruct (ok r) eqn:Hok; [|discriminate]. simpl.
  destruct (json_of body) as [tokenData|m] eqn:Hj; [|discriminate].
  destruct (as_string (get "access_token" tokenData)) as [token|] eqn:Ht.
  - destruct (String.eqb token "") eqn:He.
    + destruct tokenData; discriminate.
    + intros H. exists r, body, tokenData, token.
      apply String.eqb_neq in He.
      destruct tokenData; try discriminate; injection H as <-; auto 10.
  - destruct tokenData; discriminate.
Qed.

(** A failed refresh has sent the token request and nothing else. *)
Lemma refreshCredentials_failed (current : QwenCredentials) (w w' : world)
      (e : error) :
  refreshCredentials options current w = (inr e, w') ->
  w' = w \/ exists rt, w' = requested rt w.
Proof.
  destruct (present (refresh_token current)) eqn:Hp.
  - apply present_some in Hp. destruct Hp as (rt & Hrt & Hne).
    rewrite (refreshCredentials_run current rt w Hrt Hne).
    destruct (refresh_outcome _ _ _); [discriminate|].
    intros [= _ <-]. right. now exists rt.
  - rewrite (refreshCredentials_absent current w Hp). intros [= _ <-]. now left.
Qed.

Lemma filter_requested (f : event -> bool) (rt : string) (w : world) :
  f (EvTokenRequest QWEN_OAUTH_TOKEN_ENDPOINT
                    (refresh_headers (uuids w (drawn w)))
                    (refresh_body rt)) = false ->
  filter f (trace (requested rt w)) = filter f (trace w).
Proof.
  intros H. unfold requested. simpl. rewrite filter_app. simpl.
  rewrite H. apply app_nil_r.
Qed.

Lemma token_requests_was_read (w : world) :
  token_requests (was_read options w) = token_requests w.
Proof.
  unfold token_requests, was_read. rewrite count_log. simpl. lia.
Qed.

Lemma token_requests_requested (rt : string) (w : world) :
  token_requests (requested rt w) = S (token_requests w).
Proof.
  unfold token_requests, requested. rewrite count_log. simpl. lia.
Qed.

Lemma token_requests_saved (c : QwenCredentials) (w : world) :
  token_requests (saved options c w) = token_requests w.
Proof.
  unfold token_requests, saved, count. simpl. rewrite !filter_app. simpl.
  now rewrite !app_nil_r.
Qed.

(** C3: for a stored credential whose access token is present and whose
    expiry date lies beyond the refresh buffer, [getValidCredentials(false)]
    returns that credential, having read the file and nothing else: no
    request is sent to the token endpoint.  For a stored credential whose
    access token or expiry date is absent, or whose expiry lies within
    the buffer, the call goes on to the refresh: it fails with
    [missing_refresh_token] when the refresh token is absent and is the
    run of [refreshCredentials] on the stored credential, with exactly
    one token request, otherwise.  The clock reads a time after the
    epoch and the buffer is not negative, as the configuration
    enforces. *)
Theorem valid_token_fast_path (w : world) (current : QwenCredentials) :
  let w1 := was_read options w in
  (0 <= tokenRefreshBufferMs options)%Z ->
  (0 <= now w1)%Z ->
  read_file options (disk w) = inl current ->
  (forall e : Z,
      present (access_token current) = true ->
      expiry_date current = Some e ->
      (now w1 < e - tokenRefreshBufferMs options)%Z ->
      getValidCredentials options false w = (inl current, w1) /\
      token_requests w1 = token_requests w /\
      disk w1 = disk w) /\
  (present (access_token current) = false \/
   expiry_date current = None \/
   (exists e, expiry_date current = Some e /\
              (e - tokenRefreshBufferMs options <= now w1)%Z) ->
   (present (refresh_token current) = false ->
    getValidCredentials options false w = (inr missing_refresh_token, w1)) /\
   (present (refresh_token current) = true ->
    getValidCredentials options false w =
    refreshCredentials options current w1 /\
    token_requests (snd (getValidCredentials options false w)) =
    S (token_requests w))).
Proof.
  intros w1 Hbuf Hnow Hread. subst w1. split.
  - intros e Hat He Hlt. split; [|split].
    + rewrite getValidCredentials_run, Hread.
      unfold isTokenValid. rewrite Hat, He. cbn [negb andb].
      replace (e =? 0)%Z with false by (symmetry; apply Z.eqb_neq; lia).
      apply Z.ltb_lt in Hlt. now rewrite Hlt.
    + apply token_requests_was_read.
    + reflexivity.
  - intros Hinvalid.
    assert (Hv : isTokenValid options (now (was_read options w)) current
                 = false).
    { unfold isTokenValid.
      destruct Hinvalid as [H | [H | (e & H & Hle)]].
      - now rewrite H.
      - rewrite H. now destruct (negb _).
      - rewrite H. destruct (negb _); [reflexivity|].
        destruct (e =? 0)%Z; [reflexivity|]. apply Z.ltb_ge. lia. }
    split; intros Hrt.
    + rewrite getValidCredentials_run, Hread.
      now rewrite Hv, Hrt.
    + assert (Heq : getValidCredentials options false w =
                    refreshCredentials options current (was_read options w)).
      { rewrite getValidCredentials_run, Hread.
        now rewrite Hv, Hrt. }
      split; [exact Heq|]. rewrite Heq.
      apply present_some in Hrt. destruct Hrt as (rt & Hrt & Hne).
      rewrite (refreshCredentials_run current rt _ Hrt Hne).
      destruct (refresh_outcome _ _ _); cbn [snd].
      * now rewrite token_requests_saved, token_requests_requested,
          token_requests_was_read.
      * now rewrite token_requests_requested, token_requests_was_read.
Qed.

(** C9: a refresh that fails, with whatever error, has written nothing:
    the credential file is as it was and no directory, file or rename
    operation has been issued.  A refresh that succeeds has replaced
    the file by the credential built from a validated answer. *)
Theorem refresh_failure_keeps_file (current : QwenCredentials)
        (w : world) :
  (forall (e : error) (w' : world),
      refreshCredentials options current w = (inr e, w') ->
      disk w' = disk w /\
      filter is_file_write (trace w') = filter is_file_write (trace w)) /\
  (forall (next : QwenCredentials) (w' : world),
      refreshCredentials options current w = (inl next, w') ->
      disk w' = saved_file next /\
      exists t, refresh_outcome current
                  (token_endpoint w (token_requests w)) t = inl next).
Proof.
  split.
  - intros e w' H. apply refreshCredentials_failed in H.
    destruct H as [-> | (rt & ->)]; [now split|]. split; [reflexivity|].
    now apply filter_requested.
  - intros next w' H.
    destruct (present (refresh_token current)) eqn:Hp.
    + apply present_some in Hp. destruct Hp as (rt & Hrt & Hne).
      rewrite (refreshCredentials_run current rt w Hrt Hne) in H.
      destruct (refresh_outcome _ _ _) as [n|] eqn:Ho; [|discriminate].
      injection H as <- <-. split; [reflexivity|]. eauto.
    + rewrite (refreshCredentials_absent current w Hp) in H. discriminate.
Qed.

(** C4 (as amended): the file written after a successful refresh holds
    [access_token], [refresh_token] and [expiry_date], and [token_type]
    and [resource_url] exactly when the answer of the token endpoint or
    the prior credential gives them; it is the pretty-printed object
    followed by a newline, written to a temporary file with mode 0o600
    and renamed over the credential file, after the directory has been
    created with mode 0o700. *)
Theorem written_file_shape (current next : QwenCredentials)
        (w w' : world) :
  refreshCredentials options current w = (inl next, w') ->
  exists (request : event) (tmp : string) (r : http_response)
         (body : document) (tokenData : json),
    is_token_request request = true /\
    trace w' =
    (trace w ++
     [request;
      EvMkdir (dirname (credentialsFile options)) 448;
      EvWriteFile tmp (serialized next) 384;
      EvRename tmp (credentialsFile options)])%list /\
    serialized next = stringify "" (credentials_json next) ++ nl /\
    token_endpoint w (token_requests w) = FetchResponded r /\
    payload r = Some body /\ json_of body = Parsed tokenData /\
    token_type next =
    or_else (as_string (get "token_type" tokenData)) (token_type current) /\
    resource_url next =
    or_else (as_string (get "resource_url" tokenData))
            (resource_url current) /\
    keys (credentials_json next) =
    (["access_token"; "refresh_token"] ++
     (match token_type next with Some _ => ["token_type"] | None => [] end) ++
     (match resource_url next with
      | Some _ => ["resource_url"]
      | None => []
      end) ++
     ["expiry_date"])%list.
Proof.
  intros H.
  destruct (present (refresh_token current)) eqn:Hp.
  2:{ rewrite (refreshCredentials_absent current w Hp) in H. discriminate. }
  apply present_some in Hp. destruct Hp as (rt & Hrt & Hne).
  rewrite (refreshCredentials_run current rt w Hrt Hne) in H.
  destruct (refresh_outcome _ _ _) as [n|] eqn:Ho; [|discriminate].
  injection H as <- <-.
  apply refresh_outcome_ok in Ho.
  destruct Ho as (r & body & tokenData & token & Ha & Hb & _ & Hj & _ & _ & ->).
  eexists _, _, r, body, tokenData.
  split; [|split; [|split; [|split; [|split; [|split; [|split; [|split]]]]]]];
    try eassumption; try reflexivity.
  all: try (unfold saved, requested; simpl; rewrite <- !app_assoc; reflexivity).
  - reflexivity.
  - unfold credentials_json, nextCredentials. cbn [access_token refresh_token
      token_type resource_url expiry_date]. rewrite Hrt.
    destruct (as_string (get "refresh_token" tokenData));
      destruct (or_else (as_string (get "token_type" tokenData)) _);
      destruct (or_else (as_string (get "resource_url" tokenData)) _);
      reflexivity.
Qed.

End Run.

(** C3, at a stored token that expires in more than the buffer. *)
Lemma valid_token_fast_path_witness :
  getValidCredentials Sample.options false
    (Sample.world_of 1000 Sample.fresh_file Sample.new_token
                     (Sample.upstream_of 200)) =
  (inl Sample.fresh,
   was_read Sample.options
     (Sample.world_of 1000 Sample.fresh_file Sample.new_token
                      (Sample.upstream_of 200))).
Proof.
  refine (proj1 (proj1 (valid_token_fast_path Sample.options
                   (Sample.world_of 1000 Sample.fresh_file Sample.new_token
                                    (Sample.upstream_of 200))
                   Sample.fresh _ _ _) 5000000%Z _ _ _)).
  - vm_compute. discriminate.
  - vm_compute. discriminate.
  - reflexivity.
  - reflexivity.
  - reflexivity.
  - reflexivity.
Defined.

(** C9, at a token endpoint that cannot be reached. *)
Lemma refresh_failure_keeps_file_witness :
  disk (snd (refreshCredentials Sample.options Sample.bare
               (Sample.world_of 1000 Sample.fresh_file
                                (FetchRejected "connect ECONNREFUSED")
                                (Sample.upstream_of 200)))) =
  Sample.fresh_file.
Proof.
  refine (proj1 (proj1 (refresh_failure_keeps_file Sample.options Sample.bare
                   (Sample.world_of 1000 Sample.fresh_file
                                (FetchRejected "connect ECONNREFUSED")
                                (Sample.upstream_of 200))) _ _ _)).
  reflexivity.
Defined.

(** C4, as stated, fails: with a prior credential that holds a refresh
    token only and an answer that holds an access token only, the written
    file has three keys. *)
Lemma written_file_three_keys :
  exists (next : QwenCredentials) (w' : world),
    refreshCredentials Sample.options Sample.bare
      (Sample.world_of 1000 Sample.fresh_file Sample.new_token
                       (Sample.upstream_of 200)) = (inl next, w') /\
    In (EvWriteFile "/home/u/.qwen/oauth_creds.json.tmp.id-1"
                    (serialized next) 384) (trace w') /\
    keys (credentials_json next) =
    ["access_token"; "refresh_token"; "expiry_date"] /\
    serialized next =
    "{" ++ nl ++
    "  " ++ dq ++ "access_token" ++ dq ++ ": " ++ dq ++ "at1" ++ dq ++ "," ++ nl ++
    "  " ++ dq ++ "refresh_token" ++ dq ++ ": " ++ dq ++ "rt0" ++ dq ++ "," ++ nl ++
    "  " ++ dq ++ "expiry_date" ++ dq ++ ": 3601000" ++ nl ++
    "}" ++ nl.
Proof.
  eexists _, _. split; [vm_compute; reflexivity|].
  split; [|split]; [simpl; tauto| reflexivity | reflexivity].
Qed.

(** C4 (as amended), at the same refresh. *)
Lemma written_file_shape_witness :
  exists tmp : string,
    In (EvWriteFile tmp
          (serialized
             (nextCredentials Sample.bare
                (JObj [("access_token", JStr "at1")]) "at1" 1000)) 384)
       (trace (snd (refreshCredentials Sample.options Sample.bare
                      (Sample.world_of 1000 Sample.fresh_file
                                       Sample.new_token
                                       (Sample.upstream_of 200))))).
Proof.
  destruct (written_file_shape Sample.options Sample.bare
              (nextCredentials Sample.bare
                 (JObj [("access_token", JStr "at1")]) "at1" 1000)
              (Sample.world_of 1000 Sample.fresh_file Sample.new_token
                               (Sample.upstream_of 200))
              (snd (refreshCredentials Sample.options Sample.bare
                      (Sample.world_of 1000 Sample.fresh_file
                                       Sample.new_token
                                       (Sample.upstream_of 200))))
              eq_refl)
    as (request & tmp & _ & _ & _ & _ & Htrace & _).
  exists tmp. rewrite Htrace. apply in_or_app. right. simpl. tauto.
Defined.

End StoreFacts.

(* ================================================================== *)
(** * Properties of the single-flight refresh *)
(* ================================================================== *)

Module SingleFlightFacts.

Import OAuth Store SingleFlight StoreFacts.

(** ** Lists updated at an index *)

Lemma update_length {A} (i : nat) (x : A) (l : list A) :
  List.length (update i x l) = List.length l.
Proof.
  revert i. induction l as [|y l IH]; intros [|i]; simpl; auto.
Qed.

Lemma update_app {A} (pre post : list A) (o x : A) :
  update (List.length pre) x (pre ++ o :: post) = pre ++ x :: post.
Proof. induction pre as [|y pre IH]; simpl; [reflexivity | now rewrite IH]. Qed.

Lemma forallb_update {A} (P : A -> bool) (i : nat) (x : A) (l : list A) :
  forallb P l = true -> P x = true -> forallb P (update i x l) = true.
Proof.
  revert i. induction l as [|y l IH]; intros [|i] Hl Hx; simpl in *; auto.
  - apply andb_true_iff in Hl. destruct Hl as [_ Hl]. now rewrite Hx.
  - apply andb_true_iff in Hl. destruct Hl as [Hy Hl].
    rewrite Hy. now apply IH.
Qed.

Lemma existsb_update_new {A} (Q : A -> bool) (i : nat) (x y : A)
      (l : list A) :
  nth_error l i = Some y -> Q x = true -> existsb Q (update i x l) = true.
Proof.
  revert i. induction l as [|z l IH]; intros [|i] Hi Hx; simpl in *;
    try discriminate.
  - now rewrite Hx.
  - rewrite (IH i Hi Hx). apply orb_true_r.
Qed.

Lemma existsb_update_keep {A} (Q : A -> bool) (i : nat) (x y : A)
      (l : list A) :
  nth_error l i = Some y -> Q y = false ->
  existsb Q l = true -> existsb Q (update i x l) = true.
Proof.
  revert i. induction l as [|z l IH]; intros [|i] Hi Hy He; simpl in *;
    try discriminate.
  - injection Hi as ->. rewrite Hy in He. simpl in He. rewrite He.
    apply orb_true_r.
  - apply orb_true_iff in He. destruct He as [Hz | He].
    + now rewrite Hz.
    + rewrite (IH i Hi Hy He). apply orb_true_r.
Qed.

Lemma forallb_imp {A} (P Q : A -> bool) (l : list A) :
  (forall x, P x = true -> Q x = true) ->
  forallb P l = true -> forallb Q l = true.
Proof.
  intros HPQ. induction l as [|x l IH]; simpl; [reflexivity|].
  intros H. apply andb_true_iff in H. destruct H as [Hx Hl].
  now rewrite (HPQ x Hx), (IH Hl).
Qed.

Lemma nth_error_forallb {A} (P : A -> bool) (l : list A) (i : nat) (x : A) :
  forallb P l = true -> nth_error l i = Some x -> P x = true.
Proof.
  intros Hl Hi. apply nth_error_In in Hi.
  rewrite forallb_forall in Hl. now apply Hl.
Qed.

Lemma pending_index (pre post : list op_state) (o x : op_state) (j : nat) :
  forallb settled pre = true -> forallb settled post = true ->
  nth_error (pre ++ o :: post) j = Some x -> pending x = true ->
  j = List.length pre /\ x = o.
Proof.
  intros Hpre Hpost Hj Hx.
  destruct (Nat.lt_ge_cases j (List.length pre)) as [Hlt | Hge].
  - rewrite nth_error_app1 in Hj by assumption.
    apply (nth_error_forallb settled _ _ _ Hpre) in Hj.
    unfold settled in Hj. rewrite Hx in Hj. discriminate.
  - rewrite nth_error_app2 in Hj by assumption.
    destruct (j - List.length pre) as [|m] eqn:Hm.
    + injection Hj as <-. split; [lia | reflexivity].
    + simpl in Hj. apply (nth_error_forallb settled _ _ _ Hpost) in Hj.
      unfold settled in Hj. rewrite Hx in Hj. discriminate.
Qed.

Lemma calls_settle (k : nat) (r : result QwenCredentials)
      (cs : list call_state) :
  forallb (fun c => negb (is_awaiting c) || awaits k c) cs = true ->
  forallb (fun c => negb (is_awaiting c))
          (map (fun c => if awaits k c then Returned r else c) cs) = true.
Proof.
  induction cs as [|c cs IH]; [reflexivity|]. simpl. intros H.
  apply andb_true_iff in H. destruct H as [Hc Hcs].
  rewrite (IH Hcs), andb_true_r.
  destruct (awaits k c) eqn:Ha; [reflexivity|].
  now rewrite orb_false_r in Hc.
Qed.

(** The operation in the slot settles: all operations are settled, no
    call awaits, and the slot is empty. *)
Lemma wf_settle (s : state) (k : nat) (o : op_state)
      (r : result QwenCredentials) (f : file_state) :
  wf s -> nth_error (ops s) k = Some o -> pending o = true ->
  wf (settle k r (mkState f (refreshPromise s) (ops s) (calls s)
                          (token_posts s))) /\
  refreshPromise
    (settle k r (mkState f (refreshPromise s) (ops s) (calls s)
                         (token_posts s))) = None.
Proof.
  intros [Hn Hs] Hk Ho.
  destruct (refreshPromise s) as [k'|] eqn:Hslot.
  - destruct Hs as ((pre & o' & post & Hops & Hlen & Hp & Hpre & Hpost)
                    & Hcalls & Hex).
    rewrite Hops in Hk.
    destruct (pending_index pre post o' o k Hpre Hpost Hk Ho) as [-> ->].
    subst k'. unfold settle. cbn [calls ops refreshPromise token_posts file].
    rewrite Hex. split; [|reflexivity]. split.
    + cbn [token_posts ops]. now rewrite update_length.
    + cbn [refreshPromise ops calls]. split.
      * rewrite Hops, update_app, forallb_app. cbn [forallb].
        now rewrite Hpre, Hpost.
      * now apply calls_settle.
  - destruct Hs as [Hall _].
    apply (nth_error_forallb settled _ _ _ Hall) in Hk.
    unfold settled in Hk. rewrite Ho in Hk. discriminate.
Qed.

Lemma awaits_is_awaiting (k : nat) (c : call_state) :
  is_awaiting c = false -> awaits k c = false.
Proof. now destruct c. Qed.

(** A call that does not await is replaced by one that does not. *)
Lemma wf_replace_call (s : state) (i : nat) (x y : call_state) :
  wf s -> nth_error (calls s) i = Some y ->
  is_awaiting y = false -> is_awaiting x = false ->
  wf (mkState (file s) (refreshPromise s) (ops s) (update i x (calls s))
              (token_posts s)).
Proof.
  intros [Hn Hs] Hi Hy Hx. split; [exact Hn|]. cbn [refreshPromise ops calls].
  destruct (refreshPromise s) as [k|].
  - destruct Hs as (Hops & Hcalls & Hex). split; [exact Hops|]. split.
    + apply forallb_update; [exact Hcalls|]. now rewrite Hx.
    + apply (existsb_update_keep _ i x y); auto.
      now apply awaits_is_awaiting.
  - destruct Hs as [Hops Hcalls]. split; [exact Hops|].
    apply forallb_update; [exact Hcalls|]. now rewrite Hx.
Qed.

Lemma nth_error_update_other {A} (i j : nat) (x : A) (l : list A) :
  i <> j -> nth_error (update i x l) j = nth_error l j.
Proof.
  revert i j. induction l as [|y l IH]; intros [|i] [|j] Hij; simpl;
    try reflexivity; try congruence.
  apply IH. congruence.
Qed.

Lemma nth_error_update_same {A} (i : nat) (x y : A) (l : list A) :
  nth_error (update i x l) i = Some y -> y = x.
Proof.
  revert i. induction l as [|z l IH]; intros [|i]; simpl;
    try discriminate; [congruence | apply IH].
Qed.

Lemma none_pending (l : list op_state) :
  forallb settled l = true -> filter pending l = [].
Proof.
  induction l as [|o l IH]; [reflexivity|]. simpl. intros H.
  apply andb_true_iff in H. destruct H as [Ho Hl].
  unfold settled in Ho. apply negb_true_iff in Ho. rewrite Ho.
  now apply IH.
Qed.

(** In a well-formed state every call that awaits, awaits the operation
    of the slot, which is in flight. *)
Lemma wf_awaiting (s : state) (i k : nat) :
  wf s -> nth_error (calls s) i = Some (Awaiting k) ->
  refreshPromise s = Some k /\
  exists o, nth_error (ops s) k = Some o /\ pending o = true.
Proof.
  intros [_ Hs] Hi. destruct (refreshPromise s) as [k'|].
  - destruct Hs as ((pre & o & post & Hops & Hlen & Hp & _) & Hcalls & _).
    apply (nth_error_forallb _ _ _ _ Hcalls) in Hi. simpl in Hi.
    apply Nat.eqb_eq in Hi. subst k' k. split; [reflexivity|].
    exists o. split; [|exact Hp].
    rewrite Hops, nth_error_app2 by lia.
    now rewrite Nat.sub_diag.
  - destruct Hs as [_ Hcalls].
    apply (nth_error_forallb _ _ _ _ Hcalls) in Hi. discriminate.
Qed.

(** A pending operation of a well-formed state is the one of the slot. *)
Lemma wf_pending (s : state) (k : nat) (o : op_state) :
  wf s -> nth_error (ops s) k = Some o -> pending o = true ->
  refreshPromise s = Some k /\
  forallb (fun c => Bool.eqb (is_awaiting c) (awaits k c)) (calls s) = true /\
  existsb is_awaiting (calls s) = true.
Proof.
  intros [_ Hs] Hk Ho. destruct (refreshPromise s) as [k'|].
  - destruct Hs as ((pre & o' & post & Hops & Hlen & Hp & Hpre & Hpost)
                    & Hcalls & Hex).
    rewrite Hops in Hk.
    destruct (pending_index pre post o' o k Hpre Hpost Hk Ho) as [-> ->].
    subst k'. split; [reflexivity|]. split.
    + revert Hcalls. apply forallb_imp. intros c Hc.
      destruct c; simpl in *; try reflexivity.
      now rewrite Hc.
    + rewrite existsb_exists in *. destruct Hex as (c & Hin & Hc).
      exists c. split; [exact Hin|]. now destruct c.
  - destruct Hs as [Hall _].
    apply (nth_error_forallb settled _ _ _ Hall) in Hk.
    unfold settled in Hk. rewrite Ho in Hk. discriminate.
Qed.

Lemma map_awaits (k : nat) (r : result QwenCredentials)
      (cs : list call_state) :
  forallb (fun c => Bool.eqb (is_awaiting c) (awaits k c)) cs = true ->
  map (fun c => if awaits k c then Returned r else c) cs =
  map (fun c => if is_awaiting c then Returned r else c) cs.
Proof.
  induction cs as [|c cs IH]; [reflexivity|]. simpl. intros H.
  apply andb_true_iff in H. destruct H as [Hc Hcs].
  apply eqb_prop in Hc. now rewrite Hc, IH.
Qed.

Section Machine.

Variable options : OAuthCredentialStoreOptions.

Lemma wf_resume (s : state) (i : nat) (f : bool)
      (r : result QwenCredentials) (t : Z) :
  wf s -> nth_error (calls s) i = Some (Read f r) ->
  wf (resume options i f r t s).
Proof.
  intros Hwf Hi. unfold resume.
  destruct r as [current|e];
    [|now apply (wf_replace_call s i _ (Read f (inr e)))].
  destruct (negb f && isTokenValid options t current);
    [now apply (wf_replace_call s i _ (Read f (inl current)))|].
  destruct (negb (present (refresh_token current)));
    [now apply (wf_replace_call s i _ (Read f (inl current)))|].
  destruct Hwf as [Hn Hs].
  destruct (refreshPromise s) as [k|] eqn:Hslot.
  - destruct Hs as (Hops & Hcalls & Hex).
    split; [exact Hn|]. cbn [refreshPromise ops calls].
    split; [exact Hops|]. split.
    + apply forallb_update; [exact Hcalls|]. simpl.
      now rewrite Nat.eqb_refl.
    + apply (existsb_update_new _ i _ (Read f (inl current))); auto.
      simpl. apply Nat.eqb_refl.
  - destruct Hs as [Hops Hcalls]. split.
    + cbn [token_posts ops]. rewrite length_app. simpl. lia.
    + cbn [refreshPromise ops calls]. split; [|split].
      * exists (ops s), (Fetching current), [].
        repeat split; auto.
      * apply forallb_update.
        -- revert Hcalls. apply forallb_imp. intros c Hc.
           now rewrite Hc.
        -- simpl. now rewrite Nat.eqb_refl.
      * apply (existsb_update_new _ i _ (Read f (inl current))); auto.
        simpl. apply Nat.eqb_refl.
Qed.

Lemma wf_step (l : label) (s s' : state) :
  wf s -> step options l s = Some s' -> wf s'.
Proof.
  intros Hwf. destruct l as [f | i | i t | k a t | k]; cbn [step].
  - intros [= <-]. destruct Hwf as [Hn Hs]. split; [exact Hn|].
    cbn [refreshPromise ops calls].
    destruct (refreshPromise s) as [k|].
    + destruct Hs as (Hops & Hcalls & Hex). split; [exact Hops|].
      rewrite forallb_app, existsb_app, Hcalls, Hex. now split.
    + destruct Hs as [Hops Hcalls]. split; [exact Hops|].
      now rewrite forallb_app, Hcalls.
  - destruct (nth_error (calls s) i) as [[f | | |]|] eqn:Hi;
      try discriminate.
    intros [= <-]. now apply (wf_replace_call s i _ (Reading f)).
  - destruct (nth_error (calls s) i) as [[| f r | |]|] eqn:Hi;
      try discriminate.
    intros [= <-]. now apply wf_resume.
  - destruct (nth_error (ops s) k) as [[current | |]|] eqn:Hk;
      try discriminate.
    destruct (refresh_outcome current a t) as [next|e].
    + intros [= <-]. destruct Hwf as [Hn Hs]. split.
      * cbn [token_posts ops]. now rewrite update_length.
      * cbn [refreshPromise ops calls].
        destruct (refreshPromise s) as [k'|].
        -- destruct Hs as ((pre & o & post & Hops & Hlen & Hp & Hpre & Hpost)
                           & Hcalls & Hex).
           rewrite Hops in Hk.
           destruct (pending_index pre post o _ k Hpre Hpost Hk eq_refl)
             as [-> <-].
           split; [|now split].
           exists pre, (Saving next), post.
           rewrite Hops, update_app. repeat split; auto.
        -- destruct Hs as [Hall _].
           apply (nth_error_forallb settled _ _ _ Hall) in Hk.
           discriminate.
    + intros [= <-].
      destruct (wf_settle s k _ (inr e) (file s) Hwf Hk eq_refl) as [H _].
      exact H.
  - destruct (nth_error (ops s) k) as [[| next |]|] eqn:Hk;
      try discriminate.
    intros [= <-].
    destruct (wf_settle s k _ (inl next) (saved_file next) Hwf Hk eq_refl)
      as [H _].
    exact H.
Qed.

Lemma wf_init (f : file_state) : wf (init f).
Proof. split; [reflexivity|]. now split. Qed.

Lemma wf_run (ls : list label) (s s' : state) :
  wf s -> run options ls s = Some s' -> wf s'.
Proof.
  revert s. induction ls as [|l ls IH]; intros s Hwf; cbn [run].
  - now intros [= <-].
  - destruct (step options l s) as [s1|] eqn:Hstep; [|discriminate].
    apply IH. now apply (wf_step l s).
Qed.

Lemma wf_in_flight (s : state) : wf s -> in_flight s <= 1.
Proof.
  intros [_ Hs]. unfold in_flight.
  assert (Hnone : forall l, forallb settled l = true ->
                            filter pending l = []).
  { induction l as [|o l IH]; [reflexivity|]. simpl. intros H.
    apply andb_true_iff in H. destruct H as [Ho Hl].
    unfold settled in Ho. apply negb_true_iff in Ho. rewrite Ho.
    now apply IH. }
  destruct (refreshPromise s).
  - destruct Hs as ((pre & o & post & -> & _ & Hp & Hpre & Hpost) & _).
    rewrite filter_app. cbn [filter]. rewrite Hp.
    rewrite (Hnone pre Hpre), (Hnone post Hpost). simpl. lia.
  - destruct Hs as [Hall _]. rewrite (Hnone _ Hall). simpl. lia.
Qed.

Lemma resume_needs_refresh (s : state) (i : nat) (f : bool) (t : Z)
      (current : QwenCredentials) :
  needs_refresh options f t current = true ->
  resume options i f (inl current) t s =
  match refreshPromise s with
  | Some k =>
      mkState (file s) (refreshPromise s) (ops s)
              (update i (Awaiting k) (calls s)) (token_posts s)
  | None =>
      mkState (file s) (Some (List.length (ops s)))
              (ops s ++ [Fetching current])
              (update i (Awaiting (List.length (ops s))) (calls s))
              (S (token_posts s))
  end.
Proof.
  unfold needs_refresh, resume. intros H.
  apply andb_true_iff in H. destruct H as [Hv Hp].
  apply negb_true_iff in Hv. now rewrite Hv, Hp.
Qed.

Lemma nth_error_update {A} (i : nat) (x y : A) (l : list A) :
  nth_error l i = Some y -> nth_error (update i x l) i = Some x.
Proof.
  revert i. induction l as [|z l IH]; intros [|i]; simpl;
    try discriminate; auto.
Qed.

Lemma all_returned (k : nat) (r : result QwenCredentials)
      (cs : list call_state) :
  forallb (awaits k) cs = true ->
  Forall (fun c => c = Returned r)
         (map (fun c => if awaits k c then Returned r else c) cs).
Proof.
  induction cs as [|c cs IH]; [constructor|]. simpl. intros H.
  apply andb_true_iff in H. destruct H as [Hc Hcs]. rewrite Hc.
  constructor; [reflexivity | now apply IH].
Qed.

(** The machine run with a single call is the sequential run: the same
    result, the same file, as many token requests, and an empty slot. *)
Lemma alone_is_sequential (forceRefresh : bool) (w : world) :
  exists s : state,
    run options (alone options forceRefresh w) (init (disk w)) = Some s /\
    calls s = [Returned (fst (getValidCredentials options forceRefresh w))] /\
    file s = disk (snd (getValidCredentials options forceRefresh w)) /\
    token_requests w + token_posts s =
    token_requests (snd (getValidCredentials options forceRefresh w)) /\
    refreshPromise s = None.
Proof.
  rewrite getValidCredentials_run. unfold alone, needs_refresh.
  cbn [run step init calls app nth_error update file refreshPromise ops
       token_posts].
  destruct (read_file options (disk w)) as [current|e] eqn:Hread.
  2:{ eexists. split; [reflexivity|]. unfold resume.
      cbn [calls file token_posts refreshPromise fst snd update].
      rewrite token_requests_was_read. repeat split; lia. }
  destruct (negb forceRefresh && isTokenValid options _ current) eqn:Hfast.
  { cbn [negb andb]. eexists. split; [reflexivity|]. unfold resume.
    rewrite Hfast. cbn [calls file token_posts refreshPromise fst snd update].
    rewrite token_requests_was_read. repeat split; lia. }
  cbn [negb andb].
  destruct (present (refresh_token current)) eqn:Hp; cbn [negb].
  2:{ eexists. split; [reflexivity|]. unfold resume. rewrite Hfast, Hp.
      cbn [negb calls file token_posts refreshPromise fst snd update].
      rewrite token_requests_was_read. repeat split; lia. }
  pose proof Hp as Hp'.
  apply present_some in Hp'. destruct Hp' as (rt & Hrt & Hne).
  rewrite Hrt, (refreshCredentials_run options current rt _ Hrt Hne).
  unfold resume. rewrite Hfast, Hp.
  cbn [negb refreshPromise ops calls file token_posts List.length app update
       run step nth_error].
  destruct (refresh_outcome current _ _) as [next|e] eqn:Hout.
  - cbn [run step ops nth_error update]. eexists. split; [reflexivity|].
    cbn [calls file token_posts refreshPromise fst snd settle existsb map
         awaits Nat.eqb orb update ops].
    rewrite token_requests_saved, token_requests_requested,
      token_requests_was_read.
    repeat split; lia.
  - eexists. split; [reflexivity|].
    cbn [calls file token_posts refreshPromise fst snd settle existsb map
         awaits Nat.eqb orb update ops].
    rewrite token_requests_requested, token_requests_was_read.
    repeat split; lia.
Qed.

(** A step at which the operation [k], pending before, is settled
    after, is the settlement of [k]. *)
Lemma settles_settle (l : label) (s s' : state) (k : nat) (o : op_state)
      (r : result QwenCredentials) :
  step options l s = Some s' ->
  nth_error (ops s) k = Some o -> pending o = true ->
  nth_error (ops s') k = Some (Settled r) ->
  exists f, s' = settle k r (mkState f (refreshPromise s) (ops s) (calls s)
                                     (token_posts s)).
Proof.
  intros Hstep Hk Ho Hset.
  destruct l as [f | i | i t | k' a t | k']; cbn [step] in Hstep.
  - injection Hstep as <-. cbn [ops] in Hset. rewrite Hk in Hset.
    injection Hset as ->. discriminate.
  - destruct (nth_error (calls s) i) as [[f | | |]|]; try discriminate.
    injection Hstep as <-. cbn [ops] in Hset. rewrite Hk in Hset.
    injection Hset as ->. discriminate.
  - destruct (nth_error (calls s) i) as [[| f r0 | |]|] eqn:Hi;
      try discriminate.
    injection Hstep as <-.
    assert (Hops : exists more, ops (resume options i f r0 t s) = ops s ++ more).
    { unfold resume. destruct r0 as [current|e]; [|exists []; now rewrite app_nil_r].
      destruct (negb f && _); [exists []; now rewrite app_nil_r|].
      destruct (negb (present _)); [exists []; now rewrite app_nil_r|].
      destruct (refreshPromise s); [exists []; now rewrite app_nil_r|].
      eexists. reflexivity. }
    destruct Hops as (more & Hops). rewrite Hops in Hset.
    rewrite nth_error_app1 in Hset
      by (apply nth_error_Some; rewrite Hk; discriminate).
    rewrite Hk in Hset. injection Hset as ->. discriminate.
  - destruct (nth_error (ops s) k') as [[current | |]|] eqn:Hk';
      try discriminate.
    destruct (Nat.eq_dec k' k) as [->|Hne].
    + destruct (refresh_outcome current a t) as [next|e];
        injection Hstep as <-; cbn [ops settle] in Hset;
        apply nth_error_update_same in Hset; [discriminate|].
      injection Hset as ->. exists (file s). now destruct s.
    + destruct (refresh_outcome current a t) as [next|e];
        injection Hstep as <-; cbn [ops settle] in Hset;
        rewrite nth_error_update_other in Hset by exact Hne;
        rewrite Hk in Hset; injection Hset as ->; discriminate.
  - destruct (nth_error (ops s) k') as [[| next |]|] eqn:Hk';
      try discriminate.
    injection Hstep as <-. cbn [ops settle] in Hset.
    destruct (Nat.eq_dec k' k) as [->|Hne].
    + apply nth_error_update_same in Hset. injection Hset as ->.
      now exists (saved_file next).
    + rewrite nth_error_update_other in Hset by exact Hne.
      rewrite Hk in Hset. injection Hset as ->. discriminate.
Qed.

Lemma step_token_posts (l : label) (s s' : state) :
  step options l s = Some s' ->
  token_posts s' = token_posts s \/
  (refreshPromise s = None /\ token_posts s' = S (token_posts s) /\
   refreshPromise s' = Some (List.length (ops s)) /\
   exists i t, l = Resume i t).
Proof.
  destruct l as [f | i | i t | k' a t | k']; cbn [step].
  - intros [= <-]. now left.
  - destruct (nth_error (calls s) i) as [[f | | |]|]; try discriminate.
    intros [= <-]. now left.
  - destruct (nth_error (calls s) i) as [[| f r0 | |]|]; try discriminate.
    intros [= <-]. unfold resume. destruct r0 as [current|e]; [|now left].
    destruct (negb f && _); [now left|].
    destruct (negb (present _)); [now left|].
    destruct (refreshPromise s); [now left|]. right.
    cbn [token_posts refreshPromise]. repeat split; eauto.
  - destruct (nth_error (ops s) k') as [[current | |]|]; try discriminate.
    destruct (refresh_outcome current a t); intros [= <-]; now left.
  - destruct (nth_error (ops s) k') as [[| next |]|]; try discriminate.
    intros [= <-]. now left.
Qed.

Lemma step_awaiting (l : label) (s s' : state) (i k : nat) :
  wf s -> step options l s = Some s' ->
  nth_error (calls s) i = Some (Awaiting k) ->
  nth_error (calls s') i = Some (Awaiting k) \/
  exists r, nth_error (calls s') i = Some (Returned r) /\
            nth_error (ops s') k = Some (Settled r).
Proof.
  intros Hwf Hstep Hi.
  destruct (wf_awaiting s i k Hwf Hi) as (Hslot & o & Hk & Ho).
  assert (Hsettle : forall r f k',
             nth_error (ops s) k' <> None ->
             (exists o', nth_error (ops s) k' = Some o' /\ pending o' = true) ->
             let s1 := settle k' r (mkState f (refreshPromise s) (ops s)
                                           (calls s) (token_posts s)) in
             exists r, nth_error (calls s1) i = Some (Returned r) /\
                       nth_error (ops s1) k = Some (Settled r)).
  { intros r f k' Hsome (o' & Hk' & Ho') s1.
    destruct (wf_pending s k' o' Hwf Hk' Ho') as (Hslot' & _).
    rewrite Hslot in Hslot'. injection Hslot' as <-.
    exists r. unfold s1, settle. cbn [calls ops]. split.
    - rewrite nth_error_map, Hi. simpl. now rewrite Nat.eqb_refl.
    - now apply (nth_error_update k _ o). }
  destruct l as [f | j | j t | k' a t | k']; cbn [step] in Hstep.
  - injection Hstep as <-. left. cbn [calls].
    rewrite nth_error_app1; [exact Hi|].
    apply nth_error_Some. rewrite Hi. discriminate.
  - destruct (nth_error (calls s) j) as [[f | | |]|] eqn:Hj; try discriminate.
    injection Hstep as <-. left. cbn [calls].
    rewrite nth_error_update_other; [exact Hi|]. intros ->. congruence.
  - destruct (nth_error (calls s) j) as [[| f r0 | |]|] eqn:Hj;
      try discriminate.
    injection Hstep as <-. left.
    assert (Hji : j <> i) by (intros ->; congruence).
    unfold resume. destruct r0 as [current|e];
      [|cbn [calls]; now rewrite nth_error_update_other].
    destruct (negb f && _); [cbn [calls]; now rewrite nth_error_update_other|].
    destruct (negb (present _));
      [cbn [calls]; now rewrite nth_error_update_other|].
    destruct (refreshPromise s); cbn [calls];
      now rewrite nth_error_update_other.
  - destruct (nth_error (ops s) k') as [[current | |]|] eqn:Hk';
      try discriminate.
    destruct (refresh_outcome current a t) as [next|e]; injection Hstep as <-.
    + left. exact Hi.
    + right. destruct s as [fs sl os cs tp].
      apply (Hsettle (inr e) fs k').
      * cbn [ops] in *. congruence.
      * eexists. split; [exact Hk'|reflexivity].
  - destruct (nth_error (ops s) k') as [[| next |]|] eqn:Hk';
      try discriminate.
    injection Hstep as <-. right. apply (Hsettle (inl next) _ k').
    + congruence.
    + eexists. split; [exact Hk'|reflexivity].
Qed.


(** A call whose check needs a refresh awaits the operation of the slot,
    or starts one, with one token request, when the slot is empty. *)
Lemma resume_attaches (s : state) (i : nat) (f : bool)
      (current : QwenCredentials) (t : Z) :
  nth_error (calls s) i = Some (Read f (inl current)) ->
  needs_refresh options f t current = true ->
  exists s',
    step options (Resume i t) s = Some s' /\
    nth_error (calls s') i =
    Some (Awaiting (match refreshPromise s with
                    | Some k => k
                    | None => List.length (ops s)
                    end)) /\
    match refreshPromise s with
    | Some k =>
        refreshPromise s' = Some k /\ ops s' = ops s /\
        token_posts s' = token_posts s
    | None =>
        refreshPromise s' = Some (List.length (ops s)) /\
        ops s' = ops s ++ [Fetching current] /\
        token_posts s' = S (token_posts s)
    end.
Proof.
  intros Hi Hneed. eexists. cbn [step]. rewrite Hi.
  split; [reflexivity|]. rewrite (resume_needs_refresh s i f t current Hneed).
  destruct (refreshPromise s) as [k|]; cbn [calls refreshPromise ops
                                             token_posts].
  - split; [now apply (nth_error_update i _ (Read f (inl current)))|].
    now repeat split.
  - split; [now apply (nth_error_update i _ (Read f (inl current)))|].
    now repeat split.
Qed.

(** The settlement of an operation: it was the operation of the slot,
    every call that awaited takes its result, the slot is empty and no
    operation is in flight. *)
Lemma settlement (l : label) (s s' : state) (k : nat) (o : op_state)
      (r : result QwenCredentials) :
  wf s -> step options l s = Some s' ->
  nth_error (ops s) k = Some o -> pending o = true ->
  nth_error (ops s') k = Some (Settled r) ->
  refreshPromise s = Some k /\
  existsb is_awaiting (calls s) = true /\
  calls s' = map (fun c => if is_awaiting c then Returned r else c) (calls s) /\
  ops s' = update k (Settled r) (ops s) /\
  refreshPromise s' = None /\ in_flight s' = 0 /\
  token_posts s' = token_posts s.
Proof.
  intros Hwf Hstep Hk Ho Hset.
  destruct (settles_settle l s s' k o r Hstep Hk Ho Hset) as (f & ->).
  destruct (wf_pending s k o Hwf Hk Ho) as (Hslot & Hsame & Hex).
  destruct (wf_settle s k o r f Hwf Hk Ho) as (Hwf' & Hnone).
  split; [exact Hslot|]. split; [exact Hex|].
  split; [cbn [settle calls]; now apply map_awaits|].
  split; [reflexivity|]. split; [exact Hnone|]. split; [|reflexivity].
  destruct Hwf' as [_ Hs]. rewrite Hnone in Hs. destruct Hs as [Hall _].
  unfold in_flight. now rewrite (none_pending _ Hall).
Qed.


(** The operation of the slot is the last one started. *)
Lemma slot_is_last (ls : list label) (s0 s : state) :
  (forall k, refreshPromise s0 = Some k -> S k = List.length (ops s0)) ->
  run options ls s0 = Some s ->
  forall k, refreshPromise s = Some k -> S k = List.length (ops s).
Proof.
  revert s0. induction ls as [|l ls IH]; intros s0 H0; cbn [run].
  - now intros [= <-].
  - destruct (step options l s0) as [s1|] eqn:Hstep; [|discriminate].
    apply IH. clear IH.
    assert (Hsettle : forall k r f j,
               refreshPromise
                 (settle k r (mkState f (refreshPromise s0) (ops s0)
                                      (calls s0) (token_posts s0))) = Some j ->
               S j = List.length
                       (ops (settle k r (mkState f (refreshPromise s0) (ops s0)
                                                 (calls s0) (token_posts s0))))).
    { intros k r f j. unfold settle. cbn [refreshPromise ops calls].
      rewrite update_length. destruct (existsb _ _); [discriminate|].
      apply H0. }
    destruct l as [f | i | i t | k' a t | k']; cbn [step] in Hstep.
    + injection Hstep as <-. exact H0.
    + destruct (nth_error (calls s0) i) as [[f | | |]|]; try discriminate.
      injection Hstep as <-. exact H0.
    + destruct (nth_error (calls s0) i) as [[| f r0 | |]|]; try discriminate.
      injection Hstep as <-. unfold resume.
      destruct r0 as [current|e]; [|exact H0].
      destruct (negb f && _); [exact H0|].
      destruct (negb (present _)); [exact H0|].
      destruct (refreshPromise s0) eqn:Hslot;
        cbn [refreshPromise ops].
      * intros k [= <-]. now apply H0.
      * intros k [= <-]. rewrite length_app. simpl. lia.
    + destruct (nth_error (ops s0) k') as [[current | |]|]; try discriminate.
      destruct (refresh_outcome current a t) as [next|e];
        injection Hstep as <-.
      * cbn [refreshPromise ops]. rewrite update_length. exact H0.
      * destruct s0. apply Hsettle.
    + destruct (nth_error (ops s0) k') as [[| next |]|]; try discriminate.
      injection Hstep as <-. apply Hsettle.
Qed.

(** C1 (as amended): in every state that an interleaving of calls
    reaches, at most one refresh operation is in flight and one token
    request has been sent for each operation started.  A call whose
    check needs a refresh while an operation is in the slot awaits that
    operation and sends no token request; when the slot is empty it
    starts an operation, with one token request.  Every call that
    awaits, awaits the operation of the slot, which is in flight and is
    the last one started; a step leaves the call awaiting or gives it
    the result of that operation.  A token request is sent only by a
    call that finds the slot empty.  The step that settles an
    operation, the first of the run or a later one, gives its result to
    all the calls that await, sends no token request and empties the
    slot, so that the next call whose check needs a refresh starts a
    new operation with one token request.  In particular, when [N]
    calls all await while no operation has settled, exactly one token
    request has been sent. *)
Theorem single_flight (f0 : file_state) (ls : list label) (s : state) :
  run options ls (init f0) = Some s ->
  (in_flight s <= 1 /\ token_posts s = List.length (ops s)) /\
  (forall (i : nat) (f : bool) (current : QwenCredentials) (t : Z),
      nth_error (calls s) i = Some (Read f (inl current)) ->
      needs_refresh options f t current = true ->
      exists s',
        step options (Resume i t) s = Some s' /\
        nth_error (calls s') i =
        Some (Awaiting (match refreshPromise s with
                        | Some k => k
                        | None => List.length (ops s)
                        end)) /\
        match refreshPromise s with
        | Some k =>
            refreshPromise s' = Some k /\ ops s' = ops s /\
            token_posts s' = token_posts s
        | None =>
            refreshPromise s' = Some (List.length (ops s)) /\
            ops s' = ops s ++ [Fetching current] /\
            token_posts s' = S (token_posts s)
        end) /\
  (forall (i k : nat),
      nth_error (calls s) i = Some (Awaiting k) ->
      refreshPromise s = Some k /\ token_posts s = S k /\
      (exists o, nth_error (ops s) k = Some o /\ pending o = true) /\
      forall (l : label) (s' : state),
        step options l s = Some s' ->
        nth_error (calls s') i = Some (Awaiting k) \/
        exists r, nth_error (calls s') i = Some (Returned r) /\
                  nth_error (ops s') k = Some (Settled r)) /\
  (forall (l : label) (s' : state),
      step options l s = Some s' ->
      token_posts s' = token_posts s \/
      (refreshPromise s = None /\ token_posts s' = S (token_posts s) /\
       refreshPromise s' = Some (List.length (ops s)) /\
       exists i t, l = Resume i t)) /\
  (forall (l : label) (s' : state) (k : nat) (o : op_state)
          (r : result QwenCredentials),
      step options l s = Some s' ->
      nth_error (ops s) k = Some o -> pending o = true ->
      nth_error (ops s') k = Some (Settled r) ->
      (refreshPromise s = Some k /\
       existsb is_awaiting (calls s) = true /\
       calls s' =
       map (fun c => if is_awaiting c then Returned r else c) (calls s) /\
       ops s' = update k (Settled r) (ops s) /\
       refreshPromise s' = None /\ in_flight s' = 0 /\
       token_posts s' = token_posts s) /\
      forall (i : nat) (f : bool) (current : QwenCredentials) (t : Z),
        nth_error (calls s') i = Some (Read f (inl current)) ->
        needs_refresh options f t current = true ->
        exists s'',
          step options (Resume i t) s' = Some s'' /\
          nth_error (calls s'') i = Some (Awaiting (List.length (ops s'))) /\
          refreshPromise s'' = Some (List.length (ops s')) /\
          ops s'' = ops s' ++ [Fetching current] /\
          token_posts s'' = S (token_posts s')) /\
  (calls s <> [] ->
   forallb is_awaiting (calls s) = true ->
   forallb pending (ops s) = true ->
   token_posts s = 1 /\ refreshPromise s = Some 0 /\
   forallb (awaits 0) (calls s) = true /\
   forall (l : label) (s' : state) (r : result QwenCredentials),
     step options l s = Some s' ->
     nth_error (ops s') 0 = Some (Settled r) ->
     Forall (fun c => c = Returned r) (calls s') /\
     refreshPromise s' = None /\ token_posts s' = 1).
Proof.
  intros Hrun. pose proof (wf_run ls _ s (wf_init f0) Hrun) as Hwf.
  split; [|split; [|split; [|split; [|split]]]].
  - split; [now apply wf_in_flight | apply Hwf].
  - intros i f current t Hi Hneed.
    exact (resume_attaches s i f current t Hi Hneed).
  - intros i k Hi.
    destruct (wf_awaiting s i k Hwf Hi) as (Hslot & Hop).
    split; [exact Hslot|]. split; [|split; [exact Hop|]].
    + destruct Hwf as [-> _]. symmetry.
      apply (slot_is_last ls (init f0) s); [discriminate | exact Hrun |
                                            exact Hslot].
    + intros l s' Hstep. exact (step_awaiting l s s' i k Hwf Hstep Hi).
  - intros l s' Hstep. exact (step_token_posts l s s' Hstep).
  - intros l s' k o r Hstep Hk Ho Hset.
    pose proof (settlement l s s' k o r Hwf Hstep Hk Ho Hset) as Hs.
    split; [exact Hs|].
    intros i f current t Hi Hneed.
    destruct (resume_attaches s' i f current t Hi Hneed)
      as (s'' & Hstep' & Hcall & Hrest).
    destruct Hs as (_ & _ & _ & _ & Hnone & _).
    rewrite Hnone in Hcall, Hrest. exists s''. tauto.
  - intros Hne Hawait Hpend. destruct Hwf as [Hn Hs].
    destruct (refreshPromise s) as [k|] eqn:Hslot.
    2:{ destruct Hs as [_ Hnot]. destruct (calls s) as [|c cs];
          [congruence|]. simpl in Hawait, Hnot.
        destruct (is_awaiting c); discriminate. }
    destruct Hs as ((pre & o & post & Hops & Hlen & Hp & Hpre & Hpost)
                    & Hcalls & Hex).
    assert (Hnil : forall l, forallb settled l = true ->
                             forallb pending l = true -> l = []).
    { intros [|x l]; [reflexivity|]. simpl. unfold settled.
      destruct (pending x); discriminate. }
    rewrite Hops, forallb_app in Hpend. cbn [forallb] in Hpend.
    apply andb_true_iff in Hpend. destruct Hpend as [Hpp Hpend].
    apply andb_true_iff in Hpend. destruct Hpend as [_ Hpo].
    pose proof (Hnil pre Hpre Hpp) as ->.
    pose proof (Hnil post Hpost Hpo) as ->.
    simpl in Hlen. subst k. cbn [app] in Hops.
    assert (Hall : forallb (awaits 0) (calls s) = true).
    { rewrite forallb_forall in *. intros c Hc.
      specialize (Hcalls c Hc). specialize (Hawait c Hc).
      now rewrite Hawait in Hcalls. }
    split; [rewrite Hn, Hops; reflexivity|]. split; [reflexivity|].
    split; [exact Hall|].
    intros l s' r Hstep Hset.
    assert (Hsettle : forall r' f',
               nth_error (ops (settle 0 r' (mkState f' (refreshPromise s)
                                      (ops s) (calls s) (token_posts s))))
                         0 = Some (Settled r) ->
               Forall (fun c => c = Returned r)
                      (calls (settle 0 r' (mkState f' (refreshPromise s)
                                      (ops s) (calls s) (token_posts s))))
               /\
               refreshPromise (settle 0 r' (mkState f' (refreshPromise s)
                                      (ops s) (calls s) (token_posts s)))
               = None /\
               token_posts (settle 0 r' (mkState f' (refreshPromise s)
                                      (ops s) (calls s) (token_posts s)))
               = 1).
    { intros r' f'. unfold settle.
      cbn [ops calls refreshPromise token_posts]. rewrite Hops, Hex.
      cbn [update nth_error]. intros [= ->].
      split; [now apply all_returned|]. split; [reflexivity|].
      rewrite Hn, Hops. reflexivity. }
    destruct l as [f | i | i t | k a t | k]; cbn [step] in Hstep.
    + injection Hstep as <-. cbn [ops] in Hset. rewrite Hops in Hset.
      injection Hset as ->. discriminate.
    + destruct (nth_error (calls s) i) as [[f | | |]|]; try discriminate.
      injection Hstep as <-. cbn [ops] in Hset. rewrite Hops in Hset.
      injection Hset as ->. discriminate.
    + destruct (nth_error (calls s) i) as [[| f r0 | |]|] eqn:Hi;
        try discriminate.
      apply (nth_error_forallb _ _ _ _ Hawait) in Hi. discriminate.
    + destruct (nth_error (ops s) k) as [[current | |]|] eqn:Hk;
        try discriminate.
      rewrite Hops in Hk. destruct k as [|k];
        [|destruct k; discriminate].
      destruct (refresh_outcome current a t) as [next|e].
      * injection Hstep as <-. cbn [ops] in Hset. rewrite Hops in Hset.
        discriminate.
      * injection Hstep as <-. destruct s as [fs sl os cs tp].
        now apply Hsettle.
    + destruct (nth_error (ops s) k) as [[| next |]|] eqn:Hk;
        try discriminate.
      rewrite Hops in Hk. destruct k as [|k];
        [|destruct k; discriminate].
      injection Hstep as <-. now apply Hsettle.
Qed.

End Machine.

(** C1, as stated, fails: two concurrent calls that both require a
    refresh send two token requests and return different credentials. *)
Lemma late_read_refreshes_twice :
  exists (s : state) (c1 c2 : QwenCredentials),
    run Sample.options Sample.late_read (init Sample.fresh_file) = Some s /\
    token_posts s = 2 /\
    calls s = [Returned (inl c1); Returned (inl c2)] /\
    access_token c1 <> access_token c2.
Proof.
  eexists _, _, _. split; [vm_compute; reflexivity|].
  split; [reflexivity|]. split; [reflexivity|]. discriminate.
Qed.

(** C1 (as amended), at the second operation of a run: two calls await
    it after two token requests, and the step that settles it gives both
    its result and empties the slot. *)
Lemma single_flight_witness :
  exists (s s' : state) (r0 r : result QwenCredentials),
    run Sample.options Sample.second_operation (init Sample.fresh_file)
    = Some s /\
    token_posts s = 2 /\ refreshPromise s = Some 1 /\
    step Sample.options (Saved 1) s = Some s' /\
    calls s' = [Returned r0; Returned r; Returned r] /\
    refreshPromise s' = None /\ token_posts s' = 2.
Proof.
  destruct (run Sample.options Sample.second_operation
                (init Sample.fresh_file)) as [s|] eqn:Hrun;
    [|vm_compute in Hrun; discriminate].
  pose proof (single_flight Sample.options Sample.fresh_file
                            Sample.second_operation s Hrun)
    as (_ & _ & Hawait & _ & Hsettle & _).
  vm_compute in Hrun. injection Hrun as <-.
  destruct (Hawait 1 1 eq_refl) as (Hslot & Hposts & _).
  destruct (Hsettle (Saved 1) _ 1 _ _ eq_refl eq_refl eq_refl eq_refl)
    as ((_ & _ & Hcalls & _ & Hnone & _ & Htok) & _).
  eexists _, _, _, _. split; [reflexivity|].
  split; [exact Hposts|]. split; [exact Hslot|].
  split; [reflexivity|]. split; [exact Hcalls|].
  split; [exact Hnone|]. rewrite Htok. exact Hposts.
Defined.

End SingleFlightFacts.

(* ================================================================== *)
(** * Properties of the request forwarder *)
(* ================================================================== *)

Module ServerFacts.

Import OAuth Store Server StoreFacts.
Local Open Scope string_scope.

Lemma count_log_all (f : event -> bool) (es : list event) (w : world) :
  count f (trace (log_all es w)) = count f (trace w) + count f es.
Proof.
  revert w. induction es as [|e es IH]; intros w; simpl.
  - unfold count at 3. simpl. lia.
  - unfold log_all in *. simpl. rewrite IH, count_log.
    unfold count at 4. simpl. destruct (f e); simpl; unfold count; lia.
Qed.

Lemma count_chunk_events (f : event -> bool) (l : list string) :
  (forall n, f (EvReadChunk n) = false) -> count f (chunk_events l) = 0.
Proof.
  intros Hf. unfold count, chunk_events.
  induction l as [|c l IH]; simpl; [reflexivity|]. now rewrite Hf.
Qed.

Lemma ended_log_all (es : list event) (w : world) :
  ended (log_all es w) = ended w.
Proof.
  revert w. induction es as [|e es IH]; intros w; [reflexivity|].
  unfold log_all in *. simpl. now rewrite IH.
Qed.

Lemma trace_log_all (es : list event) (w : world) :
  trace (log_all es w) = (trace w ++ es)%list.
Proof.
  revert w. induction es as [|e es IH]; intros w.
  - simpl. now rewrite app_nil_r.
  - unfold log_all in *. simpl. rewrite IH. simpl.
    now rewrite <- app_assoc.
Qed.

(** ** The body loop *)

Lemma read_chunks_within (pending collected : list string) (total : N)
      (w : world) :
  (total + body_size pending <= MAX_REQUEST_BODY_BYTES)%N ->
  read_chunks pending collected total w =
  (inl (collected ++ pending)%list, log_all (chunk_events pending) w).
Proof.
  revert collected total w.
  induction pending as [|chunk rest IH]; intros collected total w Hle.
  - simpl. now rewrite app_nil_r.
  - simpl in Hle. cbn [read_chunks]. unfold bind at 1, emit.
    replace (MAX_REQUEST_BODY_BYTES <? total + byte_length chunk)%N
      with false by (symmetry; apply N.ltb_ge; lia).
    rewrite IH by lia. now rewrite <- app_assoc.
Qed.

Lemma read_chunks_beyond (pending collected : list string) (total : N)
      (w : world) :
  (MAX_REQUEST_BODY_BYTES < total + body_size pending)%N ->
  (total <= MAX_REQUEST_BODY_BYTES)%N ->
  exists read rest : list string,
    pending = (read ++ rest)%list /\
    read_chunks pending collected total w =
    (inr request_body_too_large, log_all (chunk_events read) w).
Proof.
  revert collected total w.
  induction pending as [|chunk rest IH]; intros collected total w Hlt Hle.
  - simpl in Hlt. lia.
  - simpl in Hlt. cbn [read_chunks]. unfold bind at 1, emit.
    destruct (MAX_REQUEST_BODY_BYTES <? total + byte_length chunk)%N eqn:Hc.
    + exists [chunk], rest. split; reflexivity.
    + apply N.ltb_ge in Hc.
      destruct (IH (collected ++ [chunk])%list (total + byte_length chunk)%N
                   (log (EvReadChunk (byte_length chunk)) w))
        as (read & rest' & -> & Hrun); [lia | lia |].
      exists (chunk :: read), rest'. split; [reflexivity|]. exact Hrun.
Qed.

Lemma writeJson_run (statusCode : Z) (payload : json) (w : world) :
  writeJson statusCode payload w =
  (inl tt,
   if ended w then w
   else with_ended (log (EvRespond (JsonResponse statusCode payload)) w)).
Proof.
  unfold writeJson, bind, get_world, emit, end_response, ret.
  destruct (ended w); reflexivity.
Qed.

(** A body of exactly the cap is read; one byte more fails. *)
Lemma request_body_boundary (chunk : string) (m : string)
      (h : list (string * header_value)) (w : world) :
  mayHaveBody m = true ->
  (byte_length chunk = MAX_REQUEST_BODY_BYTES ->
   fst (readRequestBody (mkRequest (Some m) h [chunk]) w) =
   inl (Some chunk)) /\
  (byte_length chunk = (MAX_REQUEST_BODY_BYTES + 1)%N ->
   fst (readRequestBody (mkRequest (Some m) h [chunk]) w) =
   inr request_body_too_large).
Proof.
  intros Hm. unfold readRequestBody. cbn [method method_or_GET chunks].
  rewrite Hm. cbn [negb]. unfold bind. split; intros Hlen.
  - rewrite read_chunks_within by (cbn [body_size fold_right]; lia).
    reflexivity.
  - destruct (read_chunks_beyond [chunk] [] 0%N w) as (read & rest & _ & ->);
      [cbn [body_size fold_right]; lia | vm_compute; discriminate |].
    reflexivity.
Qed.

Section Forwarder.

Context {HP : Url.HostParser}.
Variable runtime : ProxyRuntime.

(** C7: a body of at most 20 MiB is read whole, chunk by chunk; a body
    of more than 20 MiB fails the read with [request_body_too_large]
    (413), and the forwarder then answers 413 [invalid_request_error]
    having sent no request upstream and none to the token endpoint; a
    request whose method is GET or HEAD reads no chunk at all. *)
Theorem request_body_cap (req : IncomingMessage)
        (requestPath requestSearch : string) (w : world) :
  MAX_REQUEST_BODY_BYTES = 20971520%N /\
  (mayHaveBody (method_or_GET (method req)) = true ->
   (body_size (chunks req) <= MAX_REQUEST_BODY_BYTES)%N ->
   readRequestBody req w =
   (inl (match chunks req with
         | [] => None
         | _ => Some (String.concat "" (chunks req))
         end),
    log_all (chunk_events (chunks req)) w)) /\
  (mayHaveBody (method_or_GET (method req)) = true ->
   (MAX_REQUEST_BODY_BYTES < body_size (chunks req))%N ->
   exists (message : string) (w1 : world),
     readRequestBody req w =
     (inr (HttpRequestError message 413 "request_body_too_large"), w1) /\
     forward runtime req requestPath requestSearch w =
     (inl tt,
      if ended w1 then w1
      else with_ended
             (log (EvRespond
                     (JsonResponse 413
                        (envelope message "invalid_request_error"
                                  (Some "request_body_too_large"))))
                  w1)) /\
     upstream_requests w1 = upstream_requests w /\
     token_requests w1 = token_requests w) /\
  (mayHaveBody (method_or_GET (method req)) = false ->
   readRequestBody req w = (inl None, w)).
Proof.
  split; [reflexivity|]. split; [|split].
  - intros Hm Hle. unfold readRequestBody. rewrite Hm. cbn [negb].
    unfold bind. rewrite read_chunks_within by (simpl; lia).
    simpl. destruct (chunks req); reflexivity.
  - intros Hm Hlt.
    destruct (read_chunks_beyond (chunks req) [] 0%N w)
      as (read & rest & Hsplit & Hrun); [simpl; lia | vm_compute; discriminate |].
    assert (Hbody : readRequestBody req w =
                    (inr request_body_too_large,
                     log_all (chunk_events read) w)).
    { unfold readRequestBody. rewrite Hm. cbn [negb]. unfold bind.
      now rewrite Hrun. }
    eexists _, (log_all (chunk_events read) w).
    split; [exact Hbody|]. split; [|split].
    + unfold forward, try_catch, bind. rewrite Hbody.
      cbn [handleRequestError request_body_too_large].
      unfold sendOpenAIError. now rewrite writeJson_run.
    + unfold upstream_requests. rewrite count_log_all.
      rewrite count_chunk_events by reflexivity. lia.
    + unfold token_requests. rewrite count_log_all.
      rewrite count_chunk_events by reflexivity. lia.
  - intros Hm. unfold readRequestBody. now rewrite Hm.
Qed.



(** ** One attempt *)

Lemma requestUpstream_run (req : IncomingMessage)
      (requestPath requestSearch : string) (requestBody : option string)
      (forceRefresh : bool) (w : world) :
  requestUpstream runtime req requestPath requestSearch requestBody
                  forceRefresh w =
  match getValidCredentials (oauthStore runtime) forceRefresh w with
  | (inr e, w1) => (inr e, w1)
  | (inl credentials, w1) =>
      if present (access_token credentials) then
        match getUpstreamBaseUrl credentials
                                 (upstreamBaseUrl (config runtime)) with
        | None => (inr (OtherError "Invalid URL"), w1)
        | Some base =>
            match buildUpstreamUrl base requestPath requestSearch with
            | inr e => (inr e, w1)
            | inl url =>
                match buildUpstreamHeaders
                        (headers req)
                        (match access_token credentials with
                         | Some t => t
                         | None => ""
                         end) with
                | inr e => (inr e, w1)
                | inl upstreamHeaders =>
                    let w2 :=
                      log (EvUpstreamRequest url (method req) upstreamHeaders
                                             requestBody) w1 in
                    match upstream w1 (upstream_requests w1) with
                    | UpstreamResponded r => (inl r, w2)
                    | UpstreamRejected name message =>
                        (inr (if isAbortError name message then
                                HttpRequestError
                                  ("Upstream request timed out after " ++
                                   of_Z (requestTimeoutMs (config runtime)) ++
                                   "ms.") 504 "upstream_timeout"
                              else
                                HttpRequestError
                                  ("Failed to reach upstream API: " ++
                                   message)
                                  502 "upstream_unavailable"), w2)
                    end
                end
            end
        end
      else (inr missing_access_token, w1)
  end.
Proof.
  unfold requestUpstream, bind at 1.
  destruct (getValidCredentials _ _ _) as [[credentials|e] w1];
    [|reflexivity].
  unfold present. destruct (access_token credentials) as [token|];
    [|reflexivity].
  destruct (String.eqb token ""); [reflexivity|]. cbn [negb].
  destruct (getUpstreamBaseUrl _ _) as [base|]; [|reflexivity].
  unfold bind, lift, fetch_upstream, get_world, emit, ret, throw, bind.
  destruct (buildUpstreamUrl _ _ _) as [url|e]; [|reflexivity].
  destruct (buildUpstreamHeaders _ _) as [upstreamHeaders|e];
    [|reflexivity].
  cbn [fst snd]. cbn [upstream log].
  destruct (upstream w1 (upstream_requests w1)) as [name message|r];
    [|reflexivity].
  destruct (isAbortError name message); reflexivity.
Qed.

Lemma upstream_requests_was_read (w : world) :
  upstream_requests (was_read (oauthStore runtime) w) = upstream_requests w.
Proof.
  unfold upstream_requests, was_read. rewrite count_log. simpl. lia.
Qed.

Lemma upstream_requests_requested (rt : string) (w : world) :
  upstream_requests (requested rt w) = upstream_requests w.
Proof.
  unfold upstream_requests, requested. rewrite count_log. simpl. lia.
Qed.

Lemma upstream_requests_saved (c : QwenCredentials) (w : world) :
  upstream_requests (saved (oauthStore runtime) c w) = upstream_requests w.
Proof.
  unfold upstream_requests, saved, count. simpl. rewrite !filter_app.
  simpl. now rewrite !app_nil_r.
Qed.

(** What a call of [getValidCredentials] leaves untouched, and how many
    token requests it sends. *)
Lemma getValidCredentials_frame (forceRefresh : bool) (w w1 : world)
      (res : result QwenCredentials) :
  getValidCredentials (oauthStore runtime) forceRefresh w = (res, w1) ->
  upstream w1 = upstream w /\
  upstream_requests w1 = upstream_requests w /\
  ended w1 = ended w /\
  token_requests w <= token_requests w1 <= S (token_requests w) /\
  (forceRefresh = true -> (exists c, res = inl c) ->
   token_requests w1 = S (token_requests w)).
Proof.
  rewrite getValidCredentials_run.
  destruct (read_file _ _) as [current|e].
  2:{ intros [= <- <-]. rewrite upstream_requests_was_read,
        token_requests_was_read.
      repeat split; try lia. intros _ (c & [=]). }
  destruct (negb forceRefresh && _) eqn:Hfast.
  { intros [= <- <-]. rewrite upstream_requests_was_read,
      token_requests_was_read.
    repeat split; try lia. intros ->. discriminate. }
  destruct (present (refresh_token current)) eqn:Hp; cbn [negb].
  2:{ intros [= <- <-]. rewrite upstream_requests_was_read,
        token_requests_was_read.
      repeat split; try lia. intros _ (c & [=]). }
  apply present_some in Hp. destruct Hp as (rt & Hrt & Hne).
  rewrite (refreshCredentials_run _ current rt _ Hrt Hne).
  destruct (refresh_outcome _ _ _) as [next|e]; intros [= <- <-].
  - rewrite upstream_requests_saved, upstream_requests_requested,
      upstream_requests_was_read, token_requests_saved,
      token_requests_requested, token_requests_was_read.
    repeat split; lia.
  - rewrite upstream_requests_requested, upstream_requests_was_read,
      token_requests_requested, token_requests_was_read.
    repeat split; lia.
Qed.






End Forwarder.

Import UrlFacts.

(** C7, at a body of two chunks. *)
Lemma request_body_cap_witness :
  fst (readRequestBody Sample.post_request
         (Sample.world_of 1000 Sample.fresh_file Sample.new_token
                          (Sample.upstream_of 200))) =
  inl (Some (String.concat "" (chunks Sample.post_request))).
Proof.
  rewrite (proj1 (proj2 (request_body_cap Sample.sample_runtime Sample.post_request
                           "/v1/chat/completions" ""
                           (Sample.world_of 1000 Sample.fresh_file
                              Sample.new_token (Sample.upstream_of 200))))
                 eq_refl).
  - reflexivity.
  - vm_compute. discriminate.
Defined.




(** The same run, evaluated: two requests upstream, one token request
    between them, the second response relayed. *)
Example retry_on_401_once_run :
  let w := snd (proxyRequest Sample.sample_runtime Sample.get_request
                             "/v1/chat/completions" "" None
                             (Sample.world_401 1000 Sample.fresh_file
                                               Sample.new_token)) in
  upstream_requests w = 2 /\ token_requests w = 1 /\
  last (trace w) EvCancelBody = EvRespond (Relayed 200 [] "").
Proof. vm_compute. repeat split. Qed.

End ServerFacts.

(* ================================================================== *)
(** * Properties of the built-ins *)
(* ================================================================== *)

Module PlatformFacts.

Import Platform CharsFacts.
Local Open Scope char_scope.

Lemma of_string_inj (a b : string) : of_string a = of_string b -> a = b.
Proof.
  intros H. apply (f_equal to_string) in H.
  unfold to_string, of_string in H.
  now rewrite !string_of_list_ascii_of_string in H.
Qed.

Lemma of_string_app (a b : string) :
  of_string (a ++ b)%string = of_string a ++ of_string b.
Proof.
  induction a as [|c a IH]; simpl; [reflexivity|].
  unfold of_string in *. simpl. now rewrite IH.
Qed.

Lemma to_of_string (s : string) : to_string (of_string s) = s.
Proof. apply string_of_list_ascii_of_string. Qed.

(** ** [trim] *)

Lemma strip_any_split (seqs : list chars) (s r : chars) :
  strip_any seqs s = Some r -> exists p, In p seqs /\ s = p ++ r.
Proof.
  induction seqs as [|q seqs IH]; simpl; [discriminate|].
  destruct (starts_with q s) eqn:Hq.
  - intros [= <-]. apply starts_with_split in Hq. destruct Hq as (r & ->).
    exists q. split; [now left|]. f_equal.
    now rewrite skipn_app, skipn_all, Nat.sub_diag.
  - intros H. destruct (IH H) as (p & Hp & ->). exists p. auto.
Qed.

Lemma strip_any_starts (seqs : list chars) (p s : chars) :
  In p seqs -> starts_with p s = true -> strip_any seqs s <> None.
Proof.
  induction seqs as [|q seqs IH]; simpl; [tauto|].
  intros [-> | Hin] Hp.
  - now rewrite Hp.
  - destruct (starts_with q s); [discriminate | now apply IH].
Qed.

Lemma starts_with_prefix (p a b : chars) :
  starts_with p a = true -> starts_with p (a ++ b) = true.
Proof.
  intros H. apply starts_with_split in H. destruct H as (r & ->).
  rewrite <- app_assoc. apply starts_with_app.
Qed.

Lemma strip_any_prefix (seqs : list chars) (a b : chars) :
  strip_any seqs (a ++ b) = None -> strip_any seqs a = None.
Proof.
  intros H. destruct (strip_any seqs a) as [r|] eqn:Ha; [|reflexivity].
  apply strip_any_split in Ha. destruct Ha as (p & Hp & ->).
  exfalso. apply (strip_any_starts seqs p ((p ++ r) ++ b) Hp); [|exact H].
  rewrite <- app_assoc. apply starts_with_app.
Qed.

Lemma white_space_nonempty (p : chars) : In p white_space -> p <> [].
Proof.
  intros H ->. revert H. unfold white_space. cbn.
  intuition discriminate.
Qed.

Lemma white_space_rev_nonempty (p : chars) :
  In p (map (@rev ascii) white_space) -> p <> [].
Proof.
  intros H ->. revert H. unfold white_space. cbn.
  intuition discriminate.
Qed.

Section TrimAux.

Variable next : chars -> option chars.
Hypothesis next_split :
  forall s r, next s = Some r -> exists p, p <> [] /\ s = p ++ r.

Lemma trim_aux_fixed (fuel : nat) (s : chars) :
  List.length s <= fuel -> next (trim_aux next fuel s) = None.
Proof.
  revert s. induction fuel as [|fuel IH]; intros s Hlen; cbn [trim_aux].
  - destruct s; [|simpl in Hlen; lia].
    destruct (next []) as [r|] eqn:Hn; [|reflexivity].
    destruct (next_split _ _ Hn) as (p & Hp & H).
    destruct p; [now elim Hp | discriminate].
  - destruct (next s) as [r|] eqn:Hn; [|exact Hn].
    apply IH. destruct (next_split _ _ Hn) as (p & Hp & ->).
    rewrite length_app in Hlen. destruct p; [now elim Hp|].
    simpl in Hlen. lia.
Qed.

Lemma trim_aux_split (fuel : nat) (s : chars) :
  exists p, s = p ++ trim_aux next fuel s.
Proof.
  revert s. induction fuel as [|fuel IH]; intros s; cbn [trim_aux].
  - now exists [].
  - destruct (next s) as [r|] eqn:Hn; [|now exists []].
    destruct (next_split _ _ Hn) as (p & _ & ->).
    destruct (IH r) as (q & Hq). exists (p ++ q).
    rewrite <- app_assoc. now rewrite <- Hq.
Qed.

Lemma trim_aux_none (fuel : nat) (s : chars) :
  next s = None -> trim_aux next fuel s = s.
Proof. intros H. destruct fuel; cbn [trim_aux]; [|rewrite H]; reflexivity. Qed.

End TrimAux.

Lemma ws_prefix_split (s r : chars) :
  ws_prefix s = Some r -> exists p, p <> [] /\ s = p ++ r.
Proof.
  intros H. apply strip_any_split in H. destruct H as (p & Hp & ->).
  exists p. split; [now apply white_space_nonempty | reflexivity].
Qed.

Lemma ws_suffix_rev_split (s r : chars) :
  ws_suffix_rev s = Some r -> exists p, p <> [] /\ s = p ++ r.
Proof.
  intros H. apply strip_any_split in H. destruct H as (p & Hp & ->).
  exists p. split; [now apply white_space_rev_nonempty | reflexivity].
Qed.

Lemma trim_start_clean (s : chars) : ws_prefix (trim_start s) = None.
Proof. apply (trim_aux_fixed _ ws_prefix_split). lia. Qed.

Lemma trim_end_clean (s : chars) : ws_suffix_rev (rev (trim_end s)) = None.
Proof.
  unfold trim_end. rewrite rev_involutive.
  apply (trim_aux_fixed _ ws_suffix_rev_split). now rewrite length_rev.
Qed.

Lemma trim_end_prefix (s : chars) : exists q, s = trim_end s ++ q.
Proof.
  unfold trim_end.
  destruct (trim_aux_split _ ws_suffix_rev_split (List.length s) (rev s))
    as (p & Hp).
  exists (rev p). rewrite <- rev_app_distr, <- Hp.
  now rewrite rev_involutive.
Qed.

(** A trimmed string neither starts nor ends with white space. *)
Lemma trim_clean (s : chars) :
  ws_prefix (trim s) = None /\ ws_suffix_rev (rev (trim s)) = None.
Proof.
  unfold trim. split; [|apply trim_end_clean].
  destruct (trim_end_prefix (trim_start s)) as (q & Hq).
  apply (strip_any_prefix _ _ q). unfold ws_prefix in *.
  rewrite <- Hq. apply trim_start_clean.
Qed.

Lemma trim_fixed (s : chars) :
  ws_prefix s = None -> ws_suffix_rev (rev s) = None -> trim s = s.
Proof.
  intros Hp Hs. unfold trim, trim_start, trim_end.
  rewrite (trim_aux_none ws_prefix (List.length s) s Hp).
  rewrite (trim_aux_none ws_suffix_rev (List.length s) (rev s) Hs).
  apply rev_involutive.
Qed.

Lemma trim_idempotent (s : chars) : trim (trim s) = trim s.
Proof. destruct (trim_clean s). now apply trim_fixed. Qed.

(** ** [decodeURIComponent] *)

Lemma decode_plain (s : chars) :
  mem "%" s = false -> decode 0 [] s = Some s.
Proof.
  induction s as [|c s IH]; [reflexivity|]. cbn [mem decode].
  intros H. apply orb_false_iff in H. destruct H as [Hc Hs].
  rewrite Hc, (IH Hs). reflexivity.
Qed.

Lemma hex_value_percent : hex_value "%" = None.
Proof. reflexivity. Qed.

Lemma parse_hex_octet_percent (x : ascii) : parse_hex_octet x "%" = None.
Proof. unfold parse_hex_octet. now destruct (hex_value x). Qed.

(** A [%] that two hexadecimal digits do not follow makes the decoding
    fail, wherever it stands. *)
Lemma decode_malformed (n : nat) :
  forall (s : chars) (pending : nat) (octets : list N) (t : chars),
    List.length s <= n ->
    match t with
    | a :: b :: _ => parse_hex_octet a b = None
    | _ => True
    end ->
    decode pending octets (s ++ "%" :: t) = None.
Proof.
  induction n as [|n IH]; intros s pending octets t Hlen Ht.
  - destruct s; [|simpl in Hlen; lia]. cbn [app decode].
    change (Ascii.eqb "%" "%") with true. cbn iota.
    destruct t as [|a [|b t]]; try reflexivity. now rewrite Ht.
  - destruct s as [|c s]; [apply (IH []); [simpl; lia | exact Ht]|].
    cbn [app decode]. simpl in Hlen.
    destruct (Ascii.eqb c "%").
    + destruct s as [|x [|y s]]; cbn [app].
      * destruct t as [|a t]; [reflexivity|].
        change (parse_hex_octet "%" a) with (@None N). reflexivity.
      * now rewrite parse_hex_octet_percent.
      * destruct (parse_hex_octet x y) as [B|]; [|reflexivity].
        simpl in Hlen.
        destruct pending as [|[|p]].
        -- destruct (sequence_length B) as [|[|k]]; [reflexivity | |].
           ++ rewrite IH by (assumption || lia). reflexivity.
           ++ apply IH; [lia | assumption].
        -- destruct (valid_utf8 _); [|reflexivity].
           rewrite IH by (assumption || lia). reflexivity.
        -- apply IH; [lia | assumption].
    + destruct pending; [|reflexivity].
      rewrite IH by (assumption || lia). reflexivity.
Qed.

(** ** [Number.parseInt] *)

Lemma digit_printable (c : ascii) : is_digit c = true -> printable c = true.
Proof. each_char c; intros H; try discriminate H; reflexivity. Qed.

Lemma trim_start_printable (c : ascii) (s : chars) :
  printable c = true -> trim_start (c :: s) = c :: s.
Proof.
  intros H. unfold trim_start. apply trim_aux_none.
  now apply ws_prefix_printable.
Qed.

Lemma read_sign_digit (c : ascii) (r : chars) :
  is_digit c = true -> read_sign (c :: r) = (1%Z, c :: r).
Proof. each_char c; intros H; try discriminate H; reflexivity. Qed.

Lemma digits_head (d : Decimal.uint) :
  d <> Decimal.Nil ->
  exists c r, of_string (NilEmpty.string_of_uint d) = c :: r /\
              is_digit c = true.
Proof.
  destruct d; [now intros H; elim H | ..]; intros _; simpl;
    eexists; eexists; (split; [reflexivity|]); reflexivity.
Qed.

(** The digits of a number, with anything but a digit after them. *)
Lemma span_digits (d : Decimal.uint) (junk : chars) :
  match junk with c :: _ => is_digit c = false | [] => True end ->
  span is_digit (of_string (NilEmpty.string_of_uint d) ++ junk) =
  (of_string (NilEmpty.string_of_uint d), junk).
Proof.
  intros Hj. destruct junk as [|c junk].
  - rewrite app_nil_r. apply span_end. apply string_of_uint_digits.
  - apply span_stop; [apply string_of_uint_digits | exact Hj].
Qed.

Lemma parseInt_unsigned (d : Decimal.uint) (junk : chars) :
  d <> Decimal.Nil ->
  match junk with c :: _ => is_digit c = false | [] => True end ->
  parseInt (to_string (of_string (NilEmpty.string_of_uint d) ++ junk)) =
  Some (Z.of_N (N.of_uint d)).
Proof.
  intros Hd Hj. unfold parseInt. rewrite ResolverFacts.of_to_string.
  destruct (digits_head d Hd) as (c & r & Hcr & Hc).
  rewrite Hcr. cbn [app].
  rewrite trim_start_printable by now apply digit_printable.
  rewrite (read_sign_digit c _ Hc).
  change (c :: r ++ junk) with ((c :: r) ++ junk).
  rewrite <- Hcr, (span_digits d junk Hj), Hcr. cbn [is_empty].
  rewrite <- Hcr. unfold to_string, of_string.
  rewrite string_of_list_ascii_of_string, NilEmpty.usu.
  f_equal; lia.
Qed.

Lemma parseInt_negative (d : Decimal.uint) (junk : chars) :
  d <> Decimal.Nil ->
  match junk with c :: _ => is_digit c = false | [] => True end ->
  parseInt (to_string ("-" :: of_string (NilEmpty.string_of_uint d) ++ junk))
  = Some (- Z.of_N (N.of_uint d))%Z.
Proof.
  intros Hd Hj. unfold parseInt. rewrite ResolverFacts.of_to_string.
  rewrite trim_start_printable by reflexivity.
  cbn [read_sign]. rewrite (span_digits d junk Hj).
  destruct (digits_head d Hd) as (c & r & Hcr & Hc).
  rewrite Hcr. cbn [is_empty]. rewrite <- Hcr. unfold to_string, of_string.
  rewrite string_of_list_ascii_of_string, NilEmpty.usu.
  f_equal; lia.
Qed.

Lemma uint_nonnil (p : positive) : Pos.to_uint p <> Decimal.Nil.
Proof. apply DecimalPos.Unsigned.to_uint_nonnil. Qed.

Lemma string_of_nonnil (d : Decimal.uint) :
  d <> Decimal.Nil -> NilZero.string_of_uint d = NilEmpty.string_of_uint d.
Proof. destruct d; [now intros H; elim H | ..]; reflexivity. Qed.

(** [parseInt] reads back the decimal writing of an integer, and stops
    at the first character that is no digit. *)
Lemma parseInt_of_Z (n : Z) (junk : string) :
  match of_string junk with c :: _ => is_digit c = false | [] => True end ->
  parseInt (Json.of_Z n ++ junk)%string = Some n.
Proof.
  intros Hj. rewrite <- (to_of_string (Json.of_Z n ++ junk)%string).
  rewrite of_string_app. unfold Json.of_Z.
  destruct n as [|p|p]; cbn [Z.to_int NilZero.string_of_int].
  - apply (parseInt_unsigned (Decimal.D0 Decimal.Nil)); [discriminate|].
    exact Hj.
  - rewrite string_of_nonnil by apply uint_nonnil.
    rewrite (parseInt_unsigned _ _ (uint_nonnil p) Hj).
    f_equal.
    change (N.of_uint (Pos.to_uint p)) with (N.of_uint (N.to_uint (Npos p))).
    now rewrite DecimalN.Unsigned.of_to.
  - rewrite string_of_nonnil by apply uint_nonnil.
    change (of_string (String "-" (NilEmpty.string_of_uint (Pos.to_uint p))))
      with ("-" :: of_string (NilEmpty.string_of_uint (Pos.to_uint p))).
    cbn [app]. rewrite (parseInt_negative _ _ (uint_nonnil p) Hj).
    f_equal.
    change (N.of_uint (Pos.to_uint p)) with (N.of_uint (N.to_uint (Npos p))).
    now rewrite DecimalN.Unsigned.of_to.
Qed.

End PlatformFacts.

(* ================================================================== *)
(** * [JSON.parse] reads what [JSON.stringify] prints *)
(* ================================================================== *)

Module JsonFacts.

Import Platform CharsFacts PlatformFacts.
Local Open Scope list_scope.

(** ** Strings *)

Lemma string_body_char (c : ascii) (r : chars) :
  string_body (of_string (escape_char c) ++ r) = prepend [c] (string_body r).
Proof. each_char c; reflexivity. Qed.

(** [JSON.parse] reads back the string that [JSON.stringify] quoted. *)
Lemma string_body_escape (s : string) (rest : chars) :
  string_body (of_string (escape s) ++ "034"%char :: rest) =
  Value (of_string s, rest).
Proof.
  induction s as [|c s IH]; [reflexivity|].
  cbn [escape]. rewrite of_string_app, <- app_assoc, string_body_char, IH.
  reflexivity.
Qed.

(** ** Numbers *)

Lemma to_uint_unorm (p : positive) :
  Decimal.unorm (Pos.to_uint p) = Pos.to_uint p.
Proof.
  rewrite <- (DecimalPos.Unsigned.to_of (Pos.to_uint p)).
  now rewrite DecimalPos.Unsigned.of_to.
Qed.

Lemma to_uint_head (p : positive) :
  exists c r, of_string (NilEmpty.string_of_uint (Pos.to_uint p)) = c :: r /\
              is_digit c = true /\ Ascii.eqb c "0" = false.
Proof.
  pose proof (to_uint_unorm p) as Hn.
  pose proof (DecimalPos.Unsigned.to_uint_nonzero p) as Hz.
  destruct (Pos.to_uint p) as [|d|d|d|d|d|d|d|d|d|d] eqn:E;
    try (simpl; eexists; eexists; repeat split; reflexivity).
  - now elim (DecimalPos.Unsigned.to_uint_nonnil p).
  - exfalso. rewrite DecimalFacts.unorm_D0 in Hn.
    destruct (Decimal.nzhead d) eqn:Hd;
      [|rewrite DecimalFacts.unorm_nzhead in Hn by (rewrite Hd; discriminate);
        now apply DecimalFacts.nzhead_nonzero in Hn ..].
    assert (H0 : Decimal.unorm d = Decimal.zero)
      by (apply DecimalFacts.unorm_0; exact Hd).
    rewrite H0 in Hn. apply Hz. now symmetry.
Qed.

Lemma number_unsigned (d : Decimal.uint) (c : ascii) (rest : chars) :
  (exists c0 r0, of_string (NilEmpty.string_of_uint d) = c0 :: r0 /\
                 is_digit c0 = true /\
                 (Ascii.eqb c0 "0" = false \/ r0 = [])) ->
  is_digit c = false -> mem c ["."; "e"; "E"]%char = false ->
  number (of_string (NilEmpty.string_of_uint d) ++ c :: rest) =
  Value (Z.of_N (N.of_uint d), c :: rest).
Proof.
  intros (c0 & r0 & Hd & Hc0 & Hlead) Hc Hm. unfold number.
  assert (Hsign : read_minus (of_string (NilEmpty.string_of_uint d) ++
                              c :: rest) =
                  (1%Z, of_string (NilEmpty.string_of_uint d) ++ c :: rest)).
  { rewrite Hd. cbn [app]. revert Hc0. clear. each_char c0; intros H;
      try discriminate H; reflexivity. }
  rewrite Hsign. rewrite (span_digits d (c :: rest) Hc).
  rewrite Hd.
  assert (Hl : Ascii.eqb c0 "0" && negb (is_empty r0) = false).
  { destruct Hlead as [-> | ->]; [reflexivity | apply andb_false_r]. }
  rewrite Hl, Hm, <- Hd. unfold to_string, of_string.
  rewrite string_of_list_ascii_of_string, NilEmpty.usu.
  f_equal; f_equal; lia.
Qed.

Lemma number_negative (d : Decimal.uint) (c : ascii) (rest : chars) :
  (exists c0 r0, of_string (NilEmpty.string_of_uint d) = c0 :: r0 /\
                 is_digit c0 = true /\
                 (Ascii.eqb c0 "0" = false \/ r0 = [])) ->
  is_digit c = false -> mem c ["."; "e"; "E"]%char = false ->
  number ("-"%char :: of_string (NilEmpty.string_of_uint d) ++ c :: rest) =
  Value ((- Z.of_N (N.of_uint d))%Z, c :: rest).
Proof.
  intros (c0 & r0 & Hd & Hc0 & Hlead) Hc Hm. unfold number.
  cbn [read_minus]. rewrite (span_digits d (c :: rest) Hc), Hd.
  assert (Hl : Ascii.eqb c0 "0" && negb (is_empty r0) = false).
  { destruct Hlead as [-> | ->]; [reflexivity | apply andb_false_r]. }
  rewrite Hl, Hm, <- Hd. unfold to_string, of_string.
  rewrite string_of_list_ascii_of_string, NilEmpty.usu.
  f_equal; f_equal; lia.
Qed.

(** [JSON.parse] reads back the integer that [JSON.stringify] wrote. *)
Lemma number_of_Z (n : Z) (c : ascii) (rest : chars) :
  is_digit c = false -> mem c ["."; "e"; "E"]%char = false ->
  number (of_string (of_Z n) ++ c :: rest) = Value (n, c :: rest).
Proof.
  intros Hc Hm. unfold of_Z.
  destruct n as [|p|p]; cbn [Z.to_int NilZero.string_of_int].
  - apply (number_unsigned (Decimal.D0 Decimal.Nil)); [|exact Hc|exact Hm].
    exists "0"%char, []. repeat split. now right.
  - rewrite string_of_nonnil by apply uint_nonnil.
    rewrite number_unsigned; [|
      destruct (to_uint_head p) as (c0 & r0 & H1 & H2 & H3);
      exists c0, r0; auto | exact Hc | exact Hm].
    f_equal. f_equal.
    change (N.of_uint (Pos.to_uint p)) with (N.of_uint (N.to_uint (Npos p))).
    now rewrite DecimalN.Unsigned.of_to.
  - rewrite string_of_nonnil by apply uint_nonnil.
    change (of_string (String "-" (NilEmpty.string_of_uint (Pos.to_uint p))))
      with ("-"%char :: of_string (NilEmpty.string_of_uint (Pos.to_uint p))).
    cbn [app].
    rewrite number_negative; [|
      destruct (to_uint_head p) as (c0 & r0 & H1 & H2 & H3);
      exists c0, r0; auto | exact Hc | exact Hm].
    f_equal. f_equal.
    change (N.of_uint (Pos.to_uint p)) with (N.of_uint (N.to_uint (Npos p))).
    now rewrite DecimalN.Unsigned.of_to.
Qed.

(** The first character of an integer is the sign or a digit. *)
Lemma of_Z_head (n : Z) :
  exists c r, of_string (of_Z n) = c :: r /\
              (Ascii.eqb c "-" || is_digit c) = true.
Proof.
  unfold of_Z. destruct n as [|p|p]; cbn [Z.to_int NilZero.string_of_int].
  - now exists "0"%char, [].
  - rewrite string_of_nonnil by apply uint_nonnil.
    destruct (to_uint_head p) as (c0 & r0 & H1 & H2 & _).
    exists c0, r0. split; [exact H1|]. rewrite H2. apply orb_true_r.
  - eexists _, _. split; reflexivity.
Qed.

(** ** Values *)

Lemma value_number_head (fuel : nat) (c0 : ascii) (r : chars) :
  (Ascii.eqb c0 "-" || is_digit c0) = true ->
  value (S fuel) (" "%char :: c0 :: r) =
  and_then (number (c0 :: r)) (fun nr => Value (JNum (fst nr), snd nr)).
Proof. each_char c0; intros H; try discriminate H; reflexivity. Qed.

Lemma value_number (fuel : nat) (n : Z) (c : ascii) (rest : chars) :
  is_digit c = false -> mem c ["."; "e"; "E"]%char = false ->
  value (S fuel) (" "%char :: of_string (of_Z n) ++ c :: rest) =
  Value (JNum n, c :: rest).
Proof.
  intros Hc Hm. destruct (of_Z_head n) as (c0 & r0 & Hn & Hc0).
  rewrite Hn. cbn [app]. rewrite (value_number_head fuel c0 _ Hc0).
  change (c0 :: r0 ++ c :: rest) with ((c0 :: r0) ++ c :: rest).
  rewrite <- Hn, (number_of_Z n c rest Hc Hm). reflexivity.
Qed.

Lemma of_string_quote (s : string) :
  of_string (quote s) = "034"%char :: of_string (escape s) ++ ["034"%char].
Proof. unfold quote. now rewrite !of_string_app. Qed.

Lemma value_string (fuel : nat) (s : string) (rest : chars) :
  value (S fuel) (" "%char :: of_string (quote s) ++ rest) =
  Value (JStr s, rest).
Proof.
  rewrite of_string_quote. cbn [app value].
  change (skip_whitespace (" "%char :: "034"%char ::
                           (of_string (escape s) ++ ["034"%char]) ++ rest))
    with ("034"%char :: (of_string (escape s) ++ ["034"%char]) ++ rest).
  cbn iota. change (code "034" =? 34)%N with true. cbn iota.
  rewrite <- app_assoc. cbn [app]. rewrite string_body_escape.
  cbn [and_then fst snd]. now rewrite to_of_string.
Qed.

(** A string or an integer, as [JSON.stringify] prints it after the
    colon of a property, followed by a comma or a line feed. *)
Lemma value_simple (fuel : nat) (inner : string) (v : json) (c : ascii)
      (rest : chars) :
  (exists s, v = JStr s) \/ (exists n, v = JNum n) ->
  is_digit c = false -> mem c ["."; "e"; "E"]%char = false ->
  value (S fuel) (" "%char :: of_string (stringify inner v) ++ c :: rest) =
  Value (v, c :: rest).
Proof.
  intros [(s & ->) | (n & ->)] Hc Hm; cbn [stringify].
  - apply value_string.
  - now apply value_number.
Qed.

(** ** Objects *)

Lemma skip_whitespace_app (pre : chars) (c : ascii) (r : chars) :
  forallb json_whitespace pre = true -> json_whitespace c = false ->
  skip_whitespace (pre ++ c :: r) = c :: r.
Proof.
  intros Hpre Hc. unfold skip_whitespace.
  rewrite (drop_while_app _ _ _ Hpre). cbn [drop_while]. now rewrite Hc.
Qed.

(** A property after white space: its name, the colon, its value, and
    what follows. *)
Lemma members_key (fuel : nat) (pre : chars) (k : string) (tail : chars)
      (acc : list (string * json)) :
  forallb json_whitespace pre = true ->
  members (S fuel) (pre ++ of_string (quote k) ++ ":"%char :: tail) acc =
  and_then (value fuel tail) (fun vr =>
    let fields := define k (fst vr) acc in
    match skip_whitespace (snd vr) with
    | ","%char :: r2 => members fuel r2 fields
    | "}"%char :: r2 => Value (JObj fields, r2)
    | _ => Invalid
    end).
Proof.
  intros Hpre. rewrite of_string_quote. cbn [members app].
  rewrite <- app_assoc. cbn [app].
  rewrite (skip_whitespace_app pre "034"%char _ Hpre eq_refl).
  change (code "034" =? 34)%N with true. cbn iota.
  rewrite string_body_escape.
  cbn [and_then fst snd].
  change (skip_whitespace (":"%char :: tail)) with (":"%char :: tail).
  cbn iota. now rewrite to_of_string.
Qed.

Lemma append_assoc (a b c : string) :
  ((a ++ b) ++ c)%string = (a ++ b ++ c)%string.
Proof.
  apply of_string_inj. now rewrite !of_string_app, app_assoc.
Qed.

Lemma fold_join (sep a b : string) (l : list string) :
  fold_left (fun acc y => (acc ++ sep ++ y)%string) l (a ++ b)%string =
  (a ++ fold_left (fun acc y => (acc ++ sep ++ y)%string) l b)%string.
Proof.
  revert b. induction l as [|y l IH]; intros b; cbn [fold_left];
    [reflexivity|].
  now rewrite append_assoc, IH.
Qed.

Lemma join_cons (sep x y : string) (l : list string) :
  join sep (x :: y :: l) = (x ++ sep ++ join sep (y :: l))%string.
Proof.
  unfold join. cbn [fold_left]. rewrite fold_join.
  f_equal. apply fold_join.
Qed.

Lemma define_fresh (k : string) (v : json) (fields : list (string * json)) :
  ~ In k (map fst fields) -> define k v fields = fields ++ [(k, v)].
Proof.
  induction fields as [|[k0 v0] fields IH]; cbn [define map fst app];
    [reflexivity|].
  intros Hno. destruct (String.eqb k0 k) eqn:He.
  - apply String.eqb_eq in He. elim Hno. now left.
  - rewrite IH; [reflexivity|]. intros H. apply Hno. now right.
Qed.

Lemma define_all (fs acc : list (string * json)) :
  NoDup (map fst (acc ++ fs)) ->
  fold_left (fun a kv => define (fst kv) (snd kv) a) fs acc = acc ++ fs.
Proof.
  revert acc. induction fs as [|[k v] fs IH]; intros acc Hnd; cbn [fold_left].
  - now rewrite app_nil_r.
  - cbn [fst snd]. rewrite define_fresh.
    + rewrite IH; rewrite <- app_assoc; [reflexivity | exact Hnd].
    + rewrite map_app in Hnd. cbn [map fst] in Hnd.
      apply NoDup_remove_2 in Hnd. intros H. apply Hnd.
      apply in_or_app. now left.
Qed.

Section Members.

Variable inner : string.

(** The properties of an object, as [JSON.stringify] prints them after
    the brace, are read back one after the other. *)
Lemma members_fields (fs : list (string * json)) :
  forall (fuel : nat) (acc : list (string * json)) (rest : chars),
    fs <> [] ->
    Forall (fun kv => (exists s, snd kv = JStr s) \/
                      (exists n, snd kv = JNum n)) fs ->
    List.length fs < fuel ->
    members fuel
            (of_string
               (nl ++ "  " ++
                join ("," ++ nl ++ "  ")
                     (map (fun kv => quote (fst kv) ++ ": " ++
                                     stringify inner (snd kv)) fs) ++
                nl ++ "}")%string ++ rest)
            acc =
    Value (JObj (fold_left (fun a kv => define (fst kv) (snd kv) a) fs acc),
           rest).
Proof.
  induction fs as [|[k v] fs IH]; intros fuel acc rest Hne Hs Hf;
    [congruence|].
  inversion Hs as [|x l Hv Hs']; subst. cbn [snd] in Hv.
  destruct fuel as [|fuel]; [lia|]. cbn [List.length] in Hf.
  destruct fuel as [|fuel]; [lia|].
  assert (Hkey : forall tail : chars,
             members (S (S fuel))
                     (of_string (nl ++ "  ")%string ++
                      of_string (quote k) ++ ":"%char :: tail) acc =
             and_then (value (S fuel) tail) (fun vr =>
               let fields := define k (fst vr) acc in
               match skip_whitespace (snd vr) with
               | ","%char :: r2 => members (S fuel) r2 fields
               | "}"%char :: r2 => Value (JObj fields, r2)
               | _ => Invalid
               end)).
  { intros tail. now apply members_key. }
  destruct fs as [|kv' fs'].
  - cbn [map join fold_left fst snd].
    replace (of_string
               (nl ++ "  " ++ (quote k ++ ": " ++ stringify inner v) ++
                nl ++ "}")%string ++ rest)
      with (of_string (nl ++ "  ")%string ++ of_string (quote k) ++
            ":"%char :: " "%char :: of_string (stringify inner v) ++
            "010"%char :: "}"%char :: rest).
    2:{ rewrite !of_string_app, <- !app_assoc. reflexivity. }
    rewrite Hkey, (value_simple fuel inner v "010"%char _ Hv eq_refl eq_refl).
    reflexivity.
  - cbn [map]. rewrite join_cons. cbn [fst snd].
    replace (of_string
               (nl ++ "  " ++
                ((quote k ++ ": " ++ stringify inner v) ++
                 ("," ++ nl ++ "  ") ++
                 join ("," ++ nl ++ "  ")
                      ((quote (fst kv') ++ ": " ++ stringify inner (snd kv'))
                       :: map (fun kv => quote (fst kv) ++ ": " ++
                                         stringify inner (snd kv)) fs')) ++
                nl ++ "}")%string ++ rest)
      with (of_string (nl ++ "  ")%string ++ of_string (quote k) ++
            ":"%char :: " "%char :: of_string (stringify inner v) ++
            ","%char ::
            (of_string
               (nl ++ "  " ++
                join ("," ++ nl ++ "  ")
                     (map (fun kv => quote (fst kv) ++ ": " ++
                                     stringify inner (snd kv))
                          (kv' :: fs')) ++
                nl ++ "}")%string ++ rest)).
    2:{ cbn [map]. rewrite !of_string_app, <- !app_assoc. reflexivity. }
    rewrite Hkey, (value_simple fuel inner v ","%char _ Hv eq_refl eq_refl).
    cbn [and_then fst snd].
    change (skip_whitespace (","%char :: ?x)) with (","%char :: x).
    cbn iota. cbn [fold_left fst snd].
    apply IH; [discriminate | exact Hs' | lia].
Qed.

End Members.

Lemma length_of_string (s : string) :
  List.length (of_string s) = String.length s.
Proof. induction s as [|c s IH]; [reflexivity|]. cbn. now rewrite IH. Qed.

Lemma length_append (a b : string) :
  String.length (a ++ b) = String.length a + String.length b.
Proof. now rewrite <- !length_of_string, of_string_app, length_app. Qed.

Lemma join_length (sep : string) (l : list string) :
  (forall x, In x l -> 0 < String.length x) ->
  List.length l <= String.length (join sep l).
Proof.
  induction l as [|x l IH]; intros Hl; [apply Nat.le_0_l|].
  destruct l as [|y l].
  - cbn [join fold_left List.length].
    specialize (Hl x (or_introl eq_refl)). lia.
  - rewrite join_cons, !length_append.
    pose proof (Hl x (or_introl eq_refl)).
    assert (List.length (y :: l) <= String.length (join sep (y :: l))).
    { apply IH. intros z Hz. apply Hl. now right. }
    cbn [List.length] in *. lia.
Qed.

(** [JSON.parse] reads back the object that [JSON.stringify] printed,
    for an object whose properties have distinct names and hold
    strings or integers. *)
Lemma parse_stringify (fs : list (string * json)) :
  NoDup (map fst fs) ->
  Forall (fun kv => (exists s, snd kv = JStr s) \/
                    (exists n, snd kv = JNum n)) fs ->
  JSON_parse (stringify "" (JObj fs) ++ nl) = Value (JObj fs).
Proof.
  intros Hnd Hs. destruct fs as [|kv fs]; [reflexivity|].
  unfold JSON_parse.
  set (fields := kv :: fs) in *.
  assert (Htext : stringify "" (JObj fields) =
                  ("{" ++ nl ++ "  " ++
                   join ("," ++ nl ++ "  ")
                        (map (fun kv => quote (fst kv) ++ ": " ++
                                        stringify "  " (snd kv))
                             fields) ++ nl ++ "}")%string)
    by reflexivity.
  rewrite Htext.
  set (body := join _ _).
  assert (Hlen : List.length fields <= String.length body).
  { unfold body. rewrite <- (length_map
                               (fun kv => quote (fst kv) ++ ": " ++
                                          stringify "  " (snd kv))%string
                               fields).
    apply join_length. intros x Hx. apply in_map_iff in Hx.
    destruct Hx as (kv0 & <- & _). unfold quote.
    rewrite !length_append. cbn. lia. }
  assert (Hfuel : exists fuel,
             String.length (("{" ++ nl ++ "  " ++ body ++ nl ++ "}") ++ nl)
             = S fuel /\ List.length fields < fuel).
  { exists (String.length body + 6). split; [|lia].
    generalize body. intros b. rewrite !length_append. cbn. lia. }
  destruct Hfuel as (fuel & -> & Hfuel).
  replace (of_string (("{" ++ nl ++ "  " ++ body ++ nl ++ "}") ++ nl)%string)
    with ("{"%char ::
          of_string (nl ++ "  " ++ body ++ nl ++ "}")%string ++ ["010"%char]).
  2:{ rewrite !of_string_app, <- !app_assoc. reflexivity. }
  cbn [value].
  change (skip_whitespace ("{"%char :: ?x)) with ("{"%char :: x).
  cbn iota.
  change (code "{" =? 34)%N with false. cbn iota.
  change (Ascii.eqb "{" "{") with true. cbn iota.
  assert (Hfirst : exists r,
             skip_whitespace
               (of_string (nl ++ "  " ++ body ++ nl ++ "}")%string ++
                ["010"%char]) = "034"%char :: r).
  { unfold body, fields. destruct fs as [|kv' fs']; cbn [map].
    - cbn [join fold_left]. unfold quote.
      rewrite !of_string_app, <- !app_assoc. eexists. reflexivity.
    - rewrite join_cons. unfold quote.
      rewrite !of_string_app, <- !app_assoc. eexists. reflexivity. }
  destruct Hfirst as (r & ->).
  unfold body. rewrite (members_fields "  " fields (S fuel) [] ["010"%char]);
    [|discriminate | exact Hs | lia].
  cbn [and_then fst snd].
  rewrite (define_all fields [] Hnd). reflexivity.
Qed.

End JsonFacts.

(* ================================================================== *)
(** * More properties of the credential store *)
(* ================================================================== *)

Module CredentialFacts.

Import OAuth Store CharsFacts PlatformFacts StoreFacts StoreErrors.
Local Open Scope string_scope.

(** The text that [saveCredentials] writes is read by [JSON.parse] as the
    object that [JSON.stringify] printed. *)
Lemma serialized_parses (c : QwenCredentials) :
  Platform.JSON_parse (serialized c) = Platform.Value (credentials_json c).
Proof.
  unfold serialized, credentials_json. apply JsonFacts.parse_stringify.
  - destruct c as [[a|] [r|] [t|] [e|] [u|]]; cbn;
      repeat constructor; cbn; intuition discriminate.
  - destruct c as [[a|] [r|] [t|] [e|] [u|]]; cbn;
      repeat (apply Forall_cons;
              [cbn; first [left; eexists; reflexivity
                          | right; eexists; reflexivity]|]);
      apply Forall_nil.
Qed.

(** A file that holds that text, with the parse of the text. *)
Lemma serialized_document (c : QwenCredentials) (d : document) :
  text d = serialized c -> Platform.well_parsed d ->
  json_of d = Parsed (credentials_json c).
Proof.
  unfold Platform.well_parsed. intros ->. now rewrite serialized_parses.
Qed.

Lemma saved_file_parsed (c : QwenCredentials) :
  exists d, saved_file c = FileContent d /\ text d = serialized c /\
            Platform.well_parsed d.
Proof.
  eexists. split; [reflexivity|]. split; [reflexivity|].
  unfold Platform.well_parsed. cbn [text json_of].
  now rewrite serialized_parses.
Qed.

Lemma parse_credentials_json (c : QwenCredentials) :
  parseCredentials (credentials_json c) =
  if present (access_token c) || present (refresh_token c) then inl c
  else inr missing_credentials.
Proof.
  destruct c as [[a|] [r|] [t|] [e|] [u|]]; cbn;
    repeat match goal with
           | |- context [String.eqb ?x ""] => destruct (String.eqb x "")
           end; reflexivity.
Qed.

Section S.
Variable options : OAuthCredentialStoreOptions.

(** X1: the file that [saveCredentials] writes reads back as the
    credential that was saved, whose expiry date is an integer or
    absent: [JSON.parse] makes of the text written the object that
    [JSON.stringify] printed, and [readCredentials] makes of a file with
    that text the credential, whenever it holds an access token or a
    refresh token that is not empty; it fails with
    [missing_credentials] when the credential holds neither.  The file
    of the model after [saveCredentials] is such a file. *)
Theorem saved_credentials_read_back (c : QwenCredentials) :
  Platform.JSON_parse (serialized c) = Platform.Value (credentials_json c) /\
  (forall d : document,
      text d = serialized c -> Platform.well_parsed d ->
      read_file options (FileContent d) =
      if present (access_token c) || present (refresh_token c) then inl c
      else inr missing_credentials) /\
  exists d : document,
    saved_file c = FileContent d /\ text d = serialized c /\
    Platform.well_parsed d.
Proof.
  split; [apply serialized_parses|]. split; [|apply saved_file_parsed].
  intros d Ht Hd. cbn [read_file].
  rewrite (serialized_document c d Ht Hd). apply parse_credentials_json.
Qed.

Lemma refreshCredentials_ok (current next : QwenCredentials) (w w' : world) :
  refreshCredentials options current w = (inl next, w') ->
  exists rt tokenData token,
    refresh_token current = Some rt /\ rt <> "" /\
    w' = saved options next (requested rt w) /\
    token <> "" /\
    next = nextCredentials current tokenData token (now (requested rt w)).
Proof.
  destruct (present (refresh_token current)) eqn:Hp.
  - apply present_some in Hp. destruct Hp as (rt & Hrt & Hne).
    rewrite (refreshCredentials_run options current rt w Hrt Hne).
    destruct (refresh_outcome _ _ _) as [n|e] eqn:Hout; [|discriminate].
    intros [= <- <-].
    destruct (refresh_outcome_ok _ _ _ _ Hout)
      as (r & body & tokenData & token & _ & _ & _ & _ & _ & Ht & Hn).
    exists rt, tokenData, token. auto.
  - rewrite (refreshCredentials_absent options current w Hp). discriminate.
Qed.

Lemma present_access_token_next (current : QwenCredentials) (tokenData : json)
      (token : string) (t : Z) :
  token <> "" ->
  present (access_token (nextCredentials current tokenData token t)) = true.
Proof.
  intros H. cbn. apply negb_true_iff. now apply String.eqb_neq.
Qed.

Lemma isTokenValid_present (t : Z) (c : QwenCredentials) :
  isTokenValid options t c = true -> present (access_token c) = true.
Proof.
  unfold isTokenValid. destruct (present (access_token c)); [reflexivity|].
  discriminate.
Qed.

(** X2: after a successful refresh, which gives the token a lifetime of
    an integer number of seconds, the file holds the text of the new
    credential, and as long as a file holds that text and the new token
    is valid, a call returns the new credential from the file without a
    token request. *)
Theorem refreshed_credentials_reused (current next : QwenCredentials)
        (w w' : world) :
  refreshCredentials options current w = (inl next, w') ->
  (exists d : document,
      disk w' = FileContent d /\ text d = serialized next /\
      Platform.well_parsed d) /\
  forall (w2 : world) (d : document),
    disk w2 = FileContent d -> text d = serialized next ->
    Platform.well_parsed d ->
    isTokenValid options (now (was_read options w2)) next = true ->
    getValidCredentials options false w2 = (inl next, was_read options w2) /\
    token_requests (was_read options w2) = token_requests w2.
Proof.
  intros H.
  destruct (refreshCredentials_ok _ _ _ _ H)
    as (rt & tokenData & token & _ & _ & -> & Ht & Hn).
  split; [apply saved_file_parsed|]. intros w2 d Hd Htext Hparsed Hv.
  split; [|apply token_requests_was_read].
  rewrite getValidCredentials_run, Hd. cbn [read_file].
  rewrite (serialized_document next d Htext Hparsed).
  rewrite parse_credentials_json.
  rewrite (isTokenValid_present _ _ Hv). cbn [orb].
  now rewrite Hv.
Qed.

Lemma getValidCredentials_present (forceRefresh : bool) (w w' : world)
      (c : QwenCredentials) :
  getValidCredentials options forceRefresh w = (inl c, w') ->
  present (access_token c) = true.
Proof.
  rewrite getValidCredentials_run.
  destruct (read_file options (disk w)) as [current|e]; [|discriminate].
  destruct (negb forceRefresh && isTokenValid options _ current) eqn:Hfast.
  - intros [= <- _]. apply andb_true_iff in Hfast.
    now apply (isTokenValid_present (now (was_read options w))).
  - destruct (negb (present (refresh_token current))); [discriminate|].
    intros H.
    destruct (refreshCredentials_ok _ _ _ _ H)
      as (rt & tokenData & token & _ & _ & _ & Ht & ->).
    now apply present_access_token_next.
Qed.

(** X3: whatever [getValidCredentials] returns holds an access token: it is
    either the stored credential, returned without a forced refresh
    after the read of the file and nothing else, or a credential that
    one token request has brought and that the file now holds. *)
Theorem valid_credentials_hold_token (forceRefresh : bool) (w w' : world)
        (c : QwenCredentials) :
  getValidCredentials options forceRefresh w = (inl c, w') ->
  present (access_token c) = true /\
  ((forceRefresh = false /\ read_file options (disk w) = inl c /\
    w' = was_read options w) \/
   (token_requests w' = S (token_requests w) /\ disk w' = saved_file c)).
Proof.
  intros H. split; [exact (getValidCredentials_present _ _ _ _ H)|].
  revert H. rewrite getValidCredentials_run.
  destruct (read_file options (disk w)) as [current|e]; [|discriminate].
  destruct (negb forceRefresh && isTokenValid options _ current) eqn:Hfast.
  - intros [= <- <-]. left. apply andb_true_iff in Hfast.
    destruct Hfast as [Hf _]. apply negb_true_iff in Hf. auto.
  - destruct (negb (present (refresh_token current))); [discriminate|].
    intros H. right.
    destruct (refreshCredentials_ok _ _ _ _ H)
      as (rt & tokenData & token & _ & _ & -> & _ & _).
    rewrite token_requests_saved, token_requests_requested,
      token_requests_was_read.
    split; reflexivity.
Qed.

Lemma parseCredentials_error (raw : json) (e : error) :
  parseCredentials raw = inr e ->
  exists m code,
    e = OAuthCredentialsError m code None /\
    (code = "invalid_credentials_format" \/ code = "missing_credentials").
Proof.
  unfold parseCredentials.
  destruct raw; try (intros [= <-]; eauto 6);
    match goal with
    | |- context [if ?b then _ else _] => destruct b
    end; try discriminate; intros [= <-]; eauto 6.
Qed.

Lemma read_file_error (f : file_state) (e : error) :
  read_file options f = inr e ->
  exists m code,
    e = OAuthCredentialsError m code None /\
    In code ["credentials_not_found"; "credentials_read_failed";
             "credentials_parse_failed"; "invalid_credentials_format";
             "missing_credentials"].
Proof.
  unfold read_file. destruct f as [|m|d].
  - intros [= <-]. do 2 eexists. split; [reflexivity|]. simpl. auto.
  - intros [= <-]. do 2 eexists. split; [reflexivity|]. simpl. auto.
  - destruct (json_of d).
    + intros H. apply parseCredentials_error in H.
      destruct H as (m & code & -> & [-> | ->]);
        do 2 eexists; (split; [reflexivity|]); simpl; auto 6.
    + intros [= <-]. do 2 eexists. split; [reflexivity|]. simpl. auto.
Qed.

Lemma refresh_outcome_error (current : QwenCredentials) (a : fetch_result)
      (t : Z) (e : error) :
  refresh_outcome current a t = inr e ->
  match e with
  | OAuthCredentialsError _ code statusCode =>
      (code = "refresh_failed" /\
       exists r, a = FetchResponded r /\ ok r = false /\
                 statusCode = Some (status r)) \/
      (statusCode = None /\
       In code ["refresh_network_error"; "refresh_parse_failed";
                "refresh_missing_access_token"])
  | HttpRequestError _ _ _ => False
  | OtherError _ => exists r, a = FetchResponded r /\
                              (payload r = None \/ ok r = true)
  end.
Proof.
  unfold refresh_outcome. destruct a as [m|r].
  - intros [= <-]. right. simpl. auto.
  - destruct (payload r) as [body|] eqn:Hp.
    2:{ intros [= <-]. exists r. auto. }
    destruct (ok r) eqn:Hok; cbn [negb].
    2:{ intros [= <-]. left. split; [reflexivity|]. now exists r. }
    destruct (json_of body) as [tokenData|m].
    2:{ intros [= <-]. right. simpl. auto. }
    destruct tokenData;
      try (destruct (as_string _) as [tk|]; [destruct (String.eqb tk "")|]);
      try discriminate; intros [= <-];
      try (right; simpl; now auto 6); exists r; auto.
Qed.

(** X4: the errors of [getValidCredentials]: one of the ten codes of the
    store, with a status only for [refresh_failed] (the status of the
    token endpoint), or an error of the platform met while the answer
    of the token endpoint was read. *)
Theorem valid_credentials_errors (forceRefresh : bool) (w w' : world)
        (e : error) :
  getValidCredentials options forceRefresh w = (inr e, w') ->
  match e with
  | OAuthCredentialsError _ code statusCode =>
      In code store_error_codes /\
      (code <> "refresh_failed" -> statusCode = None) /\
      (code = "refresh_failed" -> exists s, statusCode = Some s /\
                                            ((s <? 200) || (299 <? s))%Z = true)
  | HttpRequestError _ _ _ => False
  | OtherError _ => token_requests w' = S (token_requests w)
  end.
Proof.
  rewrite getValidCredentials_run.
  destruct (read_file options (disk w)) as [current|e0] eqn:Hread.
  2:{ intros [= <- _]. apply read_file_error in Hread.
      destruct Hread as (m & code & -> & Hin). split; [|split].
      - unfold store_error_codes. simpl in *. intuition.
      - reflexivity.
      - intros ->. simpl in Hin. intuition discriminate. }
  destruct (negb forceRefresh && isTokenValid options _ current);
    [discriminate|].
  destruct (present (refresh_token current)) eqn:Hp; cbn [negb].
  2:{ intros [= <- _]. split; [|split].
      - unfold store_error_codes. simpl. auto 10.
      - reflexivity.
      - discriminate. }
  apply present_some in Hp. destruct Hp as (rt & Hrt & Hne).
  rewrite (refreshCredentials_run options current rt _ Hrt Hne).
  destruct (refresh_outcome _ _ _) as [n|e0] eqn:Hout; [discriminate|].
  intros [= <- <-]. apply refresh_outcome_error in Hout.
  destruct e0 as [m code statusCode| |m]; [|exact Hout|].
  - destruct Hout as [(-> & r & _ & Hok & ->) | (-> & Hin)].
    + split; [unfold store_error_codes; simpl; auto 10|].
      split; [congruence|]. intros _. exists (status r). split; [reflexivity|].
      unfold ok in Hok. apply andb_false_iff in Hok.
      apply orb_true_iff. destruct Hok as [H|H]; [left|right]; lia.
    + split; [|split].
      * unfold store_error_codes. simpl in *. intuition.
      * reflexivity.
      * intros ->. simpl in Hin. intuition discriminate.
  - rewrite token_requests_requested. now rewrite token_requests_was_read.
Qed.


(** X5: the credential that a refresh at time [t] builds expires at [t] plus
    the lifetime of the answer ([expires_in] seconds when that is a
    positive number, an hour otherwise); it is trusted at a time [t']
    exactly when [t'] is more than the buffer before that. *)
Theorem refreshed_token_lifetime (current : QwenCredentials)
        (tokenData : json) (token : string) (t : Z) :
  token <> "" -> (0 <= t)%Z ->
  let next := nextCredentials current tokenData token t in
  exists lifetime : Z,
    (0 < lifetime)%Z /\
    (forall n : Z,
        as_number (get "expires_in" tokenData) = Some n ->
        lifetime = if (0 <? n)%Z then n else 3600%Z) /\
    (as_number (get "expires_in" tokenData) = None -> lifetime = 3600%Z) /\
    expiry_date next = Some (t + lifetime * 1000)%Z /\
    forall t' : Z,
      isTokenValid options t' next =
      (t' <? t + lifetime * 1000 - tokenRefreshBufferMs options)%Z.
Proof.
  intros Hne Ht next.
  assert (Hp : present (access_token next) = true)
    by now apply present_access_token_next.
  unfold isTokenValid. rewrite Hp. cbn [negb].
  unfold next, nextCredentials. cbn [expiry_date].
  destruct (as_number (get "expires_in" tokenData)) as [n|].
  - destruct (0 <? n)%Z eqn:Hn.
    + exists n. split; [lia|]. split; [intros ? [= <-]; now rewrite Hn|].
      split; [discriminate|]. split; [reflexivity|]. intros t'.
      destruct (t + n * 1000 =? 0)%Z eqn:H0; [lia | reflexivity].
    + exists 3600%Z. split; [lia|].
      split; [intros ? [= <-]; now rewrite Hn|].
      split; [discriminate|]. split; [reflexivity|]. intros t'.
      destruct (t + 3600 * 1000 =? 0)%Z eqn:H0; [lia | reflexivity].
  - exists 3600%Z. split; [lia|]. split; [discriminate|].
    split; [reflexivity|]. split; [reflexivity|]. intros t'.
    destruct (t + 3600 * 1000 =? 0)%Z eqn:H0; [lia | reflexivity].
Qed.

Lemma store_error_shape (forceRefresh : bool) (w w' : world) (e : error) :
  getValidCredentials options forceRefresh w = (inr e, w') ->
  In (error_code e) (""%string :: store_error_codes) /\
  (forall m c st,
      e = OAuthCredentialsError m c st -> c <> "refresh_failed" -> st = None)
  /\ (forall m s c, e <> HttpRequestError m s c).
Proof.
  rewrite getValidCredentials_run.
  destruct (read_file options (disk w)) as [current|e0] eqn:Hread.
  2:{ intros [= <- _]. apply read_file_error in Hread.
      destruct Hread as (m & code & -> & Hin). split; [|split].
      - unfold store_error_codes. simpl in *. intuition.
      - now intros ? ? ? [= _ _ <-].
      - discriminate. }
  destruct (negb forceRefresh && isTokenValid options _ current);
    [discriminate|].
  destruct (present (refresh_token current)) eqn:Hp; cbn [negb].
  2:{ intros [= <- _]. split; [|split].
      - unfold store_error_codes. simpl. auto 10.
      - now intros ? ? ? [= _ _ <-].
      - discriminate. }
  apply present_some in Hp. destruct Hp as (rt & Hrt & Hne).
  rewrite (refreshCredentials_run options current rt _ Hrt Hne).
  destruct (refresh_outcome _ _ _) as [n|e0] eqn:Hout; [discriminate|].
  intros [= <- _]. apply refresh_outcome_error in Hout.
  destruct e0 as [m code statusCode| |m]; [|contradiction|].
  - destruct Hout as [(-> & _) | (-> & Hin)].
    + split; [unfold store_error_codes; simpl; auto 10|].
      split; [|discriminate].
      intros ? ? ? [= _ <- _] H. now elim H.
    + split; [|split; [now intros ? ? ? [= _ _ <-] | discriminate]].
      unfold store_error_codes. simpl in *. intuition.
  - split; [now left | split; discriminate].
Qed.

End S.

(** ** The body of the token request *)

Lemma form_encode_char_safe (c : ascii) :
  forallb Platform.form_char (Platform.form_encode_char c) = true.
Proof. each_char c; reflexivity. Qed.

Lemma form_decode_encode (c : ascii) (r : chars) :
  Platform.form_decode_head (Platform.form_encode_char c ++ r)%list =
  Some (c, r).
Proof. each_char c; reflexivity. Qed.

Lemma form_encode_chars (s : string) :
  of_string (form_encode s) = flat_map Platform.form_encode_char (of_string s).
Proof. unfold form_encode. apply ResolverFacts.of_to_string. Qed.

Lemma flat_map_form_inj (a b : chars) :
  flat_map Platform.form_encode_char a =
  flat_map Platform.form_encode_char b -> a = b.
Proof.
  revert b. induction a as [|c a IH]; intros [|d b]; simpl.
  - reflexivity.
  - intros H. apply (f_equal Platform.form_decode_head) in H.
    rewrite form_decode_encode in H. discriminate H.
  - intros H. apply (f_equal Platform.form_decode_head) in H.
    rewrite form_decode_encode in H. discriminate H.
  - intros H. apply (f_equal Platform.form_decode_head) in H.
    rewrite !form_decode_encode in H. injection H as -> H.
    now rewrite (IH b H).
Qed.

(** X6: the refresh token is sent in a form that cannot be misread: the
    value written for it holds no [&] and no [=] (only letters, digits
    and [* - . _ + %]), and two refresh tokens that give the same body
    are the same token. *)
Theorem refresh_body_unambiguous (rt rt' : string) :
  forallb Platform.form_char (of_string (form_encode rt)) = true /\
  (refresh_body rt = refresh_body rt' -> rt = rt').
Proof.
  split.
  - rewrite form_encode_chars.
    induction (of_string rt) as [|c s IH]; [reflexivity|].
    cbn [flat_map]. rewrite forallb_app, IH.
    now rewrite form_encode_char_safe.
  - unfold refresh_body. intros H.
    apply (f_equal of_string) in H. rewrite !of_string_app in H.
    apply app_inv_head in H.
    apply (f_equal (@rev ascii)) in H. rewrite !rev_app_distr in H.
    apply app_inv_head in H.
    apply (f_equal (@rev ascii)) in H. rewrite !rev_involutive in H.
    rewrite !form_encode_chars in H.
    apply flat_map_form_inj in H. now apply of_string_inj.
Qed.

(** ** The directory of the credential file *)

Lemma forallb_no_slash (s : chars) :
  mem "/" s = false ->
  forallb (fun c => negb (OAuth.is_slash c)) s = true.
Proof.
  induction s as [|c s IH]; [reflexivity|]. simpl.
  intros H. apply orb_false_iff in H. destruct H as [Hc Hs].
  rewrite (IH Hs). unfold OAuth.is_slash. now rewrite Hc.
Qed.

Lemma drop_slashes_rev (rest : chars) :
  ends_with ["/"%char] rest = false ->
  drop_while OAuth.is_slash (rev rest) = rev rest.
Proof.
  unfold ends_with. cbn [rev app].
  destruct (rev rest) as [|c r]; [reflexivity|].
  cbn [starts_with drop_while]. unfold OAuth.is_slash.
  rewrite (Ascii.eqb_sym c). now destruct (Ascii.eqb "/" c).
Qed.

Lemma ends_with_cons (c : ascii) (rest : chars) :
  rest <> [] ->
  ends_with ["/"%char] (c :: rest) = ends_with ["/"%char] rest.
Proof.
  intros Hne. unfold ends_with. cbn [rev app].
  destruct (rev rest) as [|x r] eqn:Hr.
  - apply (f_equal (@rev ascii)) in Hr. rewrite rev_involutive in Hr.
    now subst.
  - reflexivity.
Qed.

Lemma drop_last_component (rest s : chars) :
  s <> [] -> forallb (fun c => negb (OAuth.is_slash c)) s = true ->
  drop_while (fun c => negb (OAuth.is_slash c))
             (drop_while OAuth.is_slash (rev (rest ++ s)%list)) =
  drop_while (fun c => negb (OAuth.is_slash c)) (rev rest).
Proof.
  intros Hne Hs. rewrite rev_app_distr.
  assert (Hr : forallb (fun c => negb (OAuth.is_slash c)) (rev s) = true)
    by now rewrite forallb_rev.
  destruct (rev s) as [|y r] eqn:Hrev.
  - apply (f_equal (@rev ascii)) in Hrev. rewrite rev_involutive in Hrev.
    now elim Hne.
  - assert (Hy : OAuth.is_slash y = false).
    { cbn [forallb] in Hr. apply andb_true_iff in Hr.
      now apply negb_true_iff. }
    change (drop_while OAuth.is_slash ((y :: r) ++ rev rest)%list)
      with (if OAuth.is_slash y
            then drop_while OAuth.is_slash (r ++ rev rest)%list
            else ((y :: r) ++ rev rest)%list).
    rewrite Hy. now apply drop_while_app.
Qed.

(** X7: the temporary file that [saveCredentials] writes lies in the
    directory that it creates, which is the directory of the credential
    file: for a credential file that does not end with a slash and an
    identifier without slash, [path.dirname] of the temporary file is
    [path.dirname] of the credential file. *)
Theorem temp_file_directory (file id : string) :
  ends_with ["/"%char] (of_string file) = false ->
  mem "/" (of_string id) = false ->
  dirname (file ++ ".tmp." ++ id) = dirname file.
Proof.
  intros Hend Hid. unfold dirname.
  rewrite of_string_app.
  destruct (of_string file) as [|c0 rest] eqn:Hfile.
  - cbn [app]. rewrite of_string_app.
    change (of_string ".tmp.") with ("."%char :: of_string "tmp.").
    cbn [app]. change (Ascii.eqb "." "/") with false.
    assert (H : drop_while (fun c => negb (OAuth.is_slash c))
                  (drop_while OAuth.is_slash
                     (rev (of_string "tmp." ++ of_string id)%list)) = []).
    { apply (drop_last_component [] (of_string "tmp." ++ of_string id)%list).
      - discriminate.
      - rewrite forallb_app. now rewrite (forallb_no_slash _ Hid). }
    now rewrite H.
  - cbn [app].
    rewrite (drop_last_component rest (of_string (".tmp." ++ id))).
    + destruct rest as [|c1 rest']; [reflexivity|].
      rewrite ends_with_cons in Hend by discriminate.
      now rewrite (drop_slashes_rev _ Hend).
    + rewrite of_string_app. discriminate.
    + rewrite of_string_app, forallb_app.
      now rewrite (forallb_no_slash _ Hid).
Qed.

(** ** At the sample environments *)

(** X2: after the refresh of the lone refresh token, a call returns the new
    credential from the file. *)
Lemma refreshed_credentials_reused_witness :
  let w' := snd (refreshCredentials Sample.options Sample.bare Cases.steady) in
  getValidCredentials Sample.options false w' =
  (inl Cases.refreshed, was_read Sample.options w').
Proof.
  intros w'.
  refine (proj1 (proj2 (refreshed_credentials_reused
                          Sample.options Sample.bare Cases.refreshed
                          Cases.steady w' _) w' _ _ _ _ _)).
  - reflexivity.
  - reflexivity.
  - reflexivity.
  - unfold Platform.well_parsed. vm_compute. reflexivity.
  - reflexivity.
Defined.

(** X3, at a sample. *)
Lemma valid_credentials_hold_token_witness :
  present (access_token Sample.fresh) = true.
Proof.
  exact (proj1 (valid_credentials_hold_token
                  Sample.options false Cases.steady
                  (was_read Sample.options Cases.steady) Sample.fresh
                  eq_refl)).
Defined.

(** X4, at a sample. *)
Lemma valid_credentials_errors_witness :
  In "credentials_not_found" store_error_codes.
Proof.
  exact (proj1 (valid_credentials_errors
                  Sample.options false Cases.no_file
                  (was_read Sample.options Cases.no_file)
                  (OAuthCredentialsError
                     ("OAuth credentials not found: " ++
                      credentialsFile Sample.options ++
                      ". Run `qwen` and execute `/auth` first.")
                     "credentials_not_found" None)
                  eq_refl)).
Defined.

(** X5, at a sample. *)
Lemma refreshed_token_lifetime_witness :
  exists lifetime : Z,
    expiry_date Cases.refreshed = Some (1000 + lifetime * 1000)%Z.
Proof.
  destruct (refreshed_token_lifetime
              Sample.options Sample.bare
              (JObj [("access_token", JStr "at1")]) "at1" 1000)
    as (lifetime & _ & _ & _ & H & _).
  - discriminate.
  - lia.
  - now exists lifetime.
Defined.

(** X7, at a sample. *)
Lemma temp_file_directory_witness :
  dirname ("/home/u/.qwen/oauth_creds.json" ++ ".tmp." ++ "id-0") =
  dirname "/home/u/.qwen/oauth_creds.json".
Proof.
  exact (temp_file_directory "/home/u/.qwen/oauth_creds.json" "id-0"
                             eq_refl eq_refl).
Defined.

End CredentialFacts.

(* ================================================================== *)
(** * The resolver on a normalised base URL *)
(* ================================================================== *)

Module BaseUrlFacts.

Import Url OAuth CharsFacts UrlFacts ResolverFacts PlatformFacts.
Local Open Scope char_scope.

Section Resolver.

Context {HP : HostParser}.

Lemma to_string_app (a b : chars) :
  to_string (a ++ b) = (to_string a ++ to_string b)%string.
Proof.
  apply of_string_inj. now rewrite of_string_app, !of_to_string.
Qed.

Lemma remove_tab_nl_path (segs : list chars) :
  forallb seg_ok segs = true ->
  remove_tab_nl (serialize_path segs) = serialize_path segs.
Proof.
  intros Hp. apply forallb_filter_id.
  generalize (serialize_path_chars _ Hp). apply forallb_weaken.
  clear. intros c. each_char c; intros H; try discriminate H; reflexivity.
Qed.

(** X8: the URL of an upstream request is the base URL of the store
    followed by the rest of the request: for a base that
    [normalizeResourceUrl] returned, a request path [/v1] followed by a
    normalised path (no dot segment, nothing to encode) and a search
    that is empty or a question mark and an encoded query,
    [buildUpstreamUrl] returns the base, that path and that search, one
    after the other. *)
Theorem upstream_url_extends_base (x : option string) (y : string)
        (segs : list chars) (requestSearch : string) :
  normalizeResourceUrl x = Some y ->
  forallb seg_ok segs = true ->
  requestSearch = ""%string \/
  (exists q : chars,
      of_string requestSearch = "?" :: q /\
      clean special_query_set q = true /\
      forallb (fun c => negb (is_tab_or_newline c)) q = true) ->
  buildUpstreamUrl y ("/v1" ++ to_string (serialize_path segs)) requestSearch
  = inl (y ++ to_string (serialize_path segs) ++ requestSearch)%string.
Proof.
  intros Hy Hsegs Hsearch. unfold normalizeResourceUrl in Hy.
  destruct (normalize (option_map of_string x)) as [yc|] eqn:Hn;
    [|discriminate].
  cbn [option_map] in Hy. injection Hy as <-.
  destruct (normalize_canonical _ _ Hn) as (u & q & Hc & Hq & ->).
  pose proof Hc as (_ & Hne & Hp & Hquery & Hfrag).
  set (requestPath := ("/v1" ++ to_string (serialize_path segs))%string).
  assert (Hv : starts_with v1 (of_string requestPath) = true) by reflexivity.
  assert (Hu : parse (of_string (to_string (href u))) = Some u)
    by (rewrite of_to_string; now apply parse_href).
  rewrite (buildUpstreamUrl_run _ requestPath requestSearch u Hv Hu).
  f_equal.
  assert (Hsuffix : skipn 3 (of_string requestPath) = serialize_path segs).
  { unfold requestPath.
    change (skipn 3 (of_string ("/v1" ++ to_string (serialize_path segs))))
      with (of_string (to_string (serialize_path segs))).
    apply of_to_string. }
  assert (Hbase : strip_trailing OAuth.is_slash (pathname u) =
                  serialize_path (path u)).
  { unfold pathname. rewrite Hq, serialize_path_app.
    cbn [serialize_path flat_map segment_v1 app].
    change ["/"; "v"; "1"] with (["/"; "v"] ++ ["1"]).
    rewrite app_assoc. now apply strip_trailing_last. }
  assert (Hpath : path (upstream_url u requestPath requestSearch) =
                  path u ++ segs).
  { unfold upstream_url. cbn [set_hash set_search set_pathname path].
    rewrite Hsuffix, Hbase, <- serialize_path_app.
    rewrite remove_tab_nl_path by (rewrite forallb_app, Hp; exact Hsegs).
    apply path_start_serialized.
    - rewrite Hq. now destruct q.
    - rewrite forallb_app, Hp. exact Hsegs. }
  assert (Hquery' : (match query (upstream_url u requestPath requestSearch)
                     with Some q0 => "?" :: q0 | None => [] end) =
                    of_string requestSearch).
  { destruct (upstream_url_query u requestPath requestSearch) as (H1 & H2).
    destruct Hsearch as [-> | (q0 & Hq0 & Hclean & Htab)].
    - now rewrite H1.
    - now rewrite (H2 q0 Hq0 Hclean Htab). }
  rewrite <- (to_of_string requestSearch) at 2.
  rewrite <- !to_string_app. f_equal.
  unfold href at 1. rewrite Hquery', Hpath.
  rewrite (href_canonical u Hc), serialize_path_app.
  unfold upstream_url. cbn [set_hash set_search set_pathname scheme_of
                            username password host port fragment].
  unfold authority, serialize_userinfo, serialize_port.
  cbn [username password host port app].
  rewrite <- !app_assoc. cbn [app]. rewrite app_nil_r.
  rewrite <- !app_assoc. reflexivity.
Qed.

End Resolver.

(** X8: at a base given as a bare host name. *)
Lemma upstream_url_extends_base_witness :
  buildUpstreamUrl "https://example.com/v1" "/v1/chat/completions" "?a=1" =
  inl "https://example.com/v1/chat/completions?a=1"%string.
Proof.
  refine (upstream_url_extends_base
            (Some "example.com"%string) "https://example.com/v1"
            [of_string "chat"; of_string "completions"] "?a=1" _ _ _).
  - vm_compute. reflexivity.
  - reflexivity.
  - right. exists (of_string "a=1"). repeat split; reflexivity.
Defined.

End BaseUrlFacts.

(* ================================================================== *)
(** * Properties of the headers sent upstream *)
(* ================================================================== *)

Module HeaderFacts.

Import Server CharsFacts PlatformFacts.
Local Open Scope string_scope.

Lemma toLowerCase_idempotent (k : string) :
  toLowerCase (toLowerCase k) = toLowerCase k.
Proof.
  unfold toLowerCase. rewrite ResolverFacts.of_to_string.
  now rewrite map_lower_idem.
Qed.

(** ** The arguments of [Headers.set] and [Headers.append] *)

Lemma header_arguments_ok (prefix k v k1 v1 : string) :
  header_arguments prefix k v = inl (k1, v1) ->
  k1 = k /\ v1 = headerValueNormalize v /\
  is_byte_string (of_string k) = true /\
  is_byte_string (of_string v) = true /\
  isValidHeaderName k = true /\ isValidHeaderValue v1 = true.
Proof.
  unfold header_arguments.
  destruct (is_byte_string (of_string k)); [|discriminate].
  destruct (is_byte_string (of_string v)); [|discriminate].
  cbn [andb negb].
  destruct (isValidHeaderName k); [|discriminate].
  destruct (isValidHeaderValue (headerValueNormalize v)) eqn:Hv;
    [|discriminate].
  cbn [negb]. intros [= <- <-]. repeat split. exact Hv.
Qed.

Lemma header_arguments_valid (prefix k v : string) :
  is_byte_string (of_string k) = true ->
  is_byte_string (of_string v) = true ->
  isValidHeaderName k = true ->
  isValidHeaderValue (headerValueNormalize v) = true ->
  header_arguments prefix k v = inl (k, headerValueNormalize v).
Proof.
  intros Hk Hv Hn Hval. unfold header_arguments.
  now rewrite Hk, Hv, Hn, Hval.
Qed.

Lemma headers_set_ok (k v : string) (h h' : Headers) :
  headers_set k v h = inl h' ->
  h' = list_set k (headerValueNormalize v) h /\
  is_byte_string (of_string v) = true /\
  isValidHeaderName k = true /\
  isValidHeaderValue (headerValueNormalize v) = true.
Proof.
  unfold headers_set.
  destruct (header_arguments _ k v) as [[k1 v1]|e] eqn:Ha; [|discriminate].
  apply header_arguments_ok in Ha.
  destruct Ha as (-> & -> & _ & Hb & Hn & Hv). intros [= <-]. auto.
Qed.

Lemma headers_append_ok (k v : string) (h h' : Headers) :
  headers_append k v h = inl h' ->
  h' = list_append k (headerValueNormalize v) h /\
  isValidHeaderName k = true /\
  isValidHeaderValue (headerValueNormalize v) = true.
Proof.
  unfold headers_append.
  destruct (header_arguments _ k v) as [[k1 v1]|e] eqn:Ha; [|discriminate].
  apply header_arguments_ok in Ha.
  destruct Ha as (-> & -> & _ & _ & Hn & Hv). intros [= <-]. auto.
Qed.

(** ** White space at the ends of a value *)

Lemma headerValueNormalize_clean (v : string) :
  match of_string v with
  | c :: _ => is_http_whitespace c = false
  | [] => True
  end ->
  match rev (of_string v) with
  | c :: _ => is_http_whitespace c = false
  | [] => True
  end ->
  headerValueNormalize v = v.
Proof.
  unfold headerValueNormalize, strip_trailing. intros Hfirst Hlast.
  assert (Hd : drop_while is_http_whitespace (of_string v) = of_string v).
  { destruct (of_string v) as [|c s]; [reflexivity|]. cbn [drop_while].
    now rewrite Hfirst. }
  rewrite Hd.
  assert (Hr : drop_while is_http_whitespace (rev (of_string v)) =
               rev (of_string v)).
  { destruct (rev (of_string v)) as [|c s]; [reflexivity|]. cbn [drop_while].
    now rewrite Hlast. }
  rewrite Hr, rev_involutive. apply to_of_string.
Qed.

Lemma drop_while_all (f : ascii -> bool) (s q : chars) :
  drop_while f s = [] -> drop_while f (s ++ q)%list = drop_while f q.
Proof.
  induction s as [|c s IH]; [reflexivity|]. cbn [drop_while app].
  destruct (f c); [exact IH | discriminate].
Qed.

Lemma drop_while_stop (f : ascii -> bool) (s q r : chars) (c : ascii) :
  drop_while f s = c :: r -> drop_while f (s ++ q)%list = (c :: r ++ q)%list.
Proof.
  induction s as [|d s IH]; [discriminate|]. cbn [drop_while app].
  destruct (f d); [exact IH|]. now intros [= -> ->].
Qed.

Lemma strip_trailing_app (f : ascii -> bool) (p s : chars) :
  strip_trailing f (p ++ s)%list =
  match strip_trailing f s with
  | [] => strip_trailing f p
  | s' => (p ++ s')%list
  end.
Proof.
  unfold strip_trailing. rewrite rev_app_distr.
  destruct (drop_while f (rev s)) as [|c r] eqn:Hd.
  - now rewrite (drop_while_all f _ _ Hd).
  - rewrite (drop_while_stop f _ _ _ _ Hd).
    change (c :: r ++ rev p)%list with ((c :: r) ++ rev p)%list.
    rewrite rev_app_distr, rev_involutive.
    destruct (rev (c :: r)) as [|x y] eqn:Hx; [|reflexivity].
    apply (f_equal (@rev ascii)) in Hx. rewrite rev_involutive in Hx.
    discriminate.
Qed.

(** The value of [Authorization]: the white space at the end of the
    token is lost, and the space after [Bearer] with a token that is
    nothing else. *)
Lemma bearer_normalized (t : string) :
  headerValueNormalize ("Bearer " ++ t) =
  match strip_trailing is_http_whitespace (of_string t) with
  | [] => "Bearer"
  | t' => "Bearer " ++ to_string t'
  end.
Proof.
  unfold headerValueNormalize. rewrite of_string_app.
  change (drop_while is_http_whitespace
                     (of_string "Bearer " ++ of_string t)%list)
    with (of_string "Bearer " ++ of_string t)%list.
  rewrite strip_trailing_app.
  destruct (strip_trailing is_http_whitespace (of_string t)) as [|c r];
    [reflexivity|].
  now rewrite BaseUrlFacts.to_string_app.
Qed.

Lemma isValidHeaderValue_app (a b : string) :
  isValidHeaderValue (a ++ b) =
  isValidHeaderValue a && isValidHeaderValue b.
Proof.
  unfold isValidHeaderValue. now rewrite of_string_app, forallb_app.
Qed.

(** ** The list of the object *)

Lemma list_set_in (k v k' v' : string) (h : Headers) :
  In (k', v') (list_set k v h) ->
  (k' = toLowerCase k /\ v' = v) \/ In (k', v') h.
Proof.
  induction h as [|[k0 v0] h IH]; cbn [list_set].
  - intros [[= <- <-] | []]. now left.
  - destruct (String.eqb k0 (toLowerCase k)) eqn:He.
    + apply String.eqb_eq in He. subst k0.
      intros [[= <- <-] | H]; [now left | right; now right].
    + intros [H | H]; [right; now left|].
      destruct (IH H) as [Hl | Hr]; [now left | right; now right].
Qed.

Lemma list_set_has (k v : string) (h : Headers) :
  (forall v0, ~ In (toLowerCase k, v0) h) ->
  In (toLowerCase k, v) (list_set k v h).
Proof.
  induction h as [|[k0 v0] h IH]; cbn [list_set]; intros Hno.
  - now left.
  - destruct (String.eqb k0 (toLowerCase k)) eqn:He.
    + apply String.eqb_eq in He. subst k0. now left.
    + right. apply IH. intros v1 H. apply (Hno v1). now right.
Qed.

Lemma list_set_new (k v : string) (h : Headers) :
  exists v0, In (toLowerCase k, v0) (list_set k v h).
Proof.
  induction h as [|[k0 v0] h IH]; cbn [list_set].
  - exists v. now left.
  - destruct (String.eqb k0 (toLowerCase k)) eqn:He.
    + apply String.eqb_eq in He. subst k0. exists v. now left.
    + destruct IH as (v1 & H). exists v1. now right.
Qed.

Lemma list_set_keeps (k v k' v' : string) (h : Headers) :
  In (k', v') h -> k' <> toLowerCase k -> In (k', v') (list_set k v h).
Proof.
  intros Hin Hne. induction h as [|[k0 v0] h IH]; [contradiction|].
  cbn [list_set]. destruct (String.eqb k0 (toLowerCase k)) eqn:He.
  - apply String.eqb_eq in He. subst k0.
    destruct Hin as [[= <- <-] | H]; [now elim Hne | now right].
  - destruct Hin as [H | H]; [now left | right; now apply IH].
Qed.

(** A name that the list holds once, or not at all, is held once after
    [set], with the value set. *)
Lemma list_set_replaces (k v : string) (h : Headers) :
  NoDup (map fst h) -> In (toLowerCase k, v) (list_set k v h).
Proof.
  induction h as [|[k0 v0] h IH]; cbn [list_set map fst]; intros Hnd.
  - now left.
  - destruct (String.eqb k0 (toLowerCase k)) eqn:He.
    + apply String.eqb_eq in He. subst k0. now left.
    + right. apply IH. now inversion Hnd.
Qed.

Lemma list_set_names (k v : string) (h : Headers) :
  NoDup (map fst h) -> NoDup (map fst (list_set k v h)).
Proof.
  induction h as [|[k0 v0] h IH]; cbn [list_set map fst]; intros Hnd.
  - constructor; [intros [] | constructor].
  - inversion Hnd as [|x l Hx Hl]; subst.
    destruct (String.eqb k0 (toLowerCase k)) eqn:He; cbn [map fst].
    + now constructor.
    + constructor; [|now apply IH].
      intros Hin. apply in_map_iff in Hin.
      destruct Hin as ([k1 v1] & E & Hin). cbn [fst] in E. subst k1.
      apply list_set_in in Hin. destruct Hin as [(E & _) | Hin].
      * apply String.eqb_neq in He. now elim He.
      * apply Hx. now apply (in_map fst _ (k0, v1)).
Qed.

Lemma list_set_valid (k v : string) (h : Headers) :
  forallb (fun kv => isValidHeaderValue (snd kv)) h = true ->
  isValidHeaderValue v = true ->
  forallb (fun kv => isValidHeaderValue (snd kv)) (list_set k v h) = true.
Proof.
  intros Hh Hv. induction h as [|[k0 v0] h IH]; cbn [list_set forallb snd].
  - now rewrite Hv.
  - cbn [forallb snd] in Hh. apply andb_true_iff in Hh.
    destruct Hh as [H0 Hh].
    destruct (String.eqb k0 (toLowerCase k)); cbn [forallb snd].
    + now rewrite Hv, Hh.
    + now rewrite H0, IH.
Qed.

Lemma list_append_in (k v k' v' : string) (h : Headers) :
  In (k', v') (list_append k v h) -> k' = toLowerCase k \/ In (k', v') h.
Proof.
  induction h as [|[k0 v0] h IH]; cbn [list_append].
  - intros [[= <- <-] | []]. now left.
  - destruct (String.eqb k0 (toLowerCase k)) eqn:He.
    + apply String.eqb_eq in He. subst k0.
      intros [[= <- <-] | H]; [now left | right; now right].
    + intros [H | H]; [right; now left|].
      destruct (IH H) as [Hl | Hr]; [now left | right; now right].
Qed.

Lemma list_append_keeps (k v k' v' : string) (h : Headers) :
  In (k', v') h -> k' <> toLowerCase k -> In (k', v') (list_append k v h).
Proof.
  intros Hin Hne. induction h as [|[k0 v0] h IH]; [contradiction|].
  cbn [list_append]. destruct (String.eqb k0 (toLowerCase k)) eqn:He.
  - apply String.eqb_eq in He. subst k0.
    destruct Hin as [[= <- <-] | H]; [now elim Hne | now right].
  - destruct Hin as [H | H]; [now left | right; now apply IH].
Qed.

Lemma list_append_names (k v : string) (h : Headers) :
  NoDup (map fst h) -> NoDup (map fst (list_append k v h)).
Proof.
  induction h as [|[k0 v0] h IH]; cbn [list_append map fst]; intros Hnd.
  - constructor; [intros [] | constructor].
  - inversion Hnd as [|x l Hx Hl]; subst.
    destruct (String.eqb k0 (toLowerCase k)) eqn:He; cbn [map fst].
    + now constructor.
    + constructor; [|now apply IH].
      intros Hin. apply in_map_iff in Hin.
      destruct Hin as ([k1 v1] & E & Hin). cbn [fst] in E. subst k1.
      apply list_append_in in Hin. destruct Hin as [E | Hin].
      * apply String.eqb_neq in He. now elim He.
      * apply Hx. now apply (in_map fst _ (k0, v1)).
Qed.

Lemma list_append_valid (k v : string) (h : Headers) :
  forallb (fun kv => isValidHeaderValue (snd kv)) h = true ->
  isValidHeaderValue v = true ->
  forallb (fun kv => isValidHeaderValue (snd kv)) (list_append k v h) = true.
Proof.
  intros Hh Hv. induction h as [|[k0 v0] h IH]; cbn [list_append forallb snd].
  - now rewrite Hv.
  - cbn [forallb snd] in Hh. apply andb_true_iff in Hh.
    destruct Hh as [H0 Hh].
    destruct (String.eqb k0 (toLowerCase k)); cbn [forallb snd].
    + rewrite !isValidHeaderValue_app, H0, Hv, Hh.
      now destruct (String.eqb k0 "cookie").
    + now rewrite H0, IH.
Qed.

Lemma headers_has_in (k v : string) (h : Headers) :
  In (toLowerCase k, v) h -> headers_has k h = true.
Proof.
  intros H. unfold headers_has. apply existsb_exists.
  exists (toLowerCase k, v). split; [exact H | apply String.eqb_refl].
Qed.

Lemma headers_has_out (k : string) (h : Headers) :
  headers_has k h = false -> forall v, ~ In (toLowerCase k, v) h.
Proof.
  intros H v Hin. rewrite (headers_has_in k v h Hin) in H. discriminate.
Qed.

(** ** The loop over the incoming headers *)

(** What every turn of a loop keeps, the loop keeps. *)
Lemma for_each_keeps {A B} (f : A -> B -> result A) (P : A -> Prop)
      (l : list B) (a a' : A) :
  (forall a x a', In x l -> P a -> f a x = inl a' -> P a') ->
  P a -> for_each f l a = inl a' -> P a'.
Proof.
  revert a. induction l as [|x l IH]; intros a Hf Ha; cbn [for_each].
  - now intros [= <-].
  - destruct (f a x) as [a1|e] eqn:Hx; [|discriminate].
    apply IH.
    + intros a0 y a2 Hy. apply Hf. now right.
    + apply (Hf a x a1); [now left | exact Ha | exact Hx].
Qed.

Lemma copy_header_in (h h' : Headers) (key : string) (value : header_value)
      (k' v' : string) :
  copy_header h (key, value) = inl h' ->
  In (k', v') h' ->
  In (k', v') h \/
  (k' = toLowerCase key /\
   has k' HOP_BY_HOP_HEADERS = false /\ k' <> "host" /\
   k' <> "authorization" /\ k' <> "content-length").
Proof.
  unfold copy_header.
  destruct (has (toLowerCase key) HOP_BY_HOP_HEADERS) eqn:H1;
    [intros [= <-]; now left|].
  destruct (String.eqb (toLowerCase key) "host") eqn:H2;
    [intros [= <-]; now left|].
  destruct (String.eqb (toLowerCase key) "authorization") eqn:H3;
    [intros [= <-]; now left|].
  destruct (String.eqb (toLowerCase key) "content-length") eqn:H4;
    [intros [= <-]; now left|].
  cbn [orb]. apply String.eqb_neq in H2, H3, H4.
  destruct value as [|v|items]; [intros [= <-]; now left | |].
  - intros Hs H. apply headers_set_ok in Hs. destruct Hs as (-> & _).
    apply list_set_in in H.
    destruct H as [(-> & _) | H]; [right | now left]. auto.
  - intros Hs. revert k' v'.
    apply (for_each_keeps (fun acc item => headers_append key item acc)
             (fun h' => forall k' v', In (k', v') h' ->
                In (k', v') h \/
                (k' = toLowerCase key /\
                 has k' HOP_BY_HOP_HEADERS = false /\ k' <> "host" /\
                 k' <> "authorization" /\ k' <> "content-length"))
             items h h'); [|now left | exact Hs].
    intros a item a' _ Ha Hx k' v' Hin.
    apply headers_append_ok in Hx. destruct Hx as (-> & _).
    apply list_append_in in Hin.
    destruct Hin as [-> | Hin]; [right; auto | now apply (Ha k' v')].
Qed.

Lemma copy_header_keeps (h h' : Headers) (key : string)
      (value : header_value) (k' v' : string) :
  copy_header h (key, value) = inl h' ->
  In (k', v') h -> k' <> toLowerCase key -> In (k', v') h'.
Proof.
  intros Hc Hin Hne. revert Hc. unfold copy_header.
  destruct (_ || _ || _ || _); [now intros [= <-]|].
  destruct value as [|v|items]; [now intros [= <-] | |].
  - intros Hs. apply headers_set_ok in Hs. destruct Hs as (-> & _).
    now apply list_set_keeps.
  - apply (for_each_keeps (fun acc item => headers_append key item acc)
                          (fun h' => In (k', v') h')); [|exact Hin].
    intros a item a' _ Ha Hx.
    apply headers_append_ok in Hx. destruct Hx as (-> & _).
    now apply list_append_keeps.
Qed.

Lemma copy_header_valid (h h' : Headers) (kv : string * header_value) :
  copy_header h kv = inl h' ->
  forallb (fun kv => isValidHeaderValue (snd kv)) h = true ->
  forallb (fun kv => isValidHeaderValue (snd kv)) h' = true.
Proof.
  destruct kv as [key value]. intros Hc Hh. revert Hc. unfold copy_header.
  destruct (_ || _ || _ || _); [now intros [= <-]|].
  destruct value as [|v|items]; [now intros [= <-] | |].
  - intros Hs. apply headers_set_ok in Hs. destruct Hs as (-> & _ & _ & Hv).
    now apply list_set_valid.
  - apply (for_each_keeps
             (fun acc item => headers_append key item acc)
             (fun h' => forallb (fun kv => isValidHeaderValue (snd kv)) h'
                        = true)); [|exact Hh].
    intros a item a' _ Ha Hx.
    apply headers_append_ok in Hx. destruct Hx as (-> & _ & Hv).
    now apply list_append_valid.
Qed.

Lemma copy_header_names (h h' : Headers) (kv : string * header_value) :
  copy_header h kv = inl h' ->
  NoDup (map fst h) -> NoDup (map fst h').
Proof.
  destruct kv as [key value]. intros Hc Hh. revert Hc. unfold copy_header.
  destruct (_ || _ || _ || _); [now intros [= <-]|].
  destruct value as [|v|items]; [now intros [= <-] | |].
  - intros Hs. apply headers_set_ok in Hs. destruct Hs as (-> & _).
    now apply list_set_names.
  - apply (for_each_keeps (fun acc item => headers_append key item acc)
                          (fun h' => NoDup (map fst h'))); [|exact Hh].
    intros a item a' _ Ha Hx.
    apply headers_append_ok in Hx. destruct Hx as (-> & _).
    now apply list_append_names.
Qed.

Lemma loop_in (incoming : list (string * header_value)) (h h' : Headers)
      (k' v' : string) :
  for_each copy_header incoming h = inl h' ->
  In (k', v') h' ->
  In (k', v') h \/
  ((exists key value, In (key, value) incoming /\ k' = toLowerCase key) /\
   has k' HOP_BY_HOP_HEADERS = false /\ k' <> "host" /\
   k' <> "authorization" /\ k' <> "content-length").
Proof.
  intros Hl. revert k' v'.
  apply (for_each_keeps
           copy_header
           (fun h' => forall k' v', In (k', v') h' ->
                In (k', v') h \/
                ((exists key value,
                     In (key, value) incoming /\ k' = toLowerCase key) /\
                 has k' HOP_BY_HOP_HEADERS = false /\ k' <> "host" /\
                 k' <> "authorization" /\ k' <> "content-length"))
           incoming h h'); [|now left | exact Hl].
  intros a [key value] a' Hx Ha Hc k' v' Hin.
  destruct (copy_header_in a a' key value k' v' Hc Hin) as [H | (Hk & Hrest)].
  - now apply (Ha k' v').
  - right. split; [|exact Hrest]. now exists key, value.
Qed.

Lemma loop_keeps (incoming : list (string * header_value))
      (h h' : Headers) (k' v' : string) :
  for_each copy_header incoming h = inl h' ->
  In (k', v') h ->
  (forall kv, In kv incoming -> toLowerCase (fst kv) <> k') ->
  In (k', v') h'.
Proof.
  intros Hl Hin Hne.
  apply (for_each_keeps copy_header (fun h' => In (k', v') h')
                        incoming h h');
    [|exact Hin | exact Hl].
  intros a [key value] a' Hx Ha Hc.
  apply (copy_header_keeps a a' key value); [exact Hc | exact Ha|].
  intros E. apply (Hne (key, value) Hx). now symmetry.
Qed.

Lemma loop_passes (incoming : list (string * header_value))
      (h h' : Headers) (key v : string) :
  NoDup (map (fun kv => toLowerCase (fst kv)) incoming) ->
  NoDup (map fst h) ->
  for_each copy_header incoming h = inl h' ->
  In (key, HeaderString v) incoming ->
  has (toLowerCase key) HOP_BY_HOP_HEADERS = false ->
  toLowerCase key <> "host" -> toLowerCase key <> "authorization" ->
  toLowerCase key <> "content-length" ->
  In (toLowerCase key, headerValueNormalize v) h'.
Proof.
  intros Hnd Hh Hl Hin H1 H2 H3 H4. revert h Hnd Hh Hl Hin.
  induction incoming as [|[key0 value0] incoming IH]; intros h Hnd Hh Hl Hin;
    [contradiction|].
  cbn [for_each] in Hl. cbn [map fst] in Hnd.
  inversion Hnd as [|x l Hx Hnd']; subst.
  destruct (copy_header h (key0, value0)) as [h1|e] eqn:Hc; [|discriminate].
  destruct Hin as [[= -> ->] | Hin].
  - apply (loop_keeps incoming h1 h'); [exact Hl| |].
    + unfold copy_header in Hc. rewrite H1 in Hc.
      apply String.eqb_neq in H2, H3, H4. rewrite H2, H3, H4 in Hc.
      cbn [orb] in Hc. apply headers_set_ok in Hc. destruct Hc as (-> & _).
      now apply list_set_replaces.
    + intros kv Hkv E. apply Hx. rewrite <- E.
      now apply (in_map (fun kv => toLowerCase (fst kv))).
  - apply (IH h1); try assumption.
    now apply (copy_header_names h h1 (key0, value0)).
Qed.

Lemma loop_valid (incoming : list (string * header_value))
      (h h' : Headers) :
  for_each copy_header incoming h = inl h' ->
  forallb (fun kv => isValidHeaderValue (snd kv)) h = true ->
  forallb (fun kv => isValidHeaderValue (snd kv)) h' = true.
Proof.
  intros Hl Hh.
  apply (for_each_keeps
           copy_header
           (fun h' => forallb (fun kv => isValidHeaderValue (snd kv)) h'
                      = true) incoming h h'); [|exact Hh | exact Hl].
  intros a kv a' _ Ha Hc. now apply (copy_header_valid a a' kv).
Qed.

(** ** What is thrown *)

Lemma for_each_throws {A B} (f : A -> B -> result A) (Q : error -> Prop)
      (l : list B) (a : A) (e : error) :
  (forall a x e, f a x = inr e -> Q e) ->
  for_each f l a = inr e -> Q e.
Proof.
  intros Hf. revert a. induction l as [|x l IH]; intros a; cbn [for_each];
    [discriminate|].
  destruct (f a x) as [a1|e1] eqn:Hx; [apply IH|].
  intros [= <-]. exact (Hf a x e1 Hx).
Qed.

Lemma header_arguments_throws (prefix k v : string) (e : error) :
  header_arguments prefix k v = inr e -> exists m, e = OtherError m.
Proof.
  unfold header_arguments, not_a_byte_string, invalid_argument.
  destruct (negb _); [intros [= <-]; eauto|].
  destruct (negb _); [intros [= <-]; eauto|].
  destruct (negb _); [intros [= <-]; eauto | discriminate].
Qed.

Lemma headers_set_throws (k v : string) (h : Headers) (e : error) :
  headers_set k v h = inr e -> exists m, e = OtherError m.
Proof.
  unfold headers_set.
  destruct (header_arguments _ k v) as [[k1 v1]|e1] eqn:Ha; [discriminate|].
  intros [= <-]. exact (header_arguments_throws _ _ _ _ Ha).
Qed.

Lemma copy_header_throws (h : Headers) (kv : string * header_value)
      (e : error) :
  copy_header h kv = inr e -> exists m, e = OtherError m.
Proof.
  destruct kv as [key value]. unfold copy_header.
  destruct (_ || _ || _ || _); [discriminate|].
  destruct value as [|v|items]; [discriminate | apply headers_set_throws|].
  apply (for_each_throws (fun acc item => headers_append key item acc)
                         (fun e => exists m, e = OtherError m)).
  intros a item e1. unfold headers_append.
  destruct (header_arguments _ key item) as [[k1 v1]|e2] eqn:Ha;
    [discriminate|].
  intros [= <-]. exact (header_arguments_throws _ _ _ _ Ha).
Qed.

(** [buildUpstreamHeaders] throws nothing but a [TypeError] of the
    [Headers] class. *)
Lemma buildUpstreamHeaders_throws
      (incomingHeaders : list (string * header_value))
      (accessToken : string) (e : error) :
  buildUpstreamHeaders incomingHeaders accessToken = inr e ->
  exists m, e = OtherError m.
Proof.
  unfold buildUpstreamHeaders.
  destruct (for_each copy_header incomingHeaders []) as [h0|e0] eqn:Hl.
  - destruct (headers_set "Authorization" _ h0) as [h1|e1] eqn:Hs.
    + destruct (negb _); [apply headers_set_throws | discriminate].
    + intros [= <-]. exact (headers_set_throws _ _ _ _ Hs).
  - intros [= <-].
    apply (for_each_throws copy_header (fun e => exists m, e = OtherError m)
                           incomingHeaders [] e0); [|exact Hl].
    intros a x e1. apply copy_header_throws.
Qed.

(** A token that [Headers.set] refuses makes [buildUpstreamHeaders]
    throw. *)
Lemma buildUpstreamHeaders_refuses
      (incomingHeaders : list (string * header_value))
      (accessToken : string) :
  is_byte_string (of_string accessToken) = false \/
  isValidHeaderValue (headerValueNormalize ("Bearer " ++ accessToken))
  = false ->
  exists e, buildUpstreamHeaders incomingHeaders accessToken = inr e.
Proof.
  intros Hbad. unfold buildUpstreamHeaders.
  destruct (for_each copy_header incomingHeaders []) as [h0|e0]; [|eauto].
  unfold headers_set at 1, header_arguments.
  rewrite of_string_app.
  change (is_byte_string (of_string "Bearer " ++ of_string accessToken)%list)
    with (is_byte_string (of_string accessToken)).
  change (is_byte_string (of_string "Authorization")) with true.
  change (isValidHeaderName "Authorization") with true.
  cbn [andb negb].
  destruct (is_byte_string (of_string accessToken)); cbn [negb]; [|eauto].
  destruct Hbad as [Hbad | Hbad]; [discriminate|].
  rewrite Hbad. cbn [negb]. eauto.
Qed.

(** ** [buildUpstreamHeaders] *)

Section Build.

Variable incomingHeaders : list (string * header_value).
Variable accessToken : string.

(** The steps of a call that returns. *)
Lemma buildUpstreamHeaders_ok (h : Headers) :
  buildUpstreamHeaders incomingHeaders accessToken = inl h ->
  exists h0,
    for_each copy_header incomingHeaders [] = inl h0 /\
    is_byte_string (of_string accessToken) = true /\
    isValidHeaderValue (headerValueNormalize ("Bearer " ++ accessToken))
    = true /\
    let h1 := list_set "Authorization"
                       (headerValueNormalize ("Bearer " ++ accessToken))
                       h0 in
    h = if headers_has "User-Agent" h1 then h1
        else list_set "User-Agent" "qwen-code-api/0.1.0" h1.
Proof.
  unfold buildUpstreamHeaders.
  destruct (for_each copy_header incomingHeaders []) as [h0|e];
    [|discriminate].
  destruct (headers_set "Authorization" _ h0) as [h1|e] eqn:Hs;
    [|discriminate].
  apply headers_set_ok in Hs. destruct Hs as (-> & Hb & _ & Hv).
  intros Hh. exists h0. split; [reflexivity|]. split.
  - rewrite of_string_app in Hb. clear -Hb.
    change (of_string "Bearer " ++ of_string accessToken)%list
      with ("B"%char :: "e"%char :: "a"%char :: "r"%char :: "e"%char ::
            "r"%char :: " "%char :: of_string accessToken)%list in Hb.
    exact Hb.
  - split; [exact Hv|]. cbv zeta.
    destruct (headers_has "User-Agent" _); cbn [negb] in Hh.
    + now injection Hh.
    + apply headers_set_ok in Hh. now destruct Hh as (-> & _).
Qed.

Lemma loop_has_no_authorization (h0 : Headers) (v : string) :
  for_each copy_header incomingHeaders [] = inl h0 ->
  ~ In ("authorization", v) h0.
Proof.
  intros Hl H. apply (loop_in _ _ _ _ _ Hl) in H.
  destruct H as [[] | (_ & _ & _ & H & _)]. now elim H.
Qed.

(** X9: the token of the store replaces the credentials of the client:
    when [buildUpstreamHeaders] returns, the headers hold
    [authorization] once, whatever the request of the client carried.
    Its value is what [Headers.set] makes of [Bearer] and the access
    token: the token without the HTTP white space at its end, and
    [Bearer] alone for a token that is nothing else; it holds no NUL,
    LF or CR.  The function returns exactly when the loop over the
    incoming headers does, the token has no character above U+00FF and
    that value is a header value; it throws otherwise. *)
Theorem upstream_authorization :
  let value := headerValueNormalize ("Bearer " ++ accessToken) in
  (forall h : Headers,
      buildUpstreamHeaders incomingHeaders accessToken = inl h ->
      In ("authorization", value) h /\
      (forall v, In ("authorization", v) h -> v = value) /\
      isValidHeaderValue value = true) /\
  value = match strip_trailing is_http_whitespace (of_string accessToken) with
          | [] => "Bearer"
          | token => "Bearer " ++ to_string token
          end /\
  ((exists h, buildUpstreamHeaders incomingHeaders accessToken = inl h) <->
   (exists h0, for_each copy_header incomingHeaders [] = inl h0) /\
   is_byte_string (of_string accessToken) = true /\
   isValidHeaderValue value = true).
Proof.
  intros value. split; [|split].
  - intros h Hb. apply buildUpstreamHeaders_ok in Hb.
    destruct Hb as (h0 & Hl & _ & Hv & Hh). cbv zeta in Hh. fold value in Hh.
    set (h1 := list_set "Authorization" value h0) in Hh.
    assert (Hin : In ("authorization", value) h1).
    { apply (list_set_has "Authorization"). intros v.
      now apply loop_has_no_authorization. }
    assert (Honly : forall v, In ("authorization", v) h1 -> v = value).
    { intros v H. apply list_set_in in H. destruct H as [(_ & ->) | H];
        [reflexivity|]. now apply loop_has_no_authorization in H. }
    split; [|split; [|exact Hv]].
    + subst h. destruct (headers_has "User-Agent" h1); [exact Hin|].
      apply list_set_keeps; [exact Hin | discriminate].
    + subst h. destruct (headers_has "User-Agent" h1); [exact Honly|].
      intros v H. apply list_set_in in H.
      destruct H as [(E & _) | H]; [discriminate E | now apply Honly].
  - apply bearer_normalized.
  - split.
    + intros (h & Hb). apply buildUpstreamHeaders_ok in Hb.
      destruct Hb as (h0 & Hl & Hbs & Hv & _). eauto.
    + intros ((h0 & Hl) & Hbs & Hv). unfold buildUpstreamHeaders.
      rewrite Hl. unfold headers_set at 1.
      rewrite header_arguments_valid; [|reflexivity| |reflexivity|exact Hv].
      * destruct (headers_has "User-Agent" _); cbn [negb]; [eauto|].
        eexists. reflexivity.
      * rewrite of_string_app. exact Hbs.
Qed.

(** X10: no header of the connection goes upstream: the headers that
    [buildUpstreamHeaders] returns hold no hop-by-hop header, no [host]
    and no [content-length], every name is in lower case, and no value
    holds a NUL, a line feed or a carriage return. *)
Theorem upstream_headers_filtered (h : Headers) (k v : string) :
  buildUpstreamHeaders incomingHeaders accessToken = inl h ->
  In (k, v) h ->
  has k HOP_BY_HOP_HEADERS = false /\ k <> "host" /\
  k <> "content-length" /\ toLowerCase k = k /\
  isValidHeaderValue v = true.
Proof.
  intros Hb. apply buildUpstreamHeaders_ok in Hb.
  destruct Hb as (h0 & Hl & _ & Hv & Hh). cbv zeta in Hh.
  set (h1 := list_set "Authorization" _ h0) in Hh.
  assert (Hvalid : forall l : Headers,
             forallb (fun kv => isValidHeaderValue (snd kv)) l = true ->
             forall k v, In (k, v) l -> isValidHeaderValue v = true).
  { intros l Hall k0 v0 Hin. rewrite forallb_forall in Hall.
    exact (Hall (k0, v0) Hin). }
  assert (Hv0 : forallb (fun kv => isValidHeaderValue (snd kv)) h0 = true)
    by now apply (loop_valid incomingHeaders []).
  assert (Hv1 : forallb (fun kv => isValidHeaderValue (snd kv)) h1 = true)
    by now apply list_set_valid.
  assert (H0 : forall k v, In (k, v) h0 ->
                           has k HOP_BY_HOP_HEADERS = false /\ k <> "host" /\
                           k <> "content-length" /\ toLowerCase k = k).
  { intros k0 v0 H. apply (loop_in _ _ _ _ _ Hl) in H.
    destruct H as [[] | ((key & value & _ & ->) & H1 & H2 & _ & H4)].
    repeat split; try assumption. apply toLowerCase_idempotent. }
  assert (H1 : forall k v, In (k, v) h1 ->
                           has k HOP_BY_HOP_HEADERS = false /\ k <> "host" /\
                           k <> "content-length" /\ toLowerCase k = k).
  { intros k0 v0 H. apply list_set_in in H.
    destruct H as [(-> & _) | H]; [|now apply (H0 k0 v0)].
    repeat split; discriminate. }
  subst h. destruct (headers_has "User-Agent" h1).
  - intros Hin. destruct (H1 k v Hin) as (Ha & Hb & Hc & Hd).
    repeat split; try assumption. exact (Hvalid h1 Hv1 k v Hin).
  - intros Hin.
    assert (Hv2 : isValidHeaderValue v = true).
    { apply (Hvalid _ (list_set_valid "User-Agent" "qwen-code-api/0.1.0" h1
                                      Hv1 eq_refl) k v Hin). }
    apply list_set_in in Hin.
    destruct Hin as [(-> & _) | Hin].
    + repeat split; try discriminate. exact Hv2.
    + destruct (H1 k v Hin) as (Ha & Hb & Hc & Hd). now repeat split.
Qed.

(** X11: every other header of the client goes upstream: for incoming
    headers with distinct names, when [buildUpstreamHeaders] returns,
    a header with a string value that is none of those left out is sent
    under its name in lower case, with its value as [Headers.set]
    normalises it, which is the value itself when it neither starts nor
    ends with HTTP white space; and [user-agent] is always sent, with
    the value [qwen-code-api/0.1.0] when the client names none. *)
Theorem upstream_headers_pass_through (h : Headers) :
  NoDup (map (fun kv => toLowerCase (fst kv)) incomingHeaders) ->
  buildUpstreamHeaders incomingHeaders accessToken = inl h ->
  (forall key v,
      In (key, HeaderString v) incomingHeaders ->
      has (toLowerCase key) HOP_BY_HOP_HEADERS = false ->
      toLowerCase key <> "host" -> toLowerCase key <> "authorization" ->
      toLowerCase key <> "content-length" ->
      In (toLowerCase key, headerValueNormalize v) h /\
      (match of_string v with
       | c :: _ => is_http_whitespace c = false
       | [] => True
       end ->
       match rev (of_string v) with
       | c :: _ => is_http_whitespace c = false
       | [] => True
       end ->
       In (toLowerCase key, v) h)) /\
  headers_has "User-Agent" h = true /\
  ((forall kv, In kv incomingHeaders ->
               toLowerCase (fst kv) <> "user-agent") ->
   In ("user-agent", "qwen-code-api/0.1.0") h).
Proof.
  intros Hnd Hb. apply buildUpstreamHeaders_ok in Hb.
  destruct Hb as (h0 & Hl & _ & _ & Hh). cbv zeta in Hh.
  set (h1 := list_set "Authorization" _ h0) in Hh.
  split; [|split].
  - intros key v Hin Ha Hb Hc Hd.
    assert (H1 : In (toLowerCase key, headerValueNormalize v) h1).
    { apply list_set_keeps; [|exact Hc].
      apply (loop_passes incomingHeaders [] h0); try assumption.
      constructor. }
    assert (H2 : In (toLowerCase key, headerValueNormalize v) h).
    { subst h. destruct (headers_has "User-Agent" h1) eqn:Hua; [exact H1|].
      apply list_set_keeps; [exact H1|].
      intros E. change (toLowerCase "User-Agent") with "user-agent" in E.
      rewrite E in H1.
      now apply (headers_has_out "User-Agent" h1 Hua (headerValueNormalize v)). }
    split; [exact H2|]. intros Hfirst Hlast.
    now rewrite (headerValueNormalize_clean v Hfirst Hlast) in H2.
  - subst h. destruct (headers_has "User-Agent" h1) eqn:Hua; [exact Hua|].
    destruct (list_set_new "User-Agent" "qwen-code-api/0.1.0" h1)
      as (v0 & H).
    now apply (headers_has_in "User-Agent" v0).
  - intros Hnone.
    assert (Hua : headers_has "User-Agent" h1 = false).
    { destruct (headers_has "User-Agent" h1) eqn:Hua; [|reflexivity].
      exfalso. unfold headers_has in Hua. apply existsb_exists in Hua.
      destruct Hua as ([k0 v0] & Hin & He). cbn [fst] in He.
      apply String.eqb_eq in He. subst k0.
      apply list_set_in in Hin. destruct Hin as [(E & _) | Hin];
        [discriminate E|].
      apply (loop_in _ _ _ _ _ Hl) in Hin.
      destruct Hin as [[] | ((key & value & Hkv & E) & _)].
      apply (Hnone (key, value) Hkv). now symmetry. }
    subst h. rewrite Hua.
    apply (list_set_has "User-Agent"). now apply headers_has_out.
Qed.

End Build.

(** ** At the sample request *)

(** X10, at a sample. *)
Lemma upstream_headers_filtered_witness :
  has "accept" HOP_BY_HOP_HEADERS = false /\ "accept" <> "host" /\
  "accept" <> "content-length" /\ toLowerCase "accept" = "accept" /\
  isValidHeaderValue "*/*" = true.
Proof.
  refine (upstream_headers_filtered (headers Sample.get_request) "at0"
                                    _ "accept" "*/*" _ _).
  - vm_compute. reflexivity.
  - simpl. tauto.
Defined.

(** X11, at a sample. *)
Lemma upstream_headers_pass_through_witness :
  exists h : Headers,
    buildUpstreamHeaders (headers Sample.get_request) "at0" = inl h /\
    In ("accept", "*/*") h.
Proof.
  eexists. split; [vm_compute; reflexivity|].
  refine (proj2 (proj1 (upstream_headers_pass_through
                          (headers Sample.get_request) "at0" _ _ _)
                       "accept" "*/*" _ _ _ _ _) _ _).
  - repeat constructor. intros [].
  - vm_compute. reflexivity.
  - simpl. tauto.
  - reflexivity.
  - discriminate.
  - discriminate.
  - discriminate.
  - reflexivity.
  - reflexivity.
Defined.

End HeaderFacts.

(* ================================================================== *)
(** * More properties of the forwarder *)
(* ================================================================== *)

Module ForwarderFacts.

Import OAuth Store Server Outcome StoreFacts ServerFacts CredentialFacts
       StoreErrors HeaderFacts.
Local Open Scope string_scope.

(** ** What leaves the response alone *)

Lemma quiet_refl (w : world) : quiet w w.
Proof. now split. Qed.

Lemma quiet_trans (w1 w2 w3 : world) :
  quiet w1 w2 -> quiet w2 w3 -> quiet w1 w3.
Proof. intros [H1 H2] [H3 H4]. split; congruence. Qed.

Lemma responses_log (e : event) (w : world) :
  responses (log e w) =
  (responses w ++ match e with EvRespond r => [r] | _ => [] end)%list.
Proof.
  unfold responses. cbn [trace log]. rewrite flat_map_app. cbn [flat_map].
  now rewrite app_nil_r.
Qed.

Lemma quiet_log (e : event) (w : world) :
  is_response e = false -> quiet w (log e w).
Proof.
  intros H. split; [reflexivity|]. rewrite responses_log.
  destruct e; try discriminate H; apply app_nil_r.
Qed.

Lemma quiet_draw (w : world) : quiet w (draw w).
Proof. now split. Qed.

Lemma quiet_with_disk (f : file_state) (w : world) : quiet w (with_disk f w).
Proof. now split. Qed.

Section Forwarder.

Context {HP : Url.HostParser}.
Variable runtime : Server.ProxyRuntime.

Lemma quiet_was_read (w : world) :
  quiet w (was_read (Server.oauthStore runtime) w).
Proof. now apply quiet_log. Qed.

Lemma quiet_requested (rt : string) (w : world) : quiet w (requested rt w).
Proof.
  unfold requested. eapply quiet_trans; [apply quiet_draw|].
  now apply quiet_log.
Qed.

Lemma quiet_saved (c : QwenCredentials) (w : world) :
  quiet w (saved (Server.oauthStore runtime) c w).
Proof.
  split; [reflexivity|]. unfold responses, saved.
  cbn [trace with_disk log draw]. rewrite !flat_map_app. cbn [flat_map].
  now rewrite !app_nil_r.
Qed.

Lemma quiet_getValidCredentials (forceRefresh : bool) (w w1 : world)
      (res : result QwenCredentials) :
  getValidCredentials (Server.oauthStore runtime) forceRefresh w = (res, w1) ->
  quiet w w1.
Proof.
  rewrite getValidCredentials_run.
  destruct (read_file _ _) as [current|e];
    [|intros [= _ <-]; apply quiet_was_read].
  destruct (negb forceRefresh && _);
    [intros [= _ <-]; apply quiet_was_read|].
  destruct (present (refresh_token current)) eqn:Hp; cbn [negb];
    [|intros [= _ <-]; apply quiet_was_read].
  apply present_some in Hp. destruct Hp as (rt & Hrt & Hne).
  rewrite (refreshCredentials_run _ current rt _ Hrt Hne).
  destruct (refresh_outcome _ _ _); intros [= _ <-].
  - eapply quiet_trans; [apply quiet_was_read|].
    eapply quiet_trans; [apply quiet_requested | apply quiet_saved].
  - eapply quiet_trans; [apply quiet_was_read | apply quiet_requested].
Qed.

Lemma quiet_requestUpstream (req : IncomingMessage)
      (requestPath requestSearch : string) (requestBody : option string)
      (forceRefresh : bool) (w w' : world)
      (res : result upstream_response) :
  requestUpstream runtime req requestPath requestSearch requestBody
                  forceRefresh w = (res, w') ->
  quiet w w'.
Proof.
  rewrite requestUpstream_run.
  destruct (getValidCredentials _ _ _) as [[credentials|e] w1] eqn:Hg;
    apply quiet_getValidCredentials in Hg; [|now intros [= _ <-]].
  destruct (present _); [|now intros [= _ <-]].
  destruct (getUpstreamBaseUrl _ _); [|now intros [= _ <-]].
  destruct (buildUpstreamUrl _ _ _); [|now intros [= _ <-]].
  destruct (buildUpstreamHeaders _ _); [|now intros [= _ <-]].
  cbv zeta.
  destruct (upstream _ _); intros [= _ <-];
    (eapply quiet_trans; [exact Hg | now apply quiet_log]).
Qed.

Lemma quiet_read_chunks (pending collected : list string) (total : N)
      (w w' : world) (res : result (list string)) :
  read_chunks pending collected total w = (res, w') -> quiet w w'.
Proof.
  revert collected total w. induction pending as [|chunk rest IH];
    intros collected total w; cbn [read_chunks].
  - intros [= _ <-]. apply quiet_refl.
  - unfold bind at 1, emit.
    destruct (MAX_REQUEST_BODY_BYTES <? total + byte_length chunk)%N.
    + intros [= _ <-]. now apply quiet_log.
    + intros H. apply IH in H.
      eapply quiet_trans; [|exact H]. now apply quiet_log.
Qed.

Lemma quiet_readRequestBody (req : IncomingMessage) (w w' : world)
      (res : result (option string)) :
  readRequestBody req w = (res, w') -> quiet w w'.
Proof.
  unfold readRequestBody.
  destruct (negb (mayHaveBody _)); [intros [= _ <-]; apply quiet_refl|].
  unfold bind.
  destruct (read_chunks _ _ _ w) as [[collected|e] w0] eqn:Hr;
    apply quiet_read_chunks in Hr.
  - destruct collected; intros [= _ <-]; exact Hr.
  - intros [= _ <-]. exact Hr.
Qed.

Lemma quiet_cancelled (r : upstream_response) (w : world) :
  quiet w (cancelled r w).
Proof.
  unfold cancelled. destruct (up_body r); [now apply quiet_log|].
  apply quiet_refl.
Qed.

(** ** The runs of the forwarder *)

Lemma relayUpstreamResponse_run (r : upstream_response) (w : world) :
  relayUpstreamResponse r w = (inl tt, relayed r w).
Proof. reflexivity. Qed.

Lemma proxyRequest_run (req : IncomingMessage)
      (requestPath requestSearch : string) (requestBody : option string)
      (w : world) :
  proxyRequest runtime req requestPath requestSearch requestBody w =
  match requestUpstream runtime req requestPath requestSearch requestBody
                        false w with
  | (inr e, w1) => (inr e, w1)
  | (inl r1, w1) =>
      if (up_status r1 =? 401)%Z then
        match requestUpstream runtime req requestPath requestSearch
                              requestBody true (cancelled r1 w1) with
        | (inl r2, w2) => (inl tt, relayed r2 w2)
        | (inr e, w2) => (inr e, w2)
        end
      else (inl tt, relayed r1 w1)
  end.
Proof.
  unfold proxyRequest, bind at 1.
  destruct (requestUpstream _ _ _ _ _ false w) as [[r1|e] w1]; [|reflexivity].
  destruct (up_status r1 =? 401)%Z; [|reflexivity]. cbn [negb].
  unfold bind at 1.
  assert (Hc : (match up_body r1 with
                | Some _ => emit EvCancelBody
                | None => ret tt
                end) w1 = (inl tt, cancelled r1 w1)).
  { unfold cancelled. now destruct (up_body r1). }
  rewrite Hc. unfold bind.
  destruct (requestUpstream _ _ _ _ _ true _) as [[r2|e] w2]; reflexivity.
Qed.

Lemma forward_run (req : IncomingMessage)
      (requestPath requestSearch : string) (w : world) :
  forward runtime req requestPath requestSearch w =
  match readRequestBody req w with
  | (inr e, w0) => handleRequestError e w0
  | (inl requestBody, w0) =>
      match proxyRequest runtime req requestPath requestSearch requestBody
                         w0 with
      | (inl u, w1) => (inl u, w1)
      | (inr e, w1) => handleRequestError e w1
      end
  end.
Proof.
  unfold forward, try_catch, bind.
  destruct (readRequestBody req w) as [[requestBody|e] w0]; [|reflexivity].
  destruct (proxyRequest _ _ _ _ _ w0) as [[u|e] w1]; reflexivity.
Qed.

Lemma handleRequestError_run (e : error) (w : world) :
  ended w = false ->
  handleRequestError e w =
  (inl tt, with_ended (log (EvRespond (error_response e)) w)).
Proof.
  intros Hw. destruct e; cbn [handleRequestError error_response];
    unfold sendOpenAIError; rewrite writeJson_run, Hw; reflexivity.
Qed.

Lemma responses_answer (r : client_response) (w : world) :
  responses (with_ended (log (EvRespond r) w)) = (responses w ++ [r])%list.
Proof.
  unfold responses. cbn [trace with_ended log].
  rewrite flat_map_app. reflexivity.
Qed.

Lemma forward_answers (req : IncomingMessage)
      (requestPath requestSearch : string) (w : world) :
  ended w = false ->
  exists (r : client_response) (w' : world),
    forward runtime req requestPath requestSearch w = (inl tt, w') /\
    ended w' = true /\ responses w' = (responses w ++ [r])%list.
Proof.
  intros Hw. rewrite forward_run.
  destruct (readRequestBody req w) as [[requestBody|e] w0] eqn:Hb;
    apply quiet_readRequestBody in Hb; destruct Hb as [Hb1 Hb2].
  2:{ rewrite handleRequestError_run by congruence.
      eexists; eexists. split; [reflexivity|]. split; [reflexivity|].
      rewrite responses_answer. f_equal. congruence. }
  rewrite proxyRequest_run.
  destruct (requestUpstream _ _ _ _ _ false w0) as [[r1|e] w1] eqn:H1;
    apply quiet_requestUpstream in H1; destruct H1 as [H11 H12].
  2:{ rewrite handleRequestError_run by congruence.
      eexists; eexists. split; [reflexivity|]. split; [reflexivity|].
      rewrite responses_answer. f_equal. congruence. }
  destruct (up_status r1 =? 401)%Z.
  - destruct (quiet_cancelled r1 w1) as [Hc1 Hc2].
    destruct (requestUpstream _ _ _ _ _ true _) as [[r2|e] w2] eqn:H2;
      apply quiet_requestUpstream in H2; destruct H2 as [H21 H22].
    + eexists; eexists. split; [reflexivity|]. split; [reflexivity|].
      unfold relayed. rewrite responses_answer. f_equal. congruence.
    + rewrite handleRequestError_run by congruence.
      eexists; eexists. split; [reflexivity|]. split; [reflexivity|].
      rewrite responses_answer. f_equal. congruence.
  - eexists; eexists. split; [reflexivity|]. split; [reflexivity|].
    unfold relayed. rewrite responses_answer. f_equal. congruence.
Qed.

(** ** The errors of one attempt *)

Lemma buildUpstreamUrl_error (base requestPath requestSearch : string)
      (e : error) :
  buildUpstreamUrl base requestPath requestSearch = inr e ->
  (e = invalid_proxy_path requestPath /\
   starts_with v1 (of_string requestPath) = false) \/
  e = OtherError "Invalid URL".
Proof.
  unfold buildUpstreamUrl.
  destruct (starts_with v1 (of_string requestPath)); cbn [negb].
  - destruct (Url.parse _); [discriminate|]. intros [= <-]. now right.
  - intros [= <-]. now left.
Qed.

(** An attempt fails in one of five ways: the credential store fails;
    a base URL does not parse; the request path does not start with
    [/v1]; the [Headers] class refuses a header of the request or the
    access token; or the request was sent and the upstream API did not
    answer.  Only in the last case has a request gone upstream. *)
Lemma requestUpstream_error (req : IncomingMessage)
      (requestPath requestSearch : string) (requestBody : option string)
      (forceRefresh : bool) (w w' : world) (e : error) :
  requestUpstream runtime req requestPath requestSearch requestBody
                  forceRefresh w = (inr e, w') ->
  (getValidCredentials (Server.oauthStore runtime) forceRefresh w =
   (inr e, w') /\ upstream_requests w' = upstream_requests w) \/
  (e = OtherError "Invalid URL" /\
   upstream_requests w' = upstream_requests w) \/
  (e = invalid_proxy_path requestPath /\
   starts_with v1 (of_string requestPath) = false /\
   upstream_requests w' = upstream_requests w) \/
  ((exists m, e = OtherError m) /\
   (exists credentials token,
       access_token credentials = Some token /\
       buildUpstreamHeaders (headers req) token = inr e) /\
   upstream_requests w' = upstream_requests w) \/
  (exists name message,
      upstream w (upstream_requests w) = UpstreamRejected name message /\
      upstream_requests w' = S (upstream_requests w) /\
      e = if isAbortError name message
          then HttpRequestError
                 ("Upstream request timed out after " ++
                  of_Z (Server.requestTimeoutMs (Server.config runtime)) ++
                  "ms.") 504 "upstream_timeout"
          else HttpRequestError ("Failed to reach upstream API: " ++ message)
                                502 "upstream_unavailable").
Proof.
  rewrite requestUpstream_run.
  destruct (getValidCredentials _ _ _) as [[credentials|e0] w1] eqn:Hg.
  2:{ intros [= <- <-]. left. split; [reflexivity|].
      now apply getValidCredentials_frame in Hg. }
  pose proof (getValidCredentials_present _ _ _ _ _ Hg) as Hp.
  apply getValidCredentials_frame in Hg.
  destruct Hg as (Hup & Hn & _). rewrite Hp.
  destruct (getUpstreamBaseUrl _ _) as [base|].
  2:{ intros [= <- <-]. right. left. auto. }
  destruct (buildUpstreamUrl _ _ _) as [url|e0] eqn:Hb.
  2:{ intros [= <- <-]. right.
      destruct (buildUpstreamUrl_error _ _ _ _ Hb) as [(-> & Hv) | ->];
        [right; left | left]; auto. }
  destruct (buildUpstreamHeaders _ _) as [upstreamHeaders|e0] eqn:Hh.
  2:{ intros [= <- <-]. right. right. right. left.
      split; [exact (buildUpstreamHeaders_throws _ _ _ Hh)|].
      split; [|exact Hn]. apply present_some in Hp.
      destruct Hp as (token & Ht & _). rewrite Ht in Hh. eauto. }
  cbv zeta. rewrite Hup, Hn.
  destruct (upstream w (upstream_requests w)) as [name message|r] eqn:Ha;
    [|discriminate].
  intros [= <- <-]. right. right. right. right. exists name, message.
  split; [reflexivity|]. split; [|reflexivity].
  unfold upstream_requests in *. rewrite count_log.
  cbn [is_upstream_request]. lia.
Qed.

Lemma proxyRequest_error (req : IncomingMessage)
      (requestPath requestSearch : string) (requestBody : option string)
      (w w' : world) (e : error) :
  proxyRequest runtime req requestPath requestSearch requestBody w =
  (inr e, w') ->
  exists forceRefresh w0,
    requestUpstream runtime req requestPath requestSearch requestBody
                    forceRefresh w0 = (inr e, w').
Proof.
  rewrite proxyRequest_run.
  destruct (requestUpstream _ _ _ _ _ false w) as [[r1|e1] w1] eqn:H1.
  - destruct (up_status r1 =? 401)%Z; [|discriminate].
    destruct (requestUpstream _ _ _ _ _ true _) as [[r2|e2] w2] eqn:H2;
      [discriminate|].
    intros [= <- <-]. eauto.
  - intros [= <- <-]. eauto.
Qed.

(** X12: when the upstream API cannot be reached, the client is answered 504
    [upstream_timeout] if the request was aborted and 502
    [upstream_unavailable] otherwise, with type [api_error]; one request
    went upstream and no second attempt is made. *)
Theorem upstream_failure_answer (req : IncomingMessage)
        (requestPath requestSearch : string) (requestBody : option string)
        (w w0 w1 : world) (message code : string) (statusCode : Z) :
  ended w = false ->
  readRequestBody req w = (inl requestBody, w0) ->
  requestUpstream runtime req requestPath requestSearch requestBody false w0
  = (inr (HttpRequestError message statusCode code), w1) ->
  forward runtime req requestPath requestSearch w =
  (inl tt, answered statusCode (envelope message "api_error" (Some code)) w1)
  /\
  upstream_requests w1 = S (upstream_requests w0) /\
  exists name reason,
    upstream w0 (upstream_requests w0) = UpstreamRejected name reason /\
    (statusCode, code) =
    if isAbortError name reason then (504%Z, "upstream_timeout")
    else (502%Z, "upstream_unavailable").
Proof.
  intros Hw Hbody Hattempt.
  assert (Hquiet : ended w1 = false).
  { apply quiet_readRequestBody in Hbody.
    apply quiet_requestUpstream in Hattempt.
    destruct Hbody, Hattempt. congruence. }
  assert (Hrun : forward runtime req requestPath requestSearch w =
                 (inl tt,
                  with_ended
                    (log (EvRespond
                            (error_response
                               (HttpRequestError message statusCode code)))
                         w1))).
  { rewrite forward_run, Hbody, proxyRequest_run, Hattempt.
    now apply handleRequestError_run. }
  destruct (requestUpstream_error _ _ _ _ _ _ _ _ Hattempt)
    as [(Hg & _) | [(He & _) | [(He & _) | [((m & He) & _) |
        (name & reason & Ha & Hn & He)]]]].
  - apply store_error_shape in Hg. destruct Hg as (_ & _ & Hg).
    now elim (Hg message statusCode code).
  - discriminate He.
  - discriminate He.
  - discriminate He.
  - split; [|split; [exact Hn|]].
    + rewrite Hrun. unfold answered, error_response.
      destruct (isAbortError name reason); injection He as -> -> ->;
        reflexivity.
    + exists name, reason. split; [exact Ha|].
      destruct (isAbortError name reason); now injection He as -> -> ->.
Qed.


(** X13: when the credential store fails with one of its own errors other
    than [refresh_failed] (no file, an unreadable or malformed file, no
    refresh token, a token endpoint that cannot be reached or answers
    something else than a credential), the client is answered 401 with
    type [authentication_error], the message and the code of the error;
    nothing is sent upstream. *)
Theorem credential_failure_answer (req : IncomingMessage)
        (requestPath requestSearch : string) (requestBody : option string)
        (w w0 w1 : world) (message code : string) (statusCode : option Z) :
  ended w = false ->
  readRequestBody req w = (inl requestBody, w0) ->
  getValidCredentials (Server.oauthStore runtime) false w0 =
  (inr (OAuthCredentialsError message code statusCode), w1) ->
  code <> "refresh_failed" ->
  forward runtime req requestPath requestSearch w =
  (inl tt,
   answered 401 (envelope message "authentication_error" (Some code)) w1) /\
  upstream_requests w1 = upstream_requests w0.
Proof.
  intros Hw Hbody Hg Hcode.
  assert (Hst : statusCode = None).
  { destruct (store_error_shape _ _ _ _ _ Hg) as (_ & H & _).
    now apply (H message code). }
  subst statusCode.
  assert (Hquiet : ended w1 = false).
  { apply quiet_readRequestBody in Hbody.
    apply quiet_getValidCredentials in Hg.
    destruct Hbody, Hg. congruence. }
  split.
  - rewrite forward_run, Hbody, proxyRequest_run, requestUpstream_run, Hg.
    now rewrite handleRequestError_run.
  - now apply getValidCredentials_frame in Hg.
Qed.

Lemma listed_path (pathname : string) :
  pathname = "/v1" \/ Gateway.startsWith "/v1/" pathname = true ->
  starts_with v1 (of_string pathname) = true.
Proof.
  intros [-> | H]; [reflexivity|]. unfold Gateway.startsWith in H.
  apply CharsFacts.starts_with_split in H. destruct H as (r & ->).
  reflexivity.
Qed.

(** X14: two errors of the sources cannot reach a client of the server: for
    a path that the front door hands to the forwarder ([/v1] or a path
    under [/v1/]), [proxyRequest] fails neither with
    [invalid_proxy_path] nor with [missing_access_token]. *)
Theorem unreachable_errors (req : IncomingMessage)
        (pathname requestSearch : string) (requestBody : option string)
        (w w' : world) (e : error) :
  pathname = "/v1" \/ Gateway.startsWith "/v1/" pathname = true ->
  proxyRequest runtime req pathname requestSearch requestBody w = (inr e, w') ->
  error_code e <> "invalid_proxy_path" /\
  error_code e <> "missing_access_token".
Proof.
  intros Hpath H. apply listed_path in Hpath.
  apply proxyRequest_error in H. destruct H as (forceRefresh & w0 & H).
  destruct (requestUpstream_error _ _ _ _ _ _ _ _ H)
    as [(Hg & _) | [(-> & _) | [(_ & Hv & _) | [((m & ->) & _) |
        (name & reason & _ & _ & ->)]]]].
  - apply store_error_shape in Hg. destruct Hg as (Hin & _).
    unfold store_error_codes in Hin. simpl in Hin.
    split; intros He; rewrite He in Hin; intuition discriminate.
  - split; discriminate.
  - congruence.
  - split; discriminate.
  - destruct (isAbortError name reason); split; discriminate.
Qed.

(** X27: an access token that the [Headers] class refuses stops the
    request before anything is sent: when the store returns a credential
    whose token holds a character above U+00FF, or a NUL, a line feed or
    a carriage return that is not part of the white space at its end,
    [buildUpstreamHeaders] throws, the client is answered 500
    [internal_error], nothing goes upstream and no second attempt is
    made. *)
Theorem refused_token_answer (req : IncomingMessage)
        (requestPath requestSearch : string) (requestBody : option string)
        (w w0 w1 : world) (credentials : QwenCredentials)
        (token base url : string) :
  ended w = false ->
  readRequestBody req w = (inl requestBody, w0) ->
  getValidCredentials (Server.oauthStore runtime) false w0 =
  (inl credentials, w1) ->
  access_token credentials = Some token ->
  getUpstreamBaseUrl credentials (Server.upstreamBaseUrl (Server.config runtime))
  = Some base ->
  buildUpstreamUrl base requestPath requestSearch = inl url ->
  is_byte_string (of_string token) = false \/
  isValidHeaderValue (headerValueNormalize ("Bearer " ++ token)) = false ->
  exists message : string,
    buildUpstreamHeaders (headers req) token = inr (OtherError message) /\
    forward runtime req requestPath requestSearch w =
    (inl tt,
     answered 500
       (envelope ("Unexpected server error: " ++ message) "api_error"
                 (Some "internal_error")) w1) /\
    upstream_requests w1 = upstream_requests w0.
Proof.
  intros Hw Hbody Hg Htoken Hbase Hurl Hbad.
  destruct (buildUpstreamHeaders_refuses (headers req) token Hbad)
    as (e & Hh).
  destruct (buildUpstreamHeaders_throws _ _ _ Hh) as (message & ->).
  exists message. split; [exact Hh|].
  assert (Hquiet : ended w1 = false).
  { apply quiet_readRequestBody in Hbody.
    apply quiet_getValidCredentials in Hg.
    destruct Hbody, Hg. congruence. }
  split.
  - rewrite forward_run, Hbody, proxyRequest_run, requestUpstream_run, Hg.
    rewrite (getValidCredentials_present _ _ _ _ _ Hg), Hbase, Hurl, Htoken,
      Hh.
    now rewrite handleRequestError_run.
  - now apply getValidCredentials_frame in Hg.
Qed.

End Forwarder.


(** ** At the sample environments *)

Import UrlFacts.

(** X12, at a sample. *)
Lemma upstream_failure_answer_witness :
  let w1 := snd (requestUpstream Sample.sample_runtime Sample.get_request
                                 "/v1/chat/completions" "" None false
                                 Cases.unreachable) in
  forward Sample.sample_runtime Sample.get_request "/v1/chat/completions" ""
          Cases.unreachable =
  (inl tt,
   answered 502
     (envelope "Failed to reach upstream API: fetch failed" "api_error"
               (Some "upstream_unavailable")) w1).
Proof.
  intros w1.
  refine (proj1 (upstream_failure_answer
                   Sample.sample_runtime Sample.get_request
                   "/v1/chat/completions" "" None
                   Cases.unreachable Cases.unreachable w1
                   "Failed to reach upstream API: fetch failed"
                   "upstream_unavailable" 502 _ _ _)).
  - reflexivity.
  - reflexivity.
  - vm_compute. reflexivity.
Defined.

(** X13, at a sample. *)
Lemma credential_failure_answer_witness :
  forward Sample.sample_runtime Sample.get_request "/v1/chat/completions" ""
          Cases.no_file =
  (inl tt,
   answered 401
     (envelope ("OAuth credentials not found: " ++
                credentialsFile Sample.options ++
                ". Run `qwen` and execute `/auth` first.")
               "authentication_error" (Some "credentials_not_found"))
     (was_read Sample.options Cases.no_file)).
Proof.
  refine (proj1 (credential_failure_answer
                   Sample.sample_runtime Sample.get_request
                   "/v1/chat/completions" "" None
                   Cases.no_file Cases.no_file
                   (was_read Sample.options Cases.no_file)
                   _ "credentials_not_found" None _ _ _ _)).
  - reflexivity.
  - reflexivity.
  - reflexivity.
  - discriminate.
Defined.

(** X14, at a sample. *)
Lemma unreachable_errors_witness :
  "credentials_not_found" <> "invalid_proxy_path" /\
  "credentials_not_found" <> "missing_access_token".
Proof.
  refine (unreachable_errors
            Sample.sample_runtime Sample.get_request
            "/v1/chat/completions" "" None Cases.no_file
            (was_read Sample.options Cases.no_file)
            (OAuthCredentialsError
               ("OAuth credentials not found: " ++
                credentialsFile Sample.options ++
                ". Run `qwen` and execute `/auth` first.")
               "credentials_not_found" None) _ _).
  - right. reflexivity.
  - reflexivity.
Defined.

(** X27, at a stored token with a line feed in it. *)
Lemma refused_token_answer_witness :
  exists message : string,
    forward Sample.sample_runtime Sample.get_request "/v1/chat/completions" ""
            Cases.split_token =
    (inl tt,
     answered 500
       (envelope ("Unexpected server error: " ++ message) "api_error"
                 (Some "internal_error"))
       (was_read Sample.options Cases.split_token)).
Proof.
  destruct (refused_token_answer
              Sample.sample_runtime Sample.get_request
              "/v1/chat/completions" "" None
              Cases.split_token Cases.split_token
              (was_read Sample.options Cases.split_token)
              (mkCredentials (Some ("at" ++ nl ++ "0")) (Some "rt0") None
                             (Some 5000000%Z) None)
              ("at" ++ nl ++ "0")
              "https://dashscope.aliyuncs.com/compatible-mode/v1"
              "https://dashscope.aliyuncs.com/compatible-mode/v1/chat/completions"
              eq_refl eq_refl)
    as (message & _ & H & _).
  - vm_compute. reflexivity.
  - reflexivity.
  - vm_compute. reflexivity.
  - vm_compute. reflexivity.
  - right. vm_compute. reflexivity.
  - exists message. exact H.
Defined.

End ForwarderFacts.

(* ================================================================== *)
(** * Properties of the configuration loader *)
(* ================================================================== *)

Module ConfigFacts.

Import Platform Config CharsFacts PlatformFacts.
Local Open Scope string_scope.

Lemma trim_string_idempotent (s : string) :
  trim_string (trim_string s) = trim_string s.
Proof.
  unfold trim_string. rewrite ResolverFacts.of_to_string.
  now rewrite trim_idempotent.
Qed.

(** X15: [toNonEmptyString] returns the value without the white space around
    it, and only when something is left: the result is not empty,
    neither starts nor ends with white space, and is returned as it is
    when it is given again; nothing is returned for a value that is
    absent or blank. *)
Theorem toNonEmptyString_trimmed (value : option string)
        (fieldName : string) :
  match toNonEmptyString value fieldName with
  | inl r =>
      (exists s, value = Some s /\ r = trim_string s) /\
      r <> "" /\
      ws_prefix (of_string r) = None /\
      ws_suffix_rev (rev (of_string r)) = None /\
      toNonEmptyString (Some r) fieldName = inl r
  | inr e =>
      e = OtherError ("Invalid " ++ fieldName ++ ": value is required") /\
      (value = None \/ exists s, value = Some s /\ trim_string s = "")
  end.
Proof.
  unfold toNonEmptyString. destruct value as [s|]; cbn [option_map].
  2:{ split; [reflexivity | now left]. }
  unfold is_blank. destruct (String.eqb (trim_string s) "") eqn:He.
  - apply String.eqb_eq in He. split; [reflexivity|]. right. now exists s.
  - split; [now exists s|]. split; [now apply String.eqb_neq|].
    unfold trim_string at 1 2. rewrite ResolverFacts.of_to_string.
    destruct (trim_clean (of_string s)) as (Hp & Hs).
    split; [exact Hp|]. split; [exact Hs|].
    rewrite trim_string_idempotent. now rewrite He.
Qed.

(** X16: [toInteger] reads a decimal number and ignores what follows it: for
    an integer [n] written in decimal and followed by anything that does
    not start with a digit, the result is [n] when [n] lies between
    [min] and [max], and the error of the field otherwise. *)
Theorem toInteger_reads_decimal (n : Z) (junk fieldName : string)
        (min max : Z) :
  match of_string junk with c :: _ => is_digit c = false | [] => True end ->
  toInteger (of_Z n ++ junk) fieldName min max =
  if ((min <=? n) && (n <=? max))%Z then inl n
  else inr (OtherError ("Invalid " ++ fieldName ++
                        ": expected integer in [" ++ of_Z min ++ ", " ++
                        of_Z max ++ "]")).
Proof.
  intros Hj. unfold toInteger. rewrite (parseInt_of_Z n junk Hj).
  destruct (n <? min)%Z eqn:H1; destruct (max <? n)%Z eqn:H2;
    destruct (min <=? n)%Z eqn:H3; destruct (n <=? max)%Z eqn:H4;
    try reflexivity; lia.
Qed.

Lemma toInteger_bounds (value fieldName : string) (min max n : Z) :
  toInteger value fieldName min max = inl n -> (min <= n <= max)%Z.
Proof.
  unfold toInteger. destruct (parseInt value) as [p|]; [|discriminate].
  destruct (p <? min)%Z eqn:H1; destruct (max <? p)%Z eqn:H2;
    try discriminate. intros [= <-]. lia.
Qed.

Lemma toNonEmptyString_nonempty (value : option string)
      (fieldName r : string) :
  toNonEmptyString value fieldName = inl r -> r <> "".
Proof.
  unfold toNonEmptyString, is_blank.
  destruct value as [s|]; cbn [option_map]; [|discriminate].
  destruct (String.eqb (trim_string s) "") eqn:He; [discriminate|].
  intros [= <-]. now apply String.eqb_neq.
Qed.

Lemma toOptionalString_some (value : option string) (r : string) :
  toOptionalString value = Some r ->
  r <> "" /\ exists s, value = Some s /\ r = trim_string s.
Proof.
  unfold toOptionalString, is_blank.
  destruct value as [s|]; cbn [option_map]; [|discriminate].
  destruct (String.eqb (trim_string s) "") eqn:He; [discriminate|].
  intros [= <-]. split; [now apply String.eqb_neq | now exists s].
Qed.

Lemma to_hex_nonempty (buffer : chars) : buffer <> [] -> to_hex buffer <> "".
Proof. destruct buffer; [now intros H; elim H | discriminate]. Qed.

Section Loader.

Variable parseArgs : list string -> result Values.
Variable DEFAULT_CREDENTIALS_FILE : string.
Variable randomBytes : nat -> chars.

(** X17: a configuration that [loadConfig] returns is within bounds: the
    port between 1 and 65535, the refresh buffer not negative, the
    time-out positive, both at most [Number.MAX_SAFE_INTEGER]; the
    host, the credential file and the API key are not empty, and the
    override of the base URL is absent or not empty. *)
Theorem loadConfig_bounds (argv : list string) (env : ProcessEnv)
        (c : AppConfig) :
  randomBytes 24 <> [] ->
  loadConfig parseArgs DEFAULT_CREDENTIALS_FILE randomBytes argv env =
  inl c ->
  (1 <= port c <= 65535)%Z /\
  (0 <= tokenRefreshBufferMs c <= MAX_SAFE_INTEGER)%Z /\
  (1 <= requestTimeoutMs c <= MAX_SAFE_INTEGER)%Z /\
  host c <> "" /\ credentialsFile c <> "" /\ apiKey c <> "" /\
  upstreamBaseUrl c <> Some "".
Proof.
  intros Hrandom. unfold loadConfig, and_then.
  destruct (parseArgs argv) as [values|e]; [|discriminate].
  destruct (toNonEmptyString _ "host") as [h|e] eqn:Hh; [|discriminate].
  destruct (toInteger _ "port" _ _) as [p|e] eqn:Hp; [|discriminate].
  destruct (toInteger _ "tokenRefreshBufferMs" _ _) as [b|e] eqn:Hb;
    [|discriminate].
  destruct (toInteger _ "requestTimeoutMs" _ _) as [t|e] eqn:Ht;
    [|discriminate].
  destruct (toNonEmptyString _ "credentialsFile") as [f|e] eqn:Hf;
    [|discriminate].
  apply toInteger_bounds in Hp, Hb, Ht.
  apply toNonEmptyString_nonempty in Hh, Hf.
  destruct (toOptionalString (OAuth.or_else (v_upstream_base_url values) _))
    as [u|] eqn:Hu;
    destruct (toOptionalString (OAuth.or_else (v_api_key values) _))
      as [k|] eqn:Hk;
    intros [= <-]; cbn [port tokenRefreshBufferMs requestTimeoutMs host
                        credentialsFile apiKey upstreamBaseUrl];
    repeat split; try assumption; try lia; try discriminate;
    try (apply toOptionalString_some in Hu; destruct Hu as (Hu & _);
         congruence);
    try (apply toOptionalString_some in Hk; now destruct Hk);
    try now apply to_hex_nonempty.
Qed.

(** X18: an option given on the command line shadows its environment
    variable: two environments that agree on the variables of the
    options that the command line leaves out give the same result. *)
Theorem command_line_shadows_environment (argv : list string)
        (values : Values) (env env' : ProcessEnv) :
  parseArgs argv = inl values ->
  (v_host values = None ->
   QWEN_CODE_API_HOST env = QWEN_CODE_API_HOST env') ->
  (v_port values = None ->
   QWEN_CODE_API_PORT env = QWEN_CODE_API_PORT env') ->
  (v_token_refresh_buffer_ms values = None ->
   QWEN_CODE_TOKEN_REFRESH_BUFFER_MS env =
   QWEN_CODE_TOKEN_REFRESH_BUFFER_MS env') ->
  (v_request_timeout_ms values = None ->
   QWEN_CODE_API_REQUEST_TIMEOUT_MS env =
   QWEN_CODE_API_REQUEST_TIMEOUT_MS env') ->
  (v_credentials_file values = None ->
   QWEN_CODE_OAUTH_CREDENTIALS_PATH env =
   QWEN_CODE_OAUTH_CREDENTIALS_PATH env') ->
  (v_upstream_base_url values = None ->
   QWEN_CODE_API_UPSTREAM_BASE_URL env =
   QWEN_CODE_API_UPSTREAM_BASE_URL env') ->
  (v_api_key values = None -> QWEN_CODE_API_KEY env = QWEN_CODE_API_KEY env') ->
  loadConfig parseArgs DEFAULT_CREDENTIALS_FILE randomBytes argv env =
  loadConfig parseArgs DEFAULT_CREDENTIALS_FILE randomBytes argv env'.
Proof.
  intros Hparse Hhost Hport Hbuffer Htimeout Hfile Hurl Hkey.
  unfold loadConfig. rewrite Hparse. cbn [and_then].
  assert (E : forall (v a b : option string),
             (v = None -> a = b) -> OAuth.or_else v a = OAuth.or_else v b).
  { intros [x|] a b H; [reflexivity | now apply H]. }
  rewrite (E _ _ _ Hhost), (E _ _ _ Hport), (E _ _ _ Hbuffer),
    (E _ _ _ Htimeout), (E _ _ _ Hfile), (E _ _ _ Hurl), (E _ _ _ Hkey).
  reflexivity.
Qed.

End Loader.

(** ** At the sample command line *)

(** X16, at a sample. *)
Lemma toInteger_reads_decimal_witness :
  toInteger "8080abc" "port" 1 65535 = inl 8080%Z.
Proof.
  exact (toInteger_reads_decimal 8080 "abc" "port" 1 65535 eq_refl).
Defined.

(** X17, at a sample. *)
Lemma loadConfig_bounds_witness : (1 <= port Cases.loaded <= 65535)%Z.
Proof.
  refine (proj1 (loadConfig_bounds
                   Cases.parseArgs "/home/u/.qwen/oauth_creds.json"
                   Cases.randomBytes [] (Cases.env None) Cases.loaded _ _)).
  - discriminate.
  - vm_compute. reflexivity.
Defined.

(** X18, at a sample. *)
Lemma command_line_shadows_environment_witness :
  loadConfig Cases.parseArgs "/home/u/.qwen/oauth_creds.json"
             Cases.randomBytes [] (Cases.env (Some "1")) =
  loadConfig Cases.parseArgs "/home/u/.qwen/oauth_creds.json"
             Cases.randomBytes [] (Cases.env (Some "2")).
Proof.
  refine (command_line_shadows_environment
            Cases.parseArgs "/home/u/.qwen/oauth_creds.json"
            Cases.randomBytes []
            (mkValues None None (Some "8080") None None None None None)
            (Cases.env (Some "1")) (Cases.env (Some "2"))
            _ _ _ _ _ _ _ _); try reflexivity.
  discriminate.
Defined.

End ConfigFacts.

(* ================================================================== *)
(** * Properties of the front door *)
(* ================================================================== *)

Module GatewayFacts.

Import Platform Server Outcome Gateway CharsFacts PlatformFacts.
Local Open Scope string_scope.

(** ** The local API key *)

Lemma split_any_split (seqs : list chars) (s p r : chars) :
  split_any seqs s = Some (p, r) -> In p seqs /\ s = (p ++ r)%list.
Proof.
  induction seqs as [|q seqs IH]; simpl; [discriminate|].
  destruct (starts_with q s) eqn:Hq.
  - intros [= <- <-]. apply starts_with_split in Hq. destruct Hq as (r & ->).
    split; [now left|]. f_equal.
    now rewrite skipn_app, skipn_all, Nat.sub_diag.
  - intros H. destruct (IH H) as (Hp & ->). auto.
Qed.

Lemma split_any_none (seqs : list chars) (s : chars) :
  strip_any seqs s = None -> split_any seqs s = None.
Proof.
  induction seqs as [|q seqs IH]; simpl; [reflexivity|].
  destruct (starts_with q s); [discriminate | exact IH].
Qed.

Lemma ws_run_split (fuel : nat) (s : chars) (run : list chars)
      (rest : chars) :
  ws_run fuel s = (run, rest) -> s = (List.concat run ++ rest)%list.
Proof.
  revert s run rest. induction fuel as [|fuel IH]; intros s run rest;
    cbn [ws_run].
  - now intros [= <- <-].
  - destruct (split_any white_space s) as [[p r]|] eqn:Hs.
    + destruct (ws_run fuel r) as [run' rest'] eqn:Hr.
      intros [= <- <-]. apply split_any_split in Hs. destruct Hs as (_ & ->).
      rewrite (IH _ _ _ Hr). cbn [List.concat]. now rewrite app_assoc.
    + now intros [= <- <-].
Qed.

Lemma backtrack_sound (taken : list chars) (rest t : chars) :
  backtrack taken rest = Some t ->
  matches_dot_plus t = true /\
  exists pre, (List.concat (rev taken) ++ rest)%list = (pre ++ t)%list.
Proof.
  revert rest. induction taken as [|p taken IH]; intros rest;
    cbn [backtrack]; [discriminate|].
  destruct (matches_dot_plus rest) eqn:Hm.
  - intros [= <-]. split; [exact Hm|].
    now exists (List.concat (rev (p :: taken))).
  - intros H. destruct (IH _ H) as (Ht & pre & Hpre). split; [exact Ht|].
    exists pre. rewrite <- Hpre. cbn [rev]. rewrite concat_app.
    cbn [List.concat].
    rewrite app_nil_r. now rewrite <- app_assoc.
Qed.

Lemma parseBearerToken_sound (h : option string) (t : string) :
  parseBearerToken h = Some t ->
  exists v, h = Some v /\
            starts_with_ci (of_string "bearer") (of_string v) = true /\
            ends_with (of_string t) (of_string v) = true /\
            t <> "" /\ has_line_terminator (of_string t) = false.
Proof.
  unfold parseBearerToken. destruct h as [v|]; [|discriminate].
  destruct (String.eqb v ""); [discriminate|].
  destruct (starts_with_ci _ _) eqn:Hb; [|discriminate].
  destruct (ws_run _ _) as [run rest] eqn:Hr.
  destruct (backtrack (rev run) rest) as [tc|] eqn:Hbt; [|discriminate].
  intros [= <-]. exists v. split; [reflexivity|]. split; [exact Hb|].
  apply backtrack_sound in Hbt. destruct Hbt as (Hm & pre & Hpre).
  rewrite rev_involutive in Hpre. apply ws_run_split in Hr.
  rewrite ResolverFacts.of_to_string.
  unfold matches_dot_plus in Hm. apply andb_true_iff in Hm.
  destruct Hm as [Hne Hlt]. apply negb_true_iff in Hlt.
  split; [|split; [|exact Hlt]].
  - rewrite <- (firstn_skipn 6 (of_string v)), Hr, Hpre, app_assoc.
    apply ends_with_app.
  - intros H. apply (f_equal of_string) in H.
    rewrite ResolverFacts.of_to_string in H. rewrite H in Hne. discriminate.
Qed.

(** X19: a request passes the check of the local API key only with a string
    as [authorization] header that starts with [Bearer] (in any letter
    case) and ends with the key; a key that is empty or holds a line
    terminator is matched by no request. *)
Theorem local_key_check_sound (req : IncomingMessage) (apiKey : string) :
  verifyLocalApiKey req apiKey = true ->
  exists v,
    header "authorization" (headers req) = Some (HeaderString v) /\
    starts_with_ci (of_string "bearer") (of_string v) = true /\
    ends_with (of_string apiKey) (of_string v) = true /\
    apiKey <> "" /\ has_line_terminator (of_string apiKey) = false.
Proof.
  unfold verifyLocalApiKey.
  destruct (parseBearerToken _) as [t|] eqn:Ht; [|discriminate].
  intros He. apply String.eqb_eq in He. subst t.
  apply parseBearerToken_sound in Ht.
  destruct Ht as (v & Hv & Hrest). exists v. split; [|exact Hrest].
  destruct (header "authorization" (headers req)) as [[|x|l]|];
    try discriminate. now injection Hv as ->.
Qed.

Lemma white_space_space (k : chars) :
  split_any white_space (" "%char :: k) = Some ([" "%char], k).
Proof. reflexivity. Qed.

Lemma parseBearerToken_accepts (k : string) :
  k <> "" -> ws_prefix (of_string k) = None ->
  has_line_terminator (of_string k) = false ->
  parseBearerToken (Some ("Bearer " ++ k)) = Some k.
Proof.
  intros Hne Hws Hlt. unfold parseBearerToken.
  change (String.eqb ("Bearer " ++ k) "") with false. cbn iota.
  change (of_string ("Bearer " ++ k))
    with (of_string "Bearer" ++ " "%char :: of_string k)%list.
  change (starts_with_ci (of_string "bearer")
            (of_string "Bearer" ++ " "%char :: of_string k)%list) with true.
  cbn iota.
  change (skipn 6 (of_string "Bearer" ++ " "%char :: of_string k)%list)
    with (" "%char :: of_string k).
  change (List.length (of_string "Bearer" ++ " "%char :: of_string k)%list)
    with (S (S (5 + List.length (of_string k)))).
  cbn [ws_run]. rewrite white_space_space.
  rewrite (split_any_none _ _ Hws).
  cbn [rev app backtrack]. unfold matches_dot_plus. rewrite Hlt.
  destruct (of_string k) eqn:Hk.
  - exfalso. apply Hne. apply of_string_inj. now rewrite Hk.
  - cbn [is_empty negb andb option_map]. rewrite <- Hk.
    now rewrite to_of_string.
Qed.

Lemma hex_pair_printable (c : ascii) :
  forallb printable [Platform.hex_digit (code c / 16);
                     Platform.hex_digit (code c mod 16)] = true.
Proof. each_char c; reflexivity. Qed.

Lemma to_hex_printable (buffer : chars) :
  forallb printable (of_string (to_hex buffer)) = true.
Proof.
  unfold to_hex. rewrite ResolverFacts.of_to_string.
  induction buffer as [|c buffer IH]; [reflexivity|].
  cbn [flat_map]. rewrite forallb_app, IH. now rewrite hex_pair_printable.
Qed.

Lemma includes_head (c0 : ascii) (t s : chars) :
  forallb (fun c => negb (Ascii.eqb c0 c)) s = true ->
  includes (c0 :: t) s = false.
Proof.
  induction s as [|c s IH]; [reflexivity|]. cbn [forallb includes starts_with].
  intros H. apply andb_true_iff in H. destruct H as [Hc Hs].
  apply negb_true_iff in Hc. rewrite Hc. now rewrite (IH Hs).
Qed.

Lemma printable_no_terminator (c : ascii) :
  printable c = true ->
  Ascii.eqb (ascii_of_N 10) c = false /\
  Ascii.eqb (ascii_of_N 13) c = false /\
  Ascii.eqb (ascii_of_N 226) c = false.
Proof.
  each_char c; intros H; try discriminate H; repeat split; reflexivity.
Qed.

Lemma printable_line (s : chars) :
  forallb printable s = true -> has_line_terminator s = false.
Proof.
  intros H. unfold has_line_terminator, line_terminators.
  cbn [map bytes existsb].
  assert (Hall : forall x,
             (forall c, printable c = true -> Ascii.eqb x c = false) ->
             forallb (fun c => negb (Ascii.eqb x c)) s = true).
  { intros x Hx. revert H. apply forallb_weaken. intros c Hc.
    now rewrite (Hx c Hc). }
  rewrite !includes_head; [reflexivity | ..]; apply Hall; intros c Hc;
    now apply printable_no_terminator in Hc.
Qed.

Lemma verifyLocalApiKey_accepts (req : IncomingMessage) (k : string) :
  header "authorization" (headers req) = Some (HeaderString ("Bearer " ++ k)) ->
  k <> "" -> ws_prefix (of_string k) = None ->
  has_line_terminator (of_string k) = false ->
  verifyLocalApiKey req k = true.
Proof.
  intros Hh Hne Hws Hlt. unfold verifyLocalApiKey. rewrite Hh.
  rewrite (parseBearerToken_accepts k Hne Hws Hlt). apply String.eqb_refl.
Qed.

Section Loader.

Variable parseArgs : list string -> result Config.Values.
Variable DEFAULT_CREDENTIALS_FILE : string.
Variable randomBytes : nat -> chars.

Lemma loadConfig_key (argv : list string) (env : Config.ProcessEnv)
      (c : Config.AppConfig) :
  Config.loadConfig parseArgs DEFAULT_CREDENTIALS_FILE randomBytes argv env =
  inl c ->
  (Config.apiKeyGenerated c = true /\
   Config.apiKey c = to_hex (randomBytes 24)) \/
  (Config.apiKeyGenerated c = false /\
   Config.apiKey c <> "" /\
   exists s, Config.apiKey c = trim_string s).
Proof.
  unfold Config.loadConfig, Config.and_then.
  destruct (parseArgs argv) as [values|e]; [|discriminate].
  destruct (Config.toNonEmptyString _ "host"); [|discriminate].
  destruct (Config.toInteger _ "port" _ _); [|discriminate].
  destruct (Config.toInteger _ "tokenRefreshBufferMs" _ _); [|discriminate].
  destruct (Config.toInteger _ "requestTimeoutMs" _ _); [|discriminate].
  destruct (Config.toNonEmptyString _ "credentialsFile"); [|discriminate].
  destruct (Config.toOptionalString
              (OAuth.or_else (Config.v_api_key values) _)) as [k|] eqn:Hk;
    intros [= <-]; cbn [Config.apiKey Config.apiKeyGenerated].
  - right. apply ConfigFacts.toOptionalString_some in Hk.
    destruct Hk as (Hne & given & _ & Hs). split; [reflexivity|].
    split; [exact Hne | now exists given].
  - now left.
Qed.

(** X20: the key of a loaded configuration opens the door: a request whose
    [authorization] header is [Bearer], a space and the key passes the
    check, for a generated key always and for a given key when it holds
    no line terminator. *)
Theorem configured_key_accepted (argv : list string)
        (env : Config.ProcessEnv) (c : Config.AppConfig)
        (req : IncomingMessage) :
  randomBytes 24 <> [] ->
  Config.loadConfig parseArgs DEFAULT_CREDENTIALS_FILE randomBytes argv env =
  inl c ->
  (Config.apiKeyGenerated c = false ->
   has_line_terminator (of_string (Config.apiKey c)) = false) ->
  header "authorization" (headers req) =
  Some (HeaderString ("Bearer " ++ Config.apiKey c)) ->
  verifyLocalApiKey req (Config.apiKey c) = true.
Proof.
  intros Hrandom Hload Hline Hheader.
  destruct (loadConfig_key _ _ _ Hload) as [(Hg & Hk) | (Hg & Hne & s & Hs)].
  - apply verifyLocalApiKey_accepts; [exact Hheader | ..]; rewrite Hk.
    + now apply ConfigFacts.to_hex_nonempty.
    + pose proof (to_hex_printable (randomBytes 24)) as Hp.
      destruct (of_string (to_hex (randomBytes 24))) as [|x r];
        [reflexivity|].
      apply ws_prefix_printable. cbn [forallb] in Hp.
      now apply andb_true_iff in Hp.
    + apply printable_line, to_hex_printable.
  - apply verifyLocalApiKey_accepts; [exact Hheader | exact Hne | |].
    + rewrite Hs. unfold trim_string. rewrite ResolverFacts.of_to_string.
      exact (proj1 (trim_clean (of_string s))).
    + now apply Hline.
Qed.

End Loader.

(** ** The local list of models *)

Lemma models_path (x : string) :
  String.eqb ("/v1/models/" ++ x) "/v1/models" = false /\
  startsWith "/v1/models/" ("/v1/models/" ++ x) = true /\
  to_string (skipn (String.length "/v1/models/")
                   (of_string ("/v1/models/" ++ x))) = x.
Proof.
  split; [reflexivity|]. split; [reflexivity|].
  change (skipn (String.length "/v1/models/")
                (of_string ("/v1/models/" ++ x))) with (of_string x).
  apply to_of_string.
Qed.

Lemma startsWith_split (p s : string) :
  startsWith p s = true -> exists x, s = p ++ x.
Proof.
  unfold startsWith. intros H. apply starts_with_split in H.
  destruct H as (r & Hr). exists (to_string r). apply of_string_inj.
  now rewrite of_string_app, ResolverFacts.of_to_string.
Qed.

Lemma sendJson_run (statusCode : Z) (payload : json) (w : world) :
  ended w = false ->
  Errors.sendJson statusCode payload w =
  (inl tt, answered statusCode payload w).
Proof.
  intros Hw. unfold Errors.sendJson. rewrite ServerFacts.writeJson_run.
  now rewrite Hw.
Qed.

Lemma sendOpenAIError_run (statusCode : Z) (message : string)
      (options : option Errors.ErrorOptions) (w : world) :
  ended w = false ->
  Errors.sendOpenAIError statusCode message options w =
  (inl tt, answered statusCode (Errors.OpenAIErrorShape message options) w).
Proof.
  intros Hw. unfold Errors.sendOpenAIError.
  rewrite ServerFacts.writeJson_run. now rewrite Hw.
Qed.

(** X21: [GET /v1/models/<id>] is answered from the local list: with the
    card of the model when the identifier, decoded, is [coder-model] or
    [vision-model], and with 404 [model_not_found] otherwise; an
    identifier without [%] is decoded to itself.  Nothing else
    happens. *)
Theorem models_lookup (req : IncomingMessage) (x modelId : string)
        (w : world) :
  is_GET (method req) = true -> ended w = false ->
  decodeURIComponent x = Some modelId ->
  handleLocalModelsEndpoint req ("/v1/models/" ++ x) w =
  (inl true,
   if String.eqb modelId "coder-model" || String.eqb modelId "vision-model"
   then answered 200 (card_json (mkCard modelId "model" 0 "qwen-oauth")) w
   else answered 404
          (Errors.OpenAIErrorShape ("Model not found: " ++ modelId)
                                   (Errors.with_code "model_not_found")) w) /\
  (mem "%" (of_string x) = false -> modelId = x).
Proof.
  intros Hget Hw Hdec. split.
  - unfold handleLocalModelsEndpoint.
    destruct (models_path x) as (-> & -> & ->). cbn [negb andb].
    rewrite Hget, Hdec. cbn [negb].
    unfold LOCAL_OPENAI_MODELS. cbn [find id].
    rewrite (String.eqb_sym "coder-model"), (String.eqb_sym "vision-model").
    destruct (String.eqb modelId "coder-model") eqn:H1.
    + apply String.eqb_eq in H1. subst modelId. cbn [orb].
      unfold bind. rewrite sendJson_run by assumption. reflexivity.
    + destruct (String.eqb modelId "vision-model") eqn:H2.
      * apply String.eqb_eq in H2. subst modelId. cbn [orb].
        unfold bind. now rewrite sendJson_run.
      * cbn [orb]. unfold bind. now rewrite sendOpenAIError_run.
  - intros Hplain. unfold decodeURIComponent in Hdec.
    rewrite (decode_plain _ Hplain) in Hdec. cbn [option_map] in Hdec.
    rewrite to_of_string in Hdec. now injection Hdec.
Qed.

(** What [handleLocalModelsEndpoint] does with a request: it leaves it
    alone, answers it, or throws on an identifier that cannot be
    decoded. *)
Lemma handleLocalModelsEndpoint_cases (req : IncomingMessage)
      (pathname : string) (w : world) :
  ended w = false ->
  (handleLocalModelsEndpoint req pathname w = (inl false, w) /\
   String.eqb pathname "/v1/models" = false /\
   startsWith "/v1/models/" pathname = false) \/
  (exists statusCode payload,
      handleLocalModelsEndpoint req pathname w =
      (inl true, answered statusCode payload w)) \/
  (handleLocalModelsEndpoint req pathname w = (inr URIError, w) /\
   is_GET (method req) = true /\
   exists x, pathname = "/v1/models/" ++ x /\ decodeURIComponent x = None).
Proof.
  intros Hw. unfold handleLocalModelsEndpoint.
  destruct (String.eqb pathname "/v1/models") eqn:He; cbn [negb andb].
  - right. left. destruct (is_GET (method req)); cbn [negb].
    + unfold bind. rewrite sendJson_run by assumption.
      do 2 eexists; reflexivity.
    + unfold bind. rewrite sendOpenAIError_run by assumption.
      do 2 eexists; reflexivity.
  - destruct (startsWith "/v1/models/" pathname) eqn:Hs; cbn [negb];
      [|now left].
    right. destruct (is_GET (method req)) eqn:Hget; cbn [negb].
    2:{ left. unfold bind. rewrite sendOpenAIError_run by assumption.
      do 2 eexists; reflexivity. }
    apply startsWith_split in Hs. destruct Hs as (x & ->).
    destruct (models_path x) as (_ & _ & ->).
    destruct (decodeURIComponent x) as [modelId|] eqn:Hdec.
    + left. destruct (find _ _); unfold bind.
      * rewrite sendJson_run by assumption.
      do 2 eexists; reflexivity.
      * rewrite sendOpenAIError_run by assumption.
      do 2 eexists; reflexivity.
    + right. split; [reflexivity|]. split; [reflexivity|]. now exists x.
Qed.

Section Listener.

Context {HP : Url.HostParser}.
Variable runtime : ProxyRuntime.
Variable resolve : string -> string -> option (string * string).

Lemma ended_answered (statusCode : Z) (payload : json) (w : world) :
  ended (answered statusCode payload w) = true /\
  responses (answered statusCode payload w) =
  (responses w ++ [JsonResponse statusCode payload])%list.
Proof.
  split; [reflexivity|]. unfold answered.
  apply ForwarderFacts.responses_answer.
Qed.

(** X22: the listener answers a request once, or throws before anything is
    written: every run from a response that has not ended either ends
    the response with exactly one response written, or fails and leaves
    the world as it was; it fails only when the URL of the request
    cannot be resolved or when the identifier of [GET /v1/models/<id>],
    sent with the API key, cannot be decoded. *)
Theorem listener_outcomes (req : IncomingMessage) (url : option string)
        (w : world) :
  ended w = false ->
  match listener runtime resolve req url w with
  | (inl _, w') =>
      ended w' = true /\
      exists r, responses w' = (responses w ++ [r])%list
  | (inr e, w') =>
      w' = w /\
      ((e = OtherError "Invalid URL" /\
        resolve (Config.coalesce url "/") ("http://" ++ host_of runtime req)
        = None) \/
       (e = URIError /\
        is_GET (method req) = true /\
        verifyLocalApiKey req (Config.apiKey (config runtime)) = true /\
        exists x search,
          resolve (Config.coalesce url "/")
                  ("http://" ++ host_of runtime req) =
          Some ("/v1/models/" ++ x, search) /\
          decodeURIComponent x = None))
  end.
Proof.
  intros Hw. unfold listener.
  destruct (resolve _ _) as [[pathname search]|] eqn:Hres.
  2:{ cbn. split; [reflexivity|]. now left. }
  destruct (String.eqb pathname "/healthz" && is_GET (method req)).
  { rewrite sendJson_run by assumption.
    destruct (ended_answered 200 (JObj [("status", JStr "ok")]) w). eauto. }
  destruct (verifyLocalApiKey req _) eqn:Hkey; cbn [negb].
  2:{ rewrite sendOpenAIError_run by assumption.
      split; [reflexivity|]. eexists. apply ended_answered. }
  unfold bind at 1.
  destruct (handleLocalModelsEndpoint_cases req pathname w Hw)
    as [(-> & _ & _) | [(s & p & ->) | (-> & Hget & x & -> & Hdec)]].
  - destruct (negb (String.eqb pathname "/v1") &&
              negb (startsWith "/v1/" pathname)).
    + rewrite sendOpenAIError_run by assumption.
      split; [reflexivity|]. eexists. apply ended_answered.
    + destruct (ForwarderFacts.forward_answers (forwarder runtime) req
                  pathname search w Hw) as (r & w' & -> & He & Hr).
      split; [exact He|]. now exists r.
  - cbn. split; [reflexivity|]. eexists. apply ended_answered.
  - split; [reflexivity|]. right. split; [reflexivity|].
    split; [exact Hget|]. split; [reflexivity|]. now exists x, search.
Qed.


(** X24: the front door tests whole path segments where [buildUpstreamUrl]
    tests three characters: a path that starts with [/v1] followed by
    anything but a slash (as [/v1beta]) passes the test of
    [buildUpstreamUrl], yet a request for it, sent with the API key, is
    answered 404 [not_found] and nothing goes upstream. *)
Theorem front_door_tests_segments (req : IncomingMessage)
        (url : option string) (rest search : string) (w : world) :
  ended w = false ->
  match of_string rest with
  | c :: _ => Ascii.eqb c "/" = false
  | [] => False
  end ->
  resolve (Config.coalesce url "/") ("http://" ++ host_of runtime req) =
  Some ("/v1" ++ rest, search) ->
  verifyLocalApiKey req (Config.apiKey (config runtime)) = true ->
  starts_with OAuth.v1 (of_string ("/v1" ++ rest)) = true /\
  listener runtime resolve req url w =
  (inl tt,
   answered 404
     (Errors.OpenAIErrorShape
        ("Path not found: /v1" ++ rest ++ ". Only /v1/* is proxied.")
        (Errors.with_code "not_found")) w) /\
  upstream_requests
    (answered 404
       (Errors.OpenAIErrorShape
          ("Path not found: /v1" ++ rest ++ ". Only /v1/* is proxied.")
          (Errors.with_code "not_found")) w) = upstream_requests w.
Proof.
  intros Hw Hrest Hres Hkey. split; [reflexivity|].
  destruct rest as [|c rest]; [contradiction|]. cbn in Hrest.
  split.
  - unfold listener. rewrite Hres, Hkey. cbn [negb].
    change (String.eqb ("/v1" ++ String c rest) "/healthz") with false.
    cbn [andb]. unfold bind at 1. unfold handleLocalModelsEndpoint.
    assert (H1 : String.eqb ("/v1" ++ String c rest) "/v1/models" = false).
    { clear -Hrest. revert Hrest. each_char c; intros H;
        try discriminate H; reflexivity. }
    assert (H2 : startsWith "/v1/models/" ("/v1" ++ String c rest) = false).
    { clear -Hrest. revert Hrest. each_char c; intros H;
        try discriminate H; reflexivity. }
    assert (H3 : String.eqb ("/v1" ++ String c rest) "/v1" = false)
      by reflexivity.
    assert (H4 : startsWith "/v1/" ("/v1" ++ String c rest) = false).
    { clear -Hrest. revert Hrest. each_char c; intros H;
        try discriminate H; reflexivity. }
    rewrite H1, H2. cbn [negb andb]. unfold ret. rewrite H3, H4.
    cbn [negb andb]. now rewrite sendOpenAIError_run.
  - unfold answered, upstream_requests. cbn [trace with_ended].
    rewrite StoreFacts.count_log. cbn [is_upstream_request]. lia.
Qed.

(** X25: an identifier that cannot be decoded makes the listener throw: for
    [GET /v1/models/<id>] sent with the API key, when a [%] of the
    identifier is not followed by two hexadecimal digits, the listener
    fails with a [URIError] and writes no response. *)
Theorem malformed_model_id_throws (req : IncomingMessage)
        (url : option string) (a t search : string) (w : world) :
  match of_string t with
  | c1 :: c2 :: _ => parse_hex_octet c1 c2 = None
  | _ => True
  end ->
  resolve (Config.coalesce url "/") ("http://" ++ host_of runtime req) =
  Some ("/v1/models/" ++ a ++ "%" ++ t, search) ->
  is_GET (method req) = true ->
  verifyLocalApiKey req (Config.apiKey (config runtime)) = true ->
  listener runtime resolve req url w = (inr URIError, w).
Proof.
  intros Ht Hres Hget Hkey. unfold listener. rewrite Hres, Hkey.
  change (String.eqb ("/v1/models/" ++ a ++ "%" ++ t) "/healthz") with false.
  cbn [negb andb]. unfold bind at 1. unfold handleLocalModelsEndpoint.
  destruct (models_path (a ++ "%" ++ t)) as (-> & -> & ->).
  cbn [negb andb]. rewrite Hget. cbn [negb].
  unfold decodeURIComponent. rewrite of_string_app.
  change (of_string ("%" ++ t)) with ("%"%char :: of_string t).
  rewrite (decode_malformed (List.length (of_string a)) (of_string a) 0 []
                            (of_string t) (le_n _) Ht).
  reflexivity.
Qed.

End Listener.

(** ** At the sample requests *)

Import UrlFacts.

(** X19, at a sample. *)
Lemma local_key_check_sound_witness :
  exists v,
    header "authorization" (headers (Cases.with_key "GET")) =
    Some (HeaderString v) /\
    ends_with (of_string "secret") (of_string v) = true.
Proof.
  destruct (local_key_check_sound (Cases.with_key "GET") "secret" eq_refl)
    as (v & Hv & _ & He & _).
  exists v. split; assumption.
Defined.

(** X20, at a sample. *)
Lemma configured_key_accepted_witness :
  verifyLocalApiKey
    (mkRequest (Some "GET")
               [("authorization",
                 HeaderString ("Bearer " ++ Config.apiKey Cases.loaded))] [])
    (Config.apiKey Cases.loaded) = true.
Proof.
  refine (configured_key_accepted
            Cases.parseArgs "/home/u/.qwen/oauth_creds.json"
            Cases.randomBytes [] (Cases.env None) Cases.loaded _ _ _ _ _).
  - discriminate.
  - vm_compute. reflexivity.
  - discriminate.
  - reflexivity.
Defined.

(** X21, at a sample. *)
Lemma models_lookup_witness :
  handleLocalModelsEndpoint (Cases.with_key "GET") "/v1/models/coder-model"
                            Cases.steady =
  (inl true,
   answered 200 (card_json (mkCard "coder-model" "model" 0 "qwen-oauth"))
            Cases.steady).
Proof.
  exact (proj1 (models_lookup (Cases.with_key "GET") "coder-model"
                              "coder-model" Cases.steady
                              eq_refl eq_refl eq_refl)).
Defined.

(** X22, at a sample. *)
Lemma listener_outcomes_witness :
  exists r,
    responses (snd (listener Cases.runtime Cases.resolve
                             (Cases.with_key "POST")
                             (Some "/v1/chat/completions") Cases.steady)) =
    (responses Cases.steady ++ [r])%list.
Proof.
  generalize (listener_outcomes Cases.runtime Cases.resolve
                                (Cases.with_key "POST")
                                (Some "/v1/chat/completions") Cases.steady
                                eq_refl).
  destruct (listener _ _ _ _ _) as [[u|e] w'] eqn:E.
  - intros (_ & H). exact H.
  - vm_compute in E. discriminate E.
Defined.


(** X24, at a sample. *)
Lemma front_door_tests_segments_witness :
  listener Cases.runtime Cases.resolve (Cases.with_key "GET")
           (Some "/v1beta/models") Cases.steady =
  (inl tt,
   answered 404
     (Errors.OpenAIErrorShape
        "Path not found: /v1beta/models. Only /v1/* is proxied."
        (Errors.with_code "not_found")) Cases.steady).
Proof.
  exact (proj1 (proj2 (front_door_tests_segments
                         Cases.runtime Cases.resolve (Cases.with_key "GET")
                         (Some "/v1beta/models") "beta/models" ""
                         Cases.steady eq_refl eq_refl eq_refl eq_refl))).
Defined.

(** X25, at a sample. *)
Lemma malformed_model_id_throws_witness :
  listener Cases.runtime Cases.resolve (Cases.with_key "GET")
           (Some "/v1/models/%") Cases.steady =
  (inr URIError, Cases.steady).
Proof.
  exact (malformed_model_id_throws
           Cases.runtime Cases.resolve (Cases.with_key "GET")
           (Some "/v1/models/%") "" "" "" Cases.steady I eq_refl eq_refl
           eq_refl).
Defined.

End GatewayFacts.

(* ================================================================== *)
(** * Properties of the entry point *)
(* ================================================================== *)

Module MainFacts.

Import Config Main CredentialFacts.
Local Open Scope string_scope.

Section Process.

Context {HP : Url.HostParser}.
Variable parseArgs : list string -> result Values.
Variable DEFAULT_CREDENTIALS_FILE : string.
Variable randomBytes : nat -> chars.
Variable listen : Z -> string -> option string.

(** X26: the server listens only with a credential in hand: [main]
    reaches [server.listen] only when the configuration was loaded
    without a request for help, [getValidCredentials] returned a
    credential, which holds an access token, and its base URL was
    normalised.  When the server is bound, [main] prints the banner and
    the process listens on the host and the port of the configuration;
    when it cannot be bound, the process ends on the uncaught ['error']
    event of the server, with no banner and without the line of
    [main().catch].  Before that point the process ends with code 0 and
    nothing touched after the help was printed, and with code 1 and the
    reason on the error stream after a failure. *)
Theorem main_outcomes (argv : list string) (env : ProcessEnv) (w : world) :
  let started (w' : world) (config : AppConfig) (base : string) :=
    loadConfig parseArgs DEFAULT_CREDENTIALS_FILE randomBytes argv env =
    inl config /\
    showHelp config = false /\
    exists credentials,
      Store.getValidCredentials
        (OAuth.mkOptions (credentialsFile config)
                         (tokenRefreshBufferMs config)) false w =
      (inl credentials, w') /\
      OAuth.present (OAuth.access_token credentials) = true /\
      OAuth.getUpstreamBaseUrl credentials (upstreamBaseUrl config) =
      Some base in
  match main parseArgs DEFAULT_CREDENTIALS_FILE randomBytes listen argv env w
  with
  | (inl (Listening h p stdout), w') =>
      exists config base,
        started w' config base /\
        listen (port config) (host config) = None /\
        h = host config /\ p = port config /\
        stdout = banner config base
  | (inl (Uncaught message), w') =>
      exists config base,
        started w' config base /\
        listen (port config) (host config) = Some message
  | (inl (Exited stdout stderr exitCode), w') =>
      (exitCode = 0%Z /\ stderr = "" /\ w' = w /\
       stdout = getUsageText DEFAULT_CREDENTIALS_FILE ++ nl /\
       exists config,
         loadConfig parseArgs DEFAULT_CREDENTIALS_FILE randomBytes argv env =
         inl config /\ showHelp config = true) \/
      (exitCode = 1%Z /\ stdout = "" /\
       (exists e, stderr = "Failed to start qwen-code-api: " ++
                           message_of e ++ nl) /\
       forall config,
         loadConfig parseArgs DEFAULT_CREDENTIALS_FILE randomBytes argv env =
         inl config ->
         showHelp config = false /\
         forall credentials,
           Store.getValidCredentials
             (OAuth.mkOptions (credentialsFile config)
                              (tokenRefreshBufferMs config)) false w =
           (inl credentials, w') ->
           OAuth.getUpstreamBaseUrl credentials (upstreamBaseUrl config) =
           None)
  | (inr _, _) => False
  end.
Proof.
  intros started. unfold main, failed.
  destruct (loadConfig _ _ _ argv env) as [config|e] eqn:Hload.
  2:{ unfold ret. right. split; [reflexivity|]. split; [reflexivity|].
      split; [now exists e | discriminate]. }
  destruct (showHelp config) eqn:Hhelp.
  { unfold ret. left. split; [reflexivity|]. split; [reflexivity|].
    split; [reflexivity|]. split; [reflexivity|]. now exists config. }
  unfold try_catch, bind.
  destruct (Store.getValidCredentials _ false w) as [[credentials|e] w1]
    eqn:Hg.
  2:{ unfold ret. right. split; [reflexivity|]. split; [reflexivity|].
      split; [now exists e|]. intros config' [= <-].
      split; [exact Hhelp|]. intros credentials. rewrite Hg. discriminate. }
  pose proof (getValidCredentials_present _ _ _ _ _ Hg) as Hp.
  destruct (OAuth.getUpstreamBaseUrl credentials _) as [base|] eqn:Hbase.
  - assert (Hstarted : started w1 config base).
    { split; [reflexivity|]. split; [exact Hhelp|].
      exists credentials. now repeat split. }
    destruct (listen (port config) (host config)) as [message|] eqn:Hlisten;
      unfold ret.
    + exists config, base. now split.
    + exists config, base. split; [exact Hstarted|]. now repeat split.
  - unfold throw, ret. right. split; [reflexivity|]. split; [reflexivity|].
    split; [now exists (OtherError "Invalid URL")|].
    intros config' [= <-]. split; [exact Hhelp|].
    intros credentials'. rewrite Hg. intros [= <-]. exact Hbase.
Qed.

End Process.

End MainFacts.
